(** * tntcxx: the segmented I/O buffer and the connection's future table

    A shallow embedding of [src/Buffer/Buffer.hpp] (class [tnt::Buffer]) and of
    the connection layer ([Connection.hpp]: [getResponse], [futureIsReady],
    [processResponse], [hasSentBytes], [hasNotRecvBytes]).

    Conventions of the embedding.
    - A [Block*] stored in an object is the address of the chunk ([addr]);
      a [char*] into a block is the pair of that address and an offset in
      [0 .. DATA_SIZE].  Two such pointers are equal iff block and offset
      are equal, and they are ordered by chunk address first.
    - [rlist] rings are lists in ring order; [rlist_add] conses at the head,
      [rlist_add_tail (head, x)] puts [x] last, [rlist_add_tail (&y, x)]
      puts [x] right before [y].
    - [size_t] byte counts are [nat]; block ids are [Z] modulo 2^64.
    - [assert] is compiled in (debug build); a failed assertion, a call of
      [std::abort], a thrown allocation failure and a dereference outside
      the block list are the four ways an operation can stop. *)

From Stdlib Require Import ZArith Lia.
From Stdlib.Strings Require Import Byte.
From stdpp Require Import base option list sorting gmap strings.

Local Open Scope nat_scope.

(** ** Outcomes *)

Inductive assertion :=
| SizeNonZero        (* assert(size != 0) *)
| BlocksNonEmpty     (* assert(! rlist_empty(&m_blocks)) *)
| NoIteratorInBlock  (* assert(...->m_block != block) *)
| IteratorInside     (* assert(iter->m_position <= m_end) and its mirror *)
| EndAfterBegin      (* assert(m_end >= m_begin) and its mirror *)
| PositionInBlock    (* assert(m_block->end() >= m_position) and its mirror *)
| DstAfterIterator   (* assert(dst_block->id > itr.m_block->id || dst >= itr.m_position) *)
| SameStart.         (* assert(src_block == itr.m_block), assert(itr.m_position >= src) *)

Inductive fault :=
| AssertFailed (a : assertion)
| Aborted
| BadAlloc
| Undefined
| OutOfFuel.

Inductive outcome (T : Type) :=
| Ok (t : T)
| Err (f : fault).
Arguments Ok {T} t.
Arguments Err {T} f.

#[global] Instance outcome_ret : MRet outcome := fun _ t => Ok t.
#[global] Instance outcome_bind : MBind outcome := fun _ _ k m =>
  match m with Ok t => k t | Err f => Err f end.

Definition require (a : assertion) (b : bool) : outcome unit :=
  if b then Ok tt else Err (AssertFailed a).

Definition defined {T} (o : option T) : outcome T :=
  match o with Some t => Ok t | None => Err Undefined end.

(** [hi - lo] where the code subtracts two pointers into one block, or two
    sizes: a negative difference leaves the block. *)
Definition diff (hi lo : nat) : outcome nat :=
  if decide (lo ≤ hi) then Ok (hi - lo) else Err Undefined.

(** ** Data *)

#[global] Instance byte_eq_dec : EqDecision byte := Byte.byte_eq_dec.

Record Block := mkBlock {
  addr : nat;          (* where the chunk lives *)
  id : Z;              (* BlockBase::id *)
  data : list byte     (* char data[DATA_SIZE] *)
}.

Record iterator := mkIter {
  self : nat;          (* the iterator object itself (its in_iters link) *)
  m_block : nat;       (* Block *m_block *)
  m_position : nat     (* char *m_position, as an offset in that block *)
}.

Record Buffer := mkBuffer {
  m_blocks : list Block;
  m_iterators : list iterator;
  m_begin : nat;       (* offset in the first block *)
  m_end : nat          (* offset in the last block *)
}.

(** Buffer::Buffer() *)
Definition Buffer_new : Buffer := mkBuffer [] [] 0 0.

(** Modelled from the spec: the allocator trait ([Utils/Mempool.hpp] is not
    part of the sources at hand).  [allocate] hands out a chunk, whose
    contents are whatever the chunk held before, or throws ([None]);
    [deallocate] takes a chunk back and cannot fail. *)
Class Allocator (A : Type) := {
  allocate : A → option (Block * A);
  deallocate : Block → A → A
}.

(** A free-list pool: the instance used to run the model. *)
#[global] Instance Pool : Allocator (list Block) := {
  allocate p := match p with [] => None | b :: p' => Some (b, p') end;
  deallocate b p := b :: p
}.

Definition wrap64 (z : Z) : Z := (z mod 2 ^ 64)%Z.

Definition set_id (b : Block) (i : Z) : Block := mkBlock (addr b) i (data b).
Definition set_data (b : Block) (d : list byte) : Block := mkBlock (addr b) (id b) d.

Definition firstBlock (bs : list Block) : option Block := head bs.
Definition lastBlock (bs : list Block) : option Block := last bs.

(** The blocks from the one at address [a] on, with those before it. *)
Fixpoint locate (a : nat) (bs : list Block) : option (list Block * list Block) :=
  match bs with
  | [] => None
  | b :: rest =>
      if decide (addr b = a) then Some ([], bs)
      else '(pre, suf) ← locate a rest; Some (b :: pre, suf)
  end.

Definition block_at (a : nat) (bs : list Block) : option Block :=
  '(_, suf) ← locate a bs; head suf.

(** ** Iterators *)

(** operator== and operator!= compare [m_position] only. *)
Definition iter_eq (a b : iterator) : bool :=
  bool_decide (m_block a = m_block b ∧ m_position a = m_position b).

Definition ptr_lt (a b : iterator) : bool :=
  if decide (m_block a = m_block b) then bool_decide (m_position a < m_position b)
  else bool_decide (m_block a < m_block b).

(** operator<: std::tie(a.m_block->id, a.m_position) < std::tie(b...). *)
Definition iter_lt (bs : list Block) (a b : iterator) : outcome bool :=
  ba ← defined (block_at (m_block a) bs);
  bb ← defined (block_at (m_block b) bs);
  Ok (bool_decide (id ba < id bb)%Z
      || (negb (bool_decide (id bb < id ba)%Z) && ptr_lt a b)).

(** The iterators before the one named [i], that one, and those after. *)
Fixpoint find_iter (i : nat) (l : list iterator)
  : option (list iterator * iterator * list iterator) :=
  match l with
  | [] => None
  | x :: rest =>
      if decide (self x = i) then Some ([], x, rest)
      else '(pre, it, post) ← find_iter i rest; Some (x :: pre, it, post)
  end.

(** rlist_del *)
Definition unlink (i : nat) (l : list iterator) : list iterator :=
  match find_iter i l with
  | Some (pre, _, post) => pre ++ post
  | None => l
  end.

(** rlist_add_tail (&other.in_iters, &in_iters) *)
Definition link_before (other : nat) (x : iterator) (l : list iterator)
  : outcome (list iterator) :=
  '(pre, o, post) ← defined (find_iter other l); Ok (pre ++ x :: o :: post).

Section WithBlockSize.

Variable DATA_SIZE : nat.

(** iterator::moveForward, on the blocks from [m_block] on. *)
Fixpoint moveForward_in (suf : list Block) (pos step : nat) : outcome (nat * nat) :=
  match suf with
  | [] => Err Undefined
  | b :: rest =>
      if decide (DATA_SIZE - pos < step)
      then moveForward_in rest 0 (step - (DATA_SIZE - pos))
      else Ok (addr b, pos + step)
  end.

Definition moveForward (bs : list Block) (it : iterator) (step : nat) : outcome iterator :=
  '(_, suf) ← defined (locate (m_block it) bs);
  _ ← require PositionInBlock (bool_decide (m_position it ≤ DATA_SIZE));
  '(a, p) ← moveForward_in suf (m_position it) step;
  Ok (mkIter (self it) a p).

(** iterator::moveBackward, on the blocks up to [m_block], nearest first. *)
Fixpoint moveBackward_in (rpre : list Block) (pos step : nat) : outcome (nat * nat) :=
  match rpre with
  | [] => Err Undefined
  | b :: before =>
      if decide (pos ≤ step)
      then moveBackward_in before DATA_SIZE (step - pos)
      else Ok (addr b, pos - step)
  end.

Definition moveBackward (bs : list Block) (it : iterator) (step : nat) : outcome iterator :=
  '(pre, suf) ← defined (locate (m_block it) bs);
  b ← defined (head suf);
  '(a, p) ← moveBackward_in (b :: reverse pre) (m_position it) step;
  Ok (mkIter (self it) a p).

(** The run of iterators after [this] that compare less than it. *)
Fixpoint skip_less (bs : list Block) (this : iterator) (post : list iterator)
  : outcome (list iterator * list iterator) :=
  match post with
  | [] => Ok ([], [])
  | x :: rest =>
      lt ← iter_lt bs x this;
      if (lt : bool) then '(run, tl) ← skip_less bs this rest; Ok (x :: run, tl)
      else Ok ([], post)
  end.

(** iterator::adjustPositionForward *)
Definition adjustPositionForward (bs : list Block) (i : nat) (l : list iterator)
  : outcome (list iterator) :=
  '(pre, this, post) ← defined (find_iter i l);
  '(run, tl) ← skip_less bs this post;
  Ok (pre ++ run ++ this :: tl).

(** *** Reading and writing block storage *)

Definition peek (b : Block) (pos n : nat) : outcome (list byte) :=
  if decide (pos + n ≤ DATA_SIZE) then Ok (take n (drop pos (data b)))
  else Err Undefined.

Definition poke (b : Block) (pos : nat) (src : list byte) : outcome Block :=
  if decide (pos + length src ≤ DATA_SIZE)
  then Ok (set_data b (take pos (data b) ++ src ++ drop (pos + length src) (data b)))
  else Err Undefined.

(** Buffer::set, on the blocks from [itr.m_block] on. *)
Fixpoint set_in (suf : list Block) (pos : nat) (buf : list byte)
  : outcome (list Block) :=
  match buf with
  | [] => Ok suf
  | _ :: _ =>
      match suf with
      | [] => Err Undefined
      | b :: rest =>
          let copy_sz := min (length buf) (DATA_SIZE - pos) in
          b' ← poke b pos (take copy_sz buf);
          rest' ← set_in rest 0 (drop copy_sz buf);
          Ok (b' :: rest')
      end
  end.

Definition set (B : Buffer) (itr : iterator) (buf : list byte) : outcome Buffer :=
  match buf with
  | [] => Ok B
  | _ :: _ =>
      '(pre, suf) ← defined (locate (m_block itr) (m_blocks B));
      suf' ← set_in suf (m_position itr) buf;
      Ok (mkBuffer (pre ++ suf') (m_iterators B) (m_begin B) (m_end B))
  end.

(** Buffer::get, on the blocks from [itr.m_block] on. *)
Fixpoint get_in (suf : list Block) (pos size : nat) : outcome (list byte) :=
  match size with
  | 0 => Ok []
  | S _ =>
      match suf with
      | [] => Err Undefined
      | b :: rest =>
          let copy_sz := min size (DATA_SIZE - pos) in
          chunk ← peek b pos copy_sz;
          more ← get_in rest 0 (size - copy_sz);
          Ok (chunk ++ more)
      end
  end.

Definition get (B : Buffer) (itr : iterator) (size : nat) : outcome (list byte) :=
  match size with
  | 0 => Ok []
  | S _ =>
      '(_, suf) ← defined (locate (m_block itr) (m_blocks B));
      get_in suf (m_position itr) size
  end.

(** Buffer::has: the second loop and the final comparison. *)
Fixpoint has_in (last_block : nat) (end_ : nat) (suf : list Block) (size : nat)
  : outcome bool :=
  match suf with
  | [] => Err Undefined
  | b :: rest =>
      if decide (addr b = last_block) then Ok (bool_decide (size ≤ end_))
      else if decide (size ≤ DATA_SIZE) then Ok true
      else has_in last_block end_ rest (size - DATA_SIZE)
  end.

Definition has (B : Buffer) (itr : iterator) (size : nat) : outcome bool :=
  last_block ← defined (lastBlock (m_blocks B));
  '(_, suf) ← defined (locate (m_block itr) (m_blocks B));
  if decide (m_block itr = addr last_block)
  then has_in (addr last_block) (m_end B) suf size
  else
    have ← diff DATA_SIZE (m_position itr);
    if decide (size ≤ have) then Ok true
    else has_in (addr last_block) (m_end B) (tail suf) (size - have).

(** Buffer::getIOV *)
Record iovec := mkIovec {
  iov_base : nat * nat;   (* block and offset *)
  iov_len : Z
}.

Fixpoint getIOV_in (last_block end_ : nat) (suf : list Block) (pos max_size : nat)
  : outcome (list iovec) :=
  match max_size with
  | 0 => Ok []
  | S n =>
      match suf with
      | [] => Err Undefined
      | b :: rest =>
          if decide (addr b = last_block)
          then Ok [mkIovec (addr b, pos) (wrap64 (Z.of_nat end_ - Z.of_nat pos))]
          else
            vecs ← getIOV_in last_block end_ rest 0 n;
            Ok (mkIovec (addr b, pos) (wrap64 (Z.of_nat DATA_SIZE - Z.of_nat pos)) :: vecs)
      end
  end.

Definition getIOV (B : Buffer) (itr : iterator) (max_size : nat) : outcome (list iovec) :=
  match max_size with
  | 0 => Ok []
  | S _ =>
      last_block ← defined (lastBlock (m_blocks B));
      '(_, suf) ← defined (locate (m_block itr) (m_blocks B));
      getIOV_in (addr last_block) (m_end B) suf (m_position itr) max_size
  end.

(** Buffer::empty: [m_begin == m_end] as pointers. *)
Definition empty (B : Buffer) : bool :=
  match m_blocks B with
  | [] | [_] => bool_decide (m_begin B = m_end B)
  | _ => false
  end.

End WithBlockSize.

(** ** Operations that change the buffer

    They run on a state that survives a failure, the way the objects
    survive a thrown exception. *)

Definition ST (S T : Type) : Type := S → outcome T * S.

#[global] Instance ST_ret {S} : MRet (ST S) := λ _ t s, (Ok t, s).
#[global] Instance ST_bind {S} : MBind (ST S) := λ _ _ k m s,
  match m s with
  | (Ok t, s') => k t s'
  | (Err f, s') => (Err f, s')
  end.

Definition lift {S T} (o : outcome T) : ST S T := λ s, (o, s).

Section Operations.

Context {A : Type} `{Allocator A}.
Variable DATA_SIZE : nat.

(** The allocator and one buffer. *)
Abbreviation M := (ST (A * Buffer)).

Definition the_buffer : M Buffer := λ s, (Ok s.2, s).
Definition store (B : Buffer) : M unit := λ s, (Ok tt, (s.1, B)).

(** Buffer::newBlock without the link: [new Block]. *)
Definition newBlock : M Block := λ s,
  match allocate s.1 with
  | Some (b, a) => (Ok b, (a, s.2))
  | None => (Err BadAlloc, s)
  end.

(** [delete b] *)
Definition delBlock (b : Block) : M unit := λ s, (Ok tt, (deallocate b s.1, s.2)).

(** Blocks::~Blocks() *)
Definition Blocks_destroy (new_blocks : list Block) : M unit := λ s,
  (Ok tt, (foldl (λ a b, deallocate b a) s.1 new_blocks, s.2)).

(** A scope owning [new_blocks]: an exception leaving it destroys them. *)
Definition owning {T} (new_blocks : list Block) (m : M T) : M T := λ s,
  match m s with
  | (Err BadAlloc, s') => (Err BadAlloc, (Blocks_destroy new_blocks s').2)
  | r => r
  end.

(** *** appendBack *)

(** The allocation loop of appendBack; [new_end] is an offset in the block
    [m_end] will point into. *)
Fixpoint alloc_loop (fuel size left_in_block : nat) (new_blocks : list Block)
    (new_end : nat) : M (list Block * nat * nat) :=
  if decide (left_in_block < size) then
    match fuel with
    | 0 => lift (Err OutOfFuel)
    | S fuel' =>
        b ← owning new_blocks newBlock;
        alloc_loop fuel' (size - left_in_block) DATA_SIZE (new_blocks ++ [b]) 0
    end
  else mret (new_blocks, new_end, size).

(** [rlist_foreach_entry(tmp, &m_blocks, in_blocks) tmp->id = last_id++;] *)
Fixpoint renumber (last_id : Z) (bs : list Block) : list Block :=
  match bs with
  | [] => []
  | b :: rest => set_id b last_id :: renumber (wrap64 (last_id + 1)) rest
  end.

Definition appendBack (size : nat) (me : nat) : M iterator :=
  _ ← lift (require SizeNonZero (bool_decide (size ≠ 0)));
  B ← the_buffer;
  let block := lastBlock (m_blocks B) in
  left_in_block ← lift (match block with
                        | None => Ok 0
                        | Some _ => diff DATA_SIZE (m_end B)
                        end);
  '(new_blocks, new_end, size') ←
    alloc_loop (S size) size left_in_block [] (m_end B);
  let last_id := match block with None => 0%Z | Some b => id b end in
  let blocks := renumber last_id (m_blocks B) ++ new_blocks in
  '(block', itr_offset, begin_) ← lift (match block with
      | None => b ← defined (firstBlock blocks); Ok (addr b, 0, 0)
      | Some b => Ok (addr b, m_end B, m_begin B)
      end);
  let itr := mkIter me block' itr_offset in
  _ ← store (mkBuffer blocks (m_iterators B ++ [itr]) begin_ (new_end + size'));
  mret itr.

(** iterator::~iterator() and iterator::unlink() *)
Definition iterator_destroy (i : nat) : M unit :=
  B ← the_buffer;
  store (mkBuffer (m_blocks B) (unlink i (m_iterators B)) (m_begin B) (m_end B)).

(** Buffer::begin() *)
Definition begin (me : nat) : M iterator :=
  B ← the_buffer;
  b ← lift (defined (firstBlock (m_blocks B)));
  let itr := mkIter me (addr b) (m_begin B) in
  _ ← store (mkBuffer (m_blocks B) (itr :: m_iterators B) (m_begin B) (m_end B));
  mret itr.

(** Buffer::end() *)
Definition end_ (me : nat) : M iterator :=
  B ← the_buffer;
  b ← lift (defined (lastBlock (m_blocks B)));
  let itr := mkIter me (addr b) (m_end B) in
  _ ← store (mkBuffer (m_blocks B) (m_iterators B ++ [itr]) (m_begin B) (m_end B));
  mret itr.

(** iterator::iterator(const iterator &other) *)
Definition iterator_copy (other me : nat) : M iterator :=
  B ← the_buffer;
  '(_, o, _) ← lift (defined (find_iter other (m_iterators B)));
  let itr := mkIter me (m_block o) (m_position o) in
  l ← lift (link_before other itr (m_iterators B));
  _ ← store (mkBuffer (m_blocks B) l (m_begin B) (m_end B));
  mret itr.

(** iterator::operator= (const iterator &other) *)
Definition iterator_assign (me other : nat) : M unit :=
  if decide (me = other) then mret tt
  else
    B ← the_buffer;
    '(_, o, _) ← lift (defined (find_iter other (m_iterators B)));
    _ ← lift (defined (find_iter me (m_iterators B)));
    let itr := mkIter me (m_block o) (m_position o) in
    l ← lift (link_before other itr (unlink me (m_iterators B)));
    store (mkBuffer (m_blocks B) l (m_begin B) (m_end B)).

(** iterator::operator+= (and operator++ with [step = 1]) *)
Definition iterator_advance (i : nat) (step : nat) : M iterator :=
  B ← the_buffer;
  '(pre, it, post) ← lift (defined (find_iter i (m_iterators B)));
  it' ← lift (moveForward DATA_SIZE (m_blocks B) it step);
  l ← lift (adjustPositionForward (m_blocks B) i (pre ++ it' :: post));
  _ ← store (mkBuffer (m_blocks B) l (m_begin B) (m_end B));
  mret it'.

(** *** dropBack and dropFront *)

Definition last_iterator_not_in (B : Buffer) (a : nat) : bool :=
  match last (m_iterators B) with
  | Some it => bool_decide (m_block it ≠ a)
  | None => true
  end.

(** The loop of dropBack; [rbs] is the block list, last block first. *)
Fixpoint dropBack_loop (rbs : list Block) (size left_in_block : nat) : M nat :=
  if decide (left_in_block < size) then
    match rbs with
    | [] => lift (Err (AssertFailed BlocksNonEmpty))
    | b :: before =>
        _ ← delBlock b;
        B ← the_buffer;
        _ ← store (mkBuffer (reverse before) (m_iterators B) (m_begin B) (m_end B));
        block ← lift (defined (head before));
        _ ← lift (require NoIteratorInBlock (last_iterator_not_in B (addr block)));
        _ ← store (mkBuffer (reverse before) (m_iterators B) (m_begin B) DATA_SIZE);
        dropBack_loop before (size - left_in_block) DATA_SIZE
    end
  else mret size.

Definition dropBack (size : nat) : M unit :=
  _ ← lift (require SizeNonZero (bool_decide (size ≠ 0)));
  B ← the_buffer;
  _ ← lift (require BlocksNonEmpty (bool_decide (m_blocks B ≠ [])));
  size' ← dropBack_loop (reverse (m_blocks B)) size (m_end B);
  B ← the_buffer;
  block ← lift (defined (lastBlock (m_blocks B)));
  let B' := mkBuffer (m_blocks B) (m_iterators B) (m_begin B) (m_end B - size') in
  _ ← store B';
  _ ← lift (match last (m_iterators B') with
            | Some iter =>
                if decide (m_block iter = addr block)
                then require IteratorInside (bool_decide (m_position iter ≤ m_end B'))
                else Ok tt
            | None => Ok tt
            end);
  first ← lift (defined (firstBlock (m_blocks B')));
  if decide (addr first = addr block)
  then lift (require EndAfterBegin (bool_decide (m_begin B' ≤ m_end B')))
  else mret tt.

(** The loop of dropFront; [bs] is the block list. *)
Fixpoint dropFront_loop (bs : list Block) (size left_in_block : nat) : M nat :=
  if decide (left_in_block < size) then
    match bs with
    | [] => lift (Err Undefined)
    | b :: rest =>
        B ← the_buffer;
        _ ← lift (require NoIteratorInBlock
                    (match head (m_iterators B) with
                     | Some it => bool_decide (m_block it ≠ addr b)
                     | None => true
                     end));
        _ ← delBlock b;
        _ ← store (mkBuffer rest (m_iterators B) 0 (m_end B));
        _ ← lift (defined (head rest));
        dropFront_loop rest (size - left_in_block) DATA_SIZE
    end
  else mret size.

Definition dropFront (size : nat) : M unit :=
  _ ← lift (require SizeNonZero (bool_decide (size ≠ 0)));
  B ← the_buffer;
  _ ← lift (require BlocksNonEmpty (bool_decide (m_blocks B ≠ [])));
  left_in_block ← lift (diff DATA_SIZE (m_begin B));
  size' ← dropFront_loop (m_blocks B) size left_in_block;
  B ← the_buffer;
  block ← lift (defined (firstBlock (m_blocks B)));
  let B' := mkBuffer (m_blocks B) (m_iterators B) (m_begin B + size') (m_end B) in
  _ ← store B';
  _ ← lift (require PositionInBlock (bool_decide (m_begin B' ≤ DATA_SIZE)));
  _ ← lift (match last (m_iterators B') with
            | Some iter =>
                if decide (m_block iter = addr block)
                then require IteratorInside (bool_decide (m_begin B' ≤ m_position iter))
                else Ok tt
            | None => Ok tt
            end);
  last_ ← lift (defined (lastBlock (m_blocks B')));
  if decide (addr last_ = addr block)
  then lift (require EndAfterBegin (bool_decide (m_begin B' ≤ m_end B')))
  else mret tt.

(** *** addBack *)

Definition addBack (buf : list byte) (tmp : nat) : M nat :=
  itr ← appendBack (length buf) tmp;
  B ← the_buffer;
  B' ← lift (set DATA_SIZE B itr buf);
  _ ← store B';
  _ ← iterator_destroy tmp;
  mret (length buf).

(** *** insert and release *)

(** std::memmove between two blocks of the list, given by their indices. *)
Definition memmove (bs : list Block) (dst_block dst src_block src n : nat)
  : outcome (list Block) :=
  match n with
  | 0 => Ok bs
  | S _ =>
      sb ← defined (bs !! src_block);
      bytes ← peek DATA_SIZE sb src n;
      db ← defined (bs !! dst_block);
      db' ← poke DATA_SIZE db dst bytes;
      Ok (<[dst_block := db']> bs)
  end.

(** [block->prev()] on indices: before the first block lies the list head. *)
Definition prev_index (i : nat) : outcome nat :=
  match i with 0 => Err Undefined | S j => Ok j end.

(** The macro [src_block_begin] of Buffer::insert. *)
Definition src_block_begin (itr : iterator) (src_block : Block) : nat :=
  if decide (addr src_block = m_block itr) then m_position itr else 0.

Definition ptr_le (a b : nat * nat) : bool :=
  if decide (a.1 = b.1) then bool_decide (a.2 ≤ b.2) else bool_decide (a.1 < b.1).

(** The copying loop of Buffer::insert.  Returns the blocks, and [src_block]
    and [src] as the loop leaves them. *)
Fixpoint insert_loop (fuel : nat) (itr : iterator) (bs : list Block)
    (src_block dst_block src dst : nat)
    (left_in_src_block left_in_dst_block copy_chunk_sz : nat)
  : outcome (list Block * nat * nat) :=
  match fuel with
  | 0 => Err OutOfFuel
  | S fuel' =>
      db ← defined (bs !! dst_block);
      ib ← defined (block_at (m_block itr) bs);
      _ ← require DstAfterIterator
            (bool_decide (id ib < id db)%Z
             || ptr_le (m_block itr, m_position itr) (addr db, dst));
      bs ← memmove bs dst_block dst src_block src copy_chunk_sz;
      if decide (left_in_src_block < left_in_dst_block) then
        left_in_dst_block ← diff left_in_dst_block copy_chunk_sz;
        sb ← defined (bs !! src_block);
        if decide (addr sb = m_block itr) then Ok (bs, src_block, src)
        else
          src_block ← prev_index src_block;
          sb ← defined (bs !! src_block);
          src ← diff DATA_SIZE left_in_dst_block;
          left_in_src_block ← diff DATA_SIZE (src_block_begin itr sb);
          insert_loop fuel' itr bs src_block dst_block src 0
                      left_in_src_block left_in_dst_block left_in_dst_block
      else
        left_in_src_block ← diff left_in_src_block copy_chunk_sz;
        dst_block ← prev_index dst_block;
        dst ← diff DATA_SIZE left_in_src_block;
        insert_loop fuel' itr bs src_block dst_block 0 dst
                    left_in_src_block DATA_SIZE left_in_src_block
  end.

(** "Choose the first iterator which has the next position": the walk from
    [cur] over the iterators after it.  Returns the iterators passed over and
    those from the chosen one to the last. *)
Fixpoint next_position (cur : iterator) (rest : list iterator)
  : list iterator * list iterator :=
  match rest with
  | [] => ([], [cur])
  | x :: rest' =>
      if iter_eq cur x
      then let '(stay, move) := next_position x rest' in (cur :: stay, move)
      else ([cur], rest)
  end.

Fixpoint for_each {T U} (f : T → outcome U) (l : list T) : outcome (list U) :=
  match l with
  | [] => Ok []
  | x :: rest => y ← f x; ys ← for_each f rest; Ok (y :: ys)
  end.

(** The two iterator loops shared by insert and release, with [itr_copy]
    linked before [itr] and destroyed at the end. *)
Definition shift_iterators (move : iterator → outcome iterator) (i tmp : nat)
    (l : list iterator) : outcome (list iterator) :=
  '(pre, itr, post) ← defined (find_iter i l);
  let itr_copy := mkIter tmp (m_block itr) (m_position itr) in
  let '(stay, move_) := next_position itr_copy (itr :: post) in
  moved ← for_each move move_;
  Ok (unlink tmp (pre ++ stay ++ moved)).

Definition insert (i : nat) (size : nat) (tmp : nat) : M unit :=
  B ← the_buffer;
  '(_, itr, _) ← lift (defined (find_iter i (m_iterators B)));
  _ ← lift (defined (lastBlock (m_blocks B)));
  let src_block := length (m_blocks B) - 1 in
  let src_block_end := m_end B in
  _ ← appendBack size tmp;
  _ ← iterator_destroy tmp;
  B ← the_buffer;
  let bs := m_blocks B in
  let dst_block := length bs - 1 in
  sb ← lift (defined (bs !! src_block));
  let left_in_dst_block := m_end B in
  left_in_src_block ← lift (diff src_block_end (src_block_begin itr sb));
  '(src, dst) ← lift (
      if decide (left_in_src_block < left_in_dst_block)
      then dst ← diff (m_end B) left_in_src_block; Ok (src_block_begin itr sb, dst)
      else src ← diff src_block_end left_in_dst_block; Ok (src, 0));
  let copy_chunk_sz := min left_in_src_block left_in_dst_block in
  '(bs, src_block, src) ← lift (
      insert_loop (2 * length bs + 2) itr bs src_block dst_block src dst
                  left_in_src_block left_in_dst_block copy_chunk_sz);
  sb ← lift (defined (bs !! src_block));
  _ ← lift (require SameStart
              (bool_decide (addr sb = m_block itr ∧ src ≤ m_position itr)));
  l ← lift (shift_iterators (λ it, moveForward DATA_SIZE bs it size) i tmp
                            (m_iterators B));
  store (mkBuffer bs l (m_begin B) (m_end B)).

(** The loop of Buffer::release that locates the block to copy from. *)
Fixpoint release_seek (bs : list Block) (src_block src step : nat)
  : outcome (nat * nat) :=
  match bs with
  | [] => Ok (src_block, src + step)
  | _ :: rest =>
      if decide (DATA_SIZE - src ≤ step)
      then release_seek rest (S src_block) 0 (step - (DATA_SIZE - src))
      else Ok (src_block, src + step)
  end.

(** The copying loop of Buffer::release. *)
Fixpoint release_loop (fuel : nat) (bs : list Block)
    (src_block dst_block src dst : nat)
    (left_in_src_block left_in_dst_block copy_chunk_sz : nat)
  : outcome (list Block) :=
  match fuel with
  | 0 => Err OutOfFuel
  | S fuel' =>
      bs ← memmove bs dst_block dst src_block src copy_chunk_sz;
      if decide (left_in_src_block < left_in_dst_block) then
        left_in_dst_block ← diff left_in_dst_block copy_chunk_sz;
        if decide (S src_block = length bs) then Ok bs
        else
          release_loop fuel' bs (S src_block) dst_block 0 (dst + copy_chunk_sz)
                       DATA_SIZE left_in_dst_block left_in_dst_block
      else
        left_in_src_block ← diff left_in_src_block copy_chunk_sz;
        release_loop fuel' bs src_block (S dst_block) (src + copy_chunk_sz) 0
                     left_in_src_block DATA_SIZE left_in_src_block
  end.

Definition release (i : nat) (size : nat) (tmp : nat) : M unit :=
  B ← the_buffer;
  let bs := m_blocks B in
  '(_, itr, _) ← lift (defined (find_iter i (m_iterators B)));
  '(pre, suf) ← lift (defined (locate (m_block itr) bs));
  let dst_block := length pre in
  let dst := m_position itr in
  _ ← lift (require PositionInBlock (bool_decide (m_position itr ≤ DATA_SIZE)));
  '(src_block, src) ← lift (release_seek suf dst_block dst size);
  _ ← lift (defined (bs !! src_block));
  left_in_dst_block ← lift (diff DATA_SIZE dst);
  left_in_src_block ← lift (diff DATA_SIZE src);
  let copy_chunk_sz := min left_in_src_block left_in_dst_block in
  bs ← lift (release_loop (2 * length bs + 2) bs src_block dst_block src dst
                          left_in_src_block left_in_dst_block copy_chunk_sz);
  l ← lift (shift_iterators (λ it, moveBackward DATA_SIZE bs it size) i tmp
                            (m_iterators B));
  _ ← store (mkBuffer bs l (m_begin B) (m_end B));
  dropBack size.

(** Buffer::resize *)
Definition resize (i : nat) (size new_size : nat) (tmp : nat) : M unit :=
  if decide (size < new_size) then insert i (new_size - size) tmp
  else release i (size - new_size) tmp.

End Operations.

(** ** The connection *)

(** rid == request id *)
Abbreviation rid_t := N.

Record ConnectionError := mkError {
  msg : string;
  saved_errno : Z
}.

(** Modelled from the spec: the response header of [ResponseDecoder.hpp],
    which is not part of the sources at hand: sync, code and schema id. *)
Record Header := mkHeader {
  sync : rid_t;
  code : Z;
  schema_id : Z
}.

Record Response (Body : Type) := mkResponse {
  header : Header;
  body : Body;
  size : Z                  (* int size: the length of the frame *)
}.
Arguments mkResponse {Body} _ _ _.
Arguments header {Body} _.
Arguments body {Body} _.
Arguments size {Body} _.

Inductive DecodeStatus := DECODE_SUCC | DECODE_ERR | DECODE_NEEDMORE.

(** Modelled from the spec: "the decoder first needs 5 bytes to read
    MP_RESPONSE_SIZE". *)
Definition MP_RESPONSE_SIZE : nat := 5.

Definition GC_STEP_CNT : Z := 100.

Section Connection.

Context {A : Type} `{Allocator A}.
Variable DATA_SIZE : nat.

(** The response body and the decoder are those of [ResponseDecoder.hpp];
    [processResponse] uses them through these four operations.  The decoder
    keeps its own cursor and reads the inbound buffer. *)
Context {Body Dec : Type}.

Abbreviation Response := (Response Body).

Variable Response_new : Response.
Variable decodeResponseSize : Dec → Buffer → Z * Dec.
Variable decodeResponse : Dec → Buffer → Response → Z * Response * Dec.
Variable reset : Dec → iterator → Dec.
(** [inBuf.flush()], which this Buffer.hpp does not define. *)
Variable flush : Buffer → Buffer.

Record ConnectionImpl := mkConn {
  inBuf : Buffer;
  outBuf : Buffer;
  dec : Dec;
  endDecoded : nat;              (* the iterator of inBuf with that name *)
  error : ConnectionError;
  futures : gmap rid_t Response;
  gc_step : Z                    (* static int gc_step of inputBufGC *)
}.

Definition with_inBuf (c : ConnectionImpl) (B : Buffer) : ConnectionImpl :=
  mkConn B (outBuf c) (dec c) (endDecoded c) (error c) (futures c) (gc_step c).
Definition with_outBuf (c : ConnectionImpl) (B : Buffer) : ConnectionImpl :=
  mkConn (inBuf c) B (dec c) (endDecoded c) (error c) (futures c) (gc_step c).
Definition with_dec (c : ConnectionImpl) (d : Dec) : ConnectionImpl :=
  mkConn (inBuf c) (outBuf c) d (endDecoded c) (error c) (futures c) (gc_step c).
Definition with_error (c : ConnectionImpl) (e : ConnectionError) : ConnectionImpl :=
  mkConn (inBuf c) (outBuf c) (dec c) (endDecoded c) e (futures c) (gc_step c).
Definition with_futures (c : ConnectionImpl) (f : gmap rid_t Response) : ConnectionImpl :=
  mkConn (inBuf c) (outBuf c) (dec c) (endDecoded c) (error c) f (gc_step c).
Definition with_gc_step (c : ConnectionImpl) (n : Z) : ConnectionImpl :=
  mkConn (inBuf c) (outBuf c) (dec c) (endDecoded c) (error c) (futures c) n.

(** The allocator and one connection. *)
Abbreviation C := (ST (A * ConnectionImpl)).

Definition the_conn : C ConnectionImpl := λ s, (Ok s.2, s).
Definition update (f : ConnectionImpl → ConnectionImpl) : C unit :=
  λ s, (Ok tt, (s.1, f s.2)).

Definition on_inBuf {T} (m : ST (A * Buffer) T) : C T := λ s,
  let r := m (s.1, inBuf s.2) in (r.1, (r.2.1, with_inBuf s.2 r.2.2)).
Definition on_outBuf {T} (m : ST (A * Buffer) T) : C T := λ s,
  let r := m (s.1, outBuf s.2) in (r.1, (r.2.1, with_outBuf s.2 r.2.2)).

(** Connection::futureIsReady *)
Definition futureIsReady (c : ConnectionImpl) (future : rid_t) : bool :=
  bool_decide (is_Some (futures c !! future)).

(** Connection::getResponse *)
Definition getResponse (future : rid_t) : C Response :=
  c ← the_conn;
  match futures c !! future with
  | None => lift (Err Aborted)
  | Some response =>
      _ ← update (λ c, with_futures c (delete future (futures c)));
      mret response
  end.

(** Connection::flush *)
Definition Connection_flush : C unit :=
  update (λ c, with_futures c ∅).

(** Connection::setError *)
Definition setError (m : string) (errno_ : Z) : C unit :=
  update (λ c, with_error c (mkError m errno_)).

(** hasSentBytes *)
Definition hasSentBytes (bytes : nat) : C unit :=
  if decide (0 < bytes) then on_outBuf (dropFront DATA_SIZE bytes) else mret tt.

(** hasNotRecvBytes *)
Definition hasNotRecvBytes (bytes : nat) : C unit :=
  if decide (0 < bytes) then on_inBuf (dropBack DATA_SIZE bytes) else mret tt.

(** inputBufGC *)
Definition inputBufGC : C unit :=
  c ← the_conn;
  _ ← update (λ c, with_gc_step c (gc_step c + 1));
  if decide (gc_step c `rem` GC_STEP_CNT = 0)%Z
  then update (λ c, with_inBuf c (flush (inBuf c)))
  else mret tt.

(** std::unordered_map::insert: an existing entry is kept. *)
Definition futures_insert (k : rid_t) (r : Response) (f : gmap rid_t Response)
  : gmap rid_t Response :=
  match f !! k with
  | Some _ => f
  | None => <[k := r]> f
  end.

(** The iterator [conn.impl->endDecoded]. *)
Definition endDecoded_iterator (c : ConnectionImpl) : outcome iterator :=
  '(_, it, _) ← defined (find_iter (endDecoded c) (m_iterators (inBuf c)));
  Ok it.

(** processResponse; [result] tells whether the caller passed a
    [Response *result] other than [nullptr], and the second component of the
    answer is what was stored through it. *)
Definition processResponse (result : bool) : C (DecodeStatus * option Response) :=
  c ← the_conn;
  itr ← lift (endDecoded_iterator c);
  enough ← lift (has DATA_SIZE (inBuf c) itr MP_RESPONSE_SIZE);
  if negb enough then mret (DECODE_NEEDMORE, None)
  else
    let '(sz, d) := decodeResponseSize (dec c) (inBuf c) in
    _ ← update (λ c, with_dec c d);
    if decide (sz < 0)%Z then lift (Err Aborted)
    else
      let response := mkResponse (header Response_new) (body Response_new)
                                 (sz + Z.of_nat MP_RESPONSE_SIZE) in
      enough ← lift (has DATA_SIZE (inBuf c) itr (Z.to_nat (size response)));
      if negb enough then
        _ ← update (λ c, with_dec c (reset d itr));
        mret (DECODE_NEEDMORE, None)
      else
        let '(rc, response, d) := decodeResponse d (inBuf c) response in
        _ ← update (λ c, with_dec c d);
        if decide (rc ≠ 0)%Z then
          _ ← setError "Failed to decode response, skipping bytes.." 0;
          _ ← on_inBuf (iterator_advance DATA_SIZE (endDecoded c)
                                         (Z.to_nat (size response)));
          mret (DECODE_ERR, None)
        else
          _ ← (if result then mret tt
               else update (λ c, with_futures c
                      (futures_insert (sync (header response)) response (futures c))));
          _ ← on_inBuf (iterator_advance DATA_SIZE (endDecoded c)
                                         (Z.to_nat (size response)));
          _ ← inputBufGC;
          mret (DECODE_SUCC, if result then Some response else None).

End Connection.

Arguments ConnectionImpl : clear implicits.

(** ** Vocabulary of the statements *)

Section Vocabulary.

Variable DATA_SIZE : nat.

(** How many blocks precede the block at address [a]. *)
Definition block_index (a : nat) (bs : list Block) : option nat :=
  '(pre, _) ← locate a bs; Some (length pre).

(** The byte position of an iterator, counted from the start of the first
    block. *)
Definition position (bs : list Block) (it : iterator) : option nat :=
  i ← block_index (m_block it) bs; Some (i * DATA_SIZE + m_position it).

(** The position of [end()]. *)
Definition end_position (B : Buffer) : nat :=
  (length (m_blocks B) - 1) * DATA_SIZE + m_end B.

(** The bytes between an iterator and [end()]. *)
Definition remaining (B : Buffer) (it : iterator) : option nat :=
  p ← position (m_blocks B) it; Some (end_position B - p).

(** The bytes of the buffer, from [begin()] to [end()]. *)
Definition contents (B : Buffer) : list byte :=
  take (end_position B - m_begin B)
       (drop (m_begin B) (concat (data <$> m_blocks B))).

(** Each block has [DATA_SIZE] bytes of storage. *)
Definition sized (bs : list Block) : Prop :=
  Forall (λ b, length (data b) = DATA_SIZE) bs.

(** A block list as the allocator builds it: one chunk per address, each
    with [DATA_SIZE] bytes of storage. *)
Definition well_formed (bs : list Block) : Prop :=
  NoDup (addr <$> bs) ∧ Forall (λ b, length (data b) = DATA_SIZE) bs.

(** The block ids grow along the block list. *)
Fixpoint ascending (bs : list Block) : Prop :=
  match bs with
  | [] => True
  | b :: rest => Forall (λ b', (id b < id b')%Z) rest ∧ ascending rest
  end.

(** [a] comes before [b] in the iterator list. *)
Definition precedes (l : list iterator) (a b : iterator) : Prop :=
  ∃ i j, l !! i = Some a ∧ l !! j = Some b ∧ i < j.

(** Lexicographic order on (block index, offset). *)
Definition before (p q : nat * nat) : Prop :=
  p.1 < q.1 ∨ (p.1 = q.1 ∧ p.2 < q.2).

(** The sum of the lengths of an iovec array. *)
Definition total_len (vecs : list iovec) : Z :=
  foldr (λ v n, (iov_len v + n)%Z) 0%Z vecs.

(** Up to [n] successive calls of [allocate]: the chunks obtained, the
    allocator afterwards, and whether all [n] calls succeeded. *)
Fixpoint allocate_upto {A} `{Allocator A} (n : nat) (a : A) : list Block * A * bool :=
  match n with
  | 0 => ([], a, true)
  | S n' =>
      match allocate a with
      | None => ([], a, false)
      | Some (b, a') =>
          let '(bs, a'', complete) := allocate_upto n' a' in (b :: bs, a'', complete)
      end
  end.

(** The number of blocks appendBack needs for [size] bytes when
    [left_in_block] bytes are free in the last block. *)
Definition blocks_needed (size left_in_block : nat) : nat :=
  if decide (size ≤ left_in_block) then 0
  else (size - left_in_block + DATA_SIZE - 1) `div` DATA_SIZE.

(** What is left of [size] for the last of the blocks needed. *)
Definition tail_size (size left_in_block : nat) : nat :=
  match blocks_needed size left_in_block with
  | 0 => size
  | S n => size - left_in_block - n * DATA_SIZE
  end.

(** The iterator appendBack returns: the old [end()], or the start of the
    first block when there was none. *)
Definition reservation (B : Buffer) (new_blocks : list Block) (me : nat) : iterator :=
  match lastBlock (m_blocks B), new_blocks with
  | Some b, _ => mkIter me (addr b) (m_end B)
  | None, b :: _ => mkIter me (addr b) 0
  | None, [] => mkIter me 0 0
  end.

(** Where an iterator stands: the index of its block and the offset in it. *)
Definition key (bs : list Block) (it : iterator) : nat * nat :=
  (default 0 (block_index (m_block it) bs), m_position it).

(** The same as a count of bytes from the start of the first block. *)
Definition place (bs : list Block) (it : iterator) : nat :=
  (key bs it).1 * DATA_SIZE + (key bs it).2.

(** The iterator points into a block of the list. *)
Definition inside (bs : list Block) (it : iterator) : Prop :=
  is_Some (block_index (m_block it) bs) ∧ m_position it ≤ DATA_SIZE.

(** A buffer in order: distinct chunks, and a list of distinct iterators,
    all inside the blocks, whose byte positions do not descend. *)
Record orderly (B : Buffer) : Prop := {
  orderly_addrs : NoDup (addr <$> m_blocks B);
  orderly_bounds : m_begin B ≤ DATA_SIZE ∧ m_end B ≤ DATA_SIZE;
  orderly_names : NoDup (self <$> m_iterators B);
  orderly_inside : Forall (inside (m_blocks B)) (m_iterators B);
  orderly_sorted : StronglySorted le (place (m_blocks B) <$> m_iterators B)
}.

(** What a user does with a buffer and its iterators. *)
Inductive buffer_op :=
| Begin (me : nat)
| End (me : nat)
| Copy (other me : nat)
| Assign (me other : nat)
| Advance (i step : nat)
| Destroy (i : nat)
| AppendBack (size me : nat)
| AddBack (buf : list byte) (tmp : nat)
| DropFront (size : nat)
| DropBack (size : nat)
| Insert (i size tmp : nat)
| Release (i size tmp : nat).

(** The use is within the buffer.  A new iterator gets a name of its own and
    an old one is named by its own.  No listed iterator lies before begin()
    when begin() is taken, after end() when end() is taken or space is
    appended, or in the bytes that are dropped.  An iterator is advanced
    while the block ids ascend, and not past end().  The iterators listed
    after the one given to release stand where it stands or at least [size]
    bytes further, and one of them does the latter. *)
Definition admissible (B : Buffer) (op : buffer_op) : Prop :=
  let names := self <$> m_iterators B in
  let places := place (m_blocks B) <$> m_iterators B in
  match op with
  | Begin me =>
      (me ∉ names) ∧ m_blocks B ≠ [] ∧ Forall (λ p, m_begin B ≤ p) places
  | End me =>
      (me ∉ names) ∧ m_blocks B ≠ [] ∧
      Forall (λ p, p ≤ end_position B) places
  | Copy other me => (me ∉ names) ∧ other ∈ names
  | Assign me other => me ∈ names ∧ other ∈ names
  | Advance i step =>
      ascending (m_blocks B) ∧
      match find_iter i (m_iterators B) with
      | Some (_, x, _) => place (m_blocks B) x + step ≤ end_position B
      | None => False
      end
  | Destroy i => i ∈ names
  | AppendBack size me =>
      (me ∉ names) ∧ Forall (λ p, p ≤ end_position B) places
  | AddBack buf tmp => tmp ∉ names
  | DropFront size => Forall (λ p, m_begin B + size ≤ p) places
  | DropBack size => Forall (λ p, p + size ≤ end_position B) places
  | Insert i size tmp => tmp ∉ names
  | Release i size tmp =>
      (tmp ∉ names) ∧
      Forall (λ p, p ≤ end_position B) places ∧
      match find_iter i (m_iterators B) with
      | Some (_, it, post) =>
          Forall (λ y, (m_block y = m_block it ∧ m_position y = m_position it)
                       ∨ place (m_blocks B) it + size ≤ place (m_blocks B) y) post ∧
          Exists (λ y, place (m_blocks B) it + size ≤ place (m_blocks B) y) post
      | None => False
      end
  end.

(** An iovec lies inside the storage of its block. *)
Definition in_block (v : iovec) : Prop :=
  (0 ≤ iov_len v)%Z ∧ (Z.of_nat (iov_base v).2 + iov_len v ≤ Z.of_nat DATA_SIZE)%Z.

End Vocabulary.

(** The operation never stops with fault [f]. *)
Definition never {S T} (f : fault) (m : ST S T) : Prop :=
  ∀ s, (m s).1 ≠ Err f.

(** ** Sequences of operations *)

Section Steps.

Context {A : Type} `{Allocator A}.
Variable DATA_SIZE : nat.

Definition run_op (op : buffer_op) : ST (A * Buffer) unit :=
  match op with
  | Begin me => _ ← begin me; mret tt
  | End me => _ ← end_ me; mret tt
  | Copy other me => _ ← iterator_copy other me; mret tt
  | Assign me other => iterator_assign me other
  | Advance i step => _ ← iterator_advance DATA_SIZE i step; mret tt
  | Destroy i => iterator_destroy i
  | AppendBack size me => _ ← appendBack DATA_SIZE size me; mret tt
  | AddBack buf tmp => _ ← addBack DATA_SIZE buf tmp; mret tt
  | DropFront size => dropFront DATA_SIZE size
  | DropBack size => dropBack DATA_SIZE size
  | Insert i size tmp => insert DATA_SIZE i size tmp
  | Release i size tmp => release DATA_SIZE i size tmp
  end.

(** Runs of admissible operations that return, the allocator handing out
    chunks other than those in use. *)
Inductive buffer_steps : A * Buffer → list buffer_op → A * Buffer → Prop :=
| steps_done s : buffer_steps s [] s
| steps_next s op s' ops s'' :
    admissible DATA_SIZE s.2 op →
    run_op op s = (Ok tt, s') →
    NoDup (addr <$> m_blocks s'.2) →
    buffer_steps s' ops s'' →
    buffer_steps s (op :: ops) s''.

End Steps.

#[global] Instance inside_dec DATA_SIZE bs it : Decision (inside DATA_SIZE bs it).
Proof. unfold inside. apply _. Defined.

#[global] Instance ascending_dec bs : Decision (ascending bs).
Proof. induction bs as [|b bs IH]; cbn [ascending]; apply _. Defined.

#[global] Instance admissible_dec DATA_SIZE B op : Decision (admissible DATA_SIZE B op).
Proof.
  destruct op; cbn [admissible]; try apply _;
    destruct (find_iter _ _) as [[[? ?] ?]|]; apply _.
Defined.

(** ** The bytes of the blocks *)

(** The storage of the blocks, one block after the other. *)
Definition storage (bs : list Block) : list byte := concat (data <$> bs).


Section Objects.

Variable DATA_SIZE : nat.

(** Buffer::set (itr, T&& t), on the bytes of [t]: one memcpy where the
    object fits into what is left of the block. *)
Definition set_object (B : Buffer) (itr : iterator) (t : list byte) : outcome Buffer :=
  have ← diff DATA_SIZE (m_position itr);
  if decide (length t ≤ have) then
    '(pre, suf) ← defined (locate (m_block itr) (m_blocks B));
    b ← defined (head suf);
    b' ← poke DATA_SIZE b (m_position itr) t;
    Ok (mkBuffer (pre ++ b' :: tail suf) (m_iterators B) (m_begin B) (m_end B))
  else set DATA_SIZE B itr t.

(** Buffer::get (itr, T& t) and T Buffer::get (itr), for an object of
    [t_size] bytes. *)
Definition get_object (B : Buffer) (itr : iterator) (t_size : nat) : outcome (list byte) :=
  have ← diff DATA_SIZE (m_position itr);
  if decide (t_size ≤ have) then
    '(_, suf) ← defined (locate (m_block itr) (m_blocks B));
    b ← defined (head suf);
    peek DATA_SIZE b (m_position itr) t_size
  else get DATA_SIZE B itr t_size.

End Objects.


Section MoreConnection.

Context {A : Type} `{Allocator A}.
Variable DATA_SIZE : nat.
Context {Body Dec : Type}.

(** hasDataToSend *)
Definition hasDataToSend (c : ConnectionImpl Body Dec) : bool :=
  negb (empty (outBuf c)).

End MoreConnection.


(** ** Chunks *)

(** The chunks at hand: those in the pool and those in the buffer. *)
Definition chunks (s : list Block * Buffer) : list nat :=
  (addr <$> s.1) ++ (addr <$> m_blocks s.2).

Section Destructor.

Context {A : Type} `{Allocator A}.

(** Buffer::~Buffer() *)
Definition Buffer_destroy : ST (A * Buffer) unit :=
  B ← the_buffer;
  _ ← Blocks_destroy (m_blocks B);
  store (mkBuffer [] (m_iterators B) (m_begin B) (m_end B)).

End Destructor.

(** Started with buffer [B], the operation leaves the chunks those they
    were, whatever its outcome. *)
Definition keeps {T} (B : Buffer) (m : ST (list Block * Buffer) T) : Prop :=
  ∀ p, chunks (m (p, B)).2 ≡ₚ chunks (p, B).


(** ** Connection handles

    A [Connection] is a handle on a [ConnectionImpl] that counts its
    handles and deletes itself with the last of them.  Of the
    implementation only the count and the socket matter here. *)

Record Impl := mkImpl {
  refs : Z;                  (* ssize_t refs *)
  socket : Z                 (* int socket *)
}.

Record Handles := mkHandles {
  impls : gmap nat Impl;     (* the ConnectionImpl objects alive, by address *)
  conns : gmap nat nat;      (* the Connection objects alive, and their [impl] *)
  closed : list Z            (* the sockets passed to connector.close *)
}.

(** How an operation on handles stops. *)
Inductive handle_fault :=
| RefsNegative     (* assert(refs >= 0) in ref() *)
| RefsBelowOne     (* assert(refs >= 1) in unref() *)
| RefsNotZero      (* assert(refs == 0) in ~ConnectionImpl() *)
| Dangling.        (* the object pointed to is no longer alive *)

Definition with_impls (h : Handles) (m : gmap nat Impl) : Handles :=
  mkHandles m (conns h) (closed h).
Definition with_conns (h : Handles) (m : gmap nat nat) : Handles :=
  mkHandles (impls h) m (closed h).

(** ConnectionImpl::ref *)
Definition Impl_ref (p : nat) (h : Handles) : handle_fault + Handles :=
  match impls h !! p with
  | None => inl Dangling
  | Some i =>
      if decide (0 ≤ refs i)%Z
      then inr (with_impls h (<[p := mkImpl (refs i + 1) (socket i)]> (impls h)))
      else inl RefsNegative
  end.

(** ConnectionImpl::~ConnectionImpl, with the release of the object *)
Definition Impl_delete (p : nat) (h : Handles) : handle_fault + Handles :=
  match impls h !! p with
  | None => inl Dangling
  | Some i =>
      if decide (refs i = 0)%Z
      then inr (mkHandles (delete p (impls h)) (conns h)
                          (if decide (0 ≤ socket i)%Z then closed h ++ [socket i]
                           else closed h))
      else inl RefsNotZero
  end.

(** ConnectionImpl::unref *)
Definition Impl_unref (p : nat) (h : Handles) : handle_fault + Handles :=
  match impls h !! p with
  | None => inl Dangling
  | Some i =>
      if decide (1 ≤ refs i)%Z then
        let h' := with_impls h (<[p := mkImpl (refs i - 1) (socket i)]> (impls h)) in
        if decide (refs i - 1 = 0)%Z then Impl_delete p h' else inr h'
      else inl RefsBelowOne
  end.

(** Connection::Connection (Connector &): the object [c] is built on a new
    implementation. *)
Definition Connection_new (c : nat) (h : Handles) : handle_fault + Handles :=
  let p := fresh (dom (impls h)) in
  Impl_ref p (mkHandles (<[p := mkImpl 0 (-1)]> (impls h)) (<[c := p]> (conns h))
                        (closed h)).

(** Connection::Connection (const Connection &) *)
Definition Connection_copy (c other : nat) (h : Handles) : handle_fault + Handles :=
  match conns h !! other with
  | None => inl Dangling
  | Some p => Impl_ref p (with_conns h (<[c := p]> (conns h)))
  end.

(** Connection::operator= *)
Definition Connection_assign (c other : nat) (h : Handles) : handle_fault + Handles :=
  if decide (c = other) then inr h
  else
    match conns h !! c with
    | None => inl Dangling
    | Some p =>
        match Impl_unref p h with
        | inl f => inl f
        | inr h1 =>
            match conns h1 !! other with
            | None => inl Dangling
            | Some q => Impl_ref q (with_conns h1 (<[c := q]> (conns h1)))
            end
        end
    end.

(** Connection::~Connection *)
Definition Connection_destroy (c : nat) (h : Handles) : handle_fault + Handles :=
  match conns h !! c with
  | None => inl Dangling
  | Some p =>
      match Impl_unref p h with
      | inl f => inl f
      | inr h1 => inr (with_conns h1 (delete c (conns h1)))
      end
  end.

(** Connection::setSocket *)
Definition Connection_setSocket (c : nat) (s : Z) (h : Handles)
  : handle_fault + Handles :=
  match conns h !! c with
  | None => inl Dangling
  | Some p =>
      match impls h !! p with
      | None => inl Dangling
      | Some i => inr (with_impls h (<[p := mkImpl (refs i) s]> (impls h)))
      end
  end.

(** What is done with handles. *)
Inductive handle_op :=
| NewConnection (c : nat)
| CopyConnection (c other : nat)
| AssignConnection (c other : nat)
| DestroyConnection (c : nat)
| SetSocket (c : nat) (s : Z).

Definition run_handle_op (op : handle_op) : Handles → handle_fault + Handles :=
  match op with
  | NewConnection c => Connection_new c
  | CopyConnection c other => Connection_copy c other
  | AssignConnection c other => Connection_assign c other
  | DestroyConnection c => Connection_destroy c
  | SetSocket c s => Connection_setSocket c s
  end.

(** An object is built where there is none and used while it is alive. *)
Definition usable (h : Handles) (op : handle_op) : Prop :=
  match op with
  | NewConnection c => conns h !! c = None
  | CopyConnection c other => conns h !! c = None ∧ is_Some (conns h !! other)
  | AssignConnection c other => is_Some (conns h !! c) ∧ is_Some (conns h !! other)
  | DestroyConnection c => is_Some (conns h !! c)
  | SetSocket c _ => is_Some (conns h !! c)
  end.

(** The handles on the implementation at [p]. *)
Definition handles_on (p : nat) (m : gmap nat nat) : nat :=
  base.size (filter (λ kv, kv.2 = p) m).

(** Each implementation alive counts its handles, of which there is one at
    least, and no handle is on an implementation that is gone. *)
Definition counted (h : Handles) : Prop :=
  ∀ p, match impls h !! p with
       | Some i => refs i = Z.of_nat (handles_on p (conns h)) ∧ (1 ≤ refs i)%Z
       | None => handles_on p (conns h) = 0
       end.


Section Decoding.

Context {A : Type} `{Allocator A}.
Variable DATA_SIZE : nat.
Context {Body Dec : Type}.

(** [inBuf.end()] where it is a temporary: the iterator is linked last and
    unlinked again when the expression is done, which leaves the iterator
    list as it was.  A failed [assert] of the connection layer ends in
    [std::abort]. *)
Definition end_pointer (B : Buffer) : outcome iterator :=
  b ← defined (lastBlock (m_blocks B));
  Ok (mkIter 0 (addr b) (m_end B)).

(** hasDataToDecode *)
Definition hasDataToDecode (c : ConnectionImpl Body Dec) : outcome bool :=
  itr ← endDecoded_iterator c;
  e ← end_pointer (inBuf c);
  lt ← iter_lt (m_blocks (inBuf c)) itr e;
  _ ← (if lt || iter_eq itr e then Ok tt else Err Aborted);
  Ok (negb (iter_eq itr e)).

(** [Iproto::GREETING_SIZE], the greeting and its parser are those of
    [ResponseDecoder.hpp]; [parseGreeting] fills the greeting and answers 0
    when the bytes are a greeting. *)
Variable GREETING_SIZE : nat.
Context {Greeting : Type}.
Variable parseGreeting : list byte → Greeting → Z * Greeting.
Variable reset : Dec → iterator → Dec.

(** decodeGreeting, with [conn.impl->greeting] passed in and out. *)
Definition decodeGreeting (g : Greeting)
  : ST (A * ConnectionImpl Body Dec) (Z * Greeting) :=
  c ← the_conn;
  itr ← lift (endDecoded_iterator c);
  greeting_buf ← lift (get DATA_SIZE (inBuf c) itr GREETING_SIZE);
  itr' ← on_inBuf (iterator_advance DATA_SIZE (endDecoded c) GREETING_SIZE);
  c ← the_conn;
  e ← lift (end_pointer (inBuf c));
  _ ← lift (if iter_eq itr' e then Ok tt else Err Aborted);
  _ ← update (λ c, with_dec c (reset (dec c) itr'));
  let '(rc, g') := parseGreeting greeting_buf g in
  if decide (rc ≠ 0)%Z then mret ((-1)%Z, g') else mret (0%Z, g').

End Decoding.

(** The bytes an iovec designates: [iov_len] bytes of its block from the
    offset of [iov_base] on. *)
Definition iov_bytes (bs : list Block) (v : iovec) : list byte :=
  match block_at (iov_base v).1 bs with
  | Some b => take (Z.to_nat (iov_len v)) (drop (iov_base v).2 (data b))
  | None => []
  end.

(** ** Reading through an iterator *)

(** iterator::operator*: the byte at [m_position]. *)
Definition iterator_deref (B : Buffer) (it : iterator) : outcome byte :=
  '(_, suf) ← defined (locate (m_block it) (m_blocks B));
  b ← defined (head suf);
  defined (data b !! m_position it).

Section TupleReader.

Context {A : Type} `{Allocator A}.
Variable DATA_SIZE : nat.

(** The loop of UserTupleValueReader::Value for strings:
    [dst.push_back] of [*tmp] and [++tmp] as long as [v.size] lasts. *)
Fixpoint push_back_chars (size : nat) (tmp : nat) : ST (A * Buffer) (list byte) :=
  match size with
  | 0 => mret []
  | S n =>
      B ← the_buffer;
      '(_, it, _) ← lift (defined (find_iter tmp (m_iterators B)));
      c ← lift (iterator_deref B it);
      _ ← iterator_advance DATA_SIZE tmp 1;
      cs ← push_back_chars n tmp;
      mret (c :: cs)
  end.

(** UserTupleValueReader::Value (itr, type, mpp::StrValue v), with
    [v.offset] and [v.size]: the characters appended to [tuple.field2]. *)
Definition Value_StrValue (itr tmp : nat) (offset size : nat)
  : ST (A * Buffer) (list byte) :=
  _ ← iterator_copy itr tmp;
  _ ← iterator_advance DATA_SIZE tmp offset;
  s ← push_back_chars size tmp;
  _ ← iterator_destroy tmp;
  mret s.

End TupleReader.

(** ** A small instance to run the model on

    Blocks of 8 bytes (the unit tests' [SMALL_BLOCK_SZ = 32] chunks), a pool
    of zeroed chunks at addresses 1, 2, ..., and a decoder for the smallest
    responses. *)

Module Demo.

Definition DATA_SIZE : nat := 8.

Definition chunk (a : nat) : Block := mkBlock a 0 (replicate DATA_SIZE "000"%byte).

Definition pool (n : nat) : list Block := chunk <$> seq 1 n.

(** Run a sequence of buffer operations from the empty buffer. *)
Definition run {T} (n : nat) (m : ST (list Block * Buffer) T)
  : outcome T * (list Block * Buffer) :=
  m (pool n, Buffer_new).

Definition buffer_after {T} (n : nat) (m : ST (list Block * Buffer) T) : Buffer :=
  (run n m).2.2.

(** Big-endian value of a byte string. *)
Definition be (l : list byte) : Z :=
  foldl (λ acc b, (acc * 256 + Z.of_N (Byte.to_N b))%Z) 0%Z l.

(** Modelled from the spec: a decoder for responses whose header is the map
    [{CODE: c, SYNC: s, SCHEMA_ID: v}] of positive fixints followed by an
    empty body map; a frame is [0xce], a big-endian 32-bit length, and that
    many bytes.  The cursor of the decoder is an iterator it keeps for
    itself. *)
Definition decodeResponseSize (d : iterator) (B : Buffer) : Z * iterator :=
  match get DATA_SIZE B d 5, moveForward DATA_SIZE (m_blocks B) d 5 with
  | Ok (tag :: len), Ok d' =>
      if decide (tag = "206"%byte) then (be len, d') else ((-1)%Z, d)
  | _, _ => ((-1)%Z, d)
  end.

Definition decodeResponse (d : iterator) (B : Buffer) (r : Response unit)
  : Z * Response unit * iterator :=
  let n := Z.to_nat (size r) - 5 in
  match get DATA_SIZE B d n, moveForward DATA_SIZE (m_blocks B) d n with
  | Ok [m; k0; c; k1; s; k2; v; e], Ok d' =>
      if decide ([m; k0; k1; k2; e] = ["131"; "000"; "001"; "005"; "128"]%byte)
      then (0%Z,
            mkResponse (mkHeader (Byte.to_N s) (be [c]) (be [v])) () (size r), d')
      else ((-1)%Z, r, d')
  | _, Ok d' => ((-1)%Z, r, d')
  | _, _ => ((-1)%Z, r, d)
  end.

Definition reset (d itr : iterator) : iterator :=
  mkIter (self d) (m_block itr) (m_position itr).

Definition flush (B : Buffer) : Buffer := B.

Definition Response_new : Response unit := mkResponse (mkHeader 0 0 0) () 0.

Definition Conn : Type := ConnectionImpl unit iterator.

Definition processResponse :=
  @processResponse (list Block) DATA_SIZE unit iterator Response_new
                   decodeResponseSize decodeResponse reset flush.

(** The response to a ping with sync [s]: 13 bytes. *)
Definition pong (s : byte) : list byte :=
  ["206"; "000"; "000"; "000"; "008";
   "131"; "000"; "000"; "001"; s; "005"; "000"; "128"]%byte.

(** A connection that has received [bytes] in two reads, the second of one
    byte, none of them decoded yet: [endDecoded] (iterator 1) stands at the
    start of the inbound buffer and the cursor of the decoder (iterator 2)
    with it. *)
Definition received (bytes : list byte) (f : gmap rid_t (Response unit)) : Conn :=
  let n := length bytes - 1 in
  let B := buffer_after 4 (_ ← addBack DATA_SIZE (take n bytes) 0;
                           _ ← addBack DATA_SIZE (drop n bytes) 0;
                           begin 1) in
  mkConn B Buffer_new (mkIter 2 1 0) 1 (mkError "" 0) f 1.

(** *** Buffers to run the operations on *)

Definition abcdefgh : list byte := ["a"; "b"; "c"; "d"; "e"; "f"; "g"; "h"]%byte.

(** "abcdefgh" in one full block, with iterator 1 [n] bytes after begin(). *)
Definition full_block (n : nat) : ST (list Block * Buffer) unit :=
  _ ← addBack DATA_SIZE abcdefgh 0;
  _ ← begin 1;
  _ ← iterator_advance DATA_SIZE 1 n;
  mret ().

(** The same with iterator 2 at end(). *)
Definition full_block_and_end (n : nat) : ST (list Block * Buffer) unit :=
  _ ← full_block n; _ ← end_ 2; mret ().

(** "abc" in a block, with iterator 1 two bytes after begin(). *)
Definition three_bytes : ST (list Block * Buffer) unit :=
  _ ← addBack DATA_SIZE (take 3 abcdefgh) 0;
  _ ← begin 1;
  _ ← iterator_advance DATA_SIZE 1 2;
  mret ().

(** Nine bytes in two blocks, with iterator 1 at begin(). *)
Definition nine_bytes : ST (list Block * Buffer) unit :=
  _ ← addBack DATA_SIZE (abcdefgh ++ ["i"]%byte) 0;
  _ ← begin 1;
  mret ().

(** One reserved byte, the iterator appendBack returned (1) and begin() (2). *)
Definition two_at_begin : ST (list Block * Buffer) unit :=
  _ ← appendBack DATA_SIZE 1 1;
  _ ← begin 2;
  mret ().

(** Ten bytes appended in two calls, with begin() (1) and end() (2). *)
Definition ten_bytes : ST (list Block * Buffer) unit :=
  _ ← addBack DATA_SIZE (abcdefgh ++ ["i"]%byte) 0;
  _ ← addBack DATA_SIZE ["j"]%byte 0;
  _ ← begin 1;
  _ ← end_ 2;
  mret ().

(** A pool whose chunks still carry the ids of an earlier use. *)
Definition recycled : list Block :=
  [mkBlock 1 5 (replicate DATA_SIZE "000"%byte);
   mkBlock 2 0 (replicate DATA_SIZE "000"%byte)].

(** A connection after one call of processResponse on a received pong. *)
Definition decoded (s : byte) : Conn :=
  (processResponse false (pool 0, received (pong s) ∅)).2.2.

(** A run from the empty buffer through all the operations, and where it
    ends. *)
Definition in_order : list buffer_op :=
  [AddBack (abcdefgh ++ ["i"]%byte) 0; AddBack ["j"]%byte 0; Begin 1; End 2; Copy 1 3;
   Advance 3 9; Insert 1 2 9; Assign 3 2; Release 1 2 9; Destroy 1; DropFront 3;
   AppendBack 3 4; DropBack 2].

Definition in_order_end : list Block * Buffer :=
  Eval vm_compute in
    foldl (λ s op, (run_op DATA_SIZE op s).2) (pool 4, Buffer_new) in_order.

(** Ten bytes in two blocks, with end() (2) alone. *)
Definition ten_bytes_and_end : ST (list Block * Buffer) unit :=
  _ ← addBack DATA_SIZE (abcdefgh ++ ["i"]%byte) 0;
  _ ← addBack DATA_SIZE ["j"]%byte 0;
  _ ← end_ 2;
  mret ().

(** Seventeen bytes in three blocks, with iterator 1 at begin(). *)
Definition seventeen_bytes : ST (list Block * Buffer) unit :=
  _ ← addBack DATA_SIZE (abcdefgh ++ abcdefgh ++ ["i"]%byte) 0;
  _ ← begin 1;
  mret ().

(** A connection with nine bytes to send. *)
Definition sending : Conn :=
  let B := buffer_after 4 (addBack DATA_SIZE (abcdefgh ++ ["i"]%byte) 0) in
  mkConn Buffer_new B (mkIter 2 1 0) 1 (mkError "" 0) ∅ 1.

(** A greeting of 13 bytes, taken as it comes. *)
Definition parseGreeting (bytes : list byte) (g : list byte) : Z * list byte :=
  (0%Z, bytes).

(** "abcdefgh" in a full block with iterator 1 at begin(), as a state. *)
Definition full_block_state : list Block * Buffer :=
  Eval vm_compute in (run 4 (full_block 0)).2.

(** "abcdefghij" with iterator 1 seven bytes after begin() and iterator 2
    at end(), as a state. *)
Definition ten_bytes_at_seven : list Block * Buffer :=
  Eval vm_compute in (run 4 (_ ← ten_bytes; iterator_advance DATA_SIZE 1 7)).2.

(** A connection that has received "abcdefgh" into a block it fills, with
    the block that a reservation behind it has left: end() stands at
    offset 0 of that block, and [endDecoded] (iterator 1) at begin(). *)
Definition received_full_block : Conn :=
  let B := buffer_after 4 (_ ← addBack DATA_SIZE abcdefgh 0;
                           _ ← appendBack DATA_SIZE 1 7;
                           _ ← iterator_destroy 7;
                           _ ← dropBack DATA_SIZE 1;
                           begin 1) in
  mkConn B Buffer_new (mkIter 2 1 0) 1 (mkError "" 0) ∅ 1.

End Demo.

(** * Facts *)

(** ** Runs of operations *)

Section Runs.

Context {S : Type}.

Lemma run_bind {T U} (m : ST S T) (k : T → ST S U) s :
  (m ≫= k) s = match m s with
               | (Ok t, s') => k t s'
               | (Err f, s') => (Err f, s')
               end.
Proof. reflexivity. Qed.

Lemma never_bind {T U} f (m : ST S T) (k : T → ST S U) :
  never f m → (∀ t, never f (k t)) → never f (m ≫= k).
Proof.
  intros Hm Hk s. rewrite run_bind. specialize (Hm s).
  destruct (m s) as [[t|g] s']; [apply Hk |].
  cbn in *. intros [= ->]. by apply Hm.
Qed.

Lemma never_ret {T} f (t : T) : never f (mret t : ST S T).
Proof. intros s. discriminate. Qed.

Lemma never_lift {T} f (o : outcome T) : o ≠ Err f → never f (lift o : ST S T).
Proof. intros Ho s. exact Ho. Qed.

Lemma require_other a b c : a ≠ b → require b c ≠ Err (AssertFailed a).
Proof. intros Hab. destruct c; cbn; congruence. Qed.

Lemma defined_not_assert {T} (o : option T) a : defined o ≠ Err (AssertFailed a).
Proof. destruct o; discriminate. Qed.

Lemma diff_not_assert hi lo a : diff hi lo ≠ Err (AssertFailed a).
Proof. unfold diff. case_decide; discriminate. Qed.

End Runs.

Ltac never_step :=
  first
    [ apply never_bind; [| intros ?]
    | apply never_ret
    | apply never_lift; first [ apply require_other; discriminate
                              | apply defined_not_assert
                              | apply diff_not_assert
                              | discriminate ]
    | (intros ?; discriminate) ].

(** ** The assertions of dropFront and dropBack *)

Section Drop.

Context {A : Type} `{Allocator A}.
Variable DATA_SIZE : nat.

Lemma dropFront_loop_size_assert bs size left_in_block :
  never (AssertFailed SizeNonZero)
        (dropFront_loop (A:=A) DATA_SIZE bs size left_in_block).
Proof.
  revert size left_in_block.
  induction bs as [|b rest IH]; intros size left_in_block;
    cbn [dropFront_loop]; case_decide;
    repeat (first [ apply IH | never_step ]).
Qed.

Lemma dropBack_loop_size_assert rbs size left_in_block :
  never (AssertFailed SizeNonZero)
        (dropBack_loop (A:=A) DATA_SIZE rbs size left_in_block).
Proof.
  revert size left_in_block.
  induction rbs as [|b rest IH]; intros size left_in_block;
    cbn [dropBack_loop]; case_decide;
    repeat (first [ apply IH | never_step ]).
Qed.

Lemma dropFront_positive size :
  size ≠ 0 → never (AssertFailed SizeNonZero) (dropFront (A:=A) DATA_SIZE size).
Proof.
  intros Hsize. unfold dropFront.
  apply never_bind; [|intros _].
  { apply never_lift. rewrite bool_decide_eq_true_2 by done. discriminate. }
  repeat (first [ apply dropFront_loop_size_assert | never_step ]).
  - apply never_lift. destruct (last _); [case_decide|]; try discriminate.
    apply require_other; discriminate.
  - case_decide; never_step.
Qed.

Lemma dropBack_positive size :
  size ≠ 0 → never (AssertFailed SizeNonZero) (dropBack (A:=A) DATA_SIZE size).
Proof.
  intros Hsize. unfold dropBack.
  apply never_bind; [|intros _].
  { apply never_lift. rewrite bool_decide_eq_true_2 by done. discriminate. }
  repeat (first [ apply dropBack_loop_size_assert | never_step ]).
  - apply never_lift. destruct (last _); [case_decide|]; try discriminate.
    apply require_other; discriminate.
  - case_decide; never_step.
Qed.

Lemma dropFront_zero (s : A * Buffer) :
  (dropFront DATA_SIZE 0 s).1 = Err (AssertFailed SizeNonZero).
Proof. reflexivity. Qed.

Lemma dropBack_zero (s : A * Buffer) :
  (dropBack DATA_SIZE 0 s).1 = Err (AssertFailed SizeNonZero).
Proof. reflexivity. Qed.

Lemma dropFront_no_blocks (s : A * Buffer) size :
  size ≠ 0 → m_blocks s.2 = [] →
  (dropFront DATA_SIZE size s).1 = Err (AssertFailed BlocksNonEmpty).
Proof.
  intros Hsize Hnil. destruct s as [a B]. cbn in Hnil.
  destruct B as [bs its b e]; cbn in Hnil; subst bs.
  destruct size; [done | reflexivity].
Qed.

Lemma dropBack_no_blocks (s : A * Buffer) size :
  size ≠ 0 → m_blocks s.2 = [] →
  (dropBack DATA_SIZE size s).1 = Err (AssertFailed BlocksNonEmpty).
Proof.
  intros Hsize Hnil. destruct s as [a B]. cbn in Hnil.
  destruct B as [bs its b e]; cbn in Hnil; subst bs.
  destruct size; [done | reflexivity].
Qed.

End Drop.

(** ** Block lists *)

Section BlockList.

Lemma locate_split a bs pre suf :
  locate a bs = Some (pre, suf) →
  bs = pre ++ suf ∧ (∃ b rest, suf = b :: rest ∧ addr b = a) ∧
  Forall (λ b, addr b ≠ a) pre.
Proof.
  revert pre suf. induction bs as [|b rest IH]; intros pre suf; cbn; [done|].
  case_decide as Hb.
  - intros [= <- <-]. split; [done|]. split; [by exists b, rest | constructor].
  - destruct (locate a rest) as [[pre' suf']|] eqn:Hloc; cbn; [|done].
    intros [= <- <-]. destruct (IH _ _ eq_refl) as (-> & Hsuf & Hpre).
    split; [done|]. split; [done|]. by constructor.
Qed.

Lemma locate_app a pre b rest :
  addr b = a → Forall (λ x, addr x ≠ a) pre →
  locate a (pre ++ b :: rest) = Some (pre, b :: rest).
Proof.
  intros Hb. induction pre as [|x pre IH]; intros Hpre; cbn.
  - by rewrite decide_True.
  - apply Forall_cons in Hpre as [Hx Hpre]. rewrite decide_False by done.
    by rewrite IH.
Qed.

(** In a list of distinct addresses, a block has the address of the last
    block only if it is the last block. *)
Lemma addr_last_inv (b lb : Block) rest :
  NoDup (addr <$> (b :: rest)) → last (b :: rest) = Some lb →
  addr b = addr lb → rest = [].
Proof.
  intros Hnd Hlast Heq. destruct rest as [|b' rest']; [done|]. exfalso.
  rewrite fmap_cons, NoDup_cons in Hnd. destruct Hnd as [Hnotin _].
  apply Hnotin. rewrite Heq. apply list_elem_of_fmap_2.
  apply last_Some_elem_of. by rewrite <- Hlast, last_cons_cons.
Qed.

Lemma block_index_lookup a bs i :
  block_index a bs = Some i →
  ∃ b, bs !! i = Some b ∧ addr b = a ∧ block_at a bs = Some b.
Proof.
  unfold block_index, block_at.
  destruct (locate a bs) as [[pre suf]|] eqn:Hloc; [|done]. cbn.
  intros [= <-].
  destruct (locate_split _ _ _ _ Hloc) as (-> & (b & rest & -> & Hb) & _).
  exists b. split; [|done]. by rewrite lookup_app_r, Nat.sub_diag.
Qed.

Lemma block_index_app bs j b :
  NoDup (addr <$> bs) → bs !! j = Some b → block_index (addr b) bs = Some j.
Proof.
  intros Hnd Hj. apply list_elem_of_split_length in Hj as (pre & rest & -> & ->).
  unfold block_index. rewrite locate_app; [done..|].
  rewrite fmap_app, fmap_cons in Hnd. apply NoDup_app in Hnd as (_ & Hdisj & _).
  apply Forall_forall. intros x Hx Heq. apply (Hdisj (addr x)).
  - by apply list_elem_of_fmap_2.
  - rewrite Heq. left.
Qed.

End BlockList.

(** ** Iterator lists *)

Section IteratorList.

Lemma find_iter_split i l pre x post :
  find_iter i l = Some (pre, x, post) →
  l = pre ++ x :: post ∧ self x = i ∧ Forall (λ y, self y ≠ i) pre.
Proof.
  revert pre. induction l as [|y l IH]; intros pre; cbn; [done|].
  case_decide as Hy.
  - intros [= <- <- <-]. repeat split; [done | constructor].
  - destruct (find_iter i l) as [[[pre' x'] post']|]; [|done]. cbn.
    intros [= <- <- <-]. destruct (IH _ eq_refl) as (-> & ? & ?).
    repeat split; [done|]. by constructor.
Qed.

Lemma find_iter_app i pre x post :
  self x = i → Forall (λ y, self y ≠ i) pre →
  find_iter i (pre ++ x :: post) = Some (pre, x, post).
Proof.
  intros Hx. induction pre as [|y pre IH]; intros Hpre; cbn.
  - by rewrite decide_True.
  - apply Forall_cons in Hpre as [Hy Hpre]. rewrite decide_False by done.
    by rewrite IH.
Qed.

Lemma skip_less_split bs this post run tl :
  skip_less bs this post = Ok (run, tl) → post = run ++ tl.
Proof.
  revert run. induction post as [|x post IH]; intros run; cbn.
  - by intros [= <- <-].
  - destruct (iter_lt bs x this) as [[]|]; cbn; [| by intros [= <- <-] | done].
    destruct (skip_less bs this post) as [[run' tl']|]; [|done]. cbn.
    intros [= <- <-]. by rewrite (IH _ eq_refl).
Qed.

End IteratorList.

(** ** Moving an iterator forward *)

Section Advance.

Variable DATA_SIZE : nat.

Lemma moveForward_in_spec suf pos step a' p' :
  pos ≤ DATA_SIZE →
  moveForward_in DATA_SIZE suf pos step = Ok (a', p') →
  ∃ j b', suf !! j = Some b' ∧ addr b' = a' ∧ p' ≤ DATA_SIZE ∧
          j * DATA_SIZE + p' = pos + step.
Proof.
  revert pos step. induction suf as [|b rest IH]; intros pos step Hpos; [done|].
  cbn [moveForward_in]. case_decide as Hstep.
  - intros Hmove. apply IH in Hmove as (j & b' & Hj & Hb' & Hp' & Hsum); [|lia].
    exists (S j), b'. repeat split; try done. lia.
  - intros [= <- <-]. exists 0, b. repeat split; try done; lia.
Qed.

(** moveForward moves by exactly [step] bytes. *)
Lemma moveForward_position bs it step it' :
  NoDup (addr <$> bs) →
  moveForward DATA_SIZE bs it step = Ok it' →
  self it' = self it ∧ m_position it' ≤ DATA_SIZE ∧
  ∃ p, position DATA_SIZE bs it = Some p ∧
       position DATA_SIZE bs it' = Some (p + step).
Proof.
  intros Hnd. unfold moveForward, position, block_index.
  destruct (locate (m_block it) bs) as [[pre suf]|] eqn:Hloc; [|done]. cbn.
  destruct (locate_split _ _ _ _ Hloc) as (Hbs & _ & _).
  case_bool_decide as Hpos; [|done]. cbn.
  destruct (moveForward_in _ _ _ _) as [[a' p']|] eqn:Hmove; [|done]. cbn.
  intros [= <-]. cbn.
  apply moveForward_in_spec in Hmove as (j & b' & Hj & Hb' & Hp' & Hsum); [|done].
  split; [done|]. split; [done|]. eexists. split; [done|].
  assert (bs !! (length pre + j) = Some b') as Hidx
    by (by rewrite Hbs, lookup_app_r, Nat.add_comm, Nat.add_sub by lia).
  pose proof (block_index_app _ _ _ Hnd Hidx) as Hbi. rewrite Hb' in Hbi.
  unfold block_index in Hbi.
  destruct (locate a' bs) as [[pre' suf']|]; [|done]. cbn in *.
  injection Hbi as ->. f_equal. lia.
Qed.

(** operator+= leaves the iterator where moveForward put it, whatever its
    new place in the list, and touches no other iterator. *)
Lemma iterator_advance_spec {A} (a : A) (B : Buffer) i step it' s' pre it post :
  NoDup (self <$> m_iterators B) →
  find_iter i (m_iterators B) = Some (pre, it, post) →
  iterator_advance DATA_SIZE i step (a, B) = (Ok it', s') →
  ∃ run tl,
    moveForward DATA_SIZE (m_blocks B) it step = Ok it' ∧
    post = run ++ tl ∧
    s' = (a, mkBuffer (m_blocks B) (pre ++ run ++ it' :: tl) (m_begin B) (m_end B)) ∧
    find_iter i (pre ++ run ++ it' :: tl) = Some (pre ++ run, it', tl).
Proof.
  intros Hnd Hfind.
  unfold iterator_advance, mbind, ST_bind, lift, the_buffer, store, mret, ST_ret.
  cbn beta iota zeta delta [fst snd]. rewrite Hfind. cbn [defined].
  destruct (moveForward _ _ it step) as [it1|] eqn:Hmove; [|done].
  destruct (find_iter_split _ _ _ _ _ Hfind) as (Hl & Hself & Hpre).
  assert (self it1 = i) as Hself1.
  { unfold moveForward in Hmove.
    destruct (locate _ _) as [[??]|]; [|done]. cbn in Hmove.
    destruct (require _ _); [|done]. cbn in Hmove.
    destruct (moveForward_in _ _ _ _) as [[??]|]; [|done]. cbn in Hmove.
    by injection Hmove as <-. }
  unfold adjustPositionForward. rewrite (find_iter_app i pre it1 post) by done.
  cbn [defined mbind outcome_bind].
  destruct (skip_less _ it1 post) as [[run tl]|] eqn:Hskip; [|done]. cbn.
  intros [= <- <-]. exists run, tl.
  pose proof (skip_less_split _ _ _ _ _ Hskip) as Hpost.
  repeat split; [done|].
  rewrite (assoc_L (++)). apply find_iter_app; [done|].
  rewrite Hl, Hpost, fmap_app, fmap_cons, fmap_app in Hnd.
  apply NoDup_app in Hnd as (_ & _ & Hnd). apply NoDup_cons in Hnd as [Hnotin _].
  apply Forall_app. split; [done|]. apply Forall_forall. intros y Hy Heq.
  apply Hnotin. rewrite Hself, <- Heq. apply elem_of_app. left.
  by apply list_elem_of_fmap_2.
Qed.

End Advance.

(** ** getIOV *)

Section GetIOV.

Variable DATA_SIZE : nat.
Hypothesis DATA_SIZE_fits : (Z.of_nat DATA_SIZE < 2 ^ 64)%Z.

Lemma wrap64_small (hi lo : nat) :
  lo ≤ hi → hi ≤ DATA_SIZE →
  wrap64 (Z.of_nat hi - Z.of_nat lo) = Z.of_nat (hi - lo).
Proof using DATA_SIZE_fits.
  intros Hlo Hhi. unfold wrap64. rewrite Z.mod_small; lia.
Qed.

Lemma getIOV_in_spec lb e max_size suf pos :
  NoDup (addr <$> suf) → last suf = Some lb →
  pos ≤ DATA_SIZE → e ≤ DATA_SIZE → (length suf = 1 → pos ≤ e) →
  ∃ vecs,
    getIOV_in DATA_SIZE (addr lb) e suf pos max_size = Ok vecs ∧
    length vecs = min max_size (length suf) ∧
    (iov_base <$> vecs).*1 = take (length vecs) (addr <$> suf) ∧
    Forall (in_block DATA_SIZE) vecs ∧
    total_len vecs =
      if decide (length suf ≤ max_size)
      then Z.of_nat ((length suf - 1) * DATA_SIZE + e - pos)
      else Z.of_nat (max_size * DATA_SIZE - pos).
Proof using DATA_SIZE_fits.
  revert suf pos.
  induction max_size as [|n IH]; intros suf pos Hnd Hlast Hpos He Hone.
  { exists []. destruct suf; [done|]. cbn. rewrite decide_False by (cbn; lia).
    repeat split.
    all: try constructor; try lia. }
  destruct suf as [|b rest]; [done|]. cbn [getIOV_in].
  case_decide as Hb.
  - assert (rest = []) as -> by eauto using addr_last_inv.
    eexists. split; [done|]. cbn. rewrite decide_True by lia.
    rewrite wrap64_small by auto.
    repeat split.
    all: try (repeat constructor; cbn; lia).
  - assert (rest ≠ []) as Hrest by (intros ->; cbn in Hlast; congruence).
    rewrite fmap_cons, NoDup_cons in Hnd. destruct Hnd as [_ Hnd].
    destruct rest as [|b' rest']; [done|]. rewrite last_cons_cons in Hlast.
    destruct (IH (b' :: rest') 0 Hnd Hlast) as (vecs & -> & Hlen & Hbase & Hin & Htot);
      [lia | done | lia |].
    eexists. split; [done|].
    cbn [length total_len foldr fmap list_fmap iov_len iov_base].
    fold (total_len vecs). rewrite Htot, Hlen, (wrap64_small DATA_SIZE pos) by lia.
    repeat split.
    + cbn. f_equal. rewrite Hbase, Hlen. done.
    + constructor; [split; cbn; lia | done].
    + cbn [length] in *. repeat case_decide; try lia; nia.
Qed.

(** C9, amended.  For a live iterator [itr], getIOV fills
    [min max_size k] entries, where [k] is the number of blocks from the
    block of [itr] to the last one, and returns them (their count is what the
    code returns).  The entries lie in distinct blocks, each inside the
    storage of its block, so no two overlap.  Their lengths sum to the number
    of bytes from [itr] to end() when [k <= max_size]; when [max_size] is
    smaller they sum to fewer bytes. *)
Theorem getIOV_describes_blocks (B : Buffer) (itr : iterator) (max_size i : nat) :
  well_formed DATA_SIZE (m_blocks B) →
  m_end B ≤ DATA_SIZE →
  block_index (m_block itr) (m_blocks B) = Some i →
  m_position itr ≤ DATA_SIZE →
  (S i = length (m_blocks B) → m_position itr ≤ m_end B) →
  ∃ vecs n,
    getIOV DATA_SIZE B itr max_size = Ok vecs ∧
    length vecs = min max_size (length (m_blocks B) - i) ∧
    NoDup (iov_base <$> vecs).*1 ∧
    Forall (in_block DATA_SIZE) vecs ∧
    remaining DATA_SIZE B itr = Some n ∧
    (total_len vecs ≤ Z.of_nat n)%Z ∧
    (length (m_blocks B) - i ≤ max_size → total_len vecs = Z.of_nat n).
Proof using DATA_SIZE_fits.
  intros [Hnd Hdata] He Hi Hpos Hlastpos.
  unfold block_index in Hi.
  destruct (locate (m_block itr) (m_blocks B)) as [[pre suf]|] eqn:Hloc; [|done].
  cbn in Hi. injection Hi as <-.
  destruct (locate_split _ _ _ _ Hloc) as (Hbs & (b & rest & -> & Hb) & Hpre).
  assert (is_Some (last (m_blocks B))) as [lb Hlb].
  { rewrite Hbs, last_app_cons. by apply last_is_Some. }
  assert (last (b :: rest) = Some lb) as Hlast
    by (by rewrite Hbs, last_app_cons in Hlb).
  assert (NoDup (addr <$> b :: rest)) as Hnd'.
  { rewrite Hbs, fmap_app in Hnd. by apply NoDup_app in Hnd as (_ & _ & ?). }
  destruct (getIOV_in_spec lb (m_end B) max_size (b :: rest) (m_position itr))
    as (vecs & Hget & Hlen & Hbase & Hin & Htot); [done.. | |].
  { intros Hone. apply Hlastpos. rewrite Hbs, length_app. cbn in *. lia. }
  assert (length (m_blocks B) - length pre = length (b :: rest)) as Hcount
    by (rewrite Hbs, length_app; lia).
  exists vecs, ((length (b :: rest) - 1) * DATA_SIZE + m_end B - m_position itr).
  split; [|split; [|split; [|split; [done|split; [|split]]]]].
  - unfold getIOV. destruct max_size; [by destruct vecs|].
    unfold lastBlock. rewrite Hlb, Hloc. exact Hget.
  - by rewrite Hcount.
  - rewrite Hbase. eapply sublist_NoDup; [exact Hnd' | apply sublist_take].
  - unfold remaining, position, block_index, end_position. rewrite Hloc. cbn.
    f_equal. rewrite Hbs, length_app. cbn [length].
    assert (m_position itr ≤ length rest * DATA_SIZE + m_end B).
    { destruct rest; cbn [length] in *; [|nia].
      specialize (Hlastpos ltac:(rewrite Hbs, length_app; cbn; lia)). lia. }
    nia.
  - rewrite Htot. case_decide; [lia|].
    cbn [length] in *.
    assert (max_size * DATA_SIZE ≤ length rest * DATA_SIZE) by nia. lia.
  - intros Hall. rewrite Htot, decide_True by lia. done.
Qed.

End GetIOV.

(** ** appendBack *)

Section AppendBack.

Context {A : Type} `{Allocator A}.
Variable DATA_SIZE : nat.

Lemma allocate_upto_length n (a : A) :
  let '(bs, _, complete) := allocate_upto n a in
  if complete then length bs = n else length bs < n.
Proof.
  revert a. induction n as [|n IH]; intros a; cbn; [done|].
  destruct (allocate a) as [[b a1]|]; [|cbn; lia].
  specialize (IH a1). destruct (allocate_upto n a1) as [[bs a2] []]; cbn; lia.
Qed.

Lemma renumber_length last_id bs : length (renumber last_id bs) = length bs.
Proof.
  revert last_id. induction bs as [|b bs IH]; intros; cbn; [done|]. by rewrite IH.
Qed.

Lemma blocks_needed_0 size left_in_block :
  size ≤ left_in_block → blocks_needed DATA_SIZE size left_in_block = 0.
Proof. intros. unfold blocks_needed. by rewrite decide_True. Qed.

Hypothesis DATA_SIZE_pos : 0 < DATA_SIZE.

Lemma blocks_needed_S size left_in_block :
  left_in_block < size →
  blocks_needed DATA_SIZE size left_in_block =
  S (blocks_needed DATA_SIZE (size - left_in_block) DATA_SIZE).
Proof using DATA_SIZE_pos.
  intros Hlt. unfold blocks_needed. rewrite decide_False by lia.
  case_decide as Hfit.
  - replace (size - left_in_block + DATA_SIZE - 1) with
      (size - left_in_block - 1 + 1 * DATA_SIZE) by lia.
    rewrite Nat.div_add by lia. rewrite Nat.div_small; lia.
  - replace (size - left_in_block + DATA_SIZE - 1) with
      (size - left_in_block - DATA_SIZE + DATA_SIZE - 1 + 1 * DATA_SIZE) by lia.
    rewrite Nat.div_add by lia. lia.
Qed.

Lemma tail_size_step size left_in_block :
  left_in_block < size →
  tail_size DATA_SIZE size left_in_block
  = tail_size DATA_SIZE (size - left_in_block) DATA_SIZE.
Proof using DATA_SIZE_pos.
  intros Hlt. unfold tail_size. rewrite blocks_needed_S by done.
  destruct (blocks_needed DATA_SIZE (size - left_in_block) DATA_SIZE); lia.
Qed.

Lemma tail_size_bounds size left_in_block :
  size ≠ 0 →
  match blocks_needed DATA_SIZE size left_in_block with
  | 0 => size ≤ left_in_block
  | S n => left_in_block < size ∧
           0 < tail_size DATA_SIZE size left_in_block ≤ DATA_SIZE ∧
           size = left_in_block + n * DATA_SIZE
                  + tail_size DATA_SIZE size left_in_block
  end.
Proof using DATA_SIZE_pos.
  intros Hsize. unfold tail_size, blocks_needed. case_decide as Hfit; [done|].
  pose proof (Nat.div_mod_eq (size - left_in_block + DATA_SIZE - 1) DATA_SIZE) as Hdiv.
  pose proof (Nat.mod_upper_bound (size - left_in_block + DATA_SIZE - 1) DATA_SIZE
                ltac:(lia)) as Hmod.
  destruct (_ `div` _) as [|n] eqn:Hn; [nia|]. nia.
Qed.

(** The allocation loop: it takes the blocks needed from the allocator, or
    gives back those it took when the allocator fails. *)
Lemma alloc_loop_spec fuel size left_in_block new_blocks new_end (a : A) (B : Buffer) :
  size < fuel + left_in_block →
  let n := blocks_needed DATA_SIZE size left_in_block in
  let '(bs, a', complete) := allocate_upto n a in
  alloc_loop DATA_SIZE fuel size left_in_block new_blocks new_end (a, B) =
  if complete
  then (Ok (new_blocks ++ bs, if n is 0 then new_end else 0,
            tail_size DATA_SIZE size left_in_block), (a', B))
  else (Err BadAlloc, (foldl (λ a b, deallocate b a) a' (new_blocks ++ bs), B)).
Proof using DATA_SIZE_pos.
  revert size left_in_block new_blocks new_end a.
  induction fuel as [|fuel IH]; intros size left_in_block new_blocks new_end a Hfuel.
  - cbn zeta. unfold tail_size. rewrite blocks_needed_0 by lia. cbn.
    rewrite decide_False by lia. by rewrite app_nil_r.
  - cbn zeta. cbn [alloc_loop]. case_decide as Hlt.
    + rewrite tail_size_step, blocks_needed_S by done. cbn [allocate_upto].
      rewrite run_bind. unfold owning, newBlock. cbn [fst snd].
      destruct (allocate a) as [[b a1]|] eqn:Halloc.
      * specialize (IH (size - left_in_block) DATA_SIZE (new_blocks ++ [b]) 0 a1
                       ltac:(lia)).
        cbn zeta in IH.
        destruct (allocate_upto _ a1) as [[bs a2] complete].
        rewrite IH, <- !(assoc_L (++)). cbn [app].
        destruct complete; [|done].
        by destruct (blocks_needed DATA_SIZE (size - left_in_block) DATA_SIZE).
      * cbn. by rewrite app_nil_r.
    + unfold tail_size. rewrite blocks_needed_0 by lia. cbn. by rewrite app_nil_r.
Qed.

(** What appendBack does, by what the allocator delivers. *)
Lemma appendBack_spec (a : A) (B : Buffer) (size me : nat) :
  size ≠ 0 → m_end B ≤ DATA_SIZE →
  let nonempty := bool_decide (m_blocks B ≠ []) in
  let left_in_block := if nonempty then DATA_SIZE - m_end B else 0 in
  let n := blocks_needed DATA_SIZE size left_in_block in
  let '(new_blocks, a', complete) := allocate_upto n a in
  if complete then
    length new_blocks = n ∧
    ∃ B', appendBack DATA_SIZE size me (a, B)
            = (Ok (reservation B new_blocks me), (a', B')) ∧
          m_blocks B' =
            renumber (default 0%Z (id <$> lastBlock (m_blocks B))) (m_blocks B)
            ++ new_blocks ∧
          m_iterators B' = m_iterators B ++ [reservation B new_blocks me] ∧
          m_begin B' = (if nonempty then m_begin B else 0) ∧
          0 < m_end B' ≤ DATA_SIZE ∧
          end_position DATA_SIZE B' =
            (if nonempty then end_position DATA_SIZE B else 0) + size
  else
    length new_blocks < n ∧
    appendBack DATA_SIZE size me (a, B)
      = (Err BadAlloc, (foldl (λ a b, deallocate b a) a' new_blocks, B)).
Proof using DATA_SIZE_pos.
  intros Hsize Hend. cbn zeta.
  set (left_in_block := if bool_decide _ then _ else _).
  pose proof (alloc_loop_spec (S size) size left_in_block [] (m_end B) a B
                ltac:(lia)) as Hloop.
  pose proof (allocate_upto_length (blocks_needed DATA_SIZE size left_in_block) a)
    as Hlen.
  pose proof (tail_size_bounds size left_in_block Hsize) as Htail.
  cbn zeta in Hloop.
  destruct (allocate_upto _ a) as [[new_blocks a'] complete].
  assert (Hleft : (match lastBlock (m_blocks B) with
                   | Some _ => diff DATA_SIZE (m_end B)
                   | None => Ok 0
                   end) = Ok left_in_block).
  { subst left_in_block. unfold lastBlock, diff.
    destruct (m_blocks B) as [|b bs] eqn:Hbs.
    - by rewrite bool_decide_eq_false_2 by (intros ?; done).
    - rewrite bool_decide_eq_true_2 by done.
      destruct (last (b :: bs)) eqn:Hl; [|by apply last_None in Hl].
      by rewrite decide_True. }
  unfold appendBack, mbind, ST_bind, lift, the_buffer, store, mret, ST_ret.
  cbn beta iota zeta delta [fst snd].
  rewrite bool_decide_eq_true_2 by done. cbn [require].
  rewrite Hleft, Hloop.
  destruct complete; [|done].
  split; [done|]. clear Hloop Hleft. cbn [app].
  subst left_in_block. unfold reservation, lastBlock, end_position in *.
  destruct (m_blocks B) as [|b0 bs0] eqn:Hbs.
  - rewrite bool_decide_eq_false_2 in * by (intros ?; done). cbn [last renumber app].
    destruct new_blocks as [|nb nbs]; cbn [length] in Hlen; rewrite <- Hlen in Htail;
      [lia|].
    cbn. eexists. split; [reflexivity|]. cbn. rewrite <- Hlen.
    repeat split; lia.
  - rewrite bool_decide_eq_true_2 in * by done.
    destruct (last (b0 :: bs0)) as [lb|] eqn:Hl; [|by apply last_None in Hl].
    cbn. eexists. split; [reflexivity|]. cbn [m_blocks m_iterators m_begin m_end].
    cbn [length]. rewrite length_app, renumber_length.
    unfold tail_size in *.
    destruct (blocks_needed DATA_SIZE size (DATA_SIZE - m_end B)) as [|n'];
      rewrite Hlen; repeat split; try lia; nia.
Qed.

(** C7.  appendBack (size), with [size] other than 0, needs
    [blocks_needed size left] new blocks, where [left] is the room left in
    the last block.  If the allocator delivers them all, the call succeeds:
    the block list becomes the old blocks, renumbered, followed by the new
    ones, the end of the buffer moves [size] bytes on, [m_begin] stays (or
    becomes the start of the first block of an empty buffer) and the iterator
    returned, linked last, stands at the start of the reservation.  If the
    allocator fails after fewer blocks, the call fails with the allocation
    failure, the blocks obtained so far are handed back to the allocator and
    the buffer (block list, iterators, [m_begin], [m_end]) is as before. *)
Theorem appendBack_transactional (a : A) (B : Buffer) (size me : nat) :
  size ≠ 0 → m_end B ≤ DATA_SIZE →
  let nonempty := bool_decide (m_blocks B ≠ []) in
  let left_in_block := if nonempty then DATA_SIZE - m_end B else 0 in
  let n := blocks_needed DATA_SIZE size left_in_block in
  let '(new_blocks, a', complete) := allocate_upto n a in
  if complete then
    length new_blocks = n ∧
    ∃ B', appendBack DATA_SIZE size me (a, B)
            = (Ok (reservation B new_blocks me), (a', B')) ∧
          m_blocks B' =
            renumber (default 0%Z (id <$> lastBlock (m_blocks B))) (m_blocks B)
            ++ new_blocks ∧
          m_iterators B' = m_iterators B ++ [reservation B new_blocks me] ∧
          m_begin B' = (if nonempty then m_begin B else 0) ∧
          0 < m_end B' ≤ DATA_SIZE ∧
          end_position DATA_SIZE B' =
            (if nonempty then end_position DATA_SIZE B else 0) + size
  else
    length new_blocks < n ∧
    appendBack DATA_SIZE size me (a, B)
      = (Err BadAlloc, (foldl (λ a b, deallocate b a) a' new_blocks, B)).
Proof using DATA_SIZE_pos. exact (appendBack_spec a B size me). Qed.

End AppendBack.

(** ** What has computes *)

Section Has.

Variable DATA_SIZE : nat.

Lemma has_in_spec lb e suf size :
  NoDup (addr <$> suf) → last suf = Some lb →
  has_in DATA_SIZE (addr lb) e suf size
  = Ok (bool_decide (size ≤ (length suf - 1) * DATA_SIZE + e)).
Proof.
  revert size. induction suf as [|b rest IH]; intros size Hnd Hlast; [done|].
  cbn [has_in]. case_decide as Hb.
  - assert (rest = []) as -> by eauto using addr_last_inv. done.
  - destruct rest as [|b' rest']; [cbn in Hlast; congruence|].
    rewrite fmap_cons, NoDup_cons in Hnd. destruct Hnd as [_ Hnd].
    rewrite last_cons_cons in Hlast. cbn [length] in *.
    case_decide as Hsize.
    + f_equal. symmetry. apply bool_decide_eq_true_2. nia.
    + rewrite IH by done. f_equal. apply bool_decide_ext. cbn [length]. nia.
Qed.

(** What has (itr, size) computes: off the last block, whether [size] bytes
    remain from [itr] to end(); in the last block, whether [size] bytes lie
    between the start of that block and end(). *)
Lemma has_spec (B : Buffer) (itr : iterator) (size i : nat) :
  NoDup (addr <$> m_blocks B) →
  block_index (m_block itr) (m_blocks B) = Some i →
  m_position itr ≤ DATA_SIZE →
  has DATA_SIZE B itr size
  = Ok (bool_decide
          (size ≤ if decide (S i = length (m_blocks B)) then m_end B
                  else default 0 (remaining DATA_SIZE B itr))).
Proof.
  intros Hnd Hi Hpos. unfold has, remaining, position, end_position. rewrite Hi.
  unfold block_index in Hi.
  destruct (locate (m_block itr) (m_blocks B)) as [[pre suf]|] eqn:Hloc; [|done].
  cbn in Hi. injection Hi as <-.
  destruct (locate_split _ _ _ _ Hloc) as (Hbs & (b & rest & -> & Hb) & Hpre).
  assert (is_Some (last (m_blocks B))) as [lb Hlb].
  { rewrite Hbs, last_app_cons. by apply last_is_Some. }
  assert (last (b :: rest) = Some lb) as Hlast
    by (by rewrite Hbs, last_app_cons in Hlb).
  assert (NoDup (addr <$> b :: rest)) as Hnd'.
  { rewrite Hbs, fmap_app in Hnd. by apply NoDup_app in Hnd as (_ & _ & ?). }
  unfold lastBlock. rewrite Hlb. cbn [defined mbind outcome_bind option_bind default].
  rewrite Hbs, length_app. cbn [length tail].
  case_decide as Hlastblock.
  - assert (rest = []) as -> by (rewrite <- Hb in Hlastblock; eauto using addr_last_inv).
    rewrite decide_True by (cbn; lia). cbn [has_in].
    rewrite decide_True by congruence. done.
  - destruct rest as [|b' rest'].
    { cbn in Hlast. injection Hlast as ->. done. }
    rewrite (decide_False (P := S _ = _)) by (cbn [length]; lia).
    unfold diff. rewrite decide_True by done.
    cbn -[has_in Nat.mul Nat.add Nat.sub].
    rewrite fmap_cons, NoDup_cons in Hnd'. destruct Hnd' as [_ Hnd'].
    rewrite last_cons_cons in Hlast.
    case_decide as Hsize.
    + f_equal. symmetry. apply bool_decide_eq_true_2. cbn [length]. nia.
    + rewrite has_in_spec by done. f_equal. apply bool_decide_ext.
      cbn [length]. nia.
Qed.

End Has.

(** ** set and get *)

Section SetGet.

Variable DATA_SIZE : nat.

Lemma peek_poke b pos src :
  length (data b) = DATA_SIZE → pos + length src ≤ DATA_SIZE →
  ∃ b', poke DATA_SIZE b pos src = Ok b' ∧ addr b' = addr b ∧
        length (data b') = DATA_SIZE ∧
        peek DATA_SIZE b' pos (length src) = Ok src.
Proof.
  intros Hlen Hfit. unfold poke, peek. rewrite decide_True by done.
  eexists. split; [done|]. destruct b as [a i d]. cbn in *.
  rewrite decide_True by done.
  split; [done|]. split.
  - rewrite !length_app, length_take, length_drop. lia.
  - f_equal. rewrite drop_app_length' by (rewrite length_take; lia).
    by rewrite take_app_length.
Qed.

Lemma set_in_get_in suf pos buf :
  pos ≤ DATA_SIZE → sized DATA_SIZE suf →
  pos + length buf ≤ length suf * DATA_SIZE →
  ∃ suf', set_in DATA_SIZE suf pos buf = Ok suf' ∧
          addr <$> suf' = addr <$> suf ∧ sized DATA_SIZE suf' ∧
          get_in DATA_SIZE suf' pos (length buf) = Ok buf.
Proof.
  revert pos buf. induction suf as [|b rest IH]; intros pos buf Hpos Hsized Hfit.
  - destruct buf; [|cbn in Hfit; lia]. by exists [].
  - destruct buf as [|x xs].
    { exists (b :: rest). by cbn. }
    apply Forall_cons in Hsized as [Hb Hrest].
    set (buf := x :: xs) in *.
    set (copy_sz := length buf `min` (DATA_SIZE - pos)).
    assert (length (take copy_sz buf) = copy_sz) as Hcopy
      by (rewrite length_take; lia).
    destruct (peek_poke b pos (take copy_sz buf)) as (b' & Hpoke & Haddr & Hlen & Hpeek);
      [done | lia |].
    destruct (IH 0 (drop copy_sz buf)) as (rest' & Hset & Haddrs & Hsized' & Hget);
      [lia | done | rewrite length_drop; cbn [length] in Hfit; nia |].
    exists (b' :: rest'). split; [|split; [|split]].
    + change (set_in DATA_SIZE (b :: rest) pos buf)
        with (b'' ← poke DATA_SIZE b pos (take copy_sz buf);
              rest'' ← set_in DATA_SIZE rest 0 (drop copy_sz buf);
              Ok (b'' :: rest'')).
      by rewrite Hpoke, Hset.
    + by rewrite !fmap_cons, Haddr, Haddrs.
    + by constructor.
    + change (get_in DATA_SIZE (b' :: rest') pos (length buf))
        with (chunk ← peek DATA_SIZE b' pos copy_sz;
              more ← get_in DATA_SIZE rest' 0 (length buf - copy_sz);
              Ok (chunk ++ more)).
      rewrite Hcopy in Hpeek. rewrite length_drop in Hget.
      rewrite Hpeek, Hget. cbn. by rewrite take_drop.
Qed.

(** Where the storage of the blocks from the iterator on holds the bytes,
    set then get returns them. *)
Lemma get_after_set (B : Buffer) (itr : iterator) (buf : list byte) (r : nat) :
  well_formed DATA_SIZE (m_blocks B) →
  m_position itr ≤ DATA_SIZE → m_end B ≤ DATA_SIZE →
  remaining DATA_SIZE B itr = Some r → length buf ≤ r →
  ∃ B', set DATA_SIZE B itr buf = Ok B' ∧
        get DATA_SIZE B' itr (length buf) = Ok buf.
Proof.
  intros [Hnd Hsized] Hpos Hend Hr Hlen.
  destruct buf as [|x xs]; [by exists B|].
  set (buf := x :: xs) in *.
  unfold remaining, position, end_position, block_index in Hr.
  destruct (locate (m_block itr) (m_blocks B)) as [[pre suf]|] eqn:Hloc; [|done].
  cbn in Hr. injection Hr as <-.
  destruct (locate_split _ _ _ _ Hloc) as (Hbs & (b & rest & -> & Hb) & Hpre).
  rewrite Hbs in Hsized, Hlen. apply Forall_app in Hsized as [_ Hsized].
  rewrite length_app in Hlen.
  destruct (set_in_get_in (b :: rest) (m_position itr) buf)
    as (suf' & Hset & Haddrs & _ & Hget); [done | done | cbn [length] in *; nia |].
  destruct suf' as [|b' rest']; [done|].
  rewrite !fmap_cons in Haddrs. injection Haddrs as Hb' _.
  eexists. split.
  - unfold set. cbn [buf]. rewrite Hloc. cbn [defined mbind outcome_bind].
    fold buf. rewrite Hset. done.
  - unfold get. cbn [buf length m_blocks].
    rewrite locate_app by congruence. cbn [defined mbind outcome_bind].
    exact Hget.
Qed.

End SetGet.

(** ** The order of iterators *)

Section Order.

Variable DATA_SIZE : nat.

Lemma ascending_lookup bs i j b b' :
  ascending bs → bs !! i = Some b → bs !! j = Some b' → i < j → (id b < id b')%Z.
Proof.
  revert i j. induction bs as [|x bs IH]; intros i j Hasc Hi Hj Hij; [done|].
  destruct Hasc as [Hx Hasc].
  destruct i as [|i], j as [|j]; try lia; cbn in Hi, Hj.
  - injection Hi as ->. rewrite Forall_forall in Hx. apply Hx.
    by eapply list_elem_of_lookup_2.
  - eapply IH; eauto. lia.
Qed.

(** With ascending ids, operator< is the lexicographic order on
    (block index, offset). *)
Lemma iter_lt_block_order bs (a b : iterator) ia ib :
  ascending bs →
  block_index (m_block a) bs = Some ia →
  block_index (m_block b) bs = Some ib →
  iter_lt bs a b
  = Ok (bool_decide (before (ia, m_position a) (ib, m_position b))).
Proof.
  intros Hasc Ha Hb.
  destruct (block_index_lookup _ _ _ Ha) as (ba & Hia & Haddr_a & Hba).
  destruct (block_index_lookup _ _ _ Hb) as (bb & Hib & Haddr_b & Hbb).
  unfold iter_lt. rewrite Hba, Hbb. cbn. f_equal. unfold before, ptr_lt. cbn.
  destruct (lt_eq_lt_dec ia ib) as [[Hlt|Heq]|Hgt].
  - pose proof (ascending_lookup _ _ _ _ _ Hasc Hia Hib Hlt).
    rewrite (bool_decide_eq_true_2 (id ba < id bb)%Z) by done. cbn.
    symmetry. apply bool_decide_eq_true_2. lia.
  - subst ib. assert (ba = bb) as -> by congruence.
    rewrite !(bool_decide_eq_false_2 (id bb < id bb)%Z) by lia. cbn.
    rewrite decide_True by congruence.
    apply bool_decide_ext. lia.
  - pose proof (ascending_lookup _ _ _ _ _ Hasc Hib Hia Hgt).
    rewrite (bool_decide_eq_false_2 (id ba < id bb)%Z) by lia.
    rewrite (bool_decide_eq_true_2 (id bb < id ba)%Z) by done. cbn.
    symmetry. apply bool_decide_eq_false_2. lia.
Qed.

Lemma renumber_lookup last_id bs i b :
  renumber last_id bs !! i = Some b →
  (0 ≤ last_id)%Z → (last_id + Z.of_nat (length bs) ≤ 2 ^ 64)%Z →
  id b = (last_id + Z.of_nat i)%Z.
Proof.
  revert last_id i. induction bs as [|x bs IH]; intros last_id i; [done|].
  destruct i as [|i]; cbn [renumber lookup list_lookup length].
  - intros [= <-] ??. cbn. lia.
  - intros Hb ??. assert (0 < length bs) by (destruct bs; [done | cbn; lia]).
    unfold wrap64 in Hb. rewrite Z.mod_small in Hb by lia.
    rewrite (IH _ _ Hb) by lia. lia.
Qed.

(** Short of a wrap of the counter, the renumbering of appendBack leaves
    ascending ids on the blocks it goes over: those present before the
    call. *)
Lemma renumber_ascending last_id bs :
  (0 ≤ last_id)%Z → (last_id + Z.of_nat (length bs) ≤ 2 ^ 64)%Z →
  ascending (renumber last_id bs).
Proof.
  revert last_id. induction bs as [|x bs IH]; intros last_id Hlo Hhi; [done|].
  cbn [renumber ascending]. split.
  - apply Forall_forall. intros b [i Hi]%list_elem_of_lookup_1. cbn [length] in Hhi.
    assert (0 < length bs) by (destruct bs; [done | cbn; lia]).
    unfold wrap64 in Hi. rewrite Z.mod_small in Hi by lia.
    apply renumber_lookup in Hi; [|lia..]. cbn. lia.
  - cbn [length] in Hhi. destruct bs as [|y bs']; [done|]. cbn [length] in *.
    unfold wrap64. rewrite Z.mod_small by lia. apply IH; cbn [length]; lia.
Qed.

(** In a buffer whose block ids ascend along the block list, for two
    iterators [a] and [b] that point into blocks of the list: [a < b] is
    defined, and it holds iff the (block index, offset) of [a] comes before
    that of [b]; hence [a < b] implies position(a) <= position(b),
    position(a) < position(b) implies [a < b], and two iterators at one byte
    position compare less only when the first stands at the end of a block
    and the second at the start of the next. *)
Lemma lt_agrees_with_block_order (B : Buffer) (a b : iterator) (ia ib : nat) :
  ascending (m_blocks B) →
  block_index (m_block a) (m_blocks B) = Some ia →
  block_index (m_block b) (m_blocks B) = Some ib →
  m_position a ≤ DATA_SIZE → m_position b ≤ DATA_SIZE →
  let pa := ia * DATA_SIZE + m_position a in
  let pb := ib * DATA_SIZE + m_position b in
  position DATA_SIZE (m_blocks B) a = Some pa ∧
  position DATA_SIZE (m_blocks B) b = Some pb ∧
  (iter_lt (m_blocks B) a b = Ok true ∨ iter_lt (m_blocks B) a b = Ok false) ∧
  (iter_lt (m_blocks B) a b = Ok true
   ↔ before (ia, m_position a) (ib, m_position b)) ∧
  (iter_lt (m_blocks B) a b = Ok true → pa ≤ pb) ∧
  (pa < pb → iter_lt (m_blocks B) a b = Ok true) ∧
  (pa = pb → iter_lt (m_blocks B) a b = Ok true →
   m_position a = DATA_SIZE ∧ m_position b = 0).
Proof.
  intros Hasc Ha Hb Hpa Hpb. cbn zeta.
  rewrite (iter_lt_block_order _ _ _ _ _ Hasc Ha Hb).
  unfold position. rewrite Ha, Hb. cbn.
  split; [done|]. split; [done|].
  split; [destruct (bool_decide _); auto|].
  assert (Hiff : Ok (bool_decide (before (ia, m_position a) (ib, m_position b)))
                 = Ok true ↔ before (ia, m_position a) (ib, m_position b)).
  { split.
    - intros [= Hd]. by apply bool_decide_eq_true in Hd.
    - intros Hd. f_equal. by apply bool_decide_eq_true. }
  rewrite Hiff. unfold before; cbn.
  split; [done|]. repeat split; intros; nia.
Qed.

End Order.

(** ** The iterator list stays sorted *)

Section Sorted.

Context {A : Type} `{Allocator A}.
Variable DATA_SIZE : nat.

Implicit Types (B : Buffer) (bs : list Block) (l : list iterator).

Local Ltac by_keys :=
  unfold place, before in *; cbn [fst snd] in *; nia.

Lemma key_inside bs x :
  inside DATA_SIZE bs x →
  block_index (m_block x) bs = Some (key bs x).1 ∧ (key bs x).2 ≤ DATA_SIZE.
Proof. intros [[i Hi] Hpos]. unfold key. by rewrite Hi. Qed.

Lemma position_inside bs x :
  inside DATA_SIZE bs x → position DATA_SIZE bs x = Some (place DATA_SIZE bs x).
Proof. intros [Hx _]%key_inside. unfold position. by rewrite Hx. Qed.

Lemma iter_lt_inside bs x y :
  ascending bs → inside DATA_SIZE bs x → inside DATA_SIZE bs y →
  iter_lt bs x y = Ok (bool_decide (before (key bs x) (key bs y))).
Proof.
  intros Hasc [Hx _]%key_inside [Hy _]%key_inside.
  by rewrite (iter_lt_block_order _ _ _ _ _ Hasc Hx Hy).
Qed.

(** The order of the keys is the order of the byte positions, but for the
    end of a block and the start of the next, which are one position. *)
Lemma before_place bs x y :
  inside DATA_SIZE bs x → inside DATA_SIZE bs y →
  (before (key bs x) (key bs y) → place DATA_SIZE bs x ≤ place DATA_SIZE bs y) ∧
  (place DATA_SIZE bs x < place DATA_SIZE bs y → before (key bs x) (key bs y)).
Proof.
  intros [_ Hx]%key_inside [_ Hy]%key_inside. split; intros ?; by_keys.
Qed.

(** Any list of distinct iterators inside the blocks whose positions do not
    descend may take the place of the iterator list. *)
Lemma orderly_relist B l :
  orderly DATA_SIZE B →
  NoDup (self <$> l) → Forall (inside DATA_SIZE (m_blocks B)) l →
  StronglySorted le (place DATA_SIZE (m_blocks B) <$> l) →
  orderly DATA_SIZE (mkBuffer (m_blocks B) l (m_begin B) (m_end B)).
Proof. intros [] Hnames Hin Hsorted. by split. Qed.

Lemma find_iter_elem i l :
  i ∈ self <$> l → ∃ pre x post, find_iter i l = Some (pre, x, post).
Proof.
  induction l as [|y l IH]; cbn; [by intros ?%elem_of_nil|].
  case_decide as Hy; [by eauto|].
  intros [?|Hi]%elem_of_cons; [done|].
  destruct (IH Hi) as (pre & x & post & ->). by eauto.
Qed.

Lemma find_iter_without i pre x post pre0 o post0 :
  self x ≠ i → find_iter i (pre ++ post) = Some (pre0, o, post0) →
  ∃ pre1 post1, find_iter i (pre ++ x :: post) = Some (pre1, o, post1).
Proof.
  intros Hx. revert pre0. induction pre as [|y pre IH]; intros pre0; cbn.
  - rewrite decide_False by done. intros ->. by eauto.
  - case_decide as Hy; [intros [= <- <- <-]; by eauto|].
    destruct (find_iter i (pre ++ post)) as [[[pre1 o1] post1]|]; [|done].
    cbn. intros [= <- <- <-].
    destruct (IH _ eq_refl) as (pre2 & post2 & ->). by eauto.
Qed.

Lemma last_block_index bs lb :
  NoDup (addr <$> bs) → last bs = Some lb →
  block_index (addr lb) bs = Some (length bs - 1).
Proof.
  intros Hnd Hlast. apply block_index_app; [done|].
  by rewrite Nat.sub_1_r, <- last_lookup.
Qed.

Lemma begin_keeps_order (a : A) B me :
  orderly DATA_SIZE B → admissible DATA_SIZE B (Begin me) →
  ∃ B', run_op DATA_SIZE (Begin me) (a, B) = (Ok tt, (a, B')) ∧
        orderly DATA_SIZE B'.
Proof.
  intros Hord (Hme & Hbs & Hplaces).
  destruct (m_blocks B) as [|fb rest] eqn:Hblocks; [done|].
  eexists. split.
  - unfold run_op, begin, the_buffer, store, lift.
    unfold mbind, ST_bind, mret, ST_ret. cbn. rewrite Hblocks. cbn. reflexivity.
  - rewrite <- Hblocks. apply orderly_relist; [done | ..].
    + rewrite fmap_cons. by apply NoDup_cons; split; [|apply Hord].
    + apply Forall_cons; split; [|apply Hord].
      split; [|apply Hord]. rewrite Hblocks. unfold block_index. cbn.
      by rewrite decide_True.
    + rewrite fmap_cons. apply StronglySorted_cons. split; [|apply Hord].
      assert (place DATA_SIZE (m_blocks B) (mkIter me (addr fb) (m_begin B)) = m_begin B)
        as ->.
      { rewrite Hblocks. unfold place, key, block_index. cbn. by rewrite decide_True. }
      by rewrite <- Hblocks in Hplaces.
Qed.

Lemma end_keeps_order (a : A) B me :
  orderly DATA_SIZE B → admissible DATA_SIZE B (End me) →
  ∃ B', run_op DATA_SIZE (End me) (a, B) = (Ok tt, (a, B')) ∧
        orderly DATA_SIZE B'.
Proof.
  intros Hord (Hme & Hbs & Hplaces).
  assert (is_Some (last (m_blocks B))) as [lb Hlb] by (by apply last_is_Some).
  pose proof (last_block_index _ _ (orderly_addrs _ _ Hord) Hlb) as Hindex.
  eexists. split.
  - unfold run_op, end_, the_buffer, store, lift.
    unfold mbind, ST_bind, mret, ST_ret. cbn. unfold lastBlock. rewrite Hlb.
    cbn. reflexivity.
  - apply orderly_relist; [done | ..].
    + rewrite fmap_app, (comm (++)). by apply NoDup_cons; split; [|apply Hord].
    + apply Forall_app; split; [apply Hord|]. apply Forall_singleton.
      split; [cbn; by rewrite Hindex | apply Hord].
    + rewrite fmap_app. apply StronglySorted_app.
      split; [|split; [apply Hord | repeat constructor]].
      intros p q Hp ->%list_elem_of_singleton.
      unfold place at 1, key. cbn. rewrite Hindex. cbn.
      rewrite Forall_forall in Hplaces. by apply Hplaces.
Qed.

(** Taking an iterator off the list. *)
Lemma orderly_without B pre x post :
  orderly DATA_SIZE B → m_iterators B = pre ++ x :: post →
  orderly DATA_SIZE (mkBuffer (m_blocks B) (pre ++ post) (m_begin B) (m_end B)) ∧
  self x ∉ self <$> pre ++ post.
Proof.
  intros Hord Hl.
  pose proof (orderly_names _ _ Hord) as Hnames.
  pose proof (orderly_inside _ _ Hord) as Hin.
  pose proof (orderly_sorted _ _ Hord) as Hsorted.
  rewrite Hl in Hnames, Hin, Hsorted.
  rewrite fmap_app, fmap_cons, <- Permutation_middle, NoDup_cons, <- fmap_app in Hnames.
  destruct Hnames as [Hx Hnames]. split; [|done].
  apply orderly_relist; [done.. | |].
  - apply Forall_app in Hin as [? [_ ?]%Forall_cons]. by apply Forall_app.
  - rewrite fmap_app, fmap_cons in Hsorted. rewrite fmap_app.
    apply StronglySorted_app in Hsorted as (Hcross & ? & [_ ?]%StronglySorted_cons).
    apply StronglySorted_app. repeat split; try done.
    intros p q Hp Hq. apply Hcross; [done|]. by right.
Qed.

(** Linking an iterator right before another one at the same place. *)
Lemma orderly_with_copy B pre o post me :
  orderly DATA_SIZE B → m_iterators B = pre ++ o :: post →
  me ∉ self <$> m_iterators B →
  orderly DATA_SIZE
          (mkBuffer (m_blocks B)
                    (pre ++ mkIter me (m_block o) (m_position o) :: o :: post)
                    (m_begin B) (m_end B)).
Proof.
  intros Hord Hl Hme.
  pose proof (orderly_names _ _ Hord) as Hnames.
  pose proof (orderly_inside _ _ Hord) as Hin.
  pose proof (orderly_sorted _ _ Hord) as Hsorted.
  rewrite Hl in Hme, Hnames, Hin, Hsorted.
  apply orderly_relist; [done | ..].
  - rewrite fmap_app, fmap_cons, <- Permutation_middle, <- fmap_app.
    by apply NoDup_cons.
  - apply Forall_app in Hin as [? Hin]. apply Forall_app. split; [done|].
    apply Forall_cons. split; [|done]. by apply Forall_cons in Hin as [? _].
  - rewrite fmap_app, fmap_cons in Hsorted. rewrite fmap_app, !fmap_cons.
    change (place DATA_SIZE (m_blocks B) (mkIter me (m_block o) (m_position o)))
      with (place DATA_SIZE (m_blocks B) o).
    apply StronglySorted_app in Hsorted as (Hcross & ? & Hsorted).
    apply StronglySorted_app. split; [|split; [done|]].
    + intros p q Hp [->|Hq]%elem_of_cons; apply Hcross; try done. by left.
    + apply StronglySorted_cons. split; [|done].
      apply Forall_cons. split; [done|].
      by apply StronglySorted_cons in Hsorted as [? _].
Qed.

Lemma destroy_keeps_order (a : A) B i :
  orderly DATA_SIZE B → admissible DATA_SIZE B (Destroy i) →
  ∃ B', run_op DATA_SIZE (Destroy i) (a, B) = (Ok tt, (a, B')) ∧
        orderly DATA_SIZE B'.
Proof.
  intros Hord (pre & x & post & Hfind)%find_iter_elem.
  destruct (find_iter_split _ _ _ _ _ Hfind) as (Hl & _ & _).
  eexists. split.
  - unfold run_op, iterator_destroy, the_buffer, store.
    unfold mbind, ST_bind. cbn. unfold unlink. rewrite Hfind. reflexivity.
  - by apply (orderly_without B pre x post).
Qed.

Lemma copy_keeps_order (a : A) B other me :
  orderly DATA_SIZE B → admissible DATA_SIZE B (Copy other me) →
  ∃ B', run_op DATA_SIZE (Copy other me) (a, B) = (Ok tt, (a, B')) ∧
        orderly DATA_SIZE B'.
Proof.
  intros Hord [Hme (pre & o & post & Hfind)%find_iter_elem].
  destruct (find_iter_split _ _ _ _ _ Hfind) as (Hl & _ & _).
  eexists. split.
  - unfold run_op, iterator_copy, link_before, the_buffer, store, lift.
    unfold mbind, ST_bind, mret, ST_ret. cbn. rewrite Hfind. cbn. reflexivity.
  - by apply orderly_with_copy.
Qed.

Lemma assign_keeps_order (a : A) B me other :
  orderly DATA_SIZE B → admissible DATA_SIZE B (Assign me other) →
  ∃ B', run_op DATA_SIZE (Assign me other) (a, B) = (Ok tt, (a, B')) ∧
        orderly DATA_SIZE B'.
Proof.
  intros Hord [Hme Hother]. cbn [run_op]. unfold iterator_assign.
  case_decide as Hsame; [by exists B|].
  destruct (find_iter_elem _ _ Hme) as (pre & x & post & Hfind).
  destruct (find_iter_split _ _ _ _ _ Hfind) as (Hl & Hx & _).
  destruct (orderly_without B pre x post Hord Hl) as [Hord' Hfresh].
  assert (other ∈ self <$> pre ++ post) as Hother'.
  { rewrite Hl, fmap_app, fmap_cons, <- Permutation_middle, <- fmap_app in Hother.
    apply elem_of_cons in Hother as [?|?]; [congruence|done]. }
  destruct (find_iter_elem _ _ Hother') as (pre' & o & post' & Hfind').
  destruct (find_iter_split _ _ _ _ _ Hfind') as (Hl' & Ho & _).
  destruct (find_iter_without other pre x post pre' o post')
    as (pre0 & post0 & Hfind0); [congruence | done |]. rewrite <- Hl in Hfind0.
  eexists. split.
  - unfold link_before, the_buffer, store, lift.
    unfold mbind, ST_bind, mret, ST_ret. cbn. rewrite Hfind0, Hfind. cbn.
    unfold unlink. rewrite Hfind, Hfind'. cbn. rewrite <- Hx.
    reflexivity.
  - by apply (orderly_with_copy _ pre' o post' (self x) Hord').
Qed.

Lemma moveForward_in_total suf p step :
  suf ≠ [] → p ≤ DATA_SIZE → p + step ≤ length suf * DATA_SIZE →
  ∃ r, moveForward_in DATA_SIZE suf p step = Ok r.
Proof.
  revert p step. induction suf as [|b rest IH]; intros p step Hsuf Hp Hfit; [done|].
  cbn [moveForward_in]. case_decide as Hstep; [|by eauto].
  cbn [length] in Hfit. apply IH; [|lia..].
  intros ->. cbn in Hfit. lia.
Qed.

(** moveForward, where it returns: the iterator is inside the blocks and
    [step] bytes further. *)
Lemma moveForward_place bs it step it' :
  NoDup (addr <$> bs) → moveForward DATA_SIZE bs it step = Ok it' →
  self it' = self it ∧ inside DATA_SIZE bs it ∧ inside DATA_SIZE bs it' ∧
  place DATA_SIZE bs it' = place DATA_SIZE bs it + step.
Proof.
  intros Hnd. unfold moveForward, place, key, inside, block_index.
  destruct (locate (m_block it) bs) as [[pre suf]|] eqn:Hloc; [|done]. cbn.
  destruct (locate_split _ _ _ _ Hloc) as (Hbs & _ & _).
  case_bool_decide as Hp; [|done]. cbn.
  destruct (moveForward_in DATA_SIZE suf (m_position it) step) as [[a' p']|] eqn:Hmove;
    [|done].
  cbn. intros [= <-]. cbn.
  apply moveForward_in_spec in Hmove as (j & b' & Hj & <- & Hp' & Hsum); [|done].
  assert (block_index (addr b') bs = Some (length pre + j)) as Hindex'.
  { apply block_index_app; [done|]. rewrite Hbs, lookup_app_r by lia.
    by replace (length pre + j - length pre) with j by lia. }
  unfold block_index in Hindex'.
  destruct (locate (addr b') bs) as [[pre' suf']|]; [|done].
  cbn in Hindex' |- *. injection Hindex' as ->.
  repeat split; try done; try by eauto. lia.
Qed.

Lemma moveForward_total bs it step :
  inside DATA_SIZE bs it →
  place DATA_SIZE bs it + step ≤ length bs * DATA_SIZE →
  ∃ it', moveForward DATA_SIZE bs it step = Ok it'.
Proof.
  intros [[ia Hindex] Hp] Hfit.
  unfold place, key in Hfit. rewrite Hindex in Hfit. cbn in Hfit.
  unfold block_index in Hindex. unfold moveForward.
  destruct (locate (m_block it) bs) as [[pre suf]|] eqn:Hloc; [|done].
  cbn in Hindex. injection Hindex as Hindex.
  destruct (locate_split _ _ _ _ Hloc) as (Hbs & (b & rest & -> & Hb) & _).
  cbn [defined mbind outcome_bind]. rewrite bool_decide_eq_true_2 by done.
  cbn [require mbind outcome_bind].
  destruct (moveForward_in_total (b :: rest) (m_position it) step)
    as ([a' p'] & ->); [done | done | |by eauto].
  rewrite Hbs, length_app in Hfit. rewrite <- Hindex in Hfit. lia.
Qed.

(** adjustPositionForward passes the iterators that compare less and stops
    at the first that does not. *)
Lemma skip_less_total bs this post :
  ascending bs → inside DATA_SIZE bs this → Forall (inside DATA_SIZE bs) post →
  ∃ run tl, skip_less bs this post = Ok (run, tl) ∧ post = run ++ tl ∧
            Forall (λ x, before (key bs x) (key bs this)) run ∧
            ∀ t, head tl = Some t → ¬ before (key bs t) (key bs this).
Proof.
  intros Hasc Hthis. induction post as [|x post IH]; intros Hpost.
  - exists [], []. by repeat split.
  - apply Forall_cons in Hpost as [Hx Hpost]. cbn [skip_less].
    rewrite iter_lt_inside by done. cbn [mbind outcome_bind].
    case_bool_decide as Hlt.
    + destruct (IH Hpost) as (run & tl & -> & -> & Hrun & Htl).
      exists (x :: run), tl. repeat split; try done. by constructor.
    + exists [], (x :: post). repeat split; try done.
      by intros t [= <-].
Qed.

(** [i += step] within the buffer, the block ids ascending: it returns,
    the iterator is [step] bytes further and linked after the iterators it
    has passed, and the buffer is in order. *)
Lemma iterator_advance_returns (a : A) B i step pre it post :
  orderly DATA_SIZE B → ascending (m_blocks B) →
  find_iter i (m_iterators B) = Some (pre, it, post) →
  place DATA_SIZE (m_blocks B) it + step ≤ end_position DATA_SIZE B →
  ∃ it' run tl,
    post = run ++ tl ∧ self it' = i ∧
    place DATA_SIZE (m_blocks B) it' = place DATA_SIZE (m_blocks B) it + step ∧
    let B' := mkBuffer (m_blocks B) (pre ++ run ++ it' :: tl) (m_begin B) (m_end B) in
    iterator_advance DATA_SIZE i step (a, B) = (Ok it', (a, B')) ∧
    find_iter i (m_iterators B') = Some (pre ++ run, it', tl) ∧
    orderly DATA_SIZE B'.
Proof.
  intros Hord Hasc Hfind Hadm.
  destruct (find_iter_split _ _ _ _ _ Hfind) as (Hl & Hit & Hpre).
  pose proof (orderly_names _ _ Hord) as Hnames.
  pose proof (orderly_inside _ _ Hord) as Hin.
  pose proof (orderly_sorted _ _ Hord) as Hsorted.
  pose proof (orderly_bounds _ _ Hord) as [_ Hend].
  pose proof (orderly_addrs _ _ Hord) as Hnd.
  rewrite Hl in Hnames, Hin, Hsorted.
  apply Forall_app in Hin as [Hin_pre [Hin_it Hin_post]%Forall_cons].
  destruct (moveForward_total (m_blocks B) it step) as [it' Hmove]; [done | |].
  { unfold end_position in Hadm. destruct Hin_it as [[j Hj] _].
    destruct (block_index_lookup _ _ _ Hj) as (b & Hb%lookup_lt_Some & _).
    nia. }
  destruct (moveForward_place _ _ _ _ Hnd Hmove) as (Hself & _ & Hin' & Hpos').
  destruct (skip_less_total (m_blocks B) it' post)
    as (run & tl & Hskip & -> & Hrun & Htl); [done..|].
  apply Forall_app in Hin_post as [Hin_run Hin_tl].
  assert (Forall (λ y, self y ≠ i) (pre ++ run)) as Hfresh.
  { apply Forall_app. split; [done|]. apply Forall_forall. intros y Hy Heq.
    rewrite fmap_app, fmap_cons, fmap_app in Hnames.
    apply NoDup_app in Hnames as (_ & _ & [Hnotin _]%NoDup_cons).
    apply Hnotin. rewrite Hit, <- Heq. apply elem_of_app. left.
    by apply list_elem_of_fmap_2. }
  exists it', run, tl. split; [done|]. split; [congruence|]. split; [done|].
  cbn zeta. split; [|split].
  - unfold iterator_advance, adjustPositionForward, the_buffer, store, lift.
    unfold mbind, ST_bind, mret, ST_ret. cbn. rewrite Hfind. cbn.
    rewrite Hmove. cbn. rewrite find_iter_app by congruence. cbn.
    rewrite Hskip. cbn. reflexivity.
  - cbn [m_iterators]. rewrite (assoc_L (++)). apply find_iter_app; [congruence | done].
  - apply orderly_relist; [done | ..].
    + rewrite !fmap_app, fmap_cons, <- !Permutation_middle, Hself.
      by rewrite fmap_app, fmap_cons, fmap_app, <- Permutation_middle in Hnames.
    + apply Forall_app. split; [done|]. apply Forall_app. split; [done|].
      by apply Forall_cons.
    + rewrite fmap_app, fmap_cons, fmap_app in Hsorted.
      rewrite !fmap_app, fmap_cons.
      apply StronglySorted_app in Hsorted as (Hcross & Hs_pre & Hs_post).
      apply StronglySorted_cons in Hs_post as [Hfirst Hs_post].
      apply StronglySorted_app in Hs_post as (Hcross' & Hs_run & Hs_tl).
      apply StronglySorted_app. split; [|split; [done|]].
      { intros p q Hp [Hq|[->|Hq]%elem_of_cons]%elem_of_app.
        - apply Hcross; [done|]. right. apply elem_of_app. by left.
        - assert (p ≤ place DATA_SIZE (m_blocks B) it) by (apply Hcross; [done | by left]).
          lia.
        - apply Hcross; [done|]. right. apply elem_of_app. by right. }
      apply StronglySorted_app. split; [|split; [done|]].
      { intros p q Hp [->|Hq]%elem_of_cons; [|by apply Hcross'].
        apply list_elem_of_fmap in Hp as (x & -> & Hx).
        rewrite Forall_forall in Hrun, Hin_run.
        by apply before_place; auto. }
      apply StronglySorted_cons. split; [|done].
      destruct tl as [|t tl']; [constructor|]. rewrite fmap_cons in *.
      specialize (Htl t eq_refl).
      apply Forall_cons in Hin_tl as [Hin_t _].
      assert (place DATA_SIZE (m_blocks B) it' ≤ place DATA_SIZE (m_blocks B) t) as Ht.
      { destruct (decide (place DATA_SIZE (m_blocks B) it' ≤ place DATA_SIZE (m_blocks B) t));
          [done|].
        exfalso. apply Htl. apply before_place; [done..|]. lia. }
      apply StronglySorted_cons in Hs_tl as [Hrest _].
      apply Forall_cons. split; [done|].
      eapply Forall_impl; [exact Hrest|]. intros q Hq. cbn beta in *. lia.
Qed.

Lemma advance_keeps_order (a : A) B i step :
  orderly DATA_SIZE B → admissible DATA_SIZE B (Advance i step) →
  ∃ B', run_op DATA_SIZE (Advance i step) (a, B) = (Ok tt, (a, B')) ∧
        orderly DATA_SIZE B'.
Proof.
  intros Hord [Hasc Hadm].
  destruct (find_iter i (m_iterators B)) as [[[pre it] post]|] eqn:Hfind; [|done].
  destruct (iterator_advance_returns a B i step pre it post Hord Hasc Hfind Hadm)
    as (it' & run & tl & _ & _ & _ & Hrun & _ & Hord').
  eexists. split; [|exact Hord'].
  cbn [run_op]. by rewrite run_bind, Hrun.
Qed.

End Sorted.

(** ** Iterators and changes of the block list *)

Section Reblock.

Variable DATA_SIZE : nat.

Implicit Types (B : Buffer) (bs : list Block) (l : list iterator).

(** Only the addresses of the blocks matter to [locate]. *)
Lemma block_index_addrs a bs bs' :
  addr <$> bs = addr <$> bs' → block_index a bs = block_index a bs'.
Proof.
  unfold block_index. revert bs'.
  induction bs as [|b bs IH]; intros [|b' bs']; try done.
  rewrite !fmap_cons. intros [= Hb Hbs]. cbn. rewrite Hb.
  case_decide; [done|]. specialize (IH _ Hbs).
  destruct (locate a bs) as [[? ?]|], (locate a bs') as [[? ?]|]; cbn in *; congruence.
Qed.

Lemma key_addrs bs bs' x : addr <$> bs = addr <$> bs' → key bs x = key bs' x.
Proof. intros Heq. unfold key. by rewrite (block_index_addrs _ _ _ Heq). Qed.

Lemma place_addrs bs bs' x :
  addr <$> bs = addr <$> bs' → place DATA_SIZE bs x = place DATA_SIZE bs' x.
Proof. intros Heq. unfold place. by rewrite (key_addrs _ _ _ Heq). Qed.

Lemma inside_addrs bs bs' x :
  addr <$> bs = addr <$> bs' → inside DATA_SIZE bs x → inside DATA_SIZE bs' x.
Proof. intros Heq. unfold inside. by rewrite (block_index_addrs _ _ _ Heq). Qed.

(** Blocks spliced at the tail leave the iterators where they are. *)
Lemma block_index_app_l a bs new i :
  block_index a bs = Some i → block_index a (bs ++ new) = Some i.
Proof.
  unfold block_index.
  destruct (locate a bs) as [[pre suf]|] eqn:Hloc; [|done].
  destruct (locate_split _ _ _ _ Hloc) as (-> & (b & rest & -> & Hb) & Hpre).
  rewrite <- (assoc_L (++)). cbn [app]. by rewrite locate_app.
Qed.

Lemma inside_app_l bs new x :
  inside DATA_SIZE bs x →
  inside DATA_SIZE (bs ++ new) x ∧
  place DATA_SIZE (bs ++ new) x = place DATA_SIZE bs x.
Proof.
  intros [[i Hi] Hp]. unfold inside, place, key.
  by rewrite (block_index_app_l _ _ new _ Hi), Hi.
Qed.

(** Blocks taken from the head move the iterators by whole blocks. *)
Lemma block_index_drop a bs i k :
  NoDup (addr <$> bs) → block_index a bs = Some i → k ≤ i →
  block_index a (drop k bs) = Some (i - k).
Proof.
  intros Hnd Hi Hk. destruct (block_index_lookup _ _ _ Hi) as (b & Hb & <- & _).
  apply block_index_app.
  - rewrite fmap_drop. eapply sublist_NoDup; [exact Hnd|]. apply sublist_drop.
  - rewrite lookup_drop. by replace (k + (i - k)) with i by lia.
Qed.

(** Blocks taken from the tail leave the iterators before them in place. *)
Lemma block_index_take a bs i n :
  NoDup (addr <$> bs) → block_index a bs = Some i → i < n →
  block_index a (take n bs) = Some i.
Proof.
  intros Hnd Hi Hn. destruct (block_index_lookup _ _ _ Hi) as (b & Hb & <- & _).
  apply block_index_app.
  - rewrite fmap_take. eapply sublist_NoDup; [exact Hnd|]. apply sublist_take.
  - by rewrite lookup_take_lt.
Qed.

Lemma renumber_addrs last_id bs : addr <$> renumber last_id bs = addr <$> bs.
Proof.
  revert last_id. induction bs as [|b bs IH]; intros; cbn; [done|]. by rewrite IH.
Qed.

(** A block index is below the number of blocks. *)
Lemma block_index_lt a bs i : block_index a bs = Some i → i < length bs.
Proof.
  intros Hi. destruct (block_index_lookup _ _ _ Hi) as (b & Hb & _).
  by eapply lookup_lt_Some.
Qed.

(** Sorted positions stay sorted when each moves by the same map. *)
Lemma sorted_places_map (f : nat → nat) bs bs' l l' :
  (∀ p q, p ≤ q → f p ≤ f q) →
  Forall2 (λ x x', place DATA_SIZE bs' x' = f (place DATA_SIZE bs x)) l l' →
  StronglySorted le (place DATA_SIZE bs <$> l) →
  StronglySorted le (place DATA_SIZE bs' <$> l').
Proof.
  intros Hmono Hrel. induction Hrel as [|x x' l l' Hx Hrel IH]; cbn; [done|].
  rewrite !StronglySorted_cons. intros [Hall Hsorted]. split; [|by apply IH].
  rewrite Forall_fmap in Hall |- *. clear IH Hsorted.
  induction Hrel as [|y y' l l' Hy Hrel IH]; [done|].
  apply Forall_cons in Hall as [Hxy Hall]. constructor; [|by apply IH].
  cbn in *. rewrite Hx, Hy. by apply Hmono.
Qed.

End Reblock.

(** ** Order under appendBack and addBack *)

Section Append.

Context {A : Type} `{Allocator A}.
Variable DATA_SIZE : nat.
Hypothesis DATA_SIZE_pos : 0 < DATA_SIZE.

Implicit Types (B : Buffer) (bs : list Block) (l : list iterator).

(** Iterators that keep their places under a change of the block list. *)
Lemma same_places bs bs' l :
  (∀ x, inside DATA_SIZE bs x →
        inside DATA_SIZE bs' x ∧ place DATA_SIZE bs' x = place DATA_SIZE bs x) →
  Forall (inside DATA_SIZE bs) l →
  Forall (inside DATA_SIZE bs') l ∧
  place DATA_SIZE bs' <$> l = place DATA_SIZE bs <$> l.
Proof.
  intros Hsame Hin. split.
  - eapply Forall_impl; [exact Hin|]. intros x Hx. by apply Hsame.
  - apply Forall_fmap_ext. eapply Forall_impl; [exact Hin|].
    intros x Hx. by apply Hsame.
Qed.

Lemma renumber_app_places last_id bs new x :
  inside DATA_SIZE bs x →
  inside DATA_SIZE (renumber last_id bs ++ new) x ∧
  place DATA_SIZE (renumber last_id bs ++ new) x = place DATA_SIZE bs x.
Proof.
  intros Hx.
  apply (inside_addrs _ _ (renumber last_id bs)) in Hx as Hx';
    [|by rewrite renumber_addrs].
  destruct (inside_app_l DATA_SIZE _ new _ Hx') as [? ->]. split; [done|].
  apply place_addrs. by rewrite renumber_addrs.
Qed.

Lemma no_blocks_no_iterators B :
  orderly DATA_SIZE B → m_blocks B = [] → m_iterators B = [].
Proof.
  intros Hord Hbs. pose proof (orderly_inside _ _ Hord) as Hin.
  rewrite Hbs in Hin. destruct (m_iterators B) as [|x l]; [done|].
  apply Forall_cons in Hin as [[[i Hi] _] _]. done.
Qed.

Lemma blocks_needed_first size : size ≠ 0 → blocks_needed DATA_SIZE size 0 ≠ 0.
Proof using DATA_SIZE_pos.
  intros Hsize. unfold blocks_needed. rewrite decide_False by lia.
  intros Hdiv. apply Nat.div_small_iff in Hdiv; lia.
Qed.

(** What appendBack leaves when it returns. *)
Lemma appendBack_returns (a : A) B size me itr s' :
  orderly DATA_SIZE B → appendBack DATA_SIZE size me (a, B) = (Ok itr, s') →
  ∃ new_blocks last_id,
    m_blocks s'.2 = renumber last_id (m_blocks B) ++ new_blocks ∧
    m_iterators s'.2 = m_iterators B ++ [itr] ∧
    self itr = me ∧
    inside DATA_SIZE (m_blocks s'.2) itr ∧
    m_begin s'.2 ≤ DATA_SIZE ∧ m_end s'.2 ≤ DATA_SIZE ∧
    (m_blocks B ≠ [] →
     place DATA_SIZE (m_blocks s'.2) itr = end_position DATA_SIZE B ∧
     m_begin s'.2 = m_begin B ∧
     end_position DATA_SIZE s'.2 = end_position DATA_SIZE B + size) ∧
    size ≠ 0.
Proof using DATA_SIZE_pos.
  intros Hord Hrun.
  assert (size ≠ 0) as Hsize by (intros ->; done).
  pose proof (orderly_bounds _ _ Hord) as [Hbegin Hend].
  pose proof (appendBack_spec DATA_SIZE DATA_SIZE_pos a B size me Hsize Hend)
    as Hspec.
  cbn zeta in Hspec.
  pose proof (blocks_needed_first size Hsize) as Hfirst.
  destruct (allocate_upto _ a) as [[new_blocks a'] []];
    [|destruct Hspec as [_ Hspec]; congruence].
  destruct Hspec as (Hlen & B' & Happ & Hblocks & Hits & Hbegin' & Hend' & Hendpos).
  rewrite Happ in Hrun. injection Hrun as <- <-. cbn [snd].
  exists new_blocks, (default 0%Z (id <$> lastBlock (m_blocks B))).
  split; [done|]. split; [done|].
  unfold reservation, lastBlock in *.
  destruct (last (m_blocks B)) as [lb|] eqn:Hlast.
  - assert (m_blocks B ≠ []) as Hne by (intros Hnil; by rewrite Hnil in Hlast).
    rewrite bool_decide_eq_true_2 in * by done.
    pose proof (last_block_index _ _ (orderly_addrs _ _ Hord) Hlast) as Hindex.
    assert (inside DATA_SIZE (m_blocks B) (mkIter me (addr lb) (m_end B))) as Hin
      by (split; cbn; [by rewrite Hindex | done]).
    rewrite Hblocks.
    destruct (renumber_app_places (default 0%Z (id <$> Some lb)) (m_blocks B)
                new_blocks _ Hin) as [Hin' ->].
    split; [done|]. split; [done|]. split; [lia|]. split; [lia|]. split; [|done].
    intros _. split; [|split; lia].
    unfold place, key, end_position. cbn. by rewrite Hindex.
  - apply last_None in Hlast. rewrite Hlast in *.
    rewrite bool_decide_eq_false_2 in * by (intros ?; done).
    destruct new_blocks as [|nb nbs]; [done|].
    rewrite Hblocks. cbn [renumber app].
    assert (block_index (addr nb) (nb :: nbs) = Some 0) as Hindex
      by (unfold block_index; cbn; by rewrite decide_True).
    split; [done|]. split; [split; cbn [m_block m_position]; [by rewrite Hindex | lia]|].
    split; [lia|]. split; [lia|]. done.
Qed.

Lemma appendBack_keeps_order (a : A) B size me s' :
  orderly DATA_SIZE B → admissible DATA_SIZE B (AppendBack size me) →
  run_op DATA_SIZE (AppendBack size me) (a, B) = (Ok tt, s') →
  NoDup (addr <$> m_blocks s'.2) → orderly DATA_SIZE s'.2.
Proof using DATA_SIZE_pos.
  intros Hord [Hme Hplaces] Hrun Hnd. cbn [run_op] in Hrun. rewrite run_bind in Hrun.
  destruct (appendBack DATA_SIZE size me (a, B)) as [[itr|?] s1] eqn:Happ; [|done].
  injection Hrun as <-.
  destruct (appendBack_returns _ _ _ _ _ _ Hord Happ)
    as (new & last_id & Hblocks & Hits & Hself & Hin & Hb & He & Hne & _).
  destruct (same_places (m_blocks B) (m_blocks s1.2) (m_iterators B))
    as [Hin_old Hplaces_old]; [|apply Hord|].
  { intros x Hx. rewrite Hblocks. by apply renumber_app_places. }
  split; try done.
  - rewrite Hits, fmap_app, (comm (++)). cbn. rewrite Hself.
    by apply NoDup_cons; split; [|apply Hord].
  - rewrite Hits. apply Forall_app. split; [done|]. by apply Forall_singleton.
  - rewrite Hits, fmap_app, Hplaces_old. apply StronglySorted_app.
    split; [|split; [apply Hord | repeat constructor]].
    intros p q Hp ->%list_elem_of_singleton.
    destruct (decide (m_blocks B = [])) as [Hnil|Hsome].
    + rewrite (no_blocks_no_iterators B Hord Hnil) in Hp. by apply elem_of_nil in Hp.
    + destruct (Hne Hsome) as (-> & _). rewrite Forall_forall in Hplaces.
      by apply Hplaces.
Qed.


Lemma poke_addr b p src b' : poke DATA_SIZE b p src = Ok b' → addr b' = addr b.
Proof. unfold poke. case_decide; [|done]. by intros [= <-]. Qed.

Lemma set_in_addrs suf p buf suf' :
  set_in DATA_SIZE suf p buf = Ok suf' → addr <$> suf' = addr <$> suf.
Proof.
  revert p buf suf'. induction suf as [|b rest IH]; intros p buf suf'.
  - destruct buf; [by intros [= <-] | done].
  - destruct buf as [|c buf]; [by intros [= <-]|]. cbn [set_in].
    destruct (poke DATA_SIZE b p _) as [b'|] eqn:Hpoke; [|done].
    cbn [mbind outcome_bind].
    destruct (set_in DATA_SIZE rest 0 _) as [rest'|] eqn:Hrest; [|done].
    cbn. intros [= <-]. rewrite !fmap_cons.
    by rewrite (poke_addr _ _ _ _ Hpoke), (IH _ _ _ Hrest).
Qed.

(** set writes into the blocks and leaves all else as it is. *)
Lemma set_returns B itr buf B' :
  set DATA_SIZE B itr buf = Ok B' →
  addr <$> m_blocks B' = addr <$> m_blocks B ∧
  m_iterators B' = m_iterators B ∧ m_begin B' = m_begin B ∧ m_end B' = m_end B.
Proof.
  unfold set. destruct buf as [|c buf]; [by intros [= <-]|].
  destruct (locate (m_block itr) (m_blocks B)) as [[pre suf]|] eqn:Hloc; [|done].
  destruct (locate_split _ _ _ _ Hloc) as (Hbs & _ & _).
  cbn [defined mbind outcome_bind].
  destruct (set_in DATA_SIZE suf _ _) as [suf'|] eqn:Hset; [|done].
  cbn. intros [= <-]. cbn. rewrite Hbs, !fmap_app.
  by rewrite (set_in_addrs _ _ _ _ Hset).
Qed.

Lemma fresh_name tmp l : tmp ∉ self <$> l → Forall (λ y, self y ≠ tmp) l.
Proof.
  intros Hfresh. apply Forall_forall. intros y Hy Heq. apply Hfresh.
  rewrite <- Heq. by apply list_elem_of_fmap_2.
Qed.

(** An iterator linked last and taken off again leaves the list as it was. *)
Lemma unlink_last tmp l itr :
  tmp ∉ self <$> l → self itr = tmp → unlink tmp (l ++ [itr]) = l.
Proof.
  intros Hfresh Hself. unfold unlink.
  rewrite find_iter_app by auto using fresh_name. by rewrite app_nil_r.
Qed.

Lemma addBack_keeps_order (a : A) B buf tmp s' :
  orderly DATA_SIZE B → admissible DATA_SIZE B (AddBack buf tmp) →
  run_op DATA_SIZE (AddBack buf tmp) (a, B) = (Ok tt, s') →
  NoDup (addr <$> m_blocks s'.2) → orderly DATA_SIZE s'.2.
Proof using DATA_SIZE_pos.
  intros Hord Htmp Hrun Hnd. cbn [run_op admissible] in *.
  rewrite run_bind in Hrun. unfold addBack in Hrun. rewrite run_bind in Hrun.
  destruct (appendBack DATA_SIZE (length buf) tmp (a, B)) as [[itr|?] [a1 B1]] eqn:Happ;
    [|done].
  destruct (appendBack_returns _ _ _ _ _ _ Hord Happ)
    as (new & last_id & Hblocks & Hits & Hself & Hin & Hb & He & _).
  cbn [snd] in *.
  unfold the_buffer, store, lift, iterator_destroy in Hrun.
  unfold mbind, ST_bind, mret, ST_ret in Hrun. cbn [fst snd] in Hrun.
  destruct (set DATA_SIZE B1 itr buf) as [B2|] eqn:Hset; [|done].
  destruct (set_returns _ _ _ _ Hset) as (Haddrs & Hits2 & Hb2 & He2).
  injection Hrun as <-. cbn [snd m_blocks m_iterators m_begin m_end] in *.
  rewrite Hits2, Hits, (unlink_last _ _ _ Htmp Hself).
  destruct (same_places (m_blocks B) (m_blocks B2) (m_iterators B))
    as [Hin_old Hplaces_old]; [|apply Hord|].
  { intros x Hx.
    destruct (renumber_app_places last_id (m_blocks B) new x Hx) as [Hx' <-].
    rewrite <- Hblocks in *. split.
    - eapply inside_addrs; [|exact Hx']. done.
    - by apply place_addrs. }
  split; cbn [m_blocks m_iterators m_begin m_end]; try done.
  - split; congruence.
  - apply Hord.
  - rewrite Hplaces_old. apply Hord.
Qed.

End Append.

(** ** Order under dropFront and dropBack *)

Section Drops.

Context {A : Type} `{Allocator A}.
Variable DATA_SIZE : nat.

Implicit Types (B : Buffer) (bs : list Block) (l : list iterator).

(** The loop of dropFront, where it returns: [k] blocks are gone. *)
Lemma dropFront_loop_returns bs size left_in_block (a : A) B size' s' :
  m_blocks B = bs →
  dropFront_loop DATA_SIZE bs size left_in_block (a, B) = (Ok size', s') →
  ∃ k, m_blocks s'.2 = drop k bs ∧ m_iterators s'.2 = m_iterators B ∧
       m_end s'.2 = m_end B ∧
       match k with
       | 0 => m_begin s'.2 = m_begin B ∧ size' = size ∧ size ≤ left_in_block
       | S k' => m_begin s'.2 = 0 ∧ 0 < size' ≤ DATA_SIZE ∧
                 left_in_block + k' * DATA_SIZE + size' = size
       end.
Proof.
  revert size left_in_block a B.
  induction bs as [|b rest IH]; intros size left_in_block a B Hbs;
    cbn [dropFront_loop]; case_decide as Hsize.
  - done.
  - intros [= <- <-]. exists 0. rewrite drop_0. repeat split; try done. lia.
  - unfold the_buffer, store, lift, delBlock.
    unfold mbind, ST_bind, mret, ST_ret. cbn [fst snd].
    destruct (require _ _) as [[]|]; [|done].
    destruct (head rest) as [b'|] eqn:Hhead; [|done]. cbn [defined].
    intros Hloop. apply IH in Hloop as (k & Hblocks & Hits & Hend & Hk); [|done].
    cbn [m_iterators m_end m_begin] in *.
    exists (S k). cbn [drop]. split; [done|]. split; [done|]. split; [done|].
    destruct k as [|k']; lia.
  - intros [= <- <-]. exists 0. rewrite drop_0. repeat split; try done. lia.
Qed.

(** dropFront, where it returns: whole blocks are gone from the head, the
    start of the data is [size] bytes further, and all else is as it was. *)
Lemma dropFront_returns (a : A) B size s' :
  dropFront DATA_SIZE size (a, B) = (Ok tt, s') →
  ∃ k, m_blocks s'.2 = drop k (m_blocks B) ∧ m_iterators s'.2 = m_iterators B ∧
       m_end s'.2 = m_end B ∧ m_begin s'.2 ≤ DATA_SIZE ∧
       k * DATA_SIZE + m_begin s'.2 = m_begin B + size ∧
       (0 < k → 0 < m_begin s'.2).
Proof.
  unfold dropFront. rewrite run_bind. unfold lift at 1.
  destruct (require SizeNonZero _) as [[]|]; [|done].
  rewrite run_bind. unfold the_buffer at 1. cbn [fst snd].
  rewrite run_bind. unfold lift at 1.
  destruct (require BlocksNonEmpty _) as [[]|]; [|done].
  rewrite run_bind. unfold lift at 1. unfold diff.
  case_decide as Hbegin; [|done].
  rewrite run_bind.
  destruct (dropFront_loop _ _ _ _ _) as [[size'|] [a1 B1]] eqn:Hloop; [|done].
  apply dropFront_loop_returns in Hloop as (k & Hblocks & Hits & Hend & Hk); [|done].
  cbn [snd] in *.
  unfold the_buffer, store, lift.
  unfold mbind, ST_bind, mret, ST_ret. cbn [fst snd].
  destruct (firstBlock (m_blocks B1)) as [fb|]; [|done]. cbn [defined].
  cbn [m_blocks m_iterators m_begin m_end].
  case_bool_decide as Hbegin'; [|done]. cbn [require].
  intros Hrun.
  assert (s' = (a1, mkBuffer (m_blocks B1) (m_iterators B1) (m_begin B1 + size')
                             (m_end B1))) as ->.
  { destruct (match last _ with Some _ => _ | None => _ end) as [?|?]; [|done].
    destruct (defined (lastBlock _)) as [lb|]; [|done].
    case_decide; [destruct (require EndAfterBegin _) as [[]|]; [|done]|];
      by injection Hrun as <-. }
  exists k. cbn. repeat split; try done.
  - destruct k; lia.
  - destruct k; lia.
Qed.

Lemma dropFront_keeps_order (a : A) B size s' :
  orderly DATA_SIZE B → admissible DATA_SIZE B (DropFront size) →
  run_op DATA_SIZE (DropFront size) (a, B) = (Ok tt, s') →
  orderly DATA_SIZE s'.2.
Proof.
  intros Hord Hplaces Hrun. cbn [run_op admissible] in *.
  apply dropFront_returns in Hrun as (k & Hblocks & Hits & Hend & Hbegin & Hsum & Hk).
  pose proof (orderly_inside _ _ Hord) as Hin.
  pose proof (orderly_addrs _ _ Hord) as Hnd.
  rewrite Forall_fmap in Hplaces.
  assert (Forall (λ x, inside DATA_SIZE (m_blocks s'.2) x ∧
                       place DATA_SIZE (m_blocks s'.2) x
                       = place DATA_SIZE (m_blocks B) x - k * DATA_SIZE)
                 (m_iterators B)) as Hmoved.
  { rewrite Forall_forall in Hin, Hplaces |- *. intros x Hx.
    specialize (Hin x Hx). specialize (Hplaces x Hx). cbn in Hplaces.
    destruct Hin as [[i Hi] Hp]. unfold place, key in Hplaces |- *.
    rewrite Hi in Hplaces |- *. cbn in Hplaces |- *.
    assert (k ≤ i) as Hki by (destruct k; [lia|]; specialize (Hk ltac:(lia)); nia).
    unfold inside. rewrite Hblocks, (block_index_drop _ _ _ _ Hnd Hi Hki). cbn.
    split; [by eauto|]. nia. }
  split.
  - rewrite Hblocks, fmap_drop. eapply sublist_NoDup; [exact Hnd|]. apply sublist_drop.
  - split; [done|]. rewrite Hend. apply Hord.
  - rewrite Hits. apply Hord.
  - rewrite Hits. eapply Forall_impl; [exact Hmoved|]. by intros x [? _].
  - rewrite Hits.
    apply (sorted_places_map DATA_SIZE (λ p, p - k * DATA_SIZE) (m_blocks B) _
                             (m_iterators B)); [intros; lia | | apply Hord].
    apply Forall_Forall2_diag. eapply Forall_impl; [exact Hmoved|]. by intros x [_ ?].
Qed.


(** The loop of dropBack, where it returns: [k] blocks are gone. *)
Lemma dropBack_loop_returns rbs size left_in_block (a : A) B size' s' :
  dropBack_loop DATA_SIZE rbs size left_in_block (a, B) = (Ok size', s') →
  ∃ k, m_iterators s'.2 = m_iterators B ∧ m_begin s'.2 = m_begin B ∧
       match k with
       | 0 => s'.2 = B ∧ size' = size ∧ size ≤ left_in_block
       | S k' => m_blocks s'.2 = reverse (drop k rbs) ∧ k < length rbs ∧
                 m_end s'.2 = DATA_SIZE ∧ 0 < size' ≤ DATA_SIZE ∧
                 left_in_block + k' * DATA_SIZE + size' = size
       end.
Proof.
  revert size left_in_block a B.
  induction rbs as [|b before IH]; intros size left_in_block a B;
    cbn [dropBack_loop]; case_decide as Hsize.
  - done.
  - intros [= <- <-]. exists 0. repeat split; try done. lia.
  - unfold the_buffer, store, lift, delBlock.
    unfold mbind, ST_bind, mret, ST_ret. cbn [fst snd].
    destruct (head before) as [b'|] eqn:Hhead; [|done]. cbn [defined].
    destruct (require _ _) as [[]|]; [|done].
    intros Hloop. apply IH in Hloop as (k & Hits & Hbegin & Hk).
    cbn [m_iterators m_end m_begin] in *.
    exists (S k). split; [done|]. split; [done|]. cbn [drop length].
    destruct k as [|k'].
    + destruct Hk as (-> & -> & ?). cbn. rewrite drop_0.
      destruct before; [done|]. cbn [length]. repeat split; lia.
    + destruct Hk as (? & ? & ? & ? & ?). repeat split; try done; lia.
  - intros [= <- <-]. exists 0. repeat split; try done. lia.
Qed.

(** dropBack, where it returns: whole blocks are gone from the tail, the
    end of the data is [size] bytes back, and all else is as it was. *)
Lemma dropBack_returns (a : A) B size s' :
  m_end B ≤ DATA_SIZE →
  dropBack DATA_SIZE size (a, B) = (Ok tt, s') →
  ∃ n, m_blocks s'.2 = take n (m_blocks B) ∧ 0 < n ≤ length (m_blocks B) ∧
       m_iterators s'.2 = m_iterators B ∧
       m_begin s'.2 = m_begin B ∧ m_end s'.2 < DATA_SIZE ∧
       end_position DATA_SIZE s'.2 + size = end_position DATA_SIZE B ∧ size ≠ 0.
Proof.
  intros Hend. unfold dropBack. rewrite run_bind. unfold lift at 1.
  case_bool_decide as Hsize; [|done]. cbn [require].
  rewrite run_bind. unfold the_buffer at 1. cbn [fst snd].
  rewrite run_bind. unfold lift at 1.
  case_bool_decide as Hbs; [|done]. cbn [require].
  rewrite run_bind.
  destruct (dropBack_loop _ _ _ _ _) as [[size'|] [a1 B1]] eqn:Hloop; [|done].
  apply dropBack_loop_returns in Hloop as (k & Hits & Hbegin & Hk).
  cbn [snd] in *.
  unfold the_buffer, store, lift.
  unfold mbind, ST_bind, mret, ST_ret. cbn [fst snd].
  destruct (lastBlock (m_blocks B1)) as [lb|]; [|done]. cbn [defined].
  cbn [m_blocks m_iterators m_begin m_end].
  intros Hrun.
  assert (s' = (a1, mkBuffer (m_blocks B1) (m_iterators B1) (m_begin B1)
                             (m_end B1 - size'))) as ->.
  { destruct (match last _ with Some _ => _ | None => _ end) as [?|?]; [|done].
    destruct (defined (firstBlock _)) as [fb|]; [|done].
    case_decide; [destruct (require EndAfterBegin _) as [[]|]; [|done]|];
      by injection Hrun as <-. }
  cbn [snd m_blocks m_iterators m_begin m_end]. unfold end_position. cbn [m_blocks m_end].
  destruct k as [|k'].
  - destruct Hk as (-> & -> & ?). exists (length (m_blocks B)).
    rewrite firstn_all. destruct (m_blocks B); [done|]. cbn [length].
    repeat split; try done; lia.
  - destruct Hk as (Hblocks & Hk & HendB1 & Hsize' & Hsum).
    rewrite length_reverse in Hk.
    rewrite Hblocks, reverse_drop, reverse_involutive, length_reverse.
    exists (length (m_blocks B) - S k').
    rewrite length_take, Nat.min_l by lia.
    repeat split; try done; try lia. nia.
Qed.

Lemma dropBack_keeps_order (a : A) B size s' :
  orderly DATA_SIZE B → admissible DATA_SIZE B (DropBack size) →
  run_op DATA_SIZE (DropBack size) (a, B) = (Ok tt, s') →
  orderly DATA_SIZE s'.2.
Proof.
  intros Hord Hplaces Hrun. cbn [run_op admissible] in *.
  pose proof (orderly_inside _ _ Hord) as Hin.
  pose proof (orderly_addrs _ _ Hord) as Hnd.
  pose proof (orderly_bounds _ _ Hord) as [Hb He].
  apply dropBack_returns in Hrun
    as (n & Hblocks & Hn & Hits & Hbegin & Hend & Hsum & Hsize); [|done].
  rewrite Forall_fmap in Hplaces.
  assert (Forall (λ x, inside DATA_SIZE (m_blocks s'.2) x ∧
                       place DATA_SIZE (m_blocks s'.2) x = place DATA_SIZE (m_blocks B) x)
                 (m_iterators B)) as Hsame.
  { rewrite Forall_forall in Hin, Hplaces |- *. intros x Hx.
    specialize (Hin x Hx). specialize (Hplaces x Hx). cbn in Hplaces.
    destruct Hin as [[i Hi] Hp]. unfold place, key in Hplaces |- *.
    rewrite Hi in Hplaces |- *. cbn in Hplaces |- *.
    unfold end_position in Hsum, Hplaces.
    rewrite Hblocks, length_take, Nat.min_l in Hsum by lia.
    assert (i < n) as Hi' by nia.
    unfold inside. rewrite Hblocks, (block_index_take _ _ _ _ Hnd Hi Hi'). cbn.
    split; [by eauto | done]. }
  split.
  - rewrite Hblocks, fmap_take. eapply sublist_NoDup; [exact Hnd|]. apply sublist_take.
  - split; [by rewrite Hbegin | lia].
  - rewrite Hits. apply Hord.
  - rewrite Hits. eapply Forall_impl; [exact Hsame|]. by intros x [? _].
  - rewrite Hits.
    assert (place DATA_SIZE (m_blocks s'.2) <$> m_iterators B
            = place DATA_SIZE (m_blocks B) <$> m_iterators B) as ->; [|apply Hord].
    apply Forall_fmap_ext. eapply Forall_impl; [exact Hsame|]. by intros x [_ ?].
Qed.

End Drops.

(** ** Order under insert *)

Section Shift.

Context {A : Type} `{Allocator A}.
Variable DATA_SIZE : nat.
Hypothesis DATA_SIZE_pos : 0 < DATA_SIZE.

Implicit Types (B : Buffer) (bs : list Block) (l : list iterator).

Local Ltac ok_step :=
  match goal with
  | |- (?o ≫= _) = Ok _ → _ =>
      destruct o as [?|]; [|done]; cbn [mbind outcome_bind]
  end.
Local Ltac ok_steps := repeat ok_step.
Local Ltac lifted := rewrite run_bind; unfold lift at 1; cbv beta iota.

Lemma memmove_addrs bs dst_block dst src_block src n bs' :
  memmove DATA_SIZE bs dst_block dst src_block src n = Ok bs' →
  addr <$> bs' = addr <$> bs.
Proof.
  unfold memmove. destruct n; [by intros [= <-]|].
  destruct (bs !! src_block) as [sb|]; [|done]. cbn [defined mbind outcome_bind].
  destruct (peek _ _ _ _) as [bytes|]; [|done]. cbn [mbind outcome_bind].
  destruct (bs !! dst_block) as [db|] eqn:Hdb; [|done]. cbn [defined mbind outcome_bind].
  destruct (poke _ _ _ _) as [db'|] eqn:Hpoke; [|done]. cbn. intros [= <-].
  rewrite list_fmap_insert, (poke_addr _ _ _ _ _ Hpoke).
  apply list_insert_id. by rewrite list_lookup_fmap, Hdb.
Qed.

Lemma insert_loop_addrs fuel itr bs src_block dst_block src dst
    left_in_src_block left_in_dst_block copy_chunk_sz r :
  insert_loop DATA_SIZE fuel itr bs src_block dst_block src dst
              left_in_src_block left_in_dst_block copy_chunk_sz = Ok r →
  addr <$> r.1.1 = addr <$> bs.
Proof.
  revert bs src_block dst_block src dst left_in_src_block left_in_dst_block
         copy_chunk_sz.
  induction fuel as [|fuel IH]; intros bs src_block dst_block src dst
    left_in_src_block left_in_dst_block copy_chunk_sz; [done|].
  cbn [insert_loop]. do 3 ok_step.
  destruct (memmove _ _ _ _ _ _ _) as [bs1|] eqn:Hmove; [|done].
  cbn [mbind outcome_bind]. apply memmove_addrs in Hmove as <-.
  case_decide; ok_steps; [case_decide; [by intros [= <-]|]; ok_steps|]; apply IH.
Qed.

Lemma for_each_returns {T U} (f : T → outcome U) (l : list T) (l' : list U) :
  for_each f l = Ok l' → Forall2 (λ x y, f x = Ok y) l l'.
Proof.
  revert l'. induction l as [|x l IH]; intros l'; cbn.
  - intros [= <-]. constructor.
  - destruct (f x) as [y|] eqn:Hx; [|done]. cbn.
    destruct (for_each f l) as [ys|]; [|done]. cbn. intros [= <-].
    constructor; auto.
Qed.

Lemma next_position_app cur rest :
  let '(stay, move_) := next_position cur rest in stay ++ move_ = cur :: rest.
Proof.
  revert cur. induction rest as [|x rest IH]; intros cur; cbn; [done|].
  destruct (iter_eq cur x); [|done].
  specialize (IH x). destruct (next_position x rest) as [stay move_].
  cbn. by rewrite IH.
Qed.

(** The two iterator loops of insert and release, where they return: the
    iterators from some place after [itr] on are moved, the others stay. *)
Lemma shift_iterators_returns move i tmp l l' pre itr post :
  find_iter i l = Some (pre, itr, post) → tmp ∉ self <$> l →
  shift_iterators move i tmp l = Ok l' →
  ∃ stay move_ moved,
    itr :: post = stay ++ move_ ∧ l' = pre ++ stay ++ moved ∧
    Forall2 (λ x y, move x = Ok y) move_ moved ∧
    (stay, move_) = next_position itr post.
Proof.
  intros Hfind Htmp. unfold shift_iterators. rewrite Hfind. cbn [defined mbind outcome_bind].
  destruct (find_iter_split _ _ _ _ _ Hfind) as (Hl & _ & _).
  cbn [next_position]. unfold iter_eq at 1. cbn [m_block m_position].
  rewrite bool_decide_eq_true_2 by done.
  pose proof (next_position_app itr post) as Happ.
  destruct (next_position itr post) as [stay move_].
  destruct (for_each move move_) as [moved|] eqn:Hmoved; [|done]. cbn.
  intros [= <-]. exists stay, move_, moved.
  split; [done|]. split; [|split; [by apply for_each_returns | done]].
  unfold unlink. rewrite find_iter_app; [done.. |].
  apply fresh_name. rewrite Hl, fmap_app in Htmp.
  intros Hin. apply Htmp, elem_of_app. by left.
Qed.

(** Sorted positions stay sorted when a tail of the list moves. *)
Lemma sorted_tail_moves (f : nat → nat) bs bs' l1 l2 l2' :
  (∀ p q, p ≤ q → f p ≤ f q) →
  place DATA_SIZE bs' <$> l1 = place DATA_SIZE bs <$> l1 →
  Forall2 (λ y y', place DATA_SIZE bs' y' = f (place DATA_SIZE bs y)) l2 l2' →
  (∀ x y, x ∈ l1 → y ∈ l2 → place DATA_SIZE bs x ≤ f (place DATA_SIZE bs y)) →
  StronglySorted le (place DATA_SIZE bs <$> l1 ++ l2) →
  StronglySorted le (place DATA_SIZE bs' <$> l1 ++ l2').
Proof.
  intros Hmono Hsame Hmoved Hcross. rewrite !fmap_app, Hsame.
  intros (_ & Hs1 & Hs2)%StronglySorted_app.
  apply StronglySorted_app. split; [|split; [done|]].
  - intros p q (x & -> & Hx)%list_elem_of_fmap (y' & -> & Hy')%list_elem_of_fmap.
    apply list_elem_of_lookup in Hy' as [j Hj].
    destruct (Forall2_lookup_r _ _ _ _ _ Hmoved Hj) as (y & Hy & ->).
    apply Hcross; [done|]. by eapply list_elem_of_lookup_2.
  - by eapply sorted_places_map.
Qed.


Lemma iterator_destroy_run i (a : A) B :
  iterator_destroy i (a, B)
  = (Ok tt, (a, mkBuffer (m_blocks B) (unlink i (m_iterators B)) (m_begin B) (m_end B))).
Proof. reflexivity. Qed.

(** insert, where it returns: space is appended, bytes are copied within
    the blocks, and the iterators from some place after [itr] on are moved
    [size] bytes on. *)
Lemma insert_returns (a : A) B i size tmp s' :
  orderly DATA_SIZE B → tmp ∉ self <$> m_iterators B →
  insert DATA_SIZE i size tmp (a, B) = (Ok tt, s') →
  ∃ new_blocks last_id l,
    addr <$> m_blocks s'.2
    = addr <$> renumber last_id (m_blocks B) ++ new_blocks ∧
    shift_iterators (λ it, moveForward DATA_SIZE (m_blocks s'.2) it size) i tmp
                    (m_iterators B) = Ok l ∧
    m_iterators s'.2 = l ∧
    m_begin s'.2 ≤ DATA_SIZE ∧ m_end s'.2 ≤ DATA_SIZE.
Proof using DATA_SIZE_pos.
  intros Hord Htmp. unfold insert.
  rewrite run_bind. unfold the_buffer at 1. cbv beta iota. cbn [fst snd].
  lifted. destruct (find_iter i (m_iterators B)) as [[[pre itr] post]|]; [|done].
  cbn [defined]. cbv beta iota.
  lifted. destruct (lastBlock (m_blocks B)) as [lb|]; [|done]. cbn [defined].
  cbv beta iota zeta.
  rewrite run_bind.
  destruct (appendBack DATA_SIZE size tmp (a, B)) as [[res|?] [a1 B1]] eqn:Happ; [|done].
  destruct (appendBack_returns _ DATA_SIZE_pos _ _ _ _ _ _ Hord Happ)
    as (new & last_id & Hblocks & Hits & Hself & Hin & Hb & He & _).
  cbn [snd] in *.
  rewrite run_bind, iterator_destroy_run.
  rewrite run_bind. unfold the_buffer at 1. cbv beta iota zeta.
  cbn [fst snd m_blocks m_iterators m_begin m_end].
  rewrite Hits, (unlink_last _ _ _ Htmp Hself).
  lifted. destruct (defined _) as [sb|]; [|done].
  lifted. destruct (diff _ _) as [left_in_src_block|]; [|done].
  lifted. destruct (if decide _ then _ else _) as [[src dst]|]; [|done].
  lifted. destruct (insert_loop _ _ _ _ _ _ _ _ _ _ _) as [[[bs' src_block'] src']|] eqn:Hloop;
    [|done].
  apply insert_loop_addrs in Hloop. cbn [fst] in Hloop.
  lifted. destruct (defined _) as [sb'|]; [|done].
  lifted. destruct (require _ _) as [[]|]; [|done].
  lifted. destruct (shift_iterators _ _ _ _) as [l|] eqn:Hshift; [|done].
  unfold store. intros [= <-]. cbn [snd m_blocks m_iterators m_begin m_end].
  exists new, last_id, l. rewrite Hloop, Hblocks. done.
Qed.


Lemma same_names (l l' : list iterator) :
  Forall2 (λ x y, self y = self x) l l' → self <$> l' = self <$> l.
Proof. induction 1 as [|x y l l' Hxy _ IH]; cbn; [done|]. by rewrite Hxy, IH. Qed.

(** Where the blocks keep their addresses and blocks are spliced at the
    tail, the old iterators keep their places. *)
Lemma spliced_places bs bs' last_id new l :
  addr <$> bs' = addr <$> renumber last_id bs ++ new →
  Forall (inside DATA_SIZE bs) l →
  Forall (inside DATA_SIZE bs') l ∧
  place DATA_SIZE bs' <$> l = place DATA_SIZE bs <$> l.
Proof.
  intros Haddrs. apply same_places. intros x Hx.
  destruct (renumber_app_places DATA_SIZE last_id bs new x Hx) as [Hx' <-].
  split; [by eapply inside_addrs | by apply place_addrs].
Qed.

Lemma insert_keeps_order (a : A) B i size tmp s' :
  orderly DATA_SIZE B → admissible DATA_SIZE B (Insert i size tmp) →
  run_op DATA_SIZE (Insert i size tmp) (a, B) = (Ok tt, s') →
  NoDup (addr <$> m_blocks s'.2) → orderly DATA_SIZE s'.2.
Proof using DATA_SIZE_pos.
  intros Hord Htmp Hrun Hnd. cbn [run_op admissible] in *.
  destruct (insert_returns _ _ _ _ _ _ Hord Htmp Hrun)
    as (new & last_id & l & Haddrs & Hshift & Hits & Hb & He).
  destruct (find_iter i (m_iterators B)) as [[[pre itr] post]|] eqn:Hfind;
    [|by unfold shift_iterators in Hshift; rewrite Hfind in Hshift].
  destruct (find_iter_split _ _ _ _ _ Hfind) as (Hl & _ & _).
  destruct (shift_iterators_returns _ _ _ _ _ _ _ _ Hfind Htmp Hshift)
    as (stay & move_ & moved & Hsplit & -> & Hmoved & _).
  rewrite Hsplit in Hl.
  pose proof (orderly_names _ _ Hord) as Hnames.
  pose proof (orderly_inside _ _ Hord) as Hin.
  pose proof (orderly_sorted _ _ Hord) as Hsorted.
  destruct (spliced_places _ _ _ _ _ Haddrs Hin) as [Hin' Hplaces].
  rewrite Hl in Hnames, Hin, Hin', Hsorted, Hplaces.
  rewrite (assoc_L (++)) in Hnames, Hin, Hin', Hsorted, Hplaces.
  apply Forall_app in Hin' as [Hin1 Hin2].
  apply Forall_fmap_ext, Forall_app in Hplaces as [Hplaces1 Hplaces2].
  apply Forall_fmap_ext in Hplaces1.
  assert (Forall2 (λ y y', self y' = self y ∧ inside DATA_SIZE (m_blocks s'.2) y' ∧
                           place DATA_SIZE (m_blocks s'.2) y'
                           = place DATA_SIZE (m_blocks B) y + size) move_ moved) as Hmoved'.
  { clear -Hmoved Hplaces2 Hnd. induction Hmoved as [|y y' ? ? Hy _ IH]; [done|].
    apply Forall_cons in Hplaces2 as [Hsame ?]. constructor; [|by apply IH].
    destruct (moveForward_place _ _ _ _ _ Hnd Hy) as (? & _ & ? & ?).
    by rewrite <- Hsame. }
  split; try done; rewrite Hits, (assoc_L (++)).
  - rewrite fmap_app in Hnames |- *.
    rewrite (same_names move_ moved); [done|].
    eapply Forall2_impl; [exact Hmoved'|]. by intros ?? (? & _).
  - apply Forall_app. split; [done|].
    eapply Forall2_Forall_r; [exact Hmoved'|]. apply Forall_true. by intros ?? (_ & ? & _).
  - apply (sorted_tail_moves (λ p, p + size) (m_blocks B) _ _ move_);
      [intros; lia | done | | | done].
    + eapply Forall2_impl; [exact Hmoved'|]. by intros ?? (_ & _ & ?).
    + intros x y Hx Hy. rewrite fmap_app in Hsorted.
      apply StronglySorted_app in Hsorted as (Hcross & _).
      specialize (Hcross (place DATA_SIZE (m_blocks B) x) (place DATA_SIZE (m_blocks B) y)
                         ltac:(by apply list_elem_of_fmap_2)
                         ltac:(by apply list_elem_of_fmap_2)). lia.
Qed.

End Shift.

(** ** Order under release *)

Section Release.

Context {A : Type} `{Allocator A}.
Variable DATA_SIZE : nat.

Implicit Types (B : Buffer) (bs : list Block) (l : list iterator).

Local Ltac ok_step :=
  match goal with
  | |- (?o ≫= _) = Ok _ → _ =>
      destruct o as [?|]; [|done]; cbn [mbind outcome_bind]
  end.
Local Ltac lifted := rewrite run_bind; unfold lift at 1; cbv beta iota.

Lemma moveBackward_in_spec rpre p step a' p' :
  p ≤ DATA_SIZE →
  moveBackward_in DATA_SIZE rpre p step = Ok (a', p') →
  ∃ j b', rpre !! j = Some b' ∧ addr b' = a' ∧ 0 < p' ≤ DATA_SIZE ∧
          p' + step = p + j * DATA_SIZE.
Proof.
  revert p step. induction rpre as [|b before IH]; intros p step Hp; [done|].
  cbn [moveBackward_in]. case_decide as Hstep.
  - intros Hmove. apply IH in Hmove as (j & b' & Hj & Hb' & Hp' & Hsum); [|lia].
    exists (S j), b'. repeat split; try done; lia.
  - intros [= <- <-]. exists 0, b. repeat split; try done; lia.
Qed.

(** moveBackward, where it returns: the iterator is inside the blocks and
    [step] bytes back. *)
Lemma moveBackward_place bs it step it' :
  NoDup (addr <$> bs) → m_position it ≤ DATA_SIZE →
  moveBackward DATA_SIZE bs it step = Ok it' →
  self it' = self it ∧ inside DATA_SIZE bs it' ∧
  place DATA_SIZE bs it' + step = place DATA_SIZE bs it.
Proof.
  intros Hnd Hp. unfold moveBackward, place, key, inside, block_index.
  destruct (locate (m_block it) bs) as [[pre suf]|] eqn:Hloc; [|done].
  destruct (locate_split _ _ _ _ Hloc) as (Hbs & (b & rest & -> & Hb) & _).
  cbn [defined head mbind outcome_bind option_bind default fst snd].
  destruct (moveBackward_in _ _ _ _) as [[a' p']|] eqn:Hmove; [|done].
  cbn. intros [= <-]. cbn.
  apply moveBackward_in_spec in Hmove as (j & b' & Hj & <- & Hp' & Hsum); [|done].
  assert (j ≤ length pre ∧ bs !! (length pre - j) = Some b') as [Hj' Hlookup].
  { destruct j as [|j]; cbn in Hj.
    - injection Hj as <-. split; [lia|].
      by rewrite Hbs, Nat.sub_0_r, lookup_app_r, Nat.sub_diag.
    - apply reverse_lookup_Some in Hj as [Hj ?]. split; [lia|].
      rewrite Hbs, lookup_app_l by lia. by rewrite <- Hj. }
  pose proof (block_index_app _ _ _ Hnd Hlookup) as Hindex. unfold block_index in Hindex.
  destruct (locate (addr b') bs) as [[pre' suf']|]; [|done].
  cbn in Hindex |- *. injection Hindex as ->.
  split; [done|]. split; [split; [by eauto | lia]|]. nia.
Qed.


Lemma release_loop_addrs fuel bs src_block dst_block src dst
    left_in_src_block left_in_dst_block copy_chunk_sz bs' :
  release_loop DATA_SIZE fuel bs src_block dst_block src dst
               left_in_src_block left_in_dst_block copy_chunk_sz = Ok bs' →
  addr <$> bs' = addr <$> bs.
Proof.
  revert bs src_block dst_block src dst left_in_src_block left_in_dst_block
         copy_chunk_sz.
  induction fuel as [|fuel IH]; intros bs src_block dst_block src dst
    left_in_src_block left_in_dst_block copy_chunk_sz; [done|].
  cbn [release_loop].
  destruct (memmove _ _ _ _ _ _ _) as [bs1|] eqn:Hmove; [|done].
  cbn [mbind outcome_bind]. apply memmove_addrs in Hmove as <-.
  case_decide; ok_step; [case_decide; [by intros [= <-]|]|]; apply IH.
Qed.

(** The walk to "the first iterator which has the next position", where
    the iterators listed after [itr] stand where it stands or at least
    [size] bytes further, and one of them does the latter: those that stay
    stand where [itr] stands and those that move stand [size] bytes further. *)
Lemma next_position_far bs itr size cur rest :
  0 < size →
  m_block cur = m_block itr → m_position cur = m_position itr →
  Forall (λ y, (m_block y = m_block itr ∧ m_position y = m_position itr)
               ∨ place DATA_SIZE bs itr + size ≤ place DATA_SIZE bs y) rest →
  Exists (λ y, place DATA_SIZE bs itr + size ≤ place DATA_SIZE bs y) rest →
  StronglySorted le (place DATA_SIZE bs <$> rest) →
  let '(stay, move_) := next_position cur rest in
  Forall (λ x, place DATA_SIZE bs x = place DATA_SIZE bs itr) stay ∧
  Forall (λ y, place DATA_SIZE bs itr + size ≤ place DATA_SIZE bs y) move_.
Proof.
  intros Hsize. revert cur.
  induction rest as [|x rest IH]; intros cur Hblock Hposition Hall Hfar Hsorted.
  { by apply Exists_nil in Hfar. }
  assert (place DATA_SIZE bs cur = place DATA_SIZE bs itr) as Hcur
    by (unfold place, key; by rewrite Hblock, Hposition).
  apply Forall_cons in Hall as [Hx Hall].
  rewrite fmap_cons in Hsorted. apply StronglySorted_cons in Hsorted as [Hfirst Hsorted].
  cbn [next_position]. unfold iter_eq. case_bool_decide as Heq.
  - destruct Heq as [Hxb Hxp]. rewrite Hblock in Hxb. rewrite Hposition in Hxp.
    apply Exists_cons in Hfar as [Hfar|Hfar].
    { exfalso. unfold place, key in Hfar. rewrite <- Hxb, <- Hxp in Hfar. lia. }
    specialize (IH x ltac:(done) ltac:(done) Hall Hfar Hsorted).
    destruct (next_position x rest) as [stay move_]. destruct IH as [Hstay Hmove].
    split; [by constructor | done].
  - destruct Hx as [[Hxb Hxp]|Hx]; [exfalso; apply Heq; split; congruence|].
    split; [by repeat constructor|]. constructor; [done|].
    rewrite Forall_fmap in Hfirst. eapply Forall_impl; [exact Hfirst|].
    intros y Hy. unfold compose in Hy. lia.
Qed.

(** release before its call of dropBack, where it returns: bytes are
    copied within the blocks and the iterators from some place after [itr]
    on are moved [size] bytes back. *)
Lemma release_returns (a : A) B i size tmp s' :
  release DATA_SIZE i size tmp (a, B) = (Ok tt, s') →
  ∃ bs' l,
    addr <$> bs' = addr <$> m_blocks B ∧
    shift_iterators (λ it, moveBackward DATA_SIZE bs' it size) i tmp
                    (m_iterators B) = Ok l ∧
    dropBack DATA_SIZE size (a, mkBuffer bs' l (m_begin B) (m_end B)) = (Ok tt, s').
Proof.
  unfold release.
  rewrite run_bind. unfold the_buffer at 1. cbv beta iota zeta. cbn [fst snd].
  lifted. destruct (find_iter i (m_iterators B)) as [[[pre itr] post]|]; [|done].
  cbn [defined]. cbv beta iota.
  lifted. destruct (locate _ _) as [[bpre suf]|]; [|done].
  cbn [defined]. cbv beta iota zeta.
  lifted. destruct (require _ _) as [[]|]; [|done].
  lifted. destruct (release_seek _ _ _ _ _) as [[src_block src]|]; [|done].
  lifted. destruct (defined _) as [sb|]; [|done].
  lifted. destruct (diff _ _) as [left_in_dst_block|]; [|done].
  lifted. destruct (diff _ _) as [left_in_src_block|]; [|done].
  cbv zeta.
  lifted. destruct (release_loop _ _ _ _ _ _ _ _ _ _) as [bs'|] eqn:Hloop; [|done].
  apply release_loop_addrs in Hloop.
  lifted. destruct (shift_iterators _ _ _ _) as [l|] eqn:Hshift; [|done].
  rewrite run_bind. unfold store at 1. cbv beta iota. cbn [fst].
  intros Hdrop. by exists bs', l.
Qed.


Lemma release_keeps_order (a : A) B i size tmp s' :
  orderly DATA_SIZE B → admissible DATA_SIZE B (Release i size tmp) →
  run_op DATA_SIZE (Release i size tmp) (a, B) = (Ok tt, s') →
  orderly DATA_SIZE s'.2.
Proof.
  intros Hord (Htmp & Hend & Hadm) Hrun. cbn [run_op] in Hrun.
  destruct (release_returns _ _ _ _ _ _ Hrun) as (bs' & l & Haddrs & Hshift & Hdrop).
  assert (0 < size) as Hsize by (destruct size; [done | lia]).
  destruct (find_iter i (m_iterators B)) as [[[pre itr] post]|] eqn:Hfind; [|done].
  destruct Hadm as [Hall Hfar].
  destruct (find_iter_split _ _ _ _ _ Hfind) as (Hl & _ & _).
  destruct (shift_iterators_returns _ _ _ _ _ _ _ _ Hfind Htmp Hshift)
    as (stay & move_ & moved & Hsplit & -> & Hmoved & Hnext).
  pose proof (orderly_names _ _ Hord) as Hnames.
  pose proof (orderly_inside _ _ Hord) as Hin.
  pose proof (orderly_sorted _ _ Hord) as Hsorted.
  pose proof (orderly_addrs _ _ Hord) as Hnd.
  rewrite <- Haddrs in Hnd.
  rewrite Forall_fmap in Hend.
  rewrite Hl in Hnames, Hin, Hsorted, Hend.
  (* where the iterators that stay and those that move stand *)
  assert (Forall (λ x, place DATA_SIZE (m_blocks B) x ≤ place DATA_SIZE (m_blocks B) itr)
                 (pre ++ stay) ∧
          Forall (λ y, place DATA_SIZE (m_blocks B) itr + size
                       ≤ place DATA_SIZE (m_blocks B) y) move_) as [Hnear Hmove].
  { rewrite fmap_app, fmap_cons in Hsorted.
    apply StronglySorted_app in Hsorted as (Hcross & _ & [_ Hpost]%StronglySorted_cons).
    pose proof (next_position_far (m_blocks B) itr size itr post Hsize eq_refl eq_refl
                  Hall Hfar Hpost) as Hwalk.
    rewrite <- Hnext in Hwalk. destruct Hwalk as [Hstay Hmove]. split; [|done].
    apply Forall_app. split.
    - apply Forall_forall. intros x Hx. apply Hcross; [|by left].
      by apply list_elem_of_fmap_2.
    - eapply Forall_impl; [exact Hstay|]. cbn. intros x ->. done. }
  rewrite Hsplit, (assoc_L (++)) in Hnames, Hin, Hsorted, Hend.
  assert (Forall (λ x, inside DATA_SIZE bs' x ∧
                       place DATA_SIZE bs' x = place DATA_SIZE (m_blocks B) x)
                 ((pre ++ stay) ++ move_)) as Hsame.
  { eapply Forall_impl; [exact Hin|]. intros x Hx.
    split; [by eapply inside_addrs | by apply place_addrs]. }
  apply Forall_app in Hsame as [Hsame1 Hsame2].
  assert (Forall2 (λ y y', self y' = self y ∧ inside DATA_SIZE bs' y' ∧
                           place DATA_SIZE bs' y' + size = place DATA_SIZE (m_blocks B) y)
                  move_ moved) as Hmoved'.
  { apply Forall_app in Hin as [_ Hin2].
    clear -Hmoved Hsame2 Hin2 Hnd. induction Hmoved as [|y y' ? ? Hy _ IH]; [done|].
    apply Forall_cons in Hsame2 as [[_ Hsame] ?].
    apply Forall_cons in Hin2 as [[_ Hp] ?]. constructor; [|by apply IH].
    destruct (moveBackward_place _ _ _ _ Hnd Hp Hy) as (? & ? & ?).
    by rewrite <- Hsame. }
  set (B2 := mkBuffer bs' (pre ++ stay ++ moved) (m_begin B) (m_end B)) in *.
  assert (orderly DATA_SIZE B2) as Hord2.
  { split; cbn [B2 m_blocks m_iterators m_begin m_end]; rewrite ?(assoc_L (++)).
    - done.
    - apply Hord.
    - rewrite fmap_app in Hnames |- *.
      rewrite (same_names move_ moved); [done|].
      eapply Forall2_impl; [exact Hmoved'|]. by intros ?? (? & _).
    - apply Forall_app. split.
      + eapply Forall_impl; [exact Hsame1|]. by intros ? [? _].
      + eapply Forall2_Forall_r; [exact Hmoved'|]. apply Forall_true.
        by intros ?? (_ & ? & _).
    - apply (sorted_tail_moves DATA_SIZE (λ p, p - size) (m_blocks B) _ _ move_);
        [intros; lia | | | | done].
      + apply Forall_fmap_ext. eapply Forall_impl; [exact Hsame1|]. by intros ? [_ ?].
      + eapply Forall2_impl; [exact Hmoved'|]. intros ?? (_ & _ & ?). lia.
      + intros x y Hx Hy. rewrite Forall_forall in Hnear, Hmove.
        specialize (Hnear x Hx). specialize (Hmove y Hy). lia. }
  assert (admissible DATA_SIZE B2 (DropBack size)) as Hadm2.
  { cbn [admissible B2 m_blocks m_iterators]. rewrite Forall_fmap, (assoc_L (++)).
    assert (end_position DATA_SIZE B2 = end_position DATA_SIZE B) as ->.
    { unfold end_position, B2. cbn.
      by rewrite <- (length_fmap addr bs'), Haddrs, length_fmap. }
    apply Exists_exists in Hfar as (y0 & Hy0 & Hfar0).
    assert (place DATA_SIZE (m_blocks B) y0 ≤ end_position DATA_SIZE B) as Hy0end.
    { rewrite Forall_forall in Hend. apply Hend.
      rewrite <- (assoc_L (++)), <- Hsplit. apply elem_of_app. right. by right. }
    apply Forall_app in Hend as [_ Hend2].
    apply Forall_app. split.
    - rewrite Forall_forall in Hnear, Hsame1 |- *. intros x Hx.
      destruct (Hsame1 x Hx) as [_ Hpx]. specialize (Hnear x Hx).
      unfold compose. lia.
    - clear -Hmoved' Hend2. induction Hmoved' as [|y y' ? ? (_ & _ & Hy) _ IH]; [done|].
      apply Forall_cons in Hend2 as [? ?]. constructor; [|by apply IH].
      unfold compose in *. lia. }
  exact (dropBack_keeps_order DATA_SIZE a B2 size s' Hord2 Hadm2 Hdrop).
Qed.

End Release.

(** ** The invariant *)

Section Invariant.

Context {A : Type} `{Allocator A}.
Variable DATA_SIZE : nat.
Hypothesis DATA_SIZE_pos : 0 < DATA_SIZE.

Implicit Types (B : Buffer) (bs : list Block) (l : list iterator).

(** Each admissible operation that returns leaves the buffer in order. *)
Lemma run_op_keeps_order (a : A) B op s' :
  orderly DATA_SIZE B → admissible DATA_SIZE B op →
  run_op DATA_SIZE op (a, B) = (Ok tt, s') →
  NoDup (addr <$> m_blocks s'.2) → orderly DATA_SIZE s'.2.
Proof using DATA_SIZE_pos.
  intros Hord Hadm Hrun Hnd. destruct op.
  - destruct (begin_keeps_order DATA_SIZE a B _ Hord Hadm) as (B' & Hrun' & ?).
    rewrite Hrun' in Hrun. by injection Hrun as <-.
  - destruct (end_keeps_order DATA_SIZE a B _ Hord Hadm) as (B' & Hrun' & ?).
    rewrite Hrun' in Hrun. by injection Hrun as <-.
  - destruct (copy_keeps_order DATA_SIZE a B _ _ Hord Hadm) as (B' & Hrun' & ?).
    rewrite Hrun' in Hrun. by injection Hrun as <-.
  - destruct (assign_keeps_order DATA_SIZE a B _ _ Hord Hadm) as (B' & Hrun' & ?).
    rewrite Hrun' in Hrun. by injection Hrun as <-.
  - destruct (advance_keeps_order DATA_SIZE a B _ _ Hord Hadm) as (B' & Hrun' & ?).
    rewrite Hrun' in Hrun. by injection Hrun as <-.
  - destruct (destroy_keeps_order DATA_SIZE a B _ Hord Hadm) as (B' & Hrun' & ?).
    rewrite Hrun' in Hrun. by injection Hrun as <-.
  - exact (appendBack_keeps_order DATA_SIZE DATA_SIZE_pos a B _ _ s' Hord Hadm Hrun Hnd).
  - exact (addBack_keeps_order DATA_SIZE DATA_SIZE_pos a B _ _ s' Hord Hadm Hrun Hnd).
  - exact (dropFront_keeps_order DATA_SIZE a B _ s' Hord Hadm Hrun).
  - exact (dropBack_keeps_order DATA_SIZE a B _ s' Hord Hadm Hrun).
  - exact (insert_keeps_order DATA_SIZE DATA_SIZE_pos a B _ _ _ s' Hord Hadm Hrun Hnd).
  - exact (release_keeps_order DATA_SIZE a B _ _ _ s' Hord Hadm Hrun).
Qed.

Lemma steps_keep_order (s s' : A * Buffer) ops :
  buffer_steps DATA_SIZE s ops s' → orderly DATA_SIZE s.2 → orderly DATA_SIZE s'.2.
Proof using DATA_SIZE_pos.
  induction 1 as [s|[a B] op s' ops s'' Hadm Hrun Hnd _ IH]; intros Hord; [done|].
  apply IH. by eapply run_op_keeps_order.
Qed.

Lemma StronglySorted_lookup {T} (R : relation T) (l : list T) i j x y :
  StronglySorted R l → l !! i = Some x → l !! j = Some y → i < j → R x y.
Proof.
  intros Hsorted. revert i j.
  induction Hsorted as [|z l _ IH Hz]; intros i j Hi Hj Hij; [done|].
  destruct i as [|i], j as [|j]; try lia; cbn in Hi, Hj.
  - injection Hi as ->. rewrite Forall_forall in Hz. apply Hz.
    by eapply list_elem_of_lookup_2.
  - eapply IH; eauto. lia.
Qed.

(** C2, amended.  Start from a buffer in order (distinct chunks; distinct
    iterators, all inside the blocks, listed with byte positions that do not
    descend), as the empty buffer is, and run begin(), end(), copies,
    assignments, += and destruction of iterators, addBack, appendBack,
    dropFront, dropBack, insert and release, each used within the buffer
    and returning.  Then the buffer is in order again: the iterator list is
    sorted by byte position.  For the iterators [x] at place [i] and [y] at
    place [j] of the list: if [x] is listed before [y] then
    position(x) <= position(y), and if position(x) < position(y) then [x]
    is listed before [y].  Where moreover the block ids ascend along the
    block list, [x < y] holds iff the (block index, offset) of [x] comes
    before that of [y]; then [x < y] implies position(x) <= position(y),
    and position(x) < position(y) implies [x < y]. *)
Theorem iterator_list_kept_sorted (a : A) (B : Buffer) (ops : list buffer_op)
    (s' : A * Buffer) :
  orderly DATA_SIZE B → buffer_steps DATA_SIZE (a, B) ops s' →
  let bs := m_blocks s'.2 in
  orderly DATA_SIZE s'.2 ∧
  ∀ i j x y,
    m_iterators s'.2 !! i = Some x → m_iterators s'.2 !! j = Some y →
    ∃ px py,
      position DATA_SIZE bs x = Some px ∧ position DATA_SIZE bs y = Some py ∧
      (i < j → px ≤ py) ∧ (px < py → i < j) ∧
      (ascending bs →
       (iter_lt bs x y = Ok true ↔ before (key bs x) (key bs y)) ∧
       (iter_lt bs x y = Ok true → px ≤ py) ∧
       (px < py → iter_lt bs x y = Ok true)).
Proof using DATA_SIZE_pos.
  intros Hord Hsteps. cbn zeta.
  pose proof (steps_keep_order _ _ _ Hsteps Hord) as Hord'.
  split; [done|]. intros i j x y Hi Hj.
  pose proof (orderly_inside _ _ Hord') as Hin. rewrite Forall_forall in Hin.
  assert (inside DATA_SIZE (m_blocks s'.2) x) as Hx
    by (by eapply Hin, list_elem_of_lookup_2).
  assert (inside DATA_SIZE (m_blocks s'.2) y) as Hy
    by (by eapply Hin, list_elem_of_lookup_2).
  exists (place DATA_SIZE (m_blocks s'.2) x), (place DATA_SIZE (m_blocks s'.2) y).
  split; [by apply position_inside|]. split; [by apply position_inside|].
  assert (∀ i j x y, m_iterators s'.2 !! i = Some x → m_iterators s'.2 !! j = Some y →
            i < j → place DATA_SIZE (m_blocks s'.2) x ≤ place DATA_SIZE (m_blocks s'.2) y)
    as Hsorted.
  { intros i' j' x' y' Hi' Hj' Hij.
    apply (StronglySorted_lookup le _ i' j' _ _ (orderly_sorted _ _ Hord'));
      [by rewrite list_lookup_fmap, Hi' | by rewrite list_lookup_fmap, Hj' | done]. }
  split; [by eauto|]. split.
  - intros Hlt. destruct (decide (i < j)) as [|Hge]; [done|]. exfalso.
    destruct (decide (i = j)) as [->|Hne].
    + rewrite Hi in Hj. injection Hj as ->. lia.
    + assert (j < i) as Hji by lia. specialize (Hsorted _ _ _ _ Hj Hi Hji). lia.
  - intros Hasc. rewrite (iter_lt_inside DATA_SIZE) by done.
    destruct (before_place DATA_SIZE _ _ _ Hx Hy) as [Hle Hlt].
    assert (Ok (bool_decide (before (key (m_blocks s'.2) x) (key (m_blocks s'.2) y)))
            = Ok true ↔ before (key (m_blocks s'.2) x) (key (m_blocks s'.2) y)) as ->.
    { split.
      - intros [= Hd]. by apply bool_decide_eq_true in Hd.
      - intros Hd. f_equal. by apply bool_decide_eq_true. }
    done.
Qed.

End Invariant.

(** ** The futures of a connection *)

Section Futures.

Context {A : Type} {Body Dec : Type}.
Implicit Types (a : A) (c : ConnectionImpl Body Dec) (s : rid_t).

Lemma futureIsReady_lookup c s :
  futureIsReady c s = true ↔ is_Some (futures c !! s).
Proof. unfold futureIsReady. apply bool_decide_eq_true. Qed.

Lemma futureIsReady_absent c s :
  futureIsReady c s = false ↔ futures c !! s = None.
Proof.
  unfold futureIsReady. rewrite bool_decide_eq_false, eq_None_not_Some. done.
Qed.

(** C1.  When futureIsReady (s) is true, getResponse (s) returns the
    response stored for [s] and erases it from the futures of the
    connection: right afterwards futureIsReady (s) is false and a second
    getResponse (s) aborts, so a stored response is handed out once.  When no
    response is stored for [s], getResponse (s) aborts (debug build). *)
Theorem getResponse_delivers_once a c s :
  (futureIsReady c s = true →
   ∃ r, futures c !! s = Some r ∧
        let c' := with_futures c (delete s (futures c)) in
        getResponse s (a, c) = (Ok r, (a, c')) ∧
        futureIsReady c' s = false ∧
        getResponse s (a, c') = (Err Aborted, (a, c'))) ∧
  (futureIsReady c s = false →
   getResponse s (a, c) = (Err Aborted, (a, c))).
Proof.
  split.
  - intros [r Hr]%futureIsReady_lookup. exists r. split; [done|].
    assert (Hgone : futures (with_futures c (delete s (futures c))) !! s = None)
      by apply lookup_delete_eq.
    cbn zeta. repeat split.
    + unfold getResponse, mbind, ST_bind, the_conn. cbn. rewrite Hr. done.
    + by apply futureIsReady_absent.
    + unfold getResponse, mbind, ST_bind, the_conn. cbn -[with_futures].
      rewrite Hgone. done.
  - intros Hs%futureIsReady_absent.
    unfold getResponse, mbind, ST_bind, the_conn. cbn. rewrite Hs. done.
Qed.

End Futures.

(** ** processResponse *)

Section ProcessResponse.

Context {A : Type} `{Allocator A} {Body Dec : Type}.
Variable DATA_SIZE : nat.
Variable Response_new : Response Body.
Variable decodeResponseSize : Dec → Buffer → Z * Dec.
Variable decodeResponse : Dec → Buffer → Response Body → Z * Response Body * Dec.
Variable reset : Dec → iterator → Dec.
Variable flush : Buffer → Buffer.

(** The decoder fills in the header and the body of the response and leaves
    its [size] alone. *)
Hypothesis decodeResponse_size :
  ∀ d B r, size (decodeResponse d B r).1.2 = size r.

(** C8, amended.  With [itr] the iterator endDecoded, [sz] the length the
    decoder reads from the frame header and [frame = sz + 5]:
    - if has (endDecoded, 5) answers false, processResponse returns
      DECODE_NEEDMORE and changes nothing: decoder, futures and endDecoded
      are as before;
    - if it answers true and [sz] is negative, the process is aborted;
    - if it answers true and has (endDecoded, frame) answers false,
      processResponse returns DECODE_NEEDMORE with the decoder reset to
      endDecoded and nothing else changed;
    - if both answer true and [frame] bytes do lie between endDecoded and
      end(), in a buffer in order whose block ids ascend, then
      [endDecoded += frame] returns, endDecoded stands exactly [frame] bytes
      further on, and
      -- when the body fails to decode, the error of the connection is set
         to the diagnostic, the futures are as before and DECODE_ERR is
         returned,
      -- otherwise DECODE_SUCC is returned, the response is stored through
         [result] when the caller passed one and else inserted in the futures
         under its sync unless that sync is present already, and the step of
         the buffer collection is taken. *)
Theorem processResponse_protocol (a : A) (c : ConnectionImpl Body Dec)
    (result : bool) (itr : iterator) :
  endDecoded_iterator c = Ok itr →
  let process :=
    processResponse DATA_SIZE Response_new decodeResponseSize decodeResponse
                    reset flush in
  let B := inBuf c in
  let sz := (decodeResponseSize (dec c) B).1 in
  let d1 := (decodeResponseSize (dec c) B).2 in
  let frame := (sz + Z.of_nat MP_RESPONSE_SIZE)%Z in
  let decoded :=
    decodeResponse d1 B
      (mkResponse (header Response_new) (body Response_new) frame) in
  let rc := decoded.1.1 in
  let response := decoded.1.2 in
  let d2 := decoded.2 in
  (has DATA_SIZE B itr MP_RESPONSE_SIZE = Ok false →
   process result (a, c) = (Ok (DECODE_NEEDMORE, None), (a, c))) ∧
  (has DATA_SIZE B itr MP_RESPONSE_SIZE = Ok true → (sz < 0)%Z →
   (process result (a, c)).1 = Err Aborted) ∧
  (has DATA_SIZE B itr MP_RESPONSE_SIZE = Ok true → (0 ≤ sz)%Z →
   has DATA_SIZE B itr (Z.to_nat frame) = Ok false →
   process result (a, c)
   = (Ok (DECODE_NEEDMORE, None), (a, with_dec c (reset d1 itr)))) ∧
  (has DATA_SIZE B itr MP_RESPONSE_SIZE = Ok true → (0 ≤ sz)%Z →
   has DATA_SIZE B itr (Z.to_nat frame) = Ok true →
   orderly DATA_SIZE B → ascending (m_blocks B) →
   place DATA_SIZE (m_blocks B) itr + Z.to_nat frame ≤ end_position DATA_SIZE B →
   ∃ it' B',
     iterator_advance DATA_SIZE (endDecoded c) (Z.to_nat frame) (a, B)
     = (Ok it', (a, B')) ∧
     m_blocks B' = m_blocks B ∧ orderly DATA_SIZE B' ∧
     endDecoded_iterator (with_inBuf c B') = Ok it' ∧
     position DATA_SIZE (m_blocks B) it'
     = Some (place DATA_SIZE (m_blocks B) itr + Z.to_nat frame) ∧
     (rc ≠ 0%Z →
      process result (a, c)
      = (Ok (DECODE_ERR, None),
         (a, mkConn B' (outBuf c) d2 (endDecoded c)
                    (mkError "Failed to decode response, skipping bytes.." 0)
                    (futures c) (gc_step c)))) ∧
     (rc = 0%Z →
      process result (a, c)
      = (Ok (DECODE_SUCC, if result then Some response else None),
         (a, mkConn (if decide (gc_step c `rem` GC_STEP_CNT = 0)%Z
                     then flush B' else B')
                    (outBuf c) d2 (endDecoded c) (error c)
                    (if result then futures c
                     else futures_insert (sync (header response)) response
                                         (futures c))
                    (gc_step c + 1))))).
Proof using decodeResponse_size.
  intros Hitr. cbn zeta.
  pose proof (decodeResponse_size (decodeResponseSize (dec c) (inBuf c)).2 (inBuf c)
    (mkResponse (header Response_new) (body Response_new)
       ((decodeResponseSize (dec c) (inBuf c)).1 + Z.of_nat MP_RESPONSE_SIZE)))
    as Hsize. cbn [size] in Hsize.
  unfold processResponse, inputBufGC, setError, on_inBuf, update, the_conn, lift.
  unfold mbind, ST_bind, mret, ST_ret.
  cbn beta iota zeta delta [fst snd]. rewrite Hitr.
  destruct (decodeResponseSize (dec c) (inBuf c)) as [sz d1]. cbn [fst snd] in *.
  destruct (decodeResponse d1 (inBuf c) _) as [[rc response] d2]. cbn [fst snd] in *.
  split; [by intros ->|].
  split; [intros -> Hsz; cbn; by rewrite decide_True|].
  split.
  { intros -> Hsz Hfr. cbn -[has Z.to_nat Z.add]. rewrite decide_False by lia.
    cbn -[has Z.to_nat Z.add]. by rewrite Hfr. }
  intros Hfive Hsz Hfr Hord Hasc Hfit.
  unfold endDecoded_iterator in Hitr.
  destruct (find_iter (endDecoded c) (m_iterators (inBuf c)))
    as [[[pre it0] post]|] eqn:Hfind; [|done].
  cbn in Hitr. injection Hitr as ->.
  destruct (iterator_advance_returns DATA_SIZE a (inBuf c) _ _ _ _ _ Hord Hasc Hfind Hfit)
    as (it' & run & tl & _ & _ & Hplace & Hadv & Hfind' & Hord').
  cbn zeta in Hadv, Hfind', Hord'.
  eexists it', _. split; [exact Hadv|]. split; [done|]. split; [done|].
  split; [unfold endDecoded_iterator; cbn [inBuf with_inBuf endDecoded]; by rewrite Hfind'|].
  split.
  { rewrite <- Hplace. apply position_inside.
    pose proof (orderly_inside _ _ Hord') as Hin. rewrite Forall_forall in Hin.
    apply Hin. cbn. apply elem_of_app. right. apply elem_of_app. right. by left. }
  rewrite Hfive. cbn -[has Z.to_nat Z.add iterator_advance].
  rewrite decide_False by lia. cbn -[has Z.to_nat Z.add iterator_advance].
  rewrite Hfr. cbn -[has Z.to_nat Z.add iterator_advance].
  rewrite Hsize.
  split; intros Hrc.
  - rewrite decide_True by done. cbn -[Z.to_nat Z.add iterator_advance].
    rewrite Hadv. reflexivity.
  - rewrite decide_False by (by intros ?).
    destruct result; cbn -[Z.to_nat Z.add iterator_advance Z.rem]; rewrite Hadv;
      cbn -[Z.to_nat Z.add Z.rem]; by case_decide.
Qed.

End ProcessResponse.

(** ** The I/O layer and the drops *)

Section IOLayer.

Context {A : Type} `{Allocator A} {Body Dec : Type}.
Variable DATA_SIZE : nat.

(** C10.  dropFront and dropBack stop on a failed assertion when [size] is
    0 and when the block list is empty.  hasSentBytes (conn, bytes) is
    outBuf.dropFront (bytes) when [bytes > 0] and does nothing when [bytes]
    is 0; hasNotRecvBytes (conn, bytes) is inBuf.dropBack (bytes) when
    [bytes > 0] and does nothing when [bytes] is 0.  So neither of them ever
    fails the assertion on [size]. *)
Theorem drops_guarded (s : A * ConnectionImpl Body Dec) (bytes : nat) :
  (∀ t : A * Buffer,
      (dropFront DATA_SIZE 0 t).1 = Err (AssertFailed SizeNonZero) ∧
      (dropBack DATA_SIZE 0 t).1 = Err (AssertFailed SizeNonZero)) ∧
  (∀ (t : A * Buffer) size, size ≠ 0 → m_blocks t.2 = [] →
      (dropFront DATA_SIZE size t).1 = Err (AssertFailed BlocksNonEmpty) ∧
      (dropBack DATA_SIZE size t).1 = Err (AssertFailed BlocksNonEmpty)) ∧
  hasSentBytes DATA_SIZE 0 s = (Ok (), s) ∧
  hasNotRecvBytes DATA_SIZE 0 s = (Ok (), s) ∧
  (0 < bytes →
     hasSentBytes DATA_SIZE bytes s = on_outBuf (dropFront DATA_SIZE bytes) s ∧
     hasNotRecvBytes DATA_SIZE bytes s = on_inBuf (dropBack DATA_SIZE bytes) s) ∧
  (hasSentBytes DATA_SIZE bytes s).1 ≠ Err (AssertFailed SizeNonZero) ∧
  (hasNotRecvBytes DATA_SIZE bytes s).1 ≠ Err (AssertFailed SizeNonZero).
Proof.
  split; [intros t; split; [apply dropFront_zero | apply dropBack_zero]|].
  split; [intros t size ??; split;
          [by apply dropFront_no_blocks | by apply dropBack_no_blocks]|].
  do 2 (split; [reflexivity|]).
  unfold hasSentBytes, hasNotRecvBytes.
  split; [intros Hpos; rewrite !decide_True by done; done|].
  case_decide; [|split; discriminate].
  split; unfold on_outBuf, on_inBuf; cbn.
  - apply dropFront_positive. lia.
  - apply dropBack_positive. lia.
Qed.

End IOLayer.

(** ** The storage of the blocks as one run of bytes *)

Section Storage.

Variable DATA_SIZE : nat.

Implicit Types (B : Buffer) (bs suf : list Block) (b : Block).

Lemma storage_app bs bs' : storage (bs ++ bs') = storage bs ++ storage bs'.
Proof. unfold storage. by rewrite fmap_app, concat_app. Qed.

Lemma storage_cons b bs : storage (b :: bs) = data b ++ storage bs.
Proof. done. Qed.

Lemma storage_length bs :
  sized DATA_SIZE bs → length (storage bs) = length bs * DATA_SIZE.
Proof.
  induction 1 as [|b bs Hb _ IH]; [done|].
  rewrite storage_cons, length_app, IH, Hb. cbn [length]. lia.
Qed.

Lemma storage_drop bs k :
  sized DATA_SIZE bs → storage (drop k bs) = drop (k * DATA_SIZE) (storage bs).
Proof.
  intros Hsized. revert k. induction Hsized as [|b bs Hb _ IH]; intros k.
  - rewrite drop_nil. unfold storage. cbn. by rewrite drop_nil.
  - destruct k as [|k]; [done|]. cbn [drop]. rewrite IH, storage_cons.
    rewrite drop_app_ge by lia. f_equal. lia.
Qed.

Lemma storage_take bs k :
  sized DATA_SIZE bs → storage (take k bs) = take (k * DATA_SIZE) (storage bs).
Proof.
  intros Hsized. revert k. induction Hsized as [|b bs Hb _ IH]; intros k.
  - rewrite take_nil. unfold storage. cbn. by rewrite take_nil.
  - destruct k as [|k]; [done|]. cbn [take]. rewrite !storage_cons, IH.
    rewrite take_app_ge by lia. do 2 f_equal. lia.
Qed.

Lemma sized_app bs bs' :
  sized DATA_SIZE (bs ++ bs') ↔ sized DATA_SIZE bs ∧ sized DATA_SIZE bs'.
Proof. apply Forall_app. Qed.

Lemma renumber_storage last_id bs : storage (renumber last_id bs) = storage bs.
Proof.
  revert last_id. induction bs as [|b bs IH]; intros last_id; [done|].
  cbn [renumber]. by rewrite !storage_cons, IH.
Qed.

Lemma renumber_sized last_id bs :
  sized DATA_SIZE (renumber last_id bs) ↔ sized DATA_SIZE bs.
Proof.
  revert last_id. induction bs as [|b bs IH]; intros last_id; [done|].
  cbn [renumber]. unfold sized in *. rewrite !Forall_cons, IH. done.
Qed.

(** Reading inside one block is reading the storage. *)
Lemma peek_storage pre b rest pos n :
  sized DATA_SIZE pre → length (data b) = DATA_SIZE → pos + n ≤ DATA_SIZE →
  peek DATA_SIZE b pos n
  = Ok (take n (drop (length pre * DATA_SIZE + pos) (storage (pre ++ b :: rest)))).
Proof.
  intros Hpre Hb Hfit. unfold peek. rewrite decide_True by done. f_equal.
  rewrite storage_app, storage_cons.
  rewrite drop_app_ge by (rewrite storage_length by done; lia).
  rewrite storage_length by done.
  replace (length pre * DATA_SIZE + pos - length pre * DATA_SIZE) with pos by lia.
  rewrite drop_app_le by lia.
  rewrite take_app_le by (rewrite length_drop; lia). done.
Qed.

(** Writing inside one block is writing the storage. *)
Lemma poke_storage pre b rest pos src b' :
  sized DATA_SIZE pre → length (data b) = DATA_SIZE →
  poke DATA_SIZE b pos src = Ok b' →
  addr b' = addr b ∧ id b' = id b ∧ length (data b') = DATA_SIZE ∧
  storage (pre ++ b' :: rest)
  = take (length pre * DATA_SIZE + pos) (storage (pre ++ b :: rest)) ++ src
    ++ drop (length pre * DATA_SIZE + pos + length src) (storage (pre ++ b :: rest)).
Proof.
  intros Hpre Hb. unfold poke. case_decide as Hfit; [|done]. intros [= <-].
  cbn [addr id data set_data]. split; [done|]. split; [done|]. split.
  { rewrite !length_app, length_take, length_drop. lia. }
  rewrite !storage_app, !storage_cons. cbn [data set_data].
  pose proof (storage_length pre Hpre) as Hlen.
  rewrite take_app_ge, drop_app_ge by lia. rewrite Hlen.
  replace (length pre * DATA_SIZE + pos - length pre * DATA_SIZE) with pos by lia.
  replace (length pre * DATA_SIZE + pos + length src - length pre * DATA_SIZE)
    with (pos + length src) by lia.
  rewrite take_app_le, drop_app_le by lia.
  by rewrite <- !(assoc_L (++)).
Qed.

(** get, on the blocks from the iterator's on, reads their storage. *)
Lemma get_in_storage suf pos size :
  sized DATA_SIZE suf → pos ≤ DATA_SIZE → pos + size ≤ length suf * DATA_SIZE →
  get_in DATA_SIZE suf pos size = Ok (take size (drop pos (storage suf))).
Proof.
  intros Hsized. revert pos size.
  induction Hsized as [|b rest Hb Hrest IH]; intros pos size Hpos Hfit.
  - cbn in Hfit. by replace size with 0 by lia.
  - destruct size as [|size']; [done|]. set (size := S size') in *.
    change (get_in DATA_SIZE (b :: rest) pos size)
      with (chunk ← peek DATA_SIZE b pos (size `min` (DATA_SIZE - pos));
            more ← get_in DATA_SIZE rest 0 (size - size `min` (DATA_SIZE - pos));
            Ok (chunk ++ more)).
    unfold peek. rewrite decide_True by lia. cbn [mbind outcome_bind].
    cbn [length] in Hfit. rewrite IH by lia. cbn [mbind outcome_bind]. f_equal.
    rewrite drop_0, storage_cons, drop_app_le by lia.
    rewrite take_app, length_drop, Hb.
    destruct (decide (size ≤ DATA_SIZE - pos)) as [Hle|Hgt].
    + rewrite Nat.min_l by done. replace (size - size) with 0 by lia.
      by replace (size - (DATA_SIZE - pos)) with 0 by lia.
    + rewrite Nat.min_r by lia.
      by rewrite !(take_ge (drop pos (data b))) by (rewrite length_drop; lia).
Qed.

(** set, on the blocks from the iterator's on, overwrites their storage
    from [pos] on and nothing else. *)
Lemma set_in_storage suf pos buf :
  sized DATA_SIZE suf → pos ≤ DATA_SIZE →
  pos + length buf ≤ length suf * DATA_SIZE →
  ∃ suf', set_in DATA_SIZE suf pos buf = Ok suf' ∧
          addr <$> suf' = addr <$> suf ∧ id <$> suf' = id <$> suf ∧
          sized DATA_SIZE suf' ∧
          storage suf'
          = take pos (storage suf) ++ buf ++ drop (pos + length buf) (storage suf).
Proof.
  intros Hsized. revert pos buf.
  induction Hsized as [|b rest Hb Hrest IH]; intros pos buf Hpos Hfit.
  - cbn in Hfit. destruct buf; [|cbn in Hfit; lia]. exists [].
    unfold storage. cbn. rewrite take_nil, drop_nil.
    repeat split; constructor.
  - destruct buf as [|x xs].
    { exists (b :: rest). repeat split; try done; [by constructor|].
      cbn [app length]. by rewrite Nat.add_0_r, take_drop. }
    set (buf := x :: xs) in *.
    set (copy_sz := length buf `min` (DATA_SIZE - pos)).
    assert (length (take copy_sz buf) = copy_sz) as Hcopy
      by (rewrite length_take; lia).
    destruct (poke DATA_SIZE b pos (take copy_sz buf)) as [b'|] eqn:Hpoke;
      [|unfold poke in Hpoke; rewrite decide_True in Hpoke by lia; done].
    destruct (poke_storage [] b rest pos _ b' (Forall_nil_2 _) Hb Hpoke)
      as (Haddr & Hid & Hlen & Hstore).
    cbn [app length] in Hstore. rewrite Nat.mul_0_l, !Nat.add_0_l, Hcopy in Hstore.
    destruct (IH 0 (drop copy_sz buf)) as (rest' & Hset & Haddrs & Hids & Hsized' & Hrest');
      [lia | rewrite length_drop; cbn [length] in Hfit; nia |].
    exists (b' :: rest'). split; [|split; [|split; [|split]]].
    + change (set_in DATA_SIZE (b :: rest) pos buf)
        with (b'' ← poke DATA_SIZE b pos (take copy_sz buf);
              rest'' ← set_in DATA_SIZE rest 0 (drop copy_sz buf);
              Ok (b'' :: rest'')).
      by rewrite Hpoke, Hset.
    + by rewrite !fmap_cons, Haddr, Haddrs.
    + by rewrite !fmap_cons, Hid, Hids.
    + by constructor.
    + rewrite storage_cons, Hrest'. rewrite take_0, Nat.add_0_l, length_drop.
      cbn [app].
      assert (data b' = take pos (data b) ++ take copy_sz buf
                        ++ drop (pos + copy_sz) (data b)) as ->.
      { unfold poke in Hpoke. case_decide; [|done]. injection Hpoke as <-.
        cbn [data set_data]. by rewrite Hcopy. }
      rewrite storage_cons.
      rewrite take_app_le, drop_app by lia. rewrite Hb.
      rewrite <- !(assoc_L (++)). f_equal.
      destruct (decide (length buf ≤ DATA_SIZE - pos)) as [Hle|Hgt].
      * subst copy_sz. rewrite Nat.min_l by done.
        rewrite (take_ge buf), (drop_ge buf) by done. cbn [app].
        replace (pos + length buf - DATA_SIZE) with 0 by lia.
        replace (length buf - length buf) with 0 by lia. done.
      * subst copy_sz. rewrite Nat.min_r by lia.
        replace (pos + (DATA_SIZE - pos)) with DATA_SIZE by lia.
        rewrite (drop_ge (data b) DATA_SIZE) by lia.
        rewrite (drop_ge (data b)) by lia. cbn [app].
        rewrite (assoc_L (++)), take_drop. do 2 f_equal. lia.
Qed.

End Storage.

(** ** The contents of the buffer under get and set *)

Section Contents.

Variable DATA_SIZE : nat.

Implicit Types (B : Buffer) (bs suf : list Block) (b : Block).

Lemma end_position_fits B :
  m_blocks B ≠ [] → m_end B ≤ DATA_SIZE →
  end_position DATA_SIZE B ≤ length (m_blocks B) * DATA_SIZE.
Proof.
  intros Hne Hend. unfold end_position.
  destruct (m_blocks B); [done|]. cbn [length]. nia.
Qed.

(** The buffer holds the bytes between begin() and end(). *)
Lemma contents_length B :
  sized DATA_SIZE (m_blocks B) → m_end B ≤ DATA_SIZE →
  m_blocks B ≠ [] →
  length (contents DATA_SIZE B) = end_position DATA_SIZE B - m_begin B.
Proof.
  intros Hsized Hend Hne. unfold contents. fold (storage (m_blocks B)).
  pose proof (end_position_fits B Hne Hend).
  rewrite length_take, length_drop, (storage_length DATA_SIZE) by done. lia.
Qed.

(** A window of a list, after bytes inside the window are overwritten. *)
Lemma window_update {T} (l buf : list T) (b e p : nat) :
  b ≤ p → p + length buf ≤ e → e ≤ length l →
  take (e - b) (drop b (take p l ++ buf ++ drop (p + length buf) l))
  = take (p - b) (take (e - b) (drop b l)) ++ buf
    ++ drop (p - b + length buf) (take (e - b) (drop b l)).
Proof.
  intros Hb Hp He.
  assert (take (p - b) (take (e - b) (drop b l)) = drop b (take p l)) as ->.
  { rewrite take_take, Nat.min_l, take_drop_commute by lia.
    by replace (b + (p - b)) with p by lia. }
  assert (drop (p - b + length buf) (take (e - b) (drop b l))
          = take (e - (p + length buf)) (drop (p + length buf) l)) as ->.
  { rewrite skipn_firstn_comm, drop_drop. f_equal; [lia | f_equal; lia]. }
  rewrite drop_app_le by (rewrite length_take; lia).
  rewrite take_app_ge by (rewrite length_drop, length_take; lia).
  rewrite length_drop, length_take, Nat.min_l by lia.
  rewrite take_app_ge by lia. do 3 f_equal. lia.
Qed.

(** Where an iterator stands in the storage. *)
Lemma position_storage bs itr p :
  sized DATA_SIZE bs → position DATA_SIZE bs itr = Some p →
  ∃ pre suf, locate (m_block itr) bs = Some (pre, suf) ∧ bs = pre ++ suf ∧
             suf ≠ [] ∧ p = length pre * DATA_SIZE + m_position itr ∧
             storage bs = storage pre ++ storage suf ∧
             length (storage pre) = length pre * DATA_SIZE ∧
             sized DATA_SIZE pre ∧ sized DATA_SIZE suf.
Proof.
  intros Hsized. unfold position, block_index.
  destruct (locate (m_block itr) bs) as [[pre suf]|] eqn:Hloc; [|done]. cbn.
  intros [= <-]. exists pre, suf.
  destruct (locate_split _ _ _ _ Hloc) as (-> & (b & rest & -> & _) & _).
  apply Forall_app in Hsized as [Hpre Hsuf].
  repeat split; try done; [apply storage_app | by apply (storage_length DATA_SIZE)].
Qed.

Lemma get_in_contents B itr size p :
  sized DATA_SIZE (m_blocks B) → m_end B ≤ DATA_SIZE →
  m_position itr ≤ DATA_SIZE →
  position DATA_SIZE (m_blocks B) itr = Some p →
  m_begin B ≤ p → p + size ≤ end_position DATA_SIZE B →
  get DATA_SIZE B itr size
  = Ok (take size (drop (p - m_begin B) (contents DATA_SIZE B))).
Proof.
  intros Hsized Hend Hpos Hp Hbegin Hfit.
  destruct (position_storage _ _ _ Hsized Hp)
    as (pre & suf & Hloc & Hbs & Hsuf & -> & Hstore & Hlen & Hpre & Hsized').
  assert (m_blocks B ≠ []) as Hne by (rewrite Hbs; by destruct pre, suf).
  pose proof (end_position_fits B Hne Hend) as He.
  rewrite Hbs, length_app in He.
  assert (get DATA_SIZE B itr size
          = Ok (take size (drop (m_position itr) (storage suf)))) as ->.
  { destruct size as [|n]; [done|]. unfold get. rewrite Hloc.
    cbn [defined mbind outcome_bind]. apply get_in_storage; [done..|]. lia. }
  f_equal. unfold contents. fold (storage (m_blocks B)).
  rewrite skipn_firstn_comm, take_take, Nat.min_l by lia.
  rewrite drop_drop, Hstore. f_equal.
  rewrite drop_app_ge by lia. f_equal. lia.
Qed.

(** Buffer::get reads the bytes of the buffer at the iterator: [size] bytes
    of the contents, from as many bytes after begin() as the iterator
    stands, whatever blocks they lie in. *)
Theorem get_reads_contents B itr size p :
  sized DATA_SIZE (m_blocks B) → m_end B ≤ DATA_SIZE →
  m_position itr ≤ DATA_SIZE →
  position DATA_SIZE (m_blocks B) itr = Some p →
  m_begin B ≤ p → p + size ≤ end_position DATA_SIZE B →
  get DATA_SIZE B itr size
  = Ok (take size (drop (p - m_begin B) (contents DATA_SIZE B))).
Proof. exact (get_in_contents B itr size p). Qed.

Lemma set_in_contents B itr buf p :
  sized DATA_SIZE (m_blocks B) → m_end B ≤ DATA_SIZE →
  m_position itr ≤ DATA_SIZE →
  position DATA_SIZE (m_blocks B) itr = Some p →
  m_begin B ≤ p → p + length buf ≤ end_position DATA_SIZE B →
  ∃ B', set DATA_SIZE B itr buf = Ok B' ∧
        contents DATA_SIZE B'
        = take (p - m_begin B) (contents DATA_SIZE B) ++ buf
          ++ drop (p - m_begin B + length buf) (contents DATA_SIZE B) ∧
        addr <$> m_blocks B' = addr <$> m_blocks B ∧
        id <$> m_blocks B' = id <$> m_blocks B ∧
        sized DATA_SIZE (m_blocks B') ∧
        m_iterators B' = m_iterators B ∧
        m_begin B' = m_begin B ∧ m_end B' = m_end B.
Proof.
  intros Hsized Hend Hpos Hp Hbegin Hfit.
  destruct buf as [|x xs].
  { exists B. split; [done|]. cbn [length app].
    rewrite Nat.add_0_r, take_drop. done. }
  set (buf := x :: xs) in *.
  destruct (position_storage _ _ _ Hsized Hp)
    as (pre & suf & Hloc & Hbs & Hsuf & -> & Hstore & Hlen & Hpre & Hsized').
  assert (m_blocks B ≠ []) as Hne by (rewrite Hbs; by destruct pre, suf).
  pose proof (end_position_fits B Hne Hend) as He.
  rewrite Hbs, length_app in He.
  destruct (set_in_storage DATA_SIZE suf (m_position itr) buf)
    as (suf' & Hset & Haddrs & Hids & Hsized'' & Hstore'); [done | done | lia |].
  exists (mkBuffer (pre ++ suf') (m_iterators B) (m_begin B) (m_end B)).
  split; [|split; [|split; [|split; [|split]]]].
  - unfold set. cbn [buf]. rewrite Hloc. cbn [defined mbind outcome_bind].
    fold buf. by rewrite Hset.
  - unfold contents, end_position. cbn [m_blocks m_begin m_end].
    fold (storage (pre ++ suf')). fold (storage (m_blocks B)).
    assert (length (pre ++ suf') = length (m_blocks B)) as ->.
    { rewrite Hbs, !length_app. f_equal.
      by rewrite <- (length_fmap addr suf'), Haddrs, length_fmap. }
    fold (end_position DATA_SIZE B).
    rewrite <- window_update.
    + f_equal. f_equal. rewrite storage_app, Hstore', Hstore.
      rewrite take_app_ge, drop_app_ge by lia. rewrite Hlen.
      rewrite <- (assoc_L (++)). do 2 f_equal; [f_equal; lia|].
      do 2 f_equal. lia.
    + done.
    + done.
    + rewrite (storage_length DATA_SIZE), Hbs, length_app by done. lia.
  - cbn. by rewrite Hbs, !fmap_app, Haddrs.
  - cbn. by rewrite Hbs, !fmap_app, Hids.
  - cbn. by apply Forall_app.
  - done.
Qed.

(** Buffer::set overwrites the bytes of the buffer at the iterator with
    [buf] and changes nothing else: not the other bytes, the blocks'
    addresses and ids, the iterators, begin() or end(). *)
Theorem set_writes_contents B itr buf p :
  sized DATA_SIZE (m_blocks B) → m_end B ≤ DATA_SIZE →
  m_position itr ≤ DATA_SIZE →
  position DATA_SIZE (m_blocks B) itr = Some p →
  m_begin B ≤ p → p + length buf ≤ end_position DATA_SIZE B →
  ∃ B', set DATA_SIZE B itr buf = Ok B' ∧
        contents DATA_SIZE B'
        = take (p - m_begin B) (contents DATA_SIZE B) ++ buf
          ++ drop (p - m_begin B + length buf) (contents DATA_SIZE B) ∧
        addr <$> m_blocks B' = addr <$> m_blocks B ∧
        id <$> m_blocks B' = id <$> m_blocks B ∧
        sized DATA_SIZE (m_blocks B') ∧
        m_iterators B' = m_iterators B ∧
        m_begin B' = m_begin B ∧ m_end B' = m_end B.
Proof. exact (set_in_contents B itr buf p). Qed.

(** The templated set and get copy an object with one memcpy where it fits
    into what is left of the iterator's block: they then do what the
    byte-wise set and get do. *)
Theorem object_path_agrees B itr (t : list byte) (n : nat) :
  is_Some (block_index (m_block itr) (m_blocks B)) → m_position itr ≤ DATA_SIZE →
  set_object DATA_SIZE B itr t = set DATA_SIZE B itr t ∧
  get_object DATA_SIZE B itr n = get DATA_SIZE B itr n.
Proof.
  intros [i Hi] Hpos. unfold block_index in Hi.
  destruct (locate (m_block itr) (m_blocks B)) as [[pre suf]|] eqn:Hloc; [|done].
  destruct (locate_split _ _ _ _ Hloc) as (Hbs & (b & rest & -> & _) & _).
  unfold set_object, get_object, diff. rewrite decide_True by done.
  cbn [mbind outcome_bind]. split.
  - case_decide as Hfit; [|done]. rewrite Hloc. cbn [defined mbind outcome_bind head tail].
    unfold set. destruct t as [|x xs].
    + unfold poke. rewrite decide_True by (cbn; lia). cbn [mbind outcome_bind].
      cbn [app length]. rewrite Nat.add_0_r, take_drop. f_equal.
      destruct B as [bs its bg en], b as [a i' d]. cbn in *. by rewrite Hbs.
    + rewrite Hloc. cbn [defined mbind outcome_bind]. set (t := x :: xs) in *.
      change (set_in DATA_SIZE (b :: rest) (m_position itr) t)
        with (b' ← poke DATA_SIZE b (m_position itr)
                        (take (length t `min` (DATA_SIZE - m_position itr)) t);
              rest' ← set_in DATA_SIZE rest 0
                        (drop (length t `min` (DATA_SIZE - m_position itr)) t);
              Ok (b' :: rest')).
      rewrite Nat.min_l, take_ge, drop_ge by done.
      destruct (poke _ _ _ _) as [b'|]; [|done]. cbn [mbind outcome_bind].
      by destruct rest.
  - case_decide as Hfit; [|done]. rewrite Hloc. cbn [defined mbind outcome_bind head].
    unfold get. destruct n as [|n'].
    + unfold peek. by rewrite decide_True by lia.
    + rewrite Hloc. cbn [defined mbind outcome_bind]. set (n := S n') in *.
      change (get_in DATA_SIZE (b :: rest) (m_position itr) n)
        with (chunk ← peek DATA_SIZE b (m_position itr)
                           (n `min` (DATA_SIZE - m_position itr));
              more ← get_in DATA_SIZE rest 0
                            (n - n `min` (DATA_SIZE - m_position itr));
              Ok (chunk ++ more)).
      rewrite Nat.min_l by done. replace (n - n) with 0 by lia.
      destruct (peek _ _ _ _) as [chunk|]; [|done]. cbn [mbind outcome_bind].
      destruct rest; cbn; by rewrite app_nil_r.
Qed.

End Contents.

(** ** The contents of the buffer under dropFront and dropBack *)

Section DropContents.

Context {A : Type} `{Allocator A}.
Variable DATA_SIZE : nat.

Implicit Types (B : Buffer) (bs : list Block) (l : list iterator).

Lemma block_index_cons a b bs :
  block_index a (b :: bs)
  = if decide (addr b = a) then Some 0 else S <$> block_index a bs.
Proof.
  unfold block_index. cbn [locate]. case_decide; [done|].
  by destruct (locate a bs) as [[pre suf]|].
Qed.

(** The loop of dropFront returns where the bytes to drop are there and
    the first iterator of the list stands after them. *)
Lemma dropFront_loop_total bs size left_in_block (a : A) B :
  size ≤ left_in_block + (length bs - 1) * DATA_SIZE →
  (∀ it, head (m_iterators B) = Some it →
         ∃ i, block_index (m_block it) bs = Some i ∧ m_position it ≤ DATA_SIZE ∧
              DATA_SIZE - left_in_block + size ≤ i * DATA_SIZE + m_position it) →
  left_in_block ≤ DATA_SIZE →
  ∃ size' s', dropFront_loop DATA_SIZE bs size left_in_block (a, B) = (Ok size', s').
Proof.
  revert size left_in_block a B.
  induction bs as [|b rest IH]; intros size left_in_block a B Hsize Hhead Hleft;
    cbn [dropFront_loop]; (case_decide as Hlt; [|by eauto]).
  - cbn in Hsize. lia.
  - cbn [length] in Hsize.
    unfold the_buffer, store, lift, delBlock.
    unfold mbind, ST_bind, mret, ST_ret. cbn [fst snd].
    assert (match head (m_iterators B) with
            | Some it => bool_decide (m_block it ≠ addr b)
            | None => true
            end = true) as ->.
    { destruct (head (m_iterators B)) as [it|] eqn:Hit; [|done].
      destruct (Hhead it eq_refl) as (i & Hi & Hp & Hplace).
      apply bool_decide_eq_true_2. intros Heq.
      rewrite block_index_cons, decide_True in Hi by done.
      injection Hi as <-. lia. }
    cbn [require].
    destruct rest as [|b' rest']; [cbn in Hsize; lia|]. cbn [head defined].
    apply IH; cbn [length m_iterators] in *; [nia | | done].
    intros it Hit. destruct (Hhead it Hit) as (i & Hi & Hp & Hplace).
    rewrite block_index_cons in Hi. case_decide as Hb; [injection Hi as <-; lia|].
    destruct (block_index (m_block it) (b' :: rest')) as [j|]; [|done].
    cbn in Hi. injection Hi as <-. exists j. split; [done|]. split; [done|]. lia.
Qed.

(** Where the iterators stand at or after [m_begin + size], the one that
    is first in the list does. *)
Lemma head_place B (size : nat) :
  orderly DATA_SIZE B →
  Forall (λ p, size ≤ p) (place DATA_SIZE (m_blocks B) <$> m_iterators B) →
  ∀ it, head (m_iterators B) = Some it →
        ∃ i, block_index (m_block it) (m_blocks B) = Some i ∧
             m_position it ≤ DATA_SIZE ∧ size ≤ i * DATA_SIZE + m_position it.
Proof.
  intros Hord Hplaces it Hit.
  pose proof (orderly_inside _ _ Hord) as Hin.
  destruct (m_iterators B) as [|x l]; [done|]. injection Hit as ->.
  apply Forall_cons in Hin as [[[i Hi] Hp] _].
  rewrite fmap_cons in Hplaces. apply Forall_cons in Hplaces as [Hplace _].
  exists i. split; [done|]. split; [done|].
  unfold place, key in Hplace. by rewrite Hi in Hplace.
Qed.

Lemma last_place B (P : nat → Prop) :
  orderly DATA_SIZE B →
  Forall P (place DATA_SIZE (m_blocks B) <$> m_iterators B) →
  ∀ it, last (m_iterators B) = Some it →
        ∃ i, block_index (m_block it) (m_blocks B) = Some i ∧
             m_position it ≤ DATA_SIZE ∧ P (i * DATA_SIZE + m_position it).
Proof.
  intros Hord Hplaces it Hit.
  pose proof (orderly_inside _ _ Hord) as Hin.
  apply last_Some_elem_of in Hit.
  rewrite Forall_forall in Hin. destruct (Hin it Hit) as [[i Hi] Hp].
  rewrite Forall_fmap, Forall_forall in Hplaces. specialize (Hplaces it Hit).
  exists i. split; [done|]. split; [done|].
  cbn in Hplaces. unfold place, key in Hplaces. by rewrite Hi in Hplaces.
Qed.

(** dropFront (size) returns where the buffer holds [size] bytes and no
    iterator stands in them. *)
Lemma dropFront_total (a : A) B size :
  orderly DATA_SIZE B → size ≠ 0 → m_blocks B ≠ [] →
  m_begin B + size ≤ end_position DATA_SIZE B →
  admissible DATA_SIZE B (DropFront size) →
  ∃ s', dropFront DATA_SIZE size (a, B) = (Ok tt, s').
Proof.
  intros Hord Hsize Hne Hfit Hadm. cbn [admissible] in Hadm.
  pose proof (orderly_bounds _ _ Hord) as [Hb He].
  pose proof (orderly_addrs _ _ Hord) as Hnd.
  unfold end_position in Hfit.
  destruct (dropFront_loop_total (m_blocks B) size (DATA_SIZE - m_begin B) a B)
    as (size' & [a1 B1] & Hloop); [lia | | lia |].
  { intros it Hit.
    destruct (head_place B (m_begin B + size) Hord Hadm it Hit) as (i & ? & ? & ?).
    exists i. repeat split; try done. lia. }
  pose proof Hloop as Hret.
  apply dropFront_loop_returns in Hret as (k & Hblocks & Hits & Hend & Hk); [|done].
  cbn [snd] in *.
  assert (k < length (m_blocks B)) as Hklen.
  { destruct k as [|k']; [destruct (m_blocks B); [done | cbn; lia]|]. nia. }
  assert (k * DATA_SIZE + (m_begin B1 + size') = m_begin B + size) as Hsum
    by (destruct k; lia).
  destruct (lookup_lt_is_Some_2 (m_blocks B) k Hklen) as [fb Hfb].
  assert (block_index (addr fb) (m_blocks B) = Some k) as Hfbi
    by (by apply block_index_app).
  unfold dropFront. rewrite run_bind. unfold lift at 1.
  rewrite bool_decide_eq_true_2 by done. cbn [require].
  rewrite run_bind. unfold the_buffer at 1. cbn [fst snd].
  rewrite run_bind. unfold lift at 1.
  rewrite bool_decide_eq_true_2 by done. cbn [require].
  rewrite run_bind. unfold lift at 1. unfold diff. rewrite decide_True by done.
  rewrite run_bind, Hloop.
  unfold the_buffer, store, lift.
  unfold mbind, ST_bind, mret, ST_ret. cbn [fst snd].
  unfold firstBlock. rewrite Hblocks, head_lookup, lookup_drop, Nat.add_0_r, Hfb.
  cbn [defined]. cbn [m_blocks m_iterators m_begin m_end].
  rewrite bool_decide_eq_true_2 by (destruct k; lia). cbn [require].
  assert (match last (m_iterators B1) with
          | Some iter =>
              if decide (m_block iter = addr fb)
              then require IteratorInside
                     (bool_decide (m_begin B1 + size' ≤ m_position iter))
              else Ok ()
          | None => Ok ()
          end = Ok ()) as ->.
  { destruct (last (m_iterators B1)) as [iter|] eqn:Hlast; [|done].
    case_decide as Hblock; [|done].
    rewrite Hits in Hlast.
    destruct (last_place B _ Hord Hadm iter Hlast) as (i & Hi & _ & Hplace).
    rewrite Hblock, Hfbi in Hi. injection Hi as <-.
    rewrite bool_decide_eq_true_2 by lia. done. }
  unfold lastBlock.
  destruct (last (drop k (m_blocks B))) as [lb|] eqn:Hlb;
    [|apply last_None in Hlb; apply (f_equal length) in Hlb;
      rewrite length_drop in Hlb; cbn in Hlb; lia].
  cbn [defined]. case_decide as Hsame; [|by eauto].
  rewrite bool_decide_eq_true_2; [by eauto|].
  assert (last (m_blocks B) = Some lb) as Hlast.
  { rewrite <- (take_drop k (m_blocks B)).
    destruct (drop k (m_blocks B)) as [|d ds] eqn:Hd; [done|].
    by rewrite last_app_cons. }
  pose proof (last_block_index _ _ Hnd Hlast) as Hlbi.
  rewrite Hsame, Hfbi in Hlbi. injection Hlbi as Hk'.
  rewrite Hend. nia.
Qed.

Lemma dropFront_contents (a : A) B size :
  orderly DATA_SIZE B → sized DATA_SIZE (m_blocks B) →
  size ≠ 0 → m_blocks B ≠ [] →
  m_begin B + size ≤ end_position DATA_SIZE B →
  admissible DATA_SIZE B (DropFront size) →
  ∃ a' B', dropFront DATA_SIZE size (a, B) = (Ok tt, (a', B')) ∧
           contents DATA_SIZE B' = drop size (contents DATA_SIZE B) ∧
           m_iterators B' = m_iterators B ∧ m_blocks B' ≠ [] ∧
           orderly DATA_SIZE B' ∧ sized DATA_SIZE (m_blocks B').
Proof.
  intros Hord Hsized Hsize Hne Hfit Hadm.
  destruct (dropFront_total a B size Hord Hsize Hne Hfit Hadm) as [[a' B'] Hrun].
  exists a', B'. split; [done|].
  pose proof (dropFront_keeps_order DATA_SIZE a B size (a', B') Hord Hadm Hrun) as Hord'.
  apply dropFront_returns in Hrun as (k & Hblocks & Hits & Hend & Hbegin & Hsum & Hk).
  cbn [snd] in *.
  pose proof (orderly_bounds _ _ Hord) as [Hb He].
  unfold end_position in Hfit.
  assert (k < length (m_blocks B)) as Hklen.
  { destruct (decide (k < length (m_blocks B))); [done|].
    destruct (m_blocks B); [done|]. cbn [length] in *. nia. }
  assert (m_blocks B' ≠ []) as Hne'.
  { rewrite Hblocks. intros Hnil%(f_equal length).
    rewrite length_drop in Hnil. cbn in Hnil. lia. }
  split; [|split; [done|]; split; [done|]; split; [done|]].
  - unfold contents, end_position. fold (storage (m_blocks B')).
    fold (storage (m_blocks B)).
    rewrite Hblocks, Hend, (storage_drop DATA_SIZE), length_drop by done.
    rewrite skipn_firstn_comm, !drop_drop. f_equal; [|f_equal; lia].
    destruct (m_blocks B); [done|]. cbn [length] in *. nia.
  - rewrite Hblocks. by apply Forall_drop.
Qed.

(** dropFront (size) drops the first [size] bytes of the buffer.  It
    returns where the buffer holds that many bytes and no iterator stands in
    them; the bytes that follow stay, and so do the iterators and end(). *)
Theorem dropFront_drops_prefix (a : A) B size :
  orderly DATA_SIZE B → sized DATA_SIZE (m_blocks B) →
  size ≠ 0 → m_blocks B ≠ [] →
  m_begin B + size ≤ end_position DATA_SIZE B →
  admissible DATA_SIZE B (DropFront size) →
  ∃ a' B', dropFront DATA_SIZE size (a, B) = (Ok tt, (a', B')) ∧
           contents DATA_SIZE B' = drop size (contents DATA_SIZE B) ∧
           m_iterators B' = m_iterators B ∧ m_blocks B' ≠ [] ∧
           orderly DATA_SIZE B' ∧ sized DATA_SIZE (m_blocks B').
Proof. exact (dropFront_contents a B size). Qed.

End DropContents.


Section DropBackContents.

Context {A : Type} `{Allocator A}.
Variable DATA_SIZE : nat.

Implicit Types (B : Buffer) (bs : list Block) (l : list iterator).

(** The loop of dropBack returns where the bytes to drop are there and the
    last iterator of the list stands in none of the blocks that become the
    last block on the way. *)
Lemma dropBack_loop_total rbs size left_in_block (a : A) B :
  size ≤ left_in_block + (length rbs - 1) * DATA_SIZE →
  (∀ it j b, last (m_iterators B) = Some it → rbs !! S j = Some b →
             j * DATA_SIZE + left_in_block < size → m_block it ≠ addr b) →
  ∃ size' s', dropBack_loop DATA_SIZE rbs size left_in_block (a, B) = (Ok size', s').
Proof.
  revert size left_in_block a B.
  induction rbs as [|b before IH]; intros size left_in_block a B Hsize Hlast;
    cbn [dropBack_loop]; (case_decide as Hlt; [|by eauto]).
  - cbn in Hsize. lia.
  - cbn [length] in Hsize.
    unfold the_buffer, store, lift, delBlock.
    unfold mbind, ST_bind, mret, ST_ret. cbn [fst snd].
    destruct before as [|b' before']; [cbn in Hsize; lia|]. cbn [head defined].
    assert (last_iterator_not_in B (addr b') = true) as Hnot.
    { unfold last_iterator_not_in.
      destruct (last (m_iterators B)) as [it|] eqn:Hit; [|done].
      apply bool_decide_eq_true_2. apply (Hlast it 0 b'); [done | done | lia]. }
    unfold last_iterator_not_in in *. cbn [m_iterators]. rewrite Hnot. cbn [require].
    apply IH; cbn [length m_iterators] in *; [nia|].
    intros it j b'' Hit Hj Hlt'. apply (Hlast it (S j) b''); [done | done | lia].
Qed.

(** dropBack (size) returns where the buffer holds [size] bytes, no
    iterator stands in them, and the last iterator of the list stands before
    the block the buffer then ends in, unless no block is freed. *)
Lemma dropBack_total (a : A) B size :
  orderly DATA_SIZE B → size ≠ 0 → m_blocks B ≠ [] →
  m_begin B + size ≤ end_position DATA_SIZE B →
  admissible DATA_SIZE B (DropBack size) →
  (∀ it i, last (m_iterators B) = Some it →
           block_index (m_block it) (m_blocks B) = Some i →
           size ≤ m_end B ∨ S i * DATA_SIZE + size ≤ end_position DATA_SIZE B) →
  ∃ s', dropBack DATA_SIZE size (a, B) = (Ok tt, s').
Proof.
  intros Hord Hsize Hne Hfit Hadm Hclear. cbn [admissible] in Hadm.
  pose proof (orderly_bounds _ _ Hord) as [Hb He].
  pose proof (orderly_addrs _ _ Hord) as Hnd.
  pose proof (orderly_inside _ _ Hord) as Hin.
  destruct (dropBack_loop_total (reverse (m_blocks B)) size (m_end B) a B)
    as (size' & [a1 B1] & Hloop).
  { rewrite length_reverse. unfold end_position in Hfit. lia. }
  { intros it j b Hit Hj Hlt Heq.
    apply reverse_lookup_Some in Hj as [Hj Hjlen].
    pose proof (block_index_app _ _ _ Hnd Hj) as Hi. rewrite <- Heq in Hi.
    destruct (Hclear it _ Hit Hi) as [?|Hle]; [lia|].
    unfold end_position in Hle. nia. }
  pose proof Hloop as Hret.
  apply dropBack_loop_returns in Hret as (k & Hits & Hbegin & Hk).
  cbn [snd] in *.
  set (n := length (m_blocks B) - k).
  assert (m_blocks B1 = take n (m_blocks B) ∧ 0 < n ≤ length (m_blocks B) ∧
          end_position DATA_SIZE B
          = (n - 1) * DATA_SIZE + (m_end B1 - size') + size ∧ size' ≤ m_end B1)
    as (Hblocks & Hn & Hsum & Hsize').
  { subst n. unfold end_position. destruct k as [|k'].
    - destruct Hk as (-> & -> & ?). rewrite Nat.sub_0_r, firstn_all.
      destruct (m_blocks B); [done|]. cbn [length]. repeat split; try lia.
    - destruct Hk as (Hblocks & Hk & -> & Hsz & Hsum).
      rewrite length_reverse in Hk.
      rewrite Hblocks, reverse_drop, reverse_involutive, length_reverse.
      repeat split; try lia. nia. }
  destruct (lookup_lt_is_Some_2 (m_blocks B) (n - 1) ltac:(lia)) as [lb Hlb].
  assert (block_index (addr lb) (m_blocks B) = Some (n - 1)) as Hlbi
    by (by apply block_index_app).
  assert (last (m_blocks B1) = Some lb) as Hlast1.
  { rewrite Hblocks, last_lookup, length_take, Nat.min_l by lia.
    rewrite lookup_take_lt by lia. by rewrite <- Nat.sub_1_r. }
  unfold dropBack. rewrite run_bind. unfold lift at 1.
  rewrite bool_decide_eq_true_2 by done. cbn [require].
  rewrite run_bind. unfold the_buffer at 1. cbn [fst snd].
  rewrite run_bind. unfold lift at 1.
  rewrite bool_decide_eq_true_2 by done. cbn [require].
  rewrite run_bind, Hloop.
  unfold the_buffer, store, lift.
  unfold mbind, ST_bind, mret, ST_ret. cbn [fst snd].
  unfold lastBlock. rewrite Hlast1. cbn [defined].
  cbn [m_blocks m_iterators m_begin m_end].
  assert (match last (m_iterators B1) with
          | Some iter =>
              if decide (m_block iter = addr lb)
              then require IteratorInside
                     (bool_decide (m_position iter ≤ m_end B1 - size'))
              else Ok ()
          | None => Ok ()
          end = Ok ()) as ->.
  { destruct (last (m_iterators B1)) as [iter|] eqn:Hlast; [|done].
    case_decide as Hblock; [|done].
    rewrite Hits in Hlast.
    destruct (last_place DATA_SIZE B _ Hord Hadm iter Hlast) as (i & Hi & _ & Hplace).
    rewrite Hblock, Hlbi in Hi. injection Hi as <-. cbn beta in Hplace.
    rewrite bool_decide_eq_true_2 by lia. done. }
  unfold firstBlock.
  destruct (head (m_blocks B1)) as [fb|] eqn:Hfb;
    [|apply head_None in Hfb; rewrite Hfb in Hlast1; done].
  cbn [defined]. case_decide as Hsame; [|by eauto].
  rewrite bool_decide_eq_true_2; [by eauto|].
  assert (block_index (addr fb) (m_blocks B) = Some 0) as Hfbi.
  { apply block_index_app; [done|].
    rewrite Hblocks, head_lookup, lookup_take_lt in Hfb by lia. done. }
  rewrite Hsame, Hlbi in Hfbi. injection Hfbi as Hn1. rewrite Hbegin. lia.
Qed.

Lemma dropBack_contents (a : A) B size :
  orderly DATA_SIZE B → sized DATA_SIZE (m_blocks B) →
  size ≠ 0 → m_blocks B ≠ [] →
  m_begin B + size ≤ end_position DATA_SIZE B →
  admissible DATA_SIZE B (DropBack size) →
  (∀ it i, last (m_iterators B) = Some it →
           block_index (m_block it) (m_blocks B) = Some i →
           size ≤ m_end B ∨ S i * DATA_SIZE + size ≤ end_position DATA_SIZE B) →
  ∃ a' B', dropBack DATA_SIZE size (a, B) = (Ok tt, (a', B')) ∧
           contents DATA_SIZE B'
           = take (length (contents DATA_SIZE B) - size) (contents DATA_SIZE B) ∧
           m_iterators B' = m_iterators B ∧ m_begin B' = m_begin B ∧
           m_blocks B' ≠ [] ∧ m_end B' < DATA_SIZE ∧
           end_position DATA_SIZE B' + size = end_position DATA_SIZE B ∧
           orderly DATA_SIZE B' ∧ sized DATA_SIZE (m_blocks B').
Proof.
  intros Hord Hsized Hsize Hne Hfit Hadm Hclear.
  destruct (dropBack_total a B size Hord Hsize Hne Hfit Hadm Hclear) as [[a' B'] Hrun].
  exists a', B'. split; [done|].
  pose proof (dropBack_keeps_order DATA_SIZE a B size (a', B') Hord Hadm Hrun) as Hord'.
  pose proof (orderly_bounds _ _ Hord) as [Hb He].
  apply dropBack_returns in Hrun
    as (n & Hblocks & Hn & Hits & Hbegin & Hend & Hsum & _); [|done].
  cbn [snd] in *.
  assert (m_blocks B' ≠ []) as Hne'.
  { rewrite Hblocks. intros Hnil%(f_equal length).
    rewrite length_take in Hnil. cbn in Hnil. lia. }
  pose proof (end_position_fits DATA_SIZE B' Hne' ltac:(lia)) as Hfit'.
  rewrite Hblocks, length_take, Nat.min_l in Hfit' by lia.
  split; [|do 6 (split; [done|]); rewrite Hblocks; by apply Forall_take].
  rewrite (contents_length DATA_SIZE B) by done.
  unfold contents. fold (storage (m_blocks B')). fold (storage (m_blocks B)).
  rewrite Hbegin, Hblocks, (storage_take DATA_SIZE) by done.
  rewrite skipn_firstn_comm, !take_take. f_equal. lia.
Qed.

(** dropBack (size) drops the last [size] bytes of the buffer.  It returns
    where the buffer holds that many bytes, no iterator stands in them, and
    the last iterator of the list stands before the block the buffer then
    ends in, unless no block is freed; the bytes before stay, and so do the
    iterators and begin(). *)
Theorem dropBack_drops_suffix (a : A) B size :
  orderly DATA_SIZE B → sized DATA_SIZE (m_blocks B) →
  size ≠ 0 → m_blocks B ≠ [] →
  m_begin B + size ≤ end_position DATA_SIZE B →
  admissible DATA_SIZE B (DropBack size) →
  (∀ it i, last (m_iterators B) = Some it →
           block_index (m_block it) (m_blocks B) = Some i →
           size ≤ m_end B ∨ S i * DATA_SIZE + size ≤ end_position DATA_SIZE B) →
  ∃ a' B', dropBack DATA_SIZE size (a, B) = (Ok tt, (a', B')) ∧
           contents DATA_SIZE B'
           = take (length (contents DATA_SIZE B) - size) (contents DATA_SIZE B) ∧
           m_iterators B' = m_iterators B ∧ m_begin B' = m_begin B ∧
           m_blocks B' ≠ [] ∧ m_end B' < DATA_SIZE ∧
           end_position DATA_SIZE B' + size = end_position DATA_SIZE B ∧
           orderly DATA_SIZE B' ∧ sized DATA_SIZE (m_blocks B').
Proof. exact (dropBack_contents a B size). Qed.

(** dropBack checks the last iterator of the list against the block before
    the one it has just freed, not against the freed one: it stops on that
    assertion whenever it frees the last block while the last iterator of
    the list stands in the block before it, wherever in that block. *)
Theorem dropBack_asserts_on_block_before (a : A) B size it i :
  size ≠ 0 →
  last (m_iterators B) = Some it →
  block_index (m_block it) (m_blocks B) = Some i →
  S (S i) = length (m_blocks B) → m_end B < size →
  (dropBack DATA_SIZE size (a, B)).1 = Err (AssertFailed NoIteratorInBlock).
Proof.
  intros Hsize Hlast Hi Hlen Hcross.
  destruct (block_index_lookup _ _ _ Hi) as (b & Hb & Haddr & _).
  assert (reverse (m_blocks B) !! 1 = Some b) as Hrev.
  { apply reverse_lookup_Some. split; [|lia].
    by replace (length (m_blocks B) - S 1) with i by lia. }
  unfold dropBack. rewrite run_bind. unfold lift at 1.
  rewrite bool_decide_eq_true_2 by done. cbn [require].
  rewrite run_bind. unfold the_buffer at 1. cbn [fst snd].
  rewrite run_bind. unfold lift at 1.
  rewrite bool_decide_eq_true_2 by (intros Hnil; by rewrite Hnil in Hlen).
  cbn [require]. rewrite run_bind.
  destruct (reverse (m_blocks B)) as [|lb [|b' before]]; [done | done |].
  cbn in Hrev. injection Hrev as ->.
  cbn [dropBack_loop]. rewrite decide_True by done.
  unfold the_buffer, store, lift, delBlock.
  unfold mbind, ST_bind, mret, ST_ret. cbn [fst snd head defined].
  unfold last_iterator_not_in. cbn [m_iterators]. rewrite Hlast.
  by rewrite bool_decide_eq_false_2 by (intros Hne; by apply Hne).
Qed.

End DropBackContents.


(** ** The contents of the buffer under appendBack and addBack *)

Section AppendContents.

Context {A : Type} `{Allocator A}.
Variable DATA_SIZE : nat.
Hypothesis DATA_SIZE_pos : 0 < DATA_SIZE.

Implicit Types (B : Buffer) (bs : list Block) (l : list iterator).

Lemma contents_no_blocks B : m_blocks B = [] → contents DATA_SIZE B = [].
Proof. intros Hnil. unfold contents. rewrite Hnil. cbn. by rewrite drop_nil, take_nil. Qed.

Lemma self_reservation B new_blocks me : self (reservation B new_blocks me) = me.
Proof. unfold reservation. by repeat case_match. Qed.

Lemma appendBack_contents (a : A) B size me new_blocks a' :
  well_formed DATA_SIZE (m_blocks B) → m_end B ≤ DATA_SIZE →
  m_begin B ≤ end_position DATA_SIZE B → size ≠ 0 →
  allocate_upto
    (blocks_needed DATA_SIZE size
       (if bool_decide (m_blocks B ≠ []) then DATA_SIZE - m_end B else 0)) a
  = (new_blocks, a', true) →
  sized DATA_SIZE new_blocks →
  ∃ itr B' gap,
    appendBack DATA_SIZE size me (a, B) = (Ok itr, (a', B')) ∧
    contents DATA_SIZE B' = contents DATA_SIZE B ++ gap ∧ length gap = size ∧
    get DATA_SIZE B' itr size = Ok gap ∧
    self itr = me ∧ m_position itr ≤ DATA_SIZE ∧
    position DATA_SIZE (m_blocks B') itr
    = Some (m_begin B' + length (contents DATA_SIZE B)) ∧
    m_iterators B' = m_iterators B ++ [itr] ∧
    sized DATA_SIZE (m_blocks B') ∧ 0 < m_end B' ≤ DATA_SIZE ∧ m_blocks B' ≠ [] ∧
    addr <$> m_blocks B' = (addr <$> m_blocks B) ++ (addr <$> new_blocks) ∧
    end_position DATA_SIZE B'
    = m_begin B' + length (contents DATA_SIZE B) + size ∧
    m_begin B' = (if bool_decide (m_blocks B ≠ []) then m_begin B else 0).
Proof using DATA_SIZE_pos.
  intros [Hnd Hsized] Hend Hbegin Hsize Halloc Hnew.
  pose proof (appendBack_spec DATA_SIZE DATA_SIZE_pos a B size me Hsize Hend) as Hspec.
  cbn zeta in Hspec. rewrite Halloc in Hspec.
  destruct Hspec as (Hlen & B' & Hrun & Hblocks & Hits & Hbegin' & Hend' & Hendpos).
  set (itr := reservation B new_blocks me) in *.
  assert (sized DATA_SIZE (m_blocks B')) as Hsized'.
  { rewrite Hblocks. apply Forall_app. split; [|done]. by apply renumber_sized. }
  assert (storage (m_blocks B') = storage (m_blocks B) ++ storage new_blocks) as Hstore
    by (by rewrite Hblocks, storage_app, renumber_storage).
  assert (m_blocks B' ≠ []) as Hne'.
  { rewrite Hblocks. intros [Hnil ->]%app_eq_nil.
    destruct (m_blocks B) as [|b0 bs0] eqn:Hbs; [|done].
    rewrite bool_decide_eq_false_2 in Hlen by (intros ?; done).
    pose proof (blocks_needed_first DATA_SIZE DATA_SIZE_pos size Hsize).
    cbn [length] in Hlen. congruence. }
  pose proof (end_position_fits DATA_SIZE B' Hne' ltac:(lia)) as Hfit'.
  pose proof (storage_length DATA_SIZE _ Hsized') as Hlen'.
  pose proof (storage_length DATA_SIZE _ Hsized) as HlenS.
  assert (∃ gap, contents DATA_SIZE B' = contents DATA_SIZE B ++ gap ∧
                 length gap = size ∧
                 position DATA_SIZE (m_blocks B') itr
                 = Some (m_begin B' + length (contents DATA_SIZE B)) ∧
                 m_position itr ≤ DATA_SIZE ∧
                 end_position DATA_SIZE B'
                 = m_begin B' + length (contents DATA_SIZE B) + size)
    as (gap & Hcontents & Hgap & Hpos & Hp & Hsum).
  { destruct (m_blocks B) as [|b0 bs0] eqn:Hbs.
    - rewrite bool_decide_eq_false_2 in * by (intros ?; done).
      rewrite (contents_no_blocks B Hbs). cbn [app length].
      exists (contents DATA_SIZE B'). split; [done|].
      rewrite (contents_length DATA_SIZE B') by (done || lia).
      split; [lia|]. subst itr. unfold reservation, lastBlock. rewrite Hbs. cbn [last].
      cbn [renumber app] in Hblocks. rewrite Hblocks.
      destruct new_blocks as [|nb nbs]; [by rewrite Hblocks in Hne'|].
      unfold position, block_index. cbn. rewrite decide_True by done. cbn.
      rewrite Hbegin'. repeat split; try done; lia.
    - rewrite bool_decide_eq_true_2 in * by done. rewrite <- Hbs in *.
      assert (m_blocks B ≠ []) as Hne by (by rewrite Hbs).
      pose proof (end_position_fits DATA_SIZE B Hne Hend) as Hfit.
      rewrite (contents_length DATA_SIZE B) by done.
      exists (take size (drop (end_position DATA_SIZE B - m_begin B)
                              (drop (m_begin B) (storage (m_blocks B'))))).
      split; [|split; [|split; [|split]]].
      + unfold contents at 1 2. fold (storage (m_blocks B')). fold (storage (m_blocks B)).
        rewrite Hendpos, Hbegin'.
        replace (end_position DATA_SIZE B + size - m_begin B)
          with (end_position DATA_SIZE B - m_begin B + size) by lia.
        rewrite <- take_take_drop. f_equal.
        rewrite Hstore, drop_app_le by lia.
        by rewrite take_app_le by (rewrite length_drop; lia).
      + rewrite length_take, !length_drop. lia.
      + subst itr. unfold reservation, lastBlock.
        destruct (last (m_blocks B)) as [lb|] eqn:Hlast; [|by apply last_None in Hlast].
        pose proof (last_block_index _ _ Hnd Hlast) as Hindex.
        assert (block_index (addr lb) (m_blocks B') = Some (length (m_blocks B) - 1))
          as Hindex'.
        { rewrite Hblocks. apply block_index_app_l.
          rewrite (block_index_addrs _ _ (m_blocks B)); [done|].
          apply renumber_addrs. }
        unfold position. cbn [m_block m_position]. rewrite Hindex'. cbn.
        f_equal. unfold end_position in *. lia.
      + subst itr. unfold reservation, lastBlock.
        destruct (last (m_blocks B)); [done|]. destruct new_blocks; cbn; lia.
      + lia. }
  exists itr, B', gap.
  split; [done|]. split; [done|]. split; [done|]. split.
  { rewrite (get_in_contents DATA_SIZE B' itr size _ Hsized' ltac:(lia) Hp Hpos)
      by lia.
    f_equal. rewrite Hcontents.
    replace (m_begin B' + length (contents DATA_SIZE B) - m_begin B')
      with (length (contents DATA_SIZE B)) by lia.
    rewrite drop_app_length. apply take_ge. lia. }
  split; [apply self_reservation|].
  do 3 (split; [done|]). split; [done|]. split; [lia|]. split; [done|].
  split; [by rewrite Hblocks, fmap_app, renumber_addrs|]. split; [done|].
  destruct (m_blocks B); [by rewrite bool_decide_eq_false_2 in * by (intros ?; done)|].
  by rewrite bool_decide_eq_true_2 in * by done.
Qed.

(** appendBack (size), where the allocator delivers the blocks needed:
    the bytes of the buffer stay, [size] bytes of reserved space follow
    them, and the iterator returned stands at the first of these, so that
    get and set through it reach exactly the reservation. *)
Theorem appendBack_reserves (a : A) B size me new_blocks a' :
  well_formed DATA_SIZE (m_blocks B) → m_end B ≤ DATA_SIZE →
  m_begin B ≤ end_position DATA_SIZE B → size ≠ 0 →
  allocate_upto
    (blocks_needed DATA_SIZE size
       (if bool_decide (m_blocks B ≠ []) then DATA_SIZE - m_end B else 0)) a
  = (new_blocks, a', true) →
  sized DATA_SIZE new_blocks →
  ∃ itr B' gap,
    appendBack DATA_SIZE size me (a, B) = (Ok itr, (a', B')) ∧
    contents DATA_SIZE B' = contents DATA_SIZE B ++ gap ∧ length gap = size ∧
    get DATA_SIZE B' itr size = Ok gap ∧
    self itr = me ∧ m_position itr ≤ DATA_SIZE ∧
    position DATA_SIZE (m_blocks B') itr
    = Some (m_begin B' + length (contents DATA_SIZE B)) ∧
    m_iterators B' = m_iterators B ++ [itr] ∧
    sized DATA_SIZE (m_blocks B') ∧ 0 < m_end B' ≤ DATA_SIZE ∧ m_blocks B' ≠ [] ∧
    addr <$> m_blocks B' = (addr <$> m_blocks B) ++ (addr <$> new_blocks) ∧
    end_position DATA_SIZE B'
    = m_begin B' + length (contents DATA_SIZE B) + size ∧
    m_begin B' = (if bool_decide (m_blocks B ≠ []) then m_begin B else 0).
Proof using DATA_SIZE_pos. exact (appendBack_contents a B size me new_blocks a'). Qed.

Lemma addBack_contents (a : A) B buf tmp new_blocks a' :
  well_formed DATA_SIZE (m_blocks B) → m_end B ≤ DATA_SIZE →
  m_begin B ≤ end_position DATA_SIZE B → buf ≠ [] →
  tmp ∉ self <$> m_iterators B →
  allocate_upto
    (blocks_needed DATA_SIZE (length buf)
       (if bool_decide (m_blocks B ≠ []) then DATA_SIZE - m_end B else 0)) a
  = (new_blocks, a', true) →
  sized DATA_SIZE new_blocks →
  ∃ B', addBack DATA_SIZE buf tmp (a, B) = (Ok (length buf), (a', B')) ∧
        contents DATA_SIZE B' = contents DATA_SIZE B ++ buf ∧
        m_iterators B' = m_iterators B ∧
        sized DATA_SIZE (m_blocks B') ∧ 0 < m_end B' ≤ DATA_SIZE ∧ m_blocks B' ≠ [] ∧
        addr <$> m_blocks B' = (addr <$> m_blocks B) ++ (addr <$> new_blocks) ∧
        end_position DATA_SIZE B'
        = m_begin B' + length (contents DATA_SIZE B) + length buf ∧
        m_begin B' = (if bool_decide (m_blocks B ≠ []) then m_begin B else 0).
Proof using DATA_SIZE_pos.
  intros Hwf Hend Hbegin Hbuf Htmp Halloc Hnew.
  assert (length buf ≠ 0) as Hsize by (by destruct buf).
  destruct (appendBack_contents a B (length buf) tmp new_blocks a'
              Hwf Hend Hbegin Hsize Halloc Hnew)
    as (itr & B1 & gap & Hrun & Hcontents & Hgap & _ & Hself & Hp & Hpos & Hits
        & Hsized1 & Hend1 & Hne1 & Haddrs1 & Hsum & Hbegin1).
  destruct (set_in_contents DATA_SIZE B1 itr buf _ Hsized1 (proj2 Hend1) Hp Hpos)
    as (B2 & Hset & Hcontents2 & Haddrs2 & _ & Hsized2 & Hits2 & Hbegin2 & Hend2);
    [lia | lia |].
  exists (mkBuffer (m_blocks B2) (m_iterators B) (m_begin B2) (m_end B2)).
  split; [|split].
  - unfold addBack. rewrite run_bind, Hrun.
    unfold the_buffer, store, lift, iterator_destroy.
    unfold mbind, ST_bind, mret, ST_ret. cbn [fst snd]. rewrite Hset.
    cbn -[unlink].
    by rewrite Hits2, Hits, (unlink_last _ _ _ Htmp Hself).
  - change (contents DATA_SIZE (mkBuffer (m_blocks B2) (m_iterators B) (m_begin B2)
                                         (m_end B2)))
      with (contents DATA_SIZE B2).
    rewrite Hcontents2, Hcontents.
    replace (m_begin B1 + length (contents DATA_SIZE B) - m_begin B1)
      with (length (contents DATA_SIZE B)) by lia.
    rewrite take_app_length, drop_app_ge by lia.
    rewrite drop_ge by lia. by rewrite app_nil_r.
  - unfold end_position in *. cbn [m_blocks m_iterators m_begin m_end].
    split; [done|]. split; [done|]. split; [lia|].
    split; [intros Hnil; rewrite Hnil in Haddrs2; by destruct (m_blocks B1)|].
    split; [by rewrite Haddrs2|].
    rewrite Hbegin2, Hend2, <- (length_fmap addr (m_blocks B2)), Haddrs2, length_fmap.
    done.
Qed.

(** addBack (buf, size) appends the bytes to the buffer and returns their
    number, where the allocator delivers the blocks needed: the contents
    become the old contents followed by [buf], and the iterators and
    begin() stay. *)
Theorem addBack_appends (a : A) B buf tmp new_blocks a' :
  well_formed DATA_SIZE (m_blocks B) → m_end B ≤ DATA_SIZE →
  m_begin B ≤ end_position DATA_SIZE B → buf ≠ [] →
  tmp ∉ self <$> m_iterators B →
  allocate_upto
    (blocks_needed DATA_SIZE (length buf)
       (if bool_decide (m_blocks B ≠ []) then DATA_SIZE - m_end B else 0)) a
  = (new_blocks, a', true) →
  sized DATA_SIZE new_blocks →
  ∃ B', addBack DATA_SIZE buf tmp (a, B) = (Ok (length buf), (a', B')) ∧
        contents DATA_SIZE B' = contents DATA_SIZE B ++ buf ∧
        m_iterators B' = m_iterators B ∧
        sized DATA_SIZE (m_blocks B') ∧ 0 < m_end B' ≤ DATA_SIZE ∧ m_blocks B' ≠ [] ∧
        addr <$> m_blocks B' = (addr <$> m_blocks B) ++ (addr <$> new_blocks) ∧
        end_position DATA_SIZE B'
        = m_begin B' + length (contents DATA_SIZE B) + length buf ∧
        m_begin B' = (if bool_decide (m_blocks B ≠ []) then m_begin B else 0).
Proof using DATA_SIZE_pos. exact (addBack_contents a B buf tmp new_blocks a'). Qed.

End AppendContents.


(** ** Reserving and giving back, sending everything *)

Section Compositions.

Context {A : Type} `{Allocator A}.
Variable DATA_SIZE : nat.
Hypothesis DATA_SIZE_pos : 0 < DATA_SIZE.

Implicit Types (B : Buffer) (bs : list Block) (l : list iterator).

(** appendBack (size), the destruction of the iterator it returned and
    dropBack (size), one after the other.  Given that the allocator
    delivers the blocks needed, that begin() is not after end() and no
    iterator stands after end(), and that, where blocks are needed, the
    last iterator of the list does not stand in the last block unless that
    block is full (dropBack on its way back would find it there), the three
    calls return, and the bytes of the buffer and its iterators are what
    they were.  If the buffer had blocks and its last block was not full,
    the blocks, begin() and end() are what they were as well.  If the last
    block was full, or the buffer had no blocks, dropBack keeps the first
    of the blocks that appendBack added and leaves end() at offset 0 of it:
    at the byte position end() had, but no longer in the block it was in.
    The other blocks added are given back. *)
Theorem appendBack_dropBack_restores (a : A) B size me new_blocks a' :
  orderly DATA_SIZE B → sized DATA_SIZE (m_blocks B) →
  m_begin B ≤ end_position DATA_SIZE B → size ≠ 0 →
  admissible DATA_SIZE B (AppendBack size me) →
  (∀ it i, last (m_iterators B) = Some it →
           block_index (m_block it) (m_blocks B) = Some i →
           size ≤ DATA_SIZE - m_end B ∨ S i * DATA_SIZE ≤ end_position DATA_SIZE B) →
  allocate_upto
    (blocks_needed DATA_SIZE size
       (if bool_decide (m_blocks B ≠ []) then DATA_SIZE - m_end B else 0)) a
  = (new_blocks, a', true) →
  well_formed DATA_SIZE (m_blocks B ++ new_blocks) →
  ∃ a'' B'',
    (_ ← appendBack DATA_SIZE size me; _ ← iterator_destroy me;
     dropBack DATA_SIZE size) (a, B) = (Ok tt, (a'', B'')) ∧
    contents DATA_SIZE B'' = contents DATA_SIZE B ∧
    m_iterators B'' = m_iterators B ∧
    (m_blocks B ≠ [] → m_begin B'' = m_begin B ∧
                        end_position DATA_SIZE B'' = end_position DATA_SIZE B) ∧
    (m_blocks B = [] → m_begin B'' = 0) ∧
    if decide (m_blocks B ≠ [] ∧ m_end B < DATA_SIZE)
    then addr <$> m_blocks B'' = addr <$> m_blocks B ∧ m_end B'' = m_end B
    else new_blocks ≠ [] ∧
         addr <$> m_blocks B'' = (addr <$> m_blocks B) ++ take 1 (addr <$> new_blocks) ∧
         m_end B'' = 0.
Proof using DATA_SIZE_pos.
  intros Hord Hsized Hbegin Hsize Hadm Hclear Halloc [Hnd' Hsized'].
  pose proof Hadm as [Hme Hplaces].
  pose proof (orderly_bounds _ _ Hord) as [Hb He].
  pose proof (orderly_addrs _ _ Hord) as Hnd.
  apply Forall_app in Hsized' as [_ Hnew].
  destruct (appendBack_contents DATA_SIZE DATA_SIZE_pos a B size me new_blocks a'
              (conj Hnd Hsized) He Hbegin Hsize Halloc Hnew)
    as (itr & B1 & gap & Hrun & Hcontents & Hgap & _ & Hself & Hp & Hpos & Hits
        & Hsized1 & [_ Hend1] & Hne1 & Haddrs1 & Hsum & Hbegin1).
  assert (orderly DATA_SIZE B1) as Hord1.
  { apply (appendBack_keeps_order DATA_SIZE DATA_SIZE_pos a B size me (a', B1));
      [done | done | | cbn [snd]; by rewrite Haddrs1, <- fmap_app].
    cbn [run_op]. by rewrite run_bind, Hrun. }
  assert (admissible DATA_SIZE B1 (Destroy me)) as Hadm1.
  { cbn [admissible]. rewrite Hits, fmap_app. cbn. rewrite Hself.
    apply elem_of_app. right. left. }
  destruct (destroy_keeps_order DATA_SIZE a' B1 me Hord1 Hadm1)
    as (B2 & Hdestroy & Hord2).
  cbn [run_op] in Hdestroy. rewrite iterator_destroy_run in Hdestroy.
  injection Hdestroy as <-.
  rewrite Hits, (unlink_last _ _ _ Hme Hself) in Hord2.
  set (B2 := mkBuffer (m_blocks B1) (m_iterators B) (m_begin B1) (m_end B1)) in *.
  assert (∀ x, inside DATA_SIZE (m_blocks B) x →
               block_index (m_block x) (m_blocks B1)
               = block_index (m_block x) (m_blocks B)) as Hindex.
  { intros x [[i Hi] _]. rewrite Hi.
    rewrite (block_index_addrs _ _ (m_blocks B ++ new_blocks))
      by (by rewrite Haddrs1, fmap_app).
    by apply block_index_app_l. }
  assert (m_blocks B ≠ [] →
          end_position DATA_SIZE B1 = end_position DATA_SIZE B + size) as Hend_pos.
  { intros Hne. rewrite Hsum, Hbegin1, bool_decide_eq_true_2 by done.
    rewrite (contents_length DATA_SIZE B) by done. lia. }
  destruct (dropBack_contents DATA_SIZE a' B2 size)
    as (a'' & B'' & Hdrop & Hcontents'' & Hits'' & Hbegin'' & _ & _ & Hsum'' & _);
    [done | done | done | done | | | |].
  - change (end_position DATA_SIZE B2) with (end_position DATA_SIZE B1).
    cbn [B2 m_begin]. lia.
  - cbn [admissible B2 m_blocks m_iterators].
    change (end_position DATA_SIZE B2) with (end_position DATA_SIZE B1).
    destruct (decide (m_blocks B = [])) as [Hnil|Hne].
    { by rewrite (no_blocks_no_iterators DATA_SIZE B Hord Hnil). }
    rewrite Forall_fmap in Hplaces |- *.
    pose proof (orderly_inside _ _ Hord) as Hin.
    rewrite Forall_forall in Hplaces, Hin |- *. intros x Hx.
    specialize (Hplaces x Hx). specialize (Hin x Hx). cbn in Hplaces |- *.
    unfold place, key in *. rewrite (Hindex x Hin), (Hend_pos Hne). lia.
  - cbn [B2 m_blocks m_iterators m_end].
    change (end_position DATA_SIZE B2) with (end_position DATA_SIZE B1).
    intros it i Hlast Hi.
    pose proof (orderly_inside _ _ Hord) as Hin.
    apply last_Some_elem_of in Hlast as Hit.
    rewrite Forall_forall in Hin. specialize (Hin it Hit).
    rewrite (Hindex it Hin) in Hi.
    assert (m_blocks B ≠ []) as Hne by (intros Hnil; by rewrite Hnil in Hi).
    destruct (Hclear it i Hlast Hi) as [Hroom|Hfull].
    + left. specialize (Hend_pos Hne). unfold end_position in Hend_pos.
      assert (blocks_needed DATA_SIZE size (DATA_SIZE - m_end B) = 0) as Hnone
        by (by apply blocks_needed_0).
      rewrite bool_decide_eq_true_2, Hnone in Halloc by done.
      cbn in Halloc. injection Halloc as <- _.
      rewrite <- (length_fmap addr (m_blocks B1)), Haddrs1, app_nil_r, length_fmap
        in Hend_pos.
      lia.
    + right. rewrite (Hend_pos Hne). lia.
  - pose proof Hdrop as Hback.
    apply dropBack_returns in Hback
      as (n & Hblocks'' & Hn & _ & _ & Hend'' & Hsum2 & _); [|cbn [B2 m_end]; lia].
    cbn [snd B2 m_blocks] in Hblocks'', Hn, Hend'', Hsum2.
    change (end_position DATA_SIZE B2) with (end_position DATA_SIZE B1) in Hsum2, Hsum''.
    assert (length (m_blocks B1) = length (m_blocks B) + length new_blocks) as Hlen1
      by (by rewrite <- (length_fmap addr (m_blocks B1)), Haddrs1, length_app, !length_fmap).
    assert (length (m_blocks B'') = n) as Hlen''
      by (rewrite Hblocks'', length_take; lia).
    assert (addr <$> m_blocks B''
            = take n ((addr <$> m_blocks B) ++ (addr <$> new_blocks))) as Haddrs''
      by (by rewrite Hblocks'', fmap_take, Haddrs1).
    exists a'', B''. split; [|split; [|split; [done|split; [|split]]]].
    + rewrite run_bind, Hrun, run_bind, iterator_destroy_run.
      rewrite Hits, (unlink_last _ _ _ Hme Hself). exact Hdrop.
    + rewrite Hcontents''.
      change (contents DATA_SIZE B2) with (contents DATA_SIZE B1).
      rewrite Hcontents, length_app, Hgap.
      replace (length (contents DATA_SIZE B) + size - size)
        with (length (contents DATA_SIZE B)) by lia.
      by rewrite take_app_length.
    + intros Hne. rewrite Hbegin''. cbn [B2 m_begin].
      rewrite Hbegin1, bool_decide_eq_true_2 by done. split; [done|].
      rewrite (Hend_pos Hne) in Hsum''. lia.
    + intros Hnil. rewrite Hbegin''. cbn [B2 m_begin].
      rewrite Hbegin1, bool_decide_eq_false_2; [done|]. by intros ?.
    + assert (∀ k m x y : nat, 0 < k → 0 < m → x < DATA_SIZE → y ≤ DATA_SIZE →
                (k - 1) * DATA_SIZE + x = (m - 1) * DATA_SIZE + y →
                (y < DATA_SIZE ∧ k = m ∧ x = y) ∨
                (y = DATA_SIZE ∧ k = S m ∧ x = 0)) as Hsplit.
      { clear -DATA_SIZE_pos. intros k m x y Hk Hm Hx Hy Heq.
        destruct (lt_eq_lt_dec k m) as [[Hlt|Heq']|Hgt].
        - assert ((k - 1 + 1) * DATA_SIZE ≤ (m - 1) * DATA_SIZE)
            by (apply Nat.mul_le_mono_r; lia). lia.
        - subst. lia.
        - assert ((m - 1 + 1) * DATA_SIZE ≤ (k - 1) * DATA_SIZE)
            by (apply Nat.mul_le_mono_r; lia).
          assert (k - 1 = m ∨ m + 1 ≤ k - 1) as [Hk1|Hk2] by lia.
          + right. assert ((m - 1 + 1) * DATA_SIZE = (k - 1) * DATA_SIZE)
              by (f_equal; lia). lia.
          + assert ((m + 1) * DATA_SIZE ≤ (k - 1) * DATA_SIZE)
              by (apply Nat.mul_le_mono_r; lia). lia. }
      destruct (decide (m_blocks B = [])) as [Hnil|Hne].
      * rewrite decide_False by (intros [? _]; done).
        assert (end_position DATA_SIZE B1 = size) as Hsize1.
        { rewrite Hsum, Hbegin1, bool_decide_eq_false_2 by (by intros ?).
          unfold contents. rewrite Hnil. cbn. by rewrite drop_nil, take_nil. }
        rewrite Hsize1 in Hsum2. unfold end_position in Hsum2. rewrite Hlen'' in Hsum2.
        assert (n = 1 ∧ m_end B'' = 0) as [-> Hzero].
        { assert (n = 1 ∨ 1 * DATA_SIZE ≤ (n - 1) * DATA_SIZE) as [?|?];
            [|lia|lia].
          destruct (decide (n = 1)); [by left|right].
          apply Nat.mul_le_mono_r. lia. }
        rewrite Hnil in Hlen1, Haddrs'' |- *. cbn [length fmap list_fmap app] in *.
        split; [|done]. intros ->. cbn in Hlen1. lia.
      * specialize (Hend_pos Hne). rewrite Hend_pos in Hsum2.
        unfold end_position in Hsum2. rewrite Hlen'' in Hsum2.
        assert (0 < length (m_blocks B)) as HposL
          by (destruct (m_blocks B); [done|cbn; lia]).
        destruct (Hsplit n (length (m_blocks B)) (m_end B'') (m_end B))
          as [(Hlt & -> & Hsame)|(Hfull & -> & Hzero)]; [lia..| |].
        -- rewrite decide_True by done.
           split; [|done].
           by rewrite Haddrs'', <- (length_fmap addr (m_blocks B)), take_app_length.
        -- rewrite decide_False by lia.
           split; [intros ->; cbn in Hlen1; lia|split; [|done]].
           rewrite Haddrs''.
           replace (S (length (m_blocks B)))
             with (length (addr <$> m_blocks B) + 1) by (rewrite length_fmap; lia).
           by rewrite take_app_add.
Qed.

Lemma same_block_offset (k l x y : nat) :
  k * DATA_SIZE + x = l * DATA_SIZE + y →
  0 < y ≤ DATA_SIZE → x ≤ DATA_SIZE → (0 < k → 0 < x) → k = l ∧ x = y.
Proof using DATA_SIZE_pos.
  intros Hsum Hy Hx Hk.
  destruct (lt_eq_lt_dec k l) as [[Hlt|Heq]|Hgt].
  - assert ((k + 1) * DATA_SIZE ≤ l * DATA_SIZE) by (apply Nat.mul_le_mono_r; lia). lia.
  - subst. lia.
  - assert ((l + 1) * DATA_SIZE ≤ k * DATA_SIZE) by (apply Nat.mul_le_mono_r; lia).
    specialize (Hk ltac:(lia)). lia.
Qed.

(** empty() compares [m_begin] and [m_end] as pointers: it is true only of
    a buffer that holds no bytes. *)
Lemma empty_no_contents B : empty B = true → contents DATA_SIZE B = [].
Proof.
  unfold empty, contents, end_position.
  destruct (m_blocks B) as [|b [|b' bs]]; [| |done]; intros Heq%bool_decide_eq_true.
  - cbn. by rewrite drop_nil, take_nil.
  - cbn [length]. rewrite Heq. by replace ((1 - 1) * DATA_SIZE + m_end B - m_end B) with 0 by lia.
Qed.

(** dropFront of all the bytes of the buffer, as hasSentBytes does once
    everything is sent.  It returns, where the iterators all stand at end(),
    and no bytes are left; but empty() then holds only if end() is not at
    the start of the last block, or the buffer has a single block:
    otherwise begin() has stopped at the end of the block before, and the
    two pointers differ. *)
Lemma dropFront_all_and_empty (a : A) B :
  orderly DATA_SIZE B → sized DATA_SIZE (m_blocks B) → m_blocks B ≠ [] →
  m_begin B < end_position DATA_SIZE B →
  admissible DATA_SIZE B (DropFront (length (contents DATA_SIZE B))) →
  ∃ a' B', dropFront DATA_SIZE (length (contents DATA_SIZE B)) (a, B)
           = (Ok tt, (a', B')) ∧
           contents DATA_SIZE B' = [] ∧
           empty B' = bool_decide (0 < m_end B ∨ length (m_blocks B) = 1).
Proof using DATA_SIZE_pos.
  intros Hord Hsized Hne Hbegin Hadm.
  pose proof (orderly_bounds _ _ Hord) as [Hb He].
  pose proof (contents_length DATA_SIZE B Hsized He Hne) as Hlen.
  destruct (dropFront_contents DATA_SIZE a B (length (contents DATA_SIZE B)))
    as (a' & B' & Hrun & Hcontents & _); [done | done | lia | done | lia | done |].
  exists a', B'. split; [done|]. split; [by rewrite Hcontents, drop_all|].
  apply dropFront_returns in Hrun as (k & Hblocks & _ & Hend & Hbegin' & Hsum & Hk).
  cbn [snd] in *. rewrite Hlen in Hsum. unfold end_position in *.
  assert (0 < length (m_blocks B)) as Hlen0 by (destruct (m_blocks B); [done | cbn; lia]).
  assert (k < length (m_blocks B)) as Hklen.
  { destruct (decide (k < length (m_blocks B))); [done|]. nia. }
  unfold empty. rewrite Hend.
  replace (m_begin B + ((length (m_blocks B) - 1) * DATA_SIZE + m_end B - m_begin B))
    with ((length (m_blocks B) - 1) * DATA_SIZE + m_end B) in Hsum by lia.
  destruct (decide (0 < m_end B ∨ length (m_blocks B) = 1)) as [Hcase|Hcase].
  - rewrite (bool_decide_eq_true_2 (_ ∨ _)) by done.
    assert (k = length (m_blocks B) - 1 ∧ m_begin B' = m_end B) as [Hk' Hb'].
    { destruct Hcase as [Hpos|Hone]; [by apply same_block_offset|].
      rewrite Hone in *. assert (k = 0) as -> by lia. lia. }
    assert (length (m_blocks B') = 1) as Hone by (rewrite Hblocks, length_drop; lia).
    destruct (m_blocks B') as [|b [|b' bs']]; try done.
    by rewrite bool_decide_eq_true_2.
  - rewrite (bool_decide_eq_false_2 (_ ∨ _)) by done.
    assert (m_end B = 0 ∧ 2 ≤ length (m_blocks B)) as [Hme Htwo'] by lia.
    assert (k = length (m_blocks B) - 2) as Hk'.
    { rewrite Hme in Hsum.
      replace ((length (m_blocks B) - 1) * DATA_SIZE + 0)
        with ((length (m_blocks B) - 2) * DATA_SIZE + DATA_SIZE) in Hsum by nia.
      destruct k as [|k']; [nia|]. specialize (Hk ltac:(lia)).
      by apply same_block_offset in Hsum as [? _]. }
    assert (length (m_blocks B') = 2) as Htwo by (rewrite Hblocks, length_drop; lia).
    by destruct (m_blocks B') as [|b [|b' bs']].
Qed.

(** dropBack of all the bytes of the buffer: no bytes are left, and
    empty() holds unless begin() stands at the end of its block. *)
Lemma dropBack_all_and_empty (a : A) B :
  orderly DATA_SIZE B → sized DATA_SIZE (m_blocks B) → m_blocks B ≠ [] →
  m_begin B < end_position DATA_SIZE B →
  admissible DATA_SIZE B (DropBack (length (contents DATA_SIZE B))) →
  (∀ it i, last (m_iterators B) = Some it →
           block_index (m_block it) (m_blocks B) = Some i →
           length (contents DATA_SIZE B) ≤ m_end B ∨
           S i * DATA_SIZE + length (contents DATA_SIZE B)
           ≤ end_position DATA_SIZE B) →
  ∃ a' B', dropBack DATA_SIZE (length (contents DATA_SIZE B)) (a, B)
           = (Ok tt, (a', B')) ∧
           contents DATA_SIZE B' = [] ∧
           empty B' = bool_decide (m_begin B < DATA_SIZE).
Proof using DATA_SIZE_pos.
  intros Hord Hsized Hne Hbegin Hadm Hclear.
  pose proof (orderly_bounds _ _ Hord) as [Hb He].
  pose proof (contents_length DATA_SIZE B Hsized He Hne) as Hlen.
  destruct (dropBack_contents DATA_SIZE a B (length (contents DATA_SIZE B)))
    as (a' & B' & Hrun & Hcontents & _); [done | done | lia | done | lia | done | done |].
  exists a', B'. split; [done|].
  split; [by rewrite Hcontents, Nat.sub_diag, take_0|].
  apply dropBack_returns in Hrun
    as (n & Hblocks & Hn & _ & Hbegin' & Hend' & Hsum & _); [|done].
  cbn [snd] in *. rewrite Hlen in Hsum.
  assert (end_position DATA_SIZE B' = m_begin B) as Hsum' by lia.
  unfold end_position in Hsum'. rewrite Hblocks, length_take, Nat.min_l in Hsum' by lia.
  unfold empty. rewrite Hbegin'.
  destruct (decide (m_begin B < DATA_SIZE)) as [Hlt|Hge].
  - rewrite (bool_decide_eq_true_2 (_ < _)) by done.
    assert (n = 1 ∧ m_end B' = m_begin B) as [-> Heq].
    { destruct n as [|[|n']]; [lia | lia | nia]. }
    assert (length (m_blocks B') = 1) as Hone by (rewrite Hblocks, length_take; lia).
    destruct (m_blocks B') as [|b [|b' bs']]; try done.
    by rewrite bool_decide_eq_true_2.
  - rewrite (bool_decide_eq_false_2 (_ < _)) by done.
    assert (n = 2) as ->.
    { destruct n as [|[|[|n']]]; [lia | lia | done | nia]. }
    assert (length (m_blocks B') = 2) as Htwo.
    { rewrite Hblocks, length_take. unfold end_position in Hbegin.
      destruct (m_blocks B) as [|b0 [|b1 bs]]; cbn [length] in *; [done | lia | lia]. }
    by destruct (m_blocks B') as [|b [|b' bs']].
Qed.

End Compositions.


(** ** Moving an iterator and reading at it *)

Section AdvanceRead.

Context {A : Type} `{Allocator A}.
Variable DATA_SIZE : nat.

Implicit Types (B : Buffer) (bs : list Block) (l : list iterator).

(** adjustPositionForward finds its place in any list of iterators that
    point into the blocks. *)
Lemma skip_less_returns bs this post :
  inside DATA_SIZE bs this → Forall (inside DATA_SIZE bs) post →
  ∃ run tl, skip_less bs this post = Ok (run, tl) ∧ post = run ++ tl.
Proof.
  intros [[it Hit] _]. induction 1 as [|x post [[ix Hix] _] _ IH].
  - by exists [], [].
  - cbn [skip_less]. unfold iter_lt.
    destruct (block_index_lookup _ _ _ Hix) as (bx & _ & _ & ->).
    destruct (block_index_lookup _ _ _ Hit) as (bt & _ & _ & ->).
    cbn [defined mbind outcome_bind].
    destruct (_ || _).
    + destruct IH as (run & tl & -> & ->). by exists (x :: run), tl.
    + by exists [], (x :: post).
Qed.

(** [it += step] moves the iterator [step] bytes on, whatever blocks lie
    between, and get at it then reads the bytes of the buffer from there.
    The other iterators, the blocks, begin() and end() stay; the iterator
    list is the old one up to the order. *)
Theorem advance_moves_and_reads (a : A) B i step n pre it post :
  orderly DATA_SIZE B → sized DATA_SIZE (m_blocks B) →
  find_iter i (m_iterators B) = Some (pre, it, post) →
  m_begin B ≤ place DATA_SIZE (m_blocks B) it →
  place DATA_SIZE (m_blocks B) it + step + n ≤ end_position DATA_SIZE B →
  ∃ it' B',
    iterator_advance DATA_SIZE i step (a, B) = (Ok it', (a, B')) ∧
    self it' = i ∧
    position DATA_SIZE (m_blocks B') it'
    = Some (place DATA_SIZE (m_blocks B) it + step) ∧
    m_iterators B' ≡ₚ it' :: pre ++ post ∧
    m_blocks B' = m_blocks B ∧ m_begin B' = m_begin B ∧ m_end B' = m_end B ∧
    get DATA_SIZE B' it' n
    = Ok (take n (drop (place DATA_SIZE (m_blocks B) it - m_begin B + step)
                       (contents DATA_SIZE B))).
Proof.
  intros Hord Hsized Hfind Hbegin Hfit.
  destruct (find_iter_split _ _ _ _ _ Hfind) as (Hl & Hit & Hpre).
  pose proof (orderly_inside _ _ Hord) as Hin.
  pose proof (orderly_bounds _ _ Hord) as [_ Hend].
  pose proof (orderly_addrs _ _ Hord) as Hnd.
  rewrite Hl in Hin.
  apply Forall_app in Hin as [Hin_pre [Hin_it Hin_post]%Forall_cons].
  assert (m_blocks B ≠ []) as Hne.
  { destruct Hin_it as [[j Hj] _]. intros Hnil. by rewrite Hnil in Hj. }
  pose proof (end_position_fits DATA_SIZE B Hne Hend) as Hcap.
  destruct (moveForward_total DATA_SIZE (m_blocks B) it step) as [it' Hmove];
    [done | lia |].
  destruct (moveForward_place _ _ _ _ _ Hnd Hmove) as (Hself & _ & Hin' & Hplace').
  destruct (skip_less_returns (m_blocks B) it' post Hin' Hin_post)
    as (run & tl & Hskip & Hpost).
  exists it', (mkBuffer (m_blocks B) (pre ++ run ++ it' :: tl) (m_begin B) (m_end B)).
  pose proof (position_inside DATA_SIZE _ _ Hin') as Hpos'. rewrite Hplace' in Hpos'.
  split; [|split; [congruence|]; split; [done|]; split; [|do 3 (split; [done|])]].
  - unfold iterator_advance, adjustPositionForward, the_buffer, store, lift.
    unfold mbind, ST_bind, mret, ST_ret. cbn. rewrite Hfind. cbn.
    rewrite Hmove. cbn. rewrite find_iter_app by congruence. cbn.
    rewrite Hskip. cbn. reflexivity.
  - cbn [m_iterators]. rewrite Hpost.
    rewrite (assoc_L (++)), <- Permutation_middle. by rewrite <- (assoc_L (++)).
  - destruct Hin' as [_ Hp'].
    rewrite (get_in_contents DATA_SIZE
               (mkBuffer (m_blocks B) (pre ++ run ++ it' :: tl) (m_begin B) (m_end B))
               it' n (place DATA_SIZE (m_blocks B) it + step) Hsized Hend Hp' Hpos')
      by (cbn [m_begin]; unfold end_position in *; cbn [m_blocks m_end]; lia).
    cbn [m_begin]. do 3 f_equal. lia.
Qed.

End AdvanceRead.

(** ** Requests for nothing, and requests the allocator cannot meet *)

Section Edges.

Context {A : Type} `{Allocator A}.
Variable DATA_SIZE : nat.

Implicit Types (B : Buffer) (bs : list Block) (l : list iterator).

(** In a build with assertions no operation takes a size of 0.
    appendBack (0) and addBack of no bytes stop on [assert (size != 0)] and
    leave allocator and buffer alone; so does insert (itr, 0), on the
    assertion of the appendBack it calls; release (itr, 0) and a resize to
    the same size run into the assertion of dropBack, if they get that far,
    and never return. *)
Theorem zero_size_stops (s : A * Buffer) (i n tmp : nat) :
  appendBack DATA_SIZE 0 tmp s = (Err (AssertFailed SizeNonZero), s) ∧
  addBack DATA_SIZE [] tmp s = (Err (AssertFailed SizeNonZero), s) ∧
  (is_Some (find_iter i (m_iterators s.2)) → m_blocks s.2 ≠ [] →
   insert DATA_SIZE i 0 tmp s = (Err (AssertFailed SizeNonZero), s)) ∧
  (insert DATA_SIZE i 0 tmp s).1 ≠ Ok tt ∧
  (release DATA_SIZE i 0 tmp s).1 ≠ Ok tt ∧
  (resize DATA_SIZE i n n tmp s).1 ≠ Ok tt.
Proof.
  destruct s as [a B].
  assert ((release DATA_SIZE i 0 tmp (a, B)).1 ≠ Ok tt) as Hrelease.
  { intros Hok. destruct (release DATA_SIZE i 0 tmp (a, B)) as [r s'] eqn:Hrun.
    cbn in Hok. subst r.
    apply release_returns in Hrun as (bs' & l & _ & _ & Hdrop).
    pose proof (dropBack_zero DATA_SIZE (a, mkBuffer bs' l (m_begin B) (m_end B))) as Hz.
    by rewrite Hdrop in Hz. }
  assert (∀ t, insert DATA_SIZE i 0 tmp (a, B) ≠ (Ok tt, t)) as Hinsert.
  { intros t. unfold insert.
    rewrite run_bind. unfold the_buffer at 1. cbv beta iota zeta. cbn [fst snd].
    rewrite run_bind. unfold lift at 1. cbv beta iota.
    destruct (find_iter i (m_iterators B)) as [[[pre itr] post]|]; [|done].
    cbn [defined]. cbv beta iota.
    rewrite run_bind. unfold lift at 1. cbv beta iota.
    destruct (lastBlock (m_blocks B)) as [lb|]; [|done]. cbn [defined].
    cbv beta iota zeta. by rewrite run_bind. }
  split; [done|]. split; [done|]. split; [|split; [|split; [done|]]].
  - cbn [snd]. intros [[[pre itr] post] Hfind] Hne. unfold insert.
    rewrite run_bind. unfold the_buffer at 1. cbv beta iota zeta. cbn [fst snd].
    rewrite run_bind. unfold lift at 1. cbv beta iota. rewrite Hfind.
    cbn [defined]. cbv beta iota.
    rewrite run_bind. unfold lift at 1. cbv beta iota.
    destruct (lastBlock (m_blocks B)) as [lb|] eqn:Hlast;
      [|by apply last_None in Hlast].
    cbn [defined]. cbv beta iota zeta. by rewrite run_bind.
  - destruct (insert DATA_SIZE i 0 tmp (a, B)) as [r t] eqn:Hrun. cbn.
    intros ->. by apply (Hinsert t).
  - unfold resize. rewrite decide_False by lia. by rewrite Nat.sub_diag.
Qed.

Hypothesis DATA_SIZE_pos : 0 < DATA_SIZE.

(** Where the allocator fails before it has delivered the blocks that
    [size] more bytes need, addBack, insert and a growing resize fail with
    the allocation failure and leave the buffer as it was: blocks,
    iterators, begin() and end().  The blocks obtained before the failure
    are back with the allocator. *)
Theorem allocation_failure_leaves_buffer (a : A) B (buf : list byte) (i size old tmp : nat)
    new_blocks a' :
  size ≠ 0 → m_end B ≤ DATA_SIZE →
  allocate_upto
    (blocks_needed DATA_SIZE size
       (if bool_decide (m_blocks B ≠ []) then DATA_SIZE - m_end B else 0)) a
  = (new_blocks, a', false) →
  let s' := (foldl (λ a b, deallocate b a) a' new_blocks, B) in
  (length buf = size → addBack DATA_SIZE buf tmp (a, B) = (Err BadAlloc, s')) ∧
  (is_Some (find_iter i (m_iterators B)) → m_blocks B ≠ [] →
   insert DATA_SIZE i size tmp (a, B) = (Err BadAlloc, s') ∧
   resize DATA_SIZE i old (old + size) tmp (a, B) = (Err BadAlloc, s')).
Proof using DATA_SIZE_pos.
  intros Hsize Hend Halloc. cbn zeta.
  pose proof (appendBack_spec DATA_SIZE DATA_SIZE_pos a B size tmp Hsize Hend) as Hspec.
  cbn zeta in Hspec. rewrite Halloc in Hspec. destruct Hspec as [_ Happ].
  assert (is_Some (find_iter i (m_iterators B)) → m_blocks B ≠ [] →
          insert DATA_SIZE i size tmp (a, B)
          = (Err BadAlloc, (foldl (λ a b, deallocate b a) a' new_blocks, B)))
    as Hinsert.
  { intros [[[pre itr] post] Hfind] Hne. unfold insert.
    rewrite run_bind. unfold the_buffer at 1. cbv beta iota zeta. cbn [fst snd].
    rewrite run_bind. unfold lift at 1. cbv beta iota. rewrite Hfind.
    cbn [defined]. cbv beta iota.
    rewrite run_bind. unfold lift at 1. cbv beta iota.
    destruct (lastBlock (m_blocks B)) as [lb|] eqn:Hlast;
      [|by apply last_None in Hlast].
    cbn [defined]. cbv beta iota zeta. by rewrite run_bind, Happ. }
  split.
  - intros Hlen. unfold addBack. by rewrite run_bind, Hlen, Happ.
  - intros Hfind Hne. split; [by apply Hinsert|].
    unfold resize. rewrite decide_True by lia.
    replace (old + size - old) with size by lia. by apply Hinsert.
Qed.

End Edges.

(** ** What has answers *)

Section HasExact.

Variable DATA_SIZE : nat.

(** has (itr, size) never denies bytes that are there; and what it affirms
    is there whenever the iterator stands before the last block or at the
    start of it. *)
Theorem has_sound_off_last_block (B : Buffer) (itr : iterator) (size i r : nat) :
  NoDup (addr <$> m_blocks B) →
  block_index (m_block itr) (m_blocks B) = Some i →
  m_position itr ≤ DATA_SIZE →
  remaining DATA_SIZE B itr = Some r →
  ∃ answer, has DATA_SIZE B itr size = Ok answer ∧
            (size ≤ r → answer = true) ∧
            (S i ≠ length (m_blocks B) ∨ m_position itr = 0 →
             answer = bool_decide (size ≤ r)).
Proof.
  intros Hnd Hi Hpos Hr. rewrite (has_spec DATA_SIZE B itr size i Hnd Hi Hpos).
  eexists. split; [done|]. rewrite Hr. cbn [default].
  unfold remaining, position, end_position in Hr. rewrite Hi in Hr. cbn in Hr.
  injection Hr as <-.
  case_decide as Hlast.
  - replace (length (m_blocks B) - 1) with i by lia. split.
    + intros Hle. apply bool_decide_eq_true_2. lia.
    + intros [?|Hzero]; [done|]. apply bool_decide_ext. rewrite Hzero. lia.
  - split; [intros Hle; by apply bool_decide_eq_true_2 | done].
Qed.

End HasExact.


(** ** A buffer filled once and emptied again, and the outbound buffer *)

Section RoundTrip.

Context {A : Type} `{Allocator A}.
Variable DATA_SIZE : nat.
Hypothesis DATA_SIZE_pos : 0 < DATA_SIZE.

Implicit Types (B : Buffer) (bs : list Block) (l : list iterator).

Lemma orderly_no_iterators B :
  NoDup (addr <$> m_blocks B) → m_begin B ≤ DATA_SIZE → m_end B ≤ DATA_SIZE →
  m_iterators B = [] → orderly DATA_SIZE B.
Proof. intros Hnd Hb He Hits. split; rewrite ?Hits; try done; constructor. Qed.

(** What the unit test [buffer_basic] checks, for every block size and
    every sample: bytes added to a new buffer are read back by get at
    begin(), the buffer is not empty() with them, and it is empty() again
    once they are dropped, from the back or from the front. *)
Theorem fresh_buffer_round_trip (a : A) (buf : list byte) new_blocks a' :
  buf ≠ [] →
  allocate_upto (blocks_needed DATA_SIZE (length buf) 0) a = (new_blocks, a', true) →
  well_formed DATA_SIZE new_blocks →
  ∃ B1 it,
    (_ ← addBack DATA_SIZE buf 0; begin 1) (a, Buffer_new) = (Ok it, (a', B1)) ∧
    empty B1 = false ∧
    get DATA_SIZE B1 it (length buf) = Ok buf ∧
    (∃ a2 B2, (_ ← iterator_destroy 1; dropBack DATA_SIZE (length buf)) (a', B1)
              = (Ok tt, (a2, B2)) ∧ empty B2 = true) ∧
    (∃ a3 B3, (_ ← iterator_destroy 1; dropFront DATA_SIZE (length buf)) (a', B1)
              = (Ok tt, (a3, B3)) ∧ empty B3 = true).
Proof using DATA_SIZE_pos.
  intros Hbuf Halloc [Hnd Hsized].
  assert (length buf ≠ 0) as Hlen by (by destruct buf).
  assert (contents DATA_SIZE Buffer_new = []) as Hnew by (by apply contents_no_blocks).
  destruct (addBack_contents DATA_SIZE DATA_SIZE_pos a Buffer_new buf 0 new_blocks a')
    as (B0 & Hadd & Hcontents & Hits & Hsized0 & Hend0 & Hne0 & Haddrs0 & Hsum & Hbegin0);
    try done.
  { split; constructor. }
  { cbn. lia. }
  { cbn. apply not_elem_of_nil. }
  rewrite Hnew in Hcontents, Hsum. cbn in Hcontents, Hits, Haddrs0, Hsum, Hbegin0.
  rewrite Hbegin0 in Hsum. cbn in Hsum.
  assert (NoDup (addr <$> m_blocks B0)) as Hnd0 by (by rewrite Haddrs0).
  assert (orderly DATA_SIZE B0) as Hord0 by (apply orderly_no_iterators; (done || lia)).
  assert (B0 = mkBuffer (m_blocks B0) [] 0 (m_end B0)) as HB0
    by (destruct B0; cbn in *; congruence).
  assert (∃ fb, head (m_blocks B0) = Some fb) as [fb Hfb]
    by (destruct (m_blocks B0); [done | by eauto]).
  set (it := mkIter 1 (addr fb) 0).
  set (B1 := mkBuffer (m_blocks B0) [it] 0 (m_end B0)).
  assert (∀ m : ST (A * Buffer) unit,
            (_ ← iterator_destroy 1; m) (a', B1) = m (a', B0)) as Hdestroy.
  { intros m. rewrite run_bind, iterator_destroy_run.
    cbn [B1 m_blocks m_iterators m_begin m_end].
    change (unlink 1 [it]) with (@nil iterator). by rewrite <- HB0. }
  assert (length (contents DATA_SIZE B0) = length buf) as Hclen by (by rewrite Hcontents).
  assert (end_position DATA_SIZE B0 = length buf) as Hend_pos by lia.
  exists B1, it. split; [|split; [|split; [|split]]].
  - rewrite run_bind, Hadd. unfold begin, the_buffer, store, lift.
    unfold mbind, ST_bind, mret, ST_ret. cbn [fst snd].
    unfold firstBlock. rewrite Hfb. cbn. by rewrite Hits, Hbegin0.
  - unfold empty. cbn [B1 m_blocks m_begin m_end]. unfold end_position in Hend_pos.
    destruct (m_blocks B0) as [|b0 [|b1 bs0]]; [done | | done].
    apply bool_decide_eq_false_2. cbn in Hend_pos. lia.
  - assert (position DATA_SIZE (m_blocks B1) it = Some 0) as Hpos.
    { unfold position, block_index. cbn [B1 m_blocks it m_block m_position].
      destruct (m_blocks B0) as [|b0 bs0]; [done|]. injection Hfb as ->.
      cbn. by rewrite decide_True. }
    rewrite (get_in_contents DATA_SIZE B1 it (length buf) 0 Hsized0 (proj2 Hend0)
               ltac:(cbn; lia) Hpos ltac:(cbn; lia))
      by (change (end_position DATA_SIZE B1) with (end_position DATA_SIZE B0); lia).
    assert (contents DATA_SIZE B1 = contents DATA_SIZE B0) as ->.
    { unfold contents, end_position. cbn [B1 m_blocks m_begin m_end].
      by rewrite Hbegin0. }
    by rewrite Hcontents, take_ge.
  - destruct (dropBack_all_and_empty DATA_SIZE DATA_SIZE_pos a' B0)
      as (a2 & B2 & Hdrop & _ & Hempty); try done.
    + lia.
    + cbn [admissible]. rewrite Hits. constructor.
    + intros it' i Hlast. by rewrite Hits in Hlast.
    + exists a2, B2. rewrite Hdestroy, <- Hclen. split; [done|].
      rewrite Hempty. apply bool_decide_eq_true_2. lia.
  - destruct (dropFront_all_and_empty DATA_SIZE DATA_SIZE_pos a' B0)
      as (a3 & B3 & Hdrop & _ & Hempty); try done.
    + lia.
    + cbn [admissible]. rewrite Hits. constructor.
    + exists a3, B3. rewrite Hdestroy, <- Hclen. split; [done|].
      rewrite Hempty. apply bool_decide_eq_true_2. lia.
Qed.

End RoundTrip.

Section Outbound.

Context {A : Type} `{Allocator A}.
Variable DATA_SIZE : nat.
Hypothesis DATA_SIZE_pos : 0 < DATA_SIZE.
Context {Body Dec : Type}.

(** hasSentBytes, told that all the bytes of the outbound buffer are sent,
    drops them all, where the iterators of that buffer stand at its end.
    hasDataToSend then answers no, as it should, only if the data did not
    end at the start of the last block; if it did, and there are several
    blocks, begin() stops at the end of the block before and hasDataToSend
    still answers yes, with no bytes left to send. *)
Theorem sent_everything (a : A) (c : ConnectionImpl Body Dec) :
  let B := outBuf c in
  orderly DATA_SIZE B → sized DATA_SIZE (m_blocks B) → m_blocks B ≠ [] →
  m_begin B < end_position DATA_SIZE B →
  admissible DATA_SIZE B (DropFront (length (contents DATA_SIZE B))) →
  ∃ a' B',
    hasSentBytes DATA_SIZE (length (contents DATA_SIZE B)) (a, c)
    = (Ok tt, (a', with_outBuf c B')) ∧
    contents DATA_SIZE B' = [] ∧
    hasDataToSend (with_outBuf c B')
    = negb (bool_decide (0 < m_end B ∨ length (m_blocks B) = 1)).
Proof using DATA_SIZE_pos.
  cbn zeta. intros Hord Hsized Hne Hbegin Hadm.
  pose proof (orderly_bounds _ _ Hord) as [Hb He].
  pose proof (contents_length DATA_SIZE (outBuf c) Hsized He Hne) as Hlen.
  destruct (dropFront_all_and_empty DATA_SIZE DATA_SIZE_pos a (outBuf c))
    as (a' & B' & Hdrop & Hcontents & Hempty); try done.
  exists a', B'. split; [|split; [done|]].
  - unfold hasSentBytes. rewrite decide_True by lia.
    unfold on_outBuf. cbn [fst snd]. by rewrite Hdrop.
  - unfold hasDataToSend. cbn. by rewrite Hempty.
Qed.

End Outbound.


(** ** No chunk is lost *)

Section Conservation.

Variable DATA_SIZE : nat.
Hypothesis DATA_SIZE_pos : 0 < DATA_SIZE.

Implicit Types (B : Buffer) (bs p : list Block) (l : list iterator).

Lemma keeps_ret {T} B (t : T) : keeps B (mret t).
Proof. by intros p. Qed.

Lemma keeps_lift {T} B (o : outcome T) : keeps B (lift o).
Proof. by intros p. Qed.

Lemma keeps_bind {T U} B (m : ST (list Block * Buffer) T) (k : T → ST _ U) :
  keeps B m → (∀ t B1, keeps B1 (k t)) → keeps B (m ≫= k).
Proof.
  intros Hm Hk p. rewrite run_bind. specialize (Hm p).
  destruct (m (p, B)) as [[t|f] [p1 B1]]; [|done].
  etrans; [apply Hk | done].
Qed.

Lemma keeps_lift_bind {T U} B (o : outcome T) (k : T → ST _ U) :
  (∀ t, keeps B (k t)) → keeps B (lift o ≫= k).
Proof. intros Hk p. rewrite run_bind. unfold lift. destruct o; [apply Hk | done]. Qed.

Lemma keeps_the_buffer_bind {U} B (k : Buffer → ST _ U) :
  keeps B (k B) → keeps B (the_buffer ≫= k).
Proof. intros Hk p. rewrite run_bind. apply Hk. Qed.

Lemma keeps_store B B' :
  addr <$> m_blocks B' = addr <$> m_blocks B → keeps B (store B').
Proof. intros Heq p. unfold store, chunks. cbn. by rewrite Heq. Qed.

Lemma keeps_store_bind {U} B B' (k : unit → ST _ U) :
  addr <$> m_blocks B' = addr <$> m_blocks B → keeps B' (k tt) →
  keeps B (store B' ≫= k).
Proof.
  intros Heq Hk p. rewrite run_bind. unfold store. cbn [fst snd].
  rewrite Hk. unfold chunks. cbn. by rewrite Heq.
Qed.

Lemma keeps_iterator_destroy B i : keeps B (iterator_destroy i).
Proof. unfold iterator_destroy. apply keeps_the_buffer_bind. by apply keeps_store. Qed.

(** The pool hands out its chunks from the front. *)
Lemma pool_allocate_upto n p new p' complete :
  allocate_upto n p = (new, p', complete) → p = new ++ p'.
Proof.
  revert p new p' complete. induction n as [|n IH]; intros p new p' complete; cbn.
  - by intros [= <- <- <-].
  - destruct p as [|b p0]; [by intros [= <- <- <-]|]. cbn.
    destruct (allocate_upto n p0) as [[bs p1] c] eqn:Hrest.
    intros [= <- <- <-]. cbn. f_equal. by eapply IH.
Qed.

Lemma pool_give_back (new p : list Block) :
  foldl (λ a b, deallocate b a) p new ≡ₚ new ++ p.
Proof.
  revert p. induction new as [|b new IH]; intros p; [done|]. cbn.
  rewrite IH. by rewrite <- Permutation_middle.
Qed.

Lemma keeps_appendBack B size me :
  m_end B ≤ DATA_SIZE → keeps B (appendBack DATA_SIZE size me).
Proof using DATA_SIZE_pos.
  intros Hend p. destruct (decide (size = 0)) as [->|Hsize]; [done|].
  pose proof (appendBack_spec DATA_SIZE DATA_SIZE_pos p B size me Hsize Hend) as Hspec.
  cbn zeta in Hspec.
  destruct (allocate_upto _ p) as [[new p'] complete] eqn:Halloc.
  apply pool_allocate_upto in Halloc as ->.
  destruct complete.
  - destruct Hspec as (_ & B' & -> & Hblocks & _). unfold chunks. cbn [fst snd].
    rewrite Hblocks, !fmap_app, renumber_addrs.
    rewrite (comm (++) (addr <$> new)), <- !(assoc_L (++)).
    by rewrite (comm (++) (addr <$> new)).
  - destruct Hspec as [_ ->]. unfold chunks. cbn [fst snd].
    by rewrite pool_give_back.
Qed.

Lemma keeps_dropFront_loop bs size left_in_block B :
  m_blocks B = bs → keeps B (dropFront_loop DATA_SIZE bs size left_in_block).
Proof.
  revert size left_in_block B.
  induction bs as [|b rest IH]; intros size left_in_block B Hbs p;
    cbn [dropFront_loop]; (case_decide; [|done]); [done|].
  unfold the_buffer, store, lift, delBlock.
  unfold mbind, ST_bind, mret, ST_ret. cbn [fst snd].
  destruct (require _ _) as [[]|]; [|done].
  destruct (head rest) as [b'|] eqn:Hhead; cbn [defined];
    [rewrite IH by done|]; unfold chunks; cbn; rewrite Hbs; cbn;
    by rewrite <- Permutation_middle.
Qed.

Lemma keeps_dropBack_loop rbs size left_in_block B :
  m_blocks B = reverse rbs → keeps B (dropBack_loop DATA_SIZE rbs size left_in_block).
Proof.
  revert size left_in_block B.
  induction rbs as [|b before IH]; intros size left_in_block B Hbs p;
    cbn [dropBack_loop]; (case_decide; [|done]); [done|].
  unfold the_buffer, store, lift, delBlock.
  unfold mbind, ST_bind, mret, ST_ret. cbn [fst snd].
  rewrite reverse_cons in Hbs.
  assert (∀ P R : list nat, addr b :: P ++ R ≡ₚ P ++ R ++ [addr b]) as Hperm.
  { intros P R. by rewrite (assoc_L (++)), <- Permutation_cons_append. }
  destruct (head before) as [b'|] eqn:Hhead; cbn [defined].
  - destruct (require _ _) as [[]|].
    + rewrite IH by done. unfold chunks. cbn. by rewrite Hbs, fmap_app.
    + unfold chunks. cbn. by rewrite Hbs, fmap_app.
  - unfold chunks. cbn. by rewrite Hbs, fmap_app.
Qed.

Lemma keeps_tail {T U} B (o : outcome T) (k : T → ST (list Block * Buffer) U) :
  (∀ t, keeps B (k t)) → keeps B (t ← lift o; k t).
Proof. apply keeps_lift_bind. Qed.

Lemma keeps_dropFront B size : keeps B (dropFront DATA_SIZE size).
Proof.
  unfold dropFront.
  apply keeps_lift_bind; intros _. apply keeps_the_buffer_bind.
  apply keeps_lift_bind; intros _. apply keeps_lift_bind; intros left_in_block.
  apply keeps_bind; [by apply keeps_dropFront_loop|]. intros size' B1.
  apply keeps_the_buffer_bind. apply keeps_lift_bind; intros block.
  apply keeps_store_bind; [done|].
  apply keeps_lift_bind; intros _. apply keeps_lift_bind; intros _.
  apply keeps_lift_bind; intros last_.
  case_decide; [apply keeps_lift | apply keeps_ret].
Qed.

Lemma keeps_dropBack B size : keeps B (dropBack DATA_SIZE size).
Proof.
  unfold dropBack.
  apply keeps_lift_bind; intros _. apply keeps_the_buffer_bind.
  apply keeps_lift_bind; intros _.
  apply keeps_bind; [apply keeps_dropBack_loop; by rewrite reverse_involutive|].
  intros size' B1.
  apply keeps_the_buffer_bind. apply keeps_lift_bind; intros block.
  apply keeps_store_bind; [done|].
  apply keeps_lift_bind; intros _. apply keeps_lift_bind; intros first.
  case_decide; [apply keeps_lift | apply keeps_ret].
Qed.

Lemma keeps_addBack B buf tmp :
  m_end B ≤ DATA_SIZE → keeps B (addBack DATA_SIZE buf tmp).
Proof using DATA_SIZE_pos.
  intros Hend. unfold addBack.
  apply keeps_bind; [by apply keeps_appendBack|]. intros itr B1.
  apply keeps_the_buffer_bind.
  intros p. rewrite run_bind. unfold lift at 1.
  destruct (set DATA_SIZE B1 itr buf) as [B2|] eqn:Hset; [|done].
  apply set_returns in Hset as (Haddrs & _).
  revert p. apply keeps_store_bind; [done|].
  apply keeps_bind; [apply keeps_iterator_destroy | intros; apply keeps_ret].
Qed.

Lemma keeps_insert B i size tmp :
  m_end B ≤ DATA_SIZE → keeps B (insert DATA_SIZE i size tmp).
Proof using DATA_SIZE_pos.
  intros Hend. unfold insert.
  apply keeps_the_buffer_bind. apply keeps_lift_bind; intros [[pre itr] post].
  apply keeps_lift_bind; intros _. cbv zeta.
  apply keeps_bind; [by apply keeps_appendBack|]. intros _ B1.
  apply keeps_bind; [apply keeps_iterator_destroy|]. intros _ B2.
  apply keeps_the_buffer_bind. apply keeps_lift_bind; intros sb.
  apply keeps_lift_bind; intros left_in_src_block.
  apply keeps_lift_bind; intros [src dst].
  intros p. rewrite run_bind. unfold lift at 1.
  destruct (insert_loop _ _ _ _ _ _ _ _ _ _ _) as [[[bs' src_block'] src']|] eqn:Hloop;
    [|done].
  apply insert_loop_addrs in Hloop. cbn [fst] in Hloop.
  revert p. apply keeps_lift_bind; intros sb'.
  apply keeps_lift_bind; intros _. apply keeps_lift_bind; intros l.
  by apply keeps_store.
Qed.

Lemma keeps_release B i size tmp : keeps B (release DATA_SIZE i size tmp).
Proof.
  unfold release.
  apply keeps_the_buffer_bind. cbv zeta.
  apply keeps_lift_bind; intros [[pre itr] post].
  apply keeps_lift_bind; intros [bpre suf].
  apply keeps_lift_bind; intros _. apply keeps_lift_bind; intros [src_block src].
  apply keeps_lift_bind; intros _. apply keeps_lift_bind; intros left_in_dst_block.
  apply keeps_lift_bind; intros left_in_src_block.
  intros p. rewrite run_bind. unfold lift at 1.
  destruct (release_loop _ _ _ _ _ _ _ _ _ _) as [bs'|] eqn:Hloop; [|done].
  apply release_loop_addrs in Hloop.
  revert p. apply keeps_lift_bind; intros l.
  apply keeps_store_bind; [done|]. apply keeps_dropBack.
Qed.

(** Every chunk the pool has handed out is in the buffer, and every chunk
    the buffer has let go is back in the pool: whatever operation of the
    buffer or of its iterators is run, and whether it returns, fails an
    assertion or meets an allocation failure, the chunks in the pool and in
    the block list together are those they were.  When the buffer is
    destroyed, they are all in the pool. *)
Theorem chunks_conserved (op : buffer_op) (p : list Block) (B : Buffer) :
  m_end B ≤ DATA_SIZE →
  chunks (run_op DATA_SIZE op (p, B)).2 ≡ₚ chunks (p, B) ∧
  (Buffer_destroy (p, B)).2.1 ≡ₚ m_blocks B ++ p ∧
  m_blocks (Buffer_destroy (p, B)).2.2 = [].
Proof using DATA_SIZE_pos.
  intros Hend. split; [|split; [|done]].
  - revert p. change (keeps B (run_op DATA_SIZE op)).
    destruct op; cbn [run_op].
    + apply keeps_bind; [|intros; apply keeps_ret]. unfold begin.
      apply keeps_the_buffer_bind. apply keeps_lift_bind; intros b.
      apply keeps_store_bind; [done | apply keeps_ret].
    + apply keeps_bind; [|intros; apply keeps_ret]. unfold end_.
      apply keeps_the_buffer_bind. apply keeps_lift_bind; intros b.
      apply keeps_store_bind; [done | apply keeps_ret].
    + apply keeps_bind; [|intros; apply keeps_ret]. unfold iterator_copy.
      apply keeps_the_buffer_bind. apply keeps_lift_bind; intros [[pre o] post].
      apply keeps_lift_bind; intros l.
      apply keeps_store_bind; [done | apply keeps_ret].
    + unfold iterator_assign. case_decide; [apply keeps_ret|].
      apply keeps_the_buffer_bind. apply keeps_lift_bind; intros [[pre o] post].
      apply keeps_lift_bind; intros _. apply keeps_lift_bind; intros l.
      by apply keeps_store.
    + apply keeps_bind; [|intros; apply keeps_ret]. unfold iterator_advance.
      apply keeps_the_buffer_bind. apply keeps_lift_bind; intros [[pre it] post].
      apply keeps_lift_bind; intros it'. apply keeps_lift_bind; intros l.
      apply keeps_store_bind; [done | apply keeps_ret].
    + apply keeps_iterator_destroy.
    + apply keeps_bind; [by apply keeps_appendBack | intros; apply keeps_ret].
    + apply keeps_bind; [by apply keeps_addBack | intros; apply keeps_ret].
    + apply keeps_dropFront.
    + apply keeps_dropBack.
    + by apply keeps_insert.
    + apply keeps_release.
  - unfold Buffer_destroy, Blocks_destroy, the_buffer, store.
    unfold mbind, ST_bind. cbn. apply pool_give_back.
Qed.

End Conservation.


(** ** The count of handles *)

Section HandleCount.

Implicit Types (h : Handles) (m : gmap nat nat) (p q c : nat).

Lemma handles_on_insert p m c q :
  m !! c = None →
  handles_on p (<[c := q]> m) = handles_on p m + (if decide (q = p) then 1 else 0).
Proof.
  intros Hc. unfold handles_on. rewrite map_filter_insert. cbn [snd].
  destruct (decide (q = p)) as [->|Hne].
  - rewrite map_size_insert_None; [lia|].
    apply map_lookup_filter_None. by left.
  - rewrite delete_id by done. lia.
Qed.

Lemma handles_on_delete p m c q :
  m !! c = Some q →
  handles_on p (delete c m) + (if decide (q = p) then 1 else 0) = handles_on p m.
Proof.
  intros Hc. unfold handles_on. rewrite map_filter_delete, map_size_delete.
  destruct (decide (q = p)) as [->|Hne].
  - assert (filter (λ kv : nat * nat, kv.2 = p) m !! c = Some p) as Hin
      by (by apply map_lookup_filter_Some).
    rewrite Hin.
    assert (base.size (filter (λ kv : nat * nat, kv.2 = p) m) ≠ 0); [|lia].
    intros Hz%map_size_empty_iff. by rewrite Hz in Hin.
  - assert (filter (λ kv : nat * nat, kv.2 = p) m !! c = None) as ->; [|cbn; lia].
    apply map_lookup_filter_None. right. intros x Hx. cbn. congruence.
Qed.

Lemma handles_on_some p m c : m !! c = Some p → 0 < handles_on p m.
Proof.
  intros Hc. pose proof (handles_on_delete p m c p Hc) as Hsum.
  rewrite decide_True in Hsum by done. lia.
Qed.

Lemma handles_on_replace p m c q q' :
  m !! c = Some q →
  handles_on p (<[c := q']> m) + (if decide (q = p) then 1 else 0)
  = handles_on p m + (if decide (q' = p) then 1 else 0).
Proof.
  intros Hc. rewrite <- insert_delete_eq.
  rewrite handles_on_insert by (by rewrite lookup_delete, decide_True).
  pose proof (handles_on_delete p m c q Hc). lia.
Qed.

(** A handle is on an implementation that is alive. *)
Lemma counted_alive h c p :
  counted h → conns h !! c = Some p → ∃ i, impls h !! p = Some i ∧ (1 ≤ refs i)%Z.
Proof.
  intros Hcounted Hc. specialize (Hcounted p).
  destruct (impls h !! p) as [i|]; [by exists i; destruct Hcounted|].
  pose proof (handles_on_some _ _ _ Hc). lia.
Qed.

(** ref () on an implementation that will have one handle more. *)
Lemma Impl_ref_counted h m p i :
  impls h !! p = Some i → (0 ≤ refs i)%Z →
  (refs i + 1)%Z = Z.of_nat (handles_on p m) →
  (∀ q, q ≠ p →
        match impls h !! q with
        | Some j => refs j = Z.of_nat (handles_on q m) ∧ (1 ≤ refs j)%Z
        | None => handles_on q m = 0
        end) →
  ∃ h', Impl_ref p (with_conns h m) = inr h' ∧ counted h' ∧
        conns h' = m ∧ closed h' = closed h ∧
        impls h' = <[p := mkImpl (refs i + 1) (socket i)]> (impls h).
Proof.
  intros Hp Hrefs Hcount Hothers. unfold Impl_ref. cbn [impls with_conns].
  rewrite Hp, decide_True by done. eexists. split; [done|].
  split; [|done]. intros q. cbn [impls conns with_impls with_conns].
  rewrite lookup_insert. case_decide as Hq.
  - subst q. cbn. lia.
  - by apply Hothers.
Qed.

(** unref () on an implementation that has lost a handle. *)
Lemma Impl_unref_counted h m p i :
  impls h !! p = Some i → (1 ≤ refs i)%Z →
  (refs i - 1)%Z = Z.of_nat (handles_on p m) →
  (∀ q, q ≠ p →
        match impls h !! q with
        | Some j => refs j = Z.of_nat (handles_on q m) ∧ (1 ≤ refs j)%Z
        | None => handles_on q m = 0
        end) →
  ∃ h', Impl_unref p h = inr h' ∧ counted (with_conns h' m) ∧
        conns h' = conns h ∧
        (if decide (refs i = 1)%Z
         then impls h' = delete p (impls h) ∧
              closed h' = (if decide (0 ≤ socket i)%Z then closed h ++ [socket i]
                           else closed h)
         else impls h' = <[p := mkImpl (refs i - 1) (socket i)]> (impls h) ∧
              closed h' = closed h).
Proof.
  intros Hp Hrefs Hcount Hothers. unfold Impl_unref.
  rewrite Hp, decide_True by done. cbv zeta.
  destruct (decide (refs i - 1 = 0)%Z) as [Hzero|Hmore].
  - unfold Impl_delete. cbn [impls with_impls]. rewrite lookup_insert, decide_True by done.
    cbn [refs socket]. rewrite decide_True by done. eexists. split; [done|].
    split; [|split; [done|]].
    + intros q. cbn [impls conns with_conns].
      rewrite lookup_delete. case_decide as Hq; [subst q; lia|].
      rewrite lookup_insert_ne by done. by apply Hothers.
    + rewrite decide_True by lia. cbn [impls conns closed with_impls].
      by rewrite delete_insert_eq.
  - eexists. split; [done|]. split; [|split; [done|]].
    + intros q. cbn [impls conns with_impls with_conns].
      rewrite lookup_insert. case_decide as Hq; [subst q; cbn; lia|].
      by apply Hothers.
    + by rewrite decide_False by lia.
Qed.

(** The count of an implementation is the number of handles on it, and an
    implementation is alive as long as there is a handle on it.  Where
    that is so, whatever is done with handles, be it building, copying,
    assigning or destroying one, returns with no failed assertion of ref,
    unref or the destructor, and it is so again afterwards: an
    implementation is deleted with its last handle, no sooner and no
    later.  Its socket, if it has one, is then closed. *)
Theorem handles_counted (h : Handles) (op : handle_op) :
  counted h → usable h op →
  ∃ h', run_handle_op op h = inr h' ∧ counted h' ∧
        match op with
        | NewConnection c =>
            let p := fresh (dom (impls h)) in
            impls h !! p = None ∧ conns h' = <[c := p]> (conns h) ∧
            impls h' = <[p := mkImpl 1 (-1)]> (impls h) ∧ closed h' = closed h
        | CopyConnection c other | AssignConnection c other =>
            ∃ q, conns h !! other = Some q ∧ conns h' = <[c := q]> (conns h)
        | DestroyConnection c =>
            ∃ p i, conns h !! c = Some p ∧ impls h !! p = Some i ∧
                   conns h' = delete c (conns h) ∧
                   if decide (refs i = 1)%Z
                   then impls h' = delete p (impls h) ∧
                        closed h' = (if decide (0 ≤ socket i)%Z
                                     then closed h ++ [socket i] else closed h)
                   else impls h' = <[p := mkImpl (refs i - 1) (socket i)]> (impls h) ∧
                        closed h' = closed h
        | SetSocket c s =>
            ∃ p i, conns h !! c = Some p ∧ impls h !! p = Some i ∧
                   impls h' = <[p := mkImpl (refs i) s]> (impls h) ∧
                   conns h' = conns h ∧ closed h' = closed h
        end.
Proof.
  intros Hcounted Husable. destruct op as [c|c other|c other|c|c s]; cbn [run_handle_op usable] in *.
  - set (p := fresh (dom (impls h))).
    assert (impls h !! p = None) as Hfresh by (apply not_elem_of_dom, is_fresh).
    pose proof (Hcounted p) as Hp. rewrite Hfresh in Hp.
    destruct (Impl_ref_counted
                (mkHandles (<[p := mkImpl 0 (-1)]> (impls h)) (conns h) (closed h))
                (<[c := p]> (conns h)) p (mkImpl 0 (-1)))
      as (h' & Hrun & Hcounted' & Hconns & Hclosed & Himpls).
    + cbn. by rewrite lookup_insert, decide_True.
    + done.
    + rewrite handles_on_insert, decide_True by done. cbn. lia.
    + intros q Hq. cbn [impls]. rewrite lookup_insert_ne by done.
      rewrite handles_on_insert, decide_False, Nat.add_0_r by done. apply Hcounted.
    + exists h'. split; [exact Hrun|]. split; [done|]. cbn zeta. fold p.
      split; [done|]. split; [done|]. split; [|done].
      rewrite Himpls. cbn. by rewrite insert_insert_eq.
  - destruct Husable as [Hc [p Hother]].
    destruct (counted_alive h other p Hcounted Hother) as (i & Hi & Hrefs).
    pose proof (Hcounted p) as Hp. rewrite Hi in Hp. destruct Hp as [Hp _].
    destruct (Impl_ref_counted h (<[c := p]> (conns h)) p i)
      as (h' & Hrun & Hcounted' & Hconns & Hclosed & Himpls); [done | lia | | |].
    + rewrite handles_on_insert, decide_True by done. lia.
    + intros q Hq. rewrite handles_on_insert, decide_False, Nat.add_0_r by done.
      apply Hcounted.
    + exists h'. unfold Connection_copy. rewrite Hother.
      split; [exact Hrun|]. split; [done|]. by exists p.
  - destruct Husable as [[p Hc] [q Hother]]. unfold Connection_assign.
    case_decide as Hsame.
    { subst other. exists h. split; [done|]. split; [done|]. exists q.
      split; [done|]. by rewrite insert_id. }
    rewrite Hc.
    destruct (counted_alive h c p Hcounted Hc) as (i & Hi & Hrefs).
    pose proof (Hcounted p) as Hp. rewrite Hi in Hp. destruct Hp as [Hp _].
    set (m1 := delete c (conns h)).
    destruct (Impl_unref_counted h m1 p i)
      as (h1 & -> & Hcounted1 & Hconns1 & _); [done | done | | |].
    { pose proof (handles_on_delete p _ _ _ Hc) as Hsum.
      rewrite decide_True in Hsum by done. subst m1. lia. }
    { intros q' Hq'. pose proof (handles_on_delete q' _ _ _ Hc) as Hsum.
      rewrite decide_False, Nat.add_0_r in Hsum by done. subst m1. rewrite Hsum.
      apply Hcounted. }
    rewrite Hconns1, Hother.
    assert (m1 !! other = Some q) as Hother1
      by (subst m1; by rewrite lookup_delete_ne).
    assert (m1 !! c = None) as Hc1 by (subst m1; by rewrite lookup_delete, decide_True).
    pose proof (Hcounted1 q) as Hq. cbn [impls conns with_conns] in Hq.
    destruct (impls h1 !! q) as [j|] eqn:Hj;
      [|pose proof (handles_on_some _ _ _ Hother1); lia].
    destruct Hq as [Hq Hqrefs].
    destruct (Impl_ref_counted h1 (<[c := q]> (conns h)) q j)
      as (h' & Hrun & Hcounted' & Hconns & _); [done | lia | | |].
    + rewrite <- insert_delete_eq. fold m1.
      rewrite handles_on_insert, decide_True by done. lia.
    + intros q' Hq'. rewrite <- insert_delete_eq. fold m1.
      rewrite handles_on_insert, decide_False, Nat.add_0_r by done.
      apply (Hcounted1 q').
    + exists h'. split; [exact Hrun|]. split; [done|]. by exists q.
  - destruct Husable as [p Hc]. unfold Connection_destroy. rewrite Hc.
    destruct (counted_alive h c p Hcounted Hc) as (i & Hi & Hrefs).
    pose proof (Hcounted p) as Hp. rewrite Hi in Hp. destruct Hp as [Hp _].
    destruct (Impl_unref_counted h (delete c (conns h)) p i)
      as (h1 & -> & Hcounted1 & Hconns1 & Heffect); [done | done | | |].
    { pose proof (handles_on_delete p _ _ _ Hc) as Hsum.
      rewrite decide_True in Hsum by done. lia. }
    { intros q' Hq'. pose proof (handles_on_delete q' _ _ _ Hc) as Hsum.
      rewrite decide_False, Nat.add_0_r in Hsum by done. rewrite Hsum.
      apply Hcounted. }
    rewrite Hconns1. eexists. split; [done|]. split; [done|].
    exists p, i. split; [done|]. split; [done|]. split; [done|]. exact Heffect.
  - destruct Husable as [p Hc]. unfold Connection_setSocket. rewrite Hc.
    destruct (counted_alive h c p Hcounted Hc) as (i & Hi & Hrefs). rewrite Hi.
    eexists. split; [done|]. split; [|by exists p, i].
    intros q. cbn [impls conns with_impls]. rewrite lookup_insert.
    case_decide as Hq; [|apply Hcounted].
    subst q. pose proof (Hcounted p) as Hp. by rewrite Hi in Hp.
Qed.

End HandleCount.


(** ** What the connection finds in its inbound buffer *)

Section Decoding.

Context {A : Type} `{Allocator A}.
Variable DATA_SIZE : nat.
Context {Body Dec : Type}.

Implicit Types (B : Buffer) (c : ConnectionImpl Body Dec).

Lemma endDecoded_listed c itr :
  endDecoded_iterator c = Ok itr →
  ∃ pre post, find_iter (endDecoded c) (m_iterators (inBuf c)) = Some (pre, itr, post) ∧
              itr ∈ m_iterators (inBuf c).
Proof.
  unfold endDecoded_iterator.
  destruct (find_iter _ _) as [[[pre it] post]|] eqn:Hfind; [|done]. cbn.
  intros [= <-]. exists pre, post. split; [done|].
  apply find_iter_split in Hfind as (-> & _). apply elem_of_app. right. left.
Qed.

(** A pointer into the blocks and end(): where the one does not stand
    after the other, it compares less or equal, and it compares equal only
    where no byte lies between. *)
Lemma compare_with_end B itr :
  orderly DATA_SIZE B → ascending (m_blocks B) →
  inside DATA_SIZE (m_blocks B) itr →
  place DATA_SIZE (m_blocks B) itr ≤ end_position DATA_SIZE B →
  ∃ e, end_pointer B = Ok e ∧ inside DATA_SIZE (m_blocks B) e ∧
       place DATA_SIZE (m_blocks B) e = end_position DATA_SIZE B ∧
       ∃ lt, iter_lt (m_blocks B) itr e = Ok lt ∧
             lt || iter_eq itr e = true ∧
             (iter_eq itr e = true →
              place DATA_SIZE (m_blocks B) itr = end_position DATA_SIZE B) ∧
             (iter_eq itr e = false → 0 < m_end B → 0 < m_position itr →
              place DATA_SIZE (m_blocks B) itr < end_position DATA_SIZE B).
Proof.
  intros Hord Hasc Hin Hplace.
  pose proof (orderly_addrs _ _ Hord) as Hnd.
  pose proof (orderly_bounds _ _ Hord) as [_ Hend].
  destruct Hin as [[i Hi] Hp].
  destruct (last (m_blocks B)) as [lb|] eqn:Hlast;
    [|apply last_None in Hlast; by rewrite Hlast in Hi].
  pose proof (last_block_index _ _ Hnd Hlast) as Hlbi.
  pose proof (block_index_lt _ _ _ Hi) as Hilen.
  set (e := mkIter 0 (addr lb) (m_end B)).
  assert (inside DATA_SIZE (m_blocks B) e) as Hine
    by (split; cbn; [by rewrite Hlbi | done]).
  assert (inside DATA_SIZE (m_blocks B) itr) as Hin by (split; [by eauto | done]).
  exists e. split; [unfold end_pointer, lastBlock; by rewrite Hlast|].
  split; [done|].
  assert (key (m_blocks B) e = (length (m_blocks B) - 1, m_end B)) as Hkeye
    by (unfold key; cbn; by rewrite Hlbi).
  assert (key (m_blocks B) itr = (i, m_position itr)) as Hkey
    by (unfold key; by rewrite Hi).
  split; [unfold place, end_position; by rewrite Hkeye|].
  rewrite (iter_lt_inside DATA_SIZE) by done. eexists. split; [done|].
  unfold place, end_position in *. rewrite Hkey, Hkeye in *. cbn [fst snd] in *.
  unfold iter_eq, before. cbn [e m_block m_position fst snd].
  assert (m_block itr = addr lb ↔ i = length (m_blocks B) - 1) as Hsame.
  { split.
    - intros Heq. rewrite Heq, Hlbi in Hi. by injection Hi.
    - intros ->. destruct (block_index_lookup _ _ _ Hi) as (b & Hb & <- & _).
      rewrite Nat.sub_1_r, <- last_lookup, Hlast in Hb. by injection Hb as ->. }
  split; [|split].
  - destruct (decide (i < length (m_blocks B) - 1 ∨
                      i = length (m_blocks B) - 1 ∧ m_position itr < m_end B))
      as [Hlt|Hnlt].
    + by rewrite (bool_decide_eq_true_2 (_ ∨ _)).
    + rewrite (bool_decide_eq_false_2 (_ ∨ _)) by done. cbn.
      apply bool_decide_eq_true_2.
      assert (i = length (m_blocks B) - 1) as Hi' by lia.
      split; [by apply Hsame|]. subst i. lia.
  - intros [Hb Hpos]%bool_decide_eq_true. apply Hsame in Hb. subst i. lia.
  - intros Hne%bool_decide_eq_false Hme Hmp.
    destruct (decide (i = length (m_blocks B) - 1)) as [->|Hi'].
    + assert (m_position itr ≠ m_end B); [|lia].
      intros Heq. apply Hne. split; [by apply Hsame | done].
    + assert (S i ≤ length (m_blocks B) - 1) as Hle by lia.
      assert (S i * DATA_SIZE ≤ (length (m_blocks B) - 1) * DATA_SIZE)
        by (by apply Nat.mul_le_mono_r).
      lia.
Qed.

(** hasDataToDecode, where [endDecoded] does not stand after end() and the
    block ids ascend: its assertion holds and it returns; it answers yes
    whenever bytes lie between [endDecoded] and end(), and it answers no
    only if none do.  It compares pointers, so it also answers yes where
    [endDecoded] stands at the end of a block and end() at the start of
    the next. *)
Theorem hasDataToDecode_answers c itr :
  let B := inBuf c in
  orderly DATA_SIZE B → ascending (m_blocks B) →
  endDecoded_iterator c = Ok itr →
  place DATA_SIZE (m_blocks B) itr ≤ end_position DATA_SIZE B →
  ∃ answer, hasDataToDecode c = Ok answer ∧
            (place DATA_SIZE (m_blocks B) itr < end_position DATA_SIZE B →
             answer = true) ∧
            (answer = false →
             place DATA_SIZE (m_blocks B) itr = end_position DATA_SIZE B) ∧
            (0 < m_end B → 0 < m_position itr →
             answer = bool_decide (place DATA_SIZE (m_blocks B) itr
                                   < end_position DATA_SIZE B)).
Proof.
  cbn zeta. intros Hord Hasc Hitr Hplace.
  destruct (endDecoded_listed c itr Hitr) as (pre & post & _ & Helem).
  pose proof (orderly_inside _ _ Hord) as Hin. rewrite Forall_forall in Hin.
  destruct (compare_with_end (inBuf c) itr Hord Hasc (Hin itr Helem) Hplace)
    as (e & He & _ & _ & lt & Hlt & Hassert & Heq & Hne).
  unfold hasDataToDecode. rewrite Hitr, He. cbn [mbind outcome_bind].
  rewrite Hlt. cbn [mbind outcome_bind]. rewrite Hassert. cbn [mbind outcome_bind].
  eexists. split; [done|].
  destruct (iter_eq itr e) eqn:Hcmp; cbn [negb].
  - specialize (Heq eq_refl). split; [lia|]. split; [done|].
    intros _ _. symmetry. apply bool_decide_eq_false_2. lia.
  - split; [done|]. split; [done|]. intros Hme Hmp.
    symmetry. apply bool_decide_eq_true_2. by apply Hne.
Qed.

Lemma moveForward_in_offset suf pos step a' p' :
  0 < step → moveForward_in DATA_SIZE suf pos step = Ok (a', p') → 0 < p'.
Proof.
  revert pos step. induction suf as [|b rest IH]; intros pos step Hstep; [done|].
  cbn [moveForward_in]. case_decide as Hfar.
  - apply IH. lia.
  - intros [= <- <-]. lia.
Qed.

Lemma moveForward_offset bs it step it' :
  0 < step → moveForward DATA_SIZE bs it step = Ok it' → 0 < m_position it'.
Proof.
  intros Hstep. unfold moveForward.
  destruct (locate _ _) as [[pre suf]|]; [|done]. cbn.
  destruct (require _ _); [|done]. cbn.
  destruct (moveForward_in _ _ _ _) as [[a' p']|] eqn:Hmove; [|done]. cbn.
  intros [= <-]. cbn. by eapply moveForward_in_offset.
Qed.

Variable GREETING_SIZE : nat.
Context {Greeting : Type}.
Variable parseGreeting : list byte → Greeting → Z * Greeting.
Variable reset : Dec → iterator → Dec.

(** decodeGreeting, on a connection whose inbound buffer has its iterators
    listed in order and inside blocks of full size with ascending ids,
    among them [endDecoded], with a positive [GREETING_SIZE] and at least
    [GREETING_SIZE] bytes received from [endDecoded] on.  It takes these
    bytes for the greeting, whatever blocks they lie in.  Where they are
    all that was received and end() does not stand at offset 0 of the last
    block, it hands them to parseGreeting, moves [endDecoded] to end(),
    resets the decoder there and answers 0, or -1 if parseGreeting refuses
    them, and hasDataToDecode then answers no.  Where more bytes have been
    received it stops on its assertion; and so it does where end() stands
    at offset 0 of the last block, although the greeting is all that was
    received: [endDecoded] is then left at the end of the block before,
    which is not where end() points. *)
Theorem decodeGreeting_takes_greeting (a : A) c (g : Greeting) itr :
  let B := inBuf c in
  let p := place DATA_SIZE (m_blocks B) itr in
  orderly DATA_SIZE B → sized DATA_SIZE (m_blocks B) → ascending (m_blocks B) →
  endDecoded_iterator c = Ok itr →
  0 < GREETING_SIZE → m_begin B ≤ p →
  p + GREETING_SIZE ≤ end_position DATA_SIZE B →
  let bytes := take GREETING_SIZE (drop (p - m_begin B) (contents DATA_SIZE B)) in
  if decide (p + GREETING_SIZE = end_position DATA_SIZE B ∧ 0 < m_end B) then
    ∃ itr' B',
      decodeGreeting DATA_SIZE GREETING_SIZE parseGreeting reset g (a, c)
      = (Ok (if decide ((parseGreeting bytes g).1 ≠ 0)%Z then (-1)%Z else 0%Z,
             (parseGreeting bytes g).2),
         (a, with_dec (with_inBuf c B') (reset (dec c) itr'))) ∧
      endDecoded_iterator (with_inBuf c B') = Ok itr' ∧
      position DATA_SIZE (m_blocks B') itr' = Some (end_position DATA_SIZE B') ∧
      contents DATA_SIZE B' = contents DATA_SIZE B ∧
      hasDataToDecode (with_dec (with_inBuf c B') (reset (dec c) itr')) = Ok false
  else
    (decodeGreeting DATA_SIZE GREETING_SIZE parseGreeting reset g (a, c)).1
    = Err Aborted.
Proof.
  cbn zeta. intros Hord Hsized Hasc Hitr Hsize Hbegin Hfit.
  destruct (endDecoded_listed c itr Hitr) as (pre & post & Hfind & Helem).
  pose proof (orderly_inside _ _ Hord) as Hin. rewrite Forall_forall in Hin.
  pose proof (Hin itr Helem) as Hin_itr.
  pose proof (orderly_bounds _ _ Hord) as [_ Hend'].
  destruct (iterator_advance_returns DATA_SIZE a (inBuf c) (endDecoded c)
              GREETING_SIZE pre itr post Hord Hasc Hfind Hfit)
    as (itr' & run & tl & Hpost & Hself & Hplace' & Hrun & Hfind' & Hord').
  cbn zeta in Hrun, Hfind', Hord'.
  set (B' := mkBuffer (m_blocks (inBuf c)) (pre ++ run ++ itr' :: tl)
                      (m_begin (inBuf c)) (m_end (inBuf c))) in *.
  assert (0 < m_position itr') as Hoffset.
  { unfold iterator_advance in Hrun.
    rewrite run_bind in Hrun. unfold the_buffer at 1 in Hrun. cbn [fst snd] in Hrun.
    rewrite run_bind in Hrun. unfold lift at 1 in Hrun. rewrite Hfind in Hrun.
    cbn [defined] in Hrun. rewrite run_bind in Hrun. unfold lift at 1 in Hrun.
    destruct (moveForward _ _ itr _) as [it1|] eqn:Hmove; [|done].
    assert (it1 = itr') as ->.
    { rewrite run_bind in Hrun. unfold lift at 1 in Hrun.
      destruct (adjustPositionForward _ _ _) as [l|]; [|done].
      rewrite run_bind in Hrun. unfold store at 1 in Hrun.
      by injection Hrun as ->. }
    exact (moveForward_offset _ _ _ _ Hsize Hmove). }
  assert (itr' ∈ m_iterators B') as Helem'.
  { cbn. apply elem_of_app. right. apply elem_of_app. right. left. }
  pose proof (orderly_inside _ _ Hord') as Hin'. rewrite Forall_forall in Hin'.
  pose proof (Hin' itr' Helem') as Hin_itr'.
  destruct (compare_with_end B' itr' Hord' Hasc Hin_itr')
    as (e & He & _ & _ & lt & Hlt & _ & Heq & Hne).
  { change (end_position DATA_SIZE B') with (end_position DATA_SIZE (inBuf c)).
    cbn [B' m_blocks]. lia. }
  change (end_position DATA_SIZE B') with (end_position DATA_SIZE (inBuf c)) in *.
  cbn [B' m_blocks m_end] in Heq, Hne. fold B' in Heq, Hne.
  assert (get DATA_SIZE (inBuf c) itr GREETING_SIZE
          = Ok (take GREETING_SIZE
                     (drop (place DATA_SIZE (m_blocks (inBuf c)) itr - m_begin (inBuf c))
                           (contents DATA_SIZE (inBuf c))))) as Hget.
  { apply get_in_contents; try done; [by destruct Hin_itr|].
    by apply position_inside. }
  assert (endDecoded_iterator (with_inBuf c B') = Ok itr') as Hitr'.
  { unfold endDecoded_iterator. cbn [inBuf endDecoded with_inBuf]. by rewrite Hfind'. }
  assert (∀ T (r : ST (A * ConnectionImpl Body Dec) T),
             (c0 ← the_conn;
                e0 ← lift (end_pointer (inBuf c0));
                _ ← lift (if iter_eq itr' e0 then Ok () else Err Aborted);
                _ ← update (λ c1, with_dec c1 (reset (dec c1) itr'));
                r) (a, with_inBuf c B')
               = (if iter_eq itr' e
                  then r (a, with_dec (with_inBuf c B') (reset (dec c) itr'))
                  else (Err Aborted, (a, with_inBuf c B')))) as Htail.
  { intros T r. unfold the_conn, lift, update.
    unfold mbind, ST_bind. cbn [fst snd inBuf with_inBuf]. rewrite He.
    by destruct (iter_eq itr' e). }
  assert (decodeGreeting DATA_SIZE GREETING_SIZE parseGreeting reset g (a, c)
          = (c0 ← the_conn;
             e0 ← lift (end_pointer (inBuf c0));
             _ ← lift (if iter_eq itr' e0 then Ok () else Err Aborted);
             _ ← update (λ c1, with_dec c1 (reset (dec c1) itr'));
             let '(rc, g') := parseGreeting
                 (take GREETING_SIZE
                    (drop (place DATA_SIZE (m_blocks (inBuf c)) itr - m_begin (inBuf c))
                          (contents DATA_SIZE (inBuf c)))) g in
             if decide (rc ≠ 0)%Z then mret ((-1)%Z, g') else mret (0%Z, g'))
              (a, with_inBuf c B')) as ->.
  { unfold decodeGreeting. rewrite run_bind. unfold the_conn at 1. cbn [fst snd].
    rewrite run_bind. unfold lift at 1. rewrite Hitr.
    rewrite run_bind. unfold lift at 1. rewrite Hget.
    rewrite run_bind. unfold on_inBuf at 1. cbn [fst snd]. rewrite Hrun. done. }
  rewrite Htail.
  case_decide as Hall.
  - destruct Hall as [Hall Hend].
    assert (iter_eq itr' e = true) as Hcmp.
    { destruct (iter_eq itr' e); [done|].
      specialize (Hne eq_refl Hend Hoffset). cbn [B' m_blocks] in Hplace'. lia. }
    rewrite Hcmp.
    exists itr', B'. split; [|split; [done|split; [|split; [done|]]]].
    + destruct (parseGreeting _ g) as [rc g']. cbn [fst snd].
      by case_decide.
    + rewrite (position_inside DATA_SIZE) by done. f_equal.
      unfold end_position in *. cbn [B' m_blocks m_end] in *. lia.
    + unfold hasDataToDecode, endDecoded_iterator.
      cbn [inBuf endDecoded with_inBuf with_dec]. rewrite Hfind'.
      cbn [defined mbind outcome_bind]. rewrite He. cbn [mbind outcome_bind].
      rewrite Hlt. cbn [mbind outcome_bind].
      by rewrite Hcmp, orb_true_r.
  - destruct (iter_eq itr' e) eqn:Hcmp; [|done].
    specialize (Heq eq_refl). cbn [B' m_blocks] in Hplace'.
    assert (m_position itr' = m_end (inBuf c)) as Hsame.
    { unfold end_pointer in He. cbn [B' m_blocks m_end] in He.
      destruct (lastBlock (m_blocks (inBuf c))) as [lb|]; [|done].
      injection He as <-.
      by apply bool_decide_eq_true in Hcmp as [_ Hpos]. }
    lia.
Qed.

End Decoding.


(** ** The contents of the buffer under release *)

Section ShiftingBytes.

Context {T : Type}.
Implicit Types (S : list T).

(** Bytes copied [g] places down, chunk after chunk. *)
Lemma shift_step S D c g :
  D + g + c ≤ length S →
  let S1 := take D S ++ take c (drop (D + g) S) ++ drop (D + c) S in
  take (D + c) S1 ++ drop (D + c + g) S1 ++ drop (length S - g) S1
  = take D S ++ drop (D + g) S ++ drop (length S - g) S.
Proof.
  intros Hlen S1.
  assert (length (take D S) = D) as HlenD by (rewrite length_take; lia).
  assert (length (take c (drop (D + g) S)) = c) as Hlenc
    by (rewrite length_take, length_drop; lia).
  assert (∀ k, drop (D + c + k) S1 = drop (D + c + k) S) as Hafter.
  { intros k. subst S1.
    rewrite drop_app_ge by lia. rewrite HlenD.
    rewrite drop_app_ge by lia. rewrite Hlenc.
    rewrite drop_drop. f_equal. lia. }
  assert (take (D + c) S1 = take D S ++ take c (drop (D + g) S)) as ->.
  { subst S1. rewrite (assoc_L (++)). rewrite take_app_le by (rewrite length_app; lia).
    apply take_ge. rewrite length_app. lia. }
  rewrite Hafter.
  replace (length S - g) with (D + c + (length S - g - D - c)) at 1 by lia.
  rewrite Hafter.
  replace (D + c + (length S - g - D - c)) with (length S - g) by lia.
  rewrite <- !(assoc_L (++)). f_equal. rewrite (assoc_L (++)). f_equal.
  rewrite <- (take_drop c (drop (D + g) S)) at 2. f_equal.
  rewrite drop_drop. f_equal. lia.
Qed.

Lemma shift_last S D c g :
  D + g + c = length S →
  take D S ++ take c (drop (D + g) S) ++ drop (D + c) S
  = take D S ++ drop (D + g) S ++ drop (length S - g) S.
Proof.
  intros Hlen. f_equal. f_equal.
  - apply take_ge. rewrite length_drop. lia.
  - f_equal. lia.
Qed.

(** The window from [b] to [E] after the [g] bytes at [p] are gone. *)
Lemma released_window S b p g E :
  b ≤ p → p + g ≤ E → E ≤ length S →
  take (E - b - g) (drop b (take p S ++ drop (p + g) S ++ drop (length S - g) S))
  = take (p - b) (take (E - b) (drop b S))
    ++ drop (p - b + g) (take (E - b) (drop b S)).
Proof.
  intros Hb Hp HE.
  assert (take (p - b) (take (E - b) (drop b S)) = drop b (take p S)) as ->.
  { rewrite take_take, Nat.min_l, take_drop_commute by lia.
    by replace (b + (p - b)) with p by lia. }
  assert (drop (p - b + g) (take (E - b) (drop b S))
          = take (E - (p + g)) (drop (p + g) S)) as ->.
  { rewrite skipn_firstn_comm, drop_drop. f_equal; [lia | f_equal; lia]. }
  rewrite drop_app_le by (rewrite length_take; lia).
  rewrite take_app_ge by (rewrite length_drop, length_take; lia).
  f_equal. rewrite length_drop, length_take.
  rewrite take_app_le by (rewrite length_drop; lia).
  f_equal. lia.
Qed.

End ShiftingBytes.

Section ReleaseContents.

Context {A : Type} `{Allocator A}.
Variable DATA_SIZE : nat.

Implicit Types (B : Buffer) (bs : list Block) (l : list iterator).

(** std::memmove between two blocks, on the storage as one run of bytes. *)
Lemma memmove_storage bs db dst sb src n :
  sized DATA_SIZE bs → sb < length bs → db < length bs →
  src + n ≤ DATA_SIZE → dst + n ≤ DATA_SIZE →
  ∃ bs', memmove DATA_SIZE bs db dst sb src n = Ok bs' ∧
         sized DATA_SIZE bs' ∧ addr <$> bs' = addr <$> bs ∧
         storage bs'
         = take (db * DATA_SIZE + dst) (storage bs)
           ++ take n (drop (sb * DATA_SIZE + src) (storage bs))
           ++ drop (db * DATA_SIZE + dst + n) (storage bs).
Proof.
  intros Hsized Hsb Hdb Hsrc Hdst.
  pose proof (storage_length DATA_SIZE bs Hsized) as Hlen.
  destruct n as [|n].
  { exists bs. split; [done|]. split; [done|]. split; [done|].
    rewrite take_0, Nat.add_0_r. cbn [app]. by rewrite take_drop. }
  unfold memmove.
  destruct (lookup_lt_is_Some_2 bs sb Hsb) as [sblk Hsblk].
  destruct (lookup_lt_is_Some_2 bs db Hdb) as [dblk Hdblk].
  rewrite Hsblk, Hdblk. cbn [defined mbind outcome_bind].
  pose proof (take_drop_middle bs sb sblk Hsblk) as Hsplit.
  pose proof (take_drop_middle bs db dblk Hdblk) as Hsplit'.
  assert (sized DATA_SIZE (take sb bs)) as Hpre by (by apply Forall_take).
  assert (sized DATA_SIZE (take db bs)) as Hpre' by (by apply Forall_take).
  assert (length (data sblk) = DATA_SIZE) as Hs.
  { by eapply (Forall_lookup_1 _ _ _ _ Hsized). }
  assert (length (data dblk) = DATA_SIZE) as Hd.
  { by eapply (Forall_lookup_1 _ _ _ _ Hsized). }
  rewrite (peek_storage DATA_SIZE (take sb bs) sblk (drop (S sb) bs)) by done.
  rewrite Hsplit, length_take, Nat.min_l by lia.
  cbn [mbind outcome_bind].
  set (bytes := take (S n) (drop (sb * DATA_SIZE + src) (storage bs))).
  assert (length bytes = S n) as Hbytes.
  { subst bytes. rewrite length_take, length_drop, Hlen.
    assert (S sb * DATA_SIZE ≤ length bs * DATA_SIZE)
      by (apply Nat.mul_le_mono_r; lia).
    lia. }
  destruct (poke DATA_SIZE dblk dst bytes) as [b'|] eqn:Hpoke.
  2: { unfold poke in Hpoke. rewrite decide_True in Hpoke by lia. done. }
  cbn [mbind outcome_bind].
  destruct (poke_storage DATA_SIZE (take db bs) dblk (drop (S db) bs) dst bytes b'
              Hpre' Hd Hpoke) as (Haddr & Hid & Hlen' & Hstore).
  rewrite Hsplit', length_take, Nat.min_l, Hbytes in Hstore by lia.
  eexists. split; [done|].
  rewrite insert_take_drop by done.
  split; [|split; [|done]].
  - apply Forall_app. split; [done|]. constructor; [done|]. by apply Forall_drop.
  - rewrite <- Hsplit' at 3. rewrite !fmap_app, !fmap_cons. by rewrite Haddr.
Qed.

(** The walk of release to the block it copies from. *)
Lemma release_seek_spec suf sb src step :
  src ≤ DATA_SIZE →
  ∃ sb' src', release_seek DATA_SIZE suf sb src step = Ok (sb', src') ∧
              sb' * DATA_SIZE + src' = sb * DATA_SIZE + src + step ∧
              (sb' < sb + length suf → src' < DATA_SIZE).
Proof.
  revert sb src step. induction suf as [|b rest IH]; intros sb src step Hsrc.
  { exists sb, (src + step). cbn. split; [done|]. split; lia. }
  cbn [release_seek]. case_decide as Hstep.
  - destruct (IH (S sb) 0 (step - (DATA_SIZE - src)) ltac:(lia))
      as (sb' & src' & -> & Hsum & Hin).
    exists sb', src'. split; [done|]. cbn [length]. split; [lia|].
    intros ?. apply Hin. lia.
  - exists sb, (src + step). split; [done|]. split; lia.
Qed.

(** The copying loop of release: every byte from [g] places after [dst] on
    is copied [g] places down, and the last [g] bytes of the storage are
    left as they were. *)
Lemma release_loop_storage fuel bs sb db src dst ls ld c g :
  sized DATA_SIZE bs → 0 < g →
  sb < length bs → src ≤ DATA_SIZE → dst ≤ DATA_SIZE →
  sb * DATA_SIZE + src = db * DATA_SIZE + dst + g →
  2 * length bs ≤ fuel + sb + db + 1 →
  ls = DATA_SIZE - src → ld = DATA_SIZE - dst → c = min ls ld →
  ∃ bs', release_loop DATA_SIZE fuel bs sb db src dst ls ld c = Ok bs' ∧
         sized DATA_SIZE bs' ∧ addr <$> bs' = addr <$> bs ∧
         storage bs'
         = take (db * DATA_SIZE + dst) (storage bs)
           ++ drop (db * DATA_SIZE + dst + g) (storage bs)
           ++ drop (length bs * DATA_SIZE - g) (storage bs).
Proof.
  revert bs sb db src dst ls ld c.
  induction fuel as [|fuel IH];
    intros bs sb db src dst ls ld c Hsized Hg Hsb Hsrc Hdst Hgap Hfuel -> -> ->.
  all: assert (db ≤ sb) as Hdb.
  1, 3: (destruct (decide (db ≤ sb)) as [|Hn]; [done | exfalso];
         assert (S sb * DATA_SIZE ≤ db * DATA_SIZE)
           by (apply Nat.mul_le_mono_r; lia); lia).
  { lia. }
  pose proof (storage_length DATA_SIZE bs Hsized) as Hlen.
  assert (S sb * DATA_SIZE ≤ length bs * DATA_SIZE) as Hfit
    by (apply Nat.mul_le_mono_r; lia).
  cbn [release_loop].
  destruct (memmove_storage bs db dst sb src
              (min (DATA_SIZE - src) (DATA_SIZE - dst)) Hsized Hsb ltac:(lia)
              ltac:(lia) ltac:(lia)) as (bs1 & -> & Hsized1 & Haddrs1 & Hstore1).
  cbn [mbind outcome_bind].
  assert (length bs1 = length bs) as Hlen1
    by (by rewrite <- (length_fmap addr bs1), Haddrs1, length_fmap).
  pose proof (storage_length DATA_SIZE bs1 Hsized1) as HlenS1.
  replace (sb * DATA_SIZE + src) with (db * DATA_SIZE + dst + g) in Hstore1 by lia.
  case_decide as Hcase.
  - rewrite Nat.min_l in * by lia.
    unfold diff. rewrite decide_True by lia. cbn [mbind outcome_bind].
    rewrite Hlen1. case_decide as Hlast.
    + exists bs1. split; [done|]. split; [done|]. split; [done|].
      rewrite Hstore1, <- Hlen. apply shift_last. lia.
    + destruct (IH bs1 (S sb) db 0 (dst + (DATA_SIZE - src)) DATA_SIZE
                  (DATA_SIZE - dst - (DATA_SIZE - src))
                  (DATA_SIZE - dst - (DATA_SIZE - src)) Hsized1 Hg)
        as (bs' & -> & Hsized' & Haddrs' & Hstore'); try lia.
      exists bs'. split; [done|]. split; [done|]. split; [congruence|].
      rewrite Hstore', Hlen1.
      rewrite <- Hlen, <- (shift_step (storage bs) (db * DATA_SIZE + dst)
                             (DATA_SIZE - src) g) by lia.
      cbn zeta. rewrite <- Hstore1, !(assoc_L Nat.add). done.
  - rewrite Nat.min_r in * by lia.
    unfold diff. rewrite decide_True by lia. cbn [mbind outcome_bind].
    assert (db < sb) as Hlt.
    { destruct (decide (db < sb)) as [|Hn]; [done | exfalso].
      assert (db = sb) as -> by lia. lia. }
    destruct (IH bs1 sb (S db) (src + (DATA_SIZE - dst)) 0
                (DATA_SIZE - src - (DATA_SIZE - dst)) DATA_SIZE
                (DATA_SIZE - src - (DATA_SIZE - dst)) Hsized1 Hg)
      as (bs' & -> & Hsized' & Haddrs' & Hstore'); try lia.
    exists bs'. split; [done|]. split; [done|]. split; [congruence|].
    rewrite Hstore', Hlen1.
    rewrite <- Hlen, <- (shift_step (storage bs) (db * DATA_SIZE + dst)
                           (DATA_SIZE - dst) g) by lia.
    cbn zeta. rewrite <- Hstore1.
    replace (S db * DATA_SIZE + 0) with (db * DATA_SIZE + dst + (DATA_SIZE - dst))
      by lia.
    done.
Qed.

(** moveBackward returns where the iterator stands more than [step] bytes
    into the storage, and leaves it after the start of a block. *)
Lemma moveBackward_in_total rpre pos step :
  pos ≤ DATA_SIZE → step + DATA_SIZE < length rpre * DATA_SIZE + pos →
  ∃ a p, moveBackward_in DATA_SIZE rpre pos step = Ok (a, p).
Proof.
  revert pos step. induction rpre as [|b before IH]; intros pos step Hpos Hstep.
  { cbn in Hstep. lia. }
  cbn [moveBackward_in]. case_decide as Hle; [|by eauto].
  apply IH; [done|]. cbn [length] in Hstep. lia.
Qed.

Lemma moveBackward_total bs it step :
  inside DATA_SIZE bs it → step < place DATA_SIZE bs it →
  ∃ it', moveBackward DATA_SIZE bs it step = Ok it' ∧ 0 < m_position it'.
Proof.
  intros [[i Hi] Hp] Hstep. unfold place, key in Hstep. rewrite Hi in Hstep.
  cbn in Hstep. unfold moveBackward. unfold block_index in Hi.
  destruct (locate (m_block it) bs) as [[pre suf]|] eqn:Hloc; [|done].
  cbn in Hi. injection Hi as <-.
  destruct (locate_split _ _ _ _ Hloc) as (_ & (b & rest & -> & _) & _).
  cbn [defined head mbind outcome_bind].
  destruct (moveBackward_in_total (b :: reverse pre) (m_position it) step Hp)
    as (a' & p' & Hmove).
  { cbn [length]. rewrite length_reverse. lia. }
  rewrite Hmove. cbn. eexists. split; [done|]. cbn.
  apply moveBackward_in_spec in Hmove as (_ & _ & _ & _ & ? & _); [lia | done].
Qed.

Lemma for_each_total {T U} (f : T → outcome U) (xs : list T) :
  Forall (λ x, ∃ y, f x = Ok y) xs → ∃ ys, for_each f xs = Ok ys.
Proof.
  induction 1 as [|x xs [y Hy] _ [ys IH]]; [by exists []|].
  exists (y :: ys). cbn. by rewrite Hy, IH.
Qed.

(** The iterator loops of release: the iterators listed up to the last one
    at the position of [itr] stay, those after it are moved [size] bytes
    back, and the buffer is in order for the dropBack that follows. *)
Lemma release_shift B bs' i size tmp pre itr post :
  orderly DATA_SIZE B → admissible DATA_SIZE B (Release i size tmp) → 0 < size →
  find_iter i (m_iterators B) = Some (pre, itr, post) →
  addr <$> bs' = addr <$> m_blocks B →
  0 < place DATA_SIZE (m_blocks B) itr →
  ∃ l, shift_iterators (λ it, moveBackward DATA_SIZE bs' it size) i tmp
                       (m_iterators B) = Ok l ∧
       orderly DATA_SIZE (mkBuffer bs' l (m_begin B) (m_end B)) ∧
       admissible DATA_SIZE (mkBuffer bs' l (m_begin B) (m_end B)) (DropBack size) ∧
       Forall2 (λ x x', self x' = self x ∧
                        place DATA_SIZE bs' x'
                        = if decide (place DATA_SIZE (m_blocks B) x
                                     ≤ place DATA_SIZE (m_blocks B) itr)
                          then place DATA_SIZE (m_blocks B) x
                          else place DATA_SIZE (m_blocks B) x - size)
               (m_iterators B) l ∧
       (∀ y', last l = Some y' →
              ∃ y, last (m_iterators B) = Some y ∧ 0 < m_position y' ∧
                   place DATA_SIZE bs' y' + size = place DATA_SIZE (m_blocks B) y).
Proof.
  intros Hord (Htmp & Hend & Hadm) Hsize Hfind Haddrs Hpos0.
  rewrite Hfind in Hadm. destruct Hadm as [Hall Hfar].
  destruct (find_iter_split _ _ _ _ _ Hfind) as (Hl & _ & _).
  pose proof (orderly_names _ _ Hord) as Hnames.
  pose proof (orderly_inside _ _ Hord) as Hin.
  pose proof (orderly_sorted _ _ Hord) as Hsorted.
  pose proof (orderly_addrs _ _ Hord) as Hnd.
  rewrite <- Haddrs in Hnd.
  rewrite Forall_fmap in Hend.
  rewrite Hl in Hnames, Hin, Hsorted, Hend.
  destruct (next_position itr post) as [stay move_] eqn:Hnext.
  pose proof (next_position_app itr post) as Hsplit. rewrite Hnext in Hsplit.
  symmetry in Hsplit.
  (* where the iterators that stay and those that move stand *)
  assert (Forall (λ x, place DATA_SIZE (m_blocks B) x ≤ place DATA_SIZE (m_blocks B) itr)
                 (pre ++ stay) ∧
          Forall (λ y, place DATA_SIZE (m_blocks B) itr + size
                       ≤ place DATA_SIZE (m_blocks B) y) move_) as [Hnear Hmove].
  { rewrite fmap_app, fmap_cons in Hsorted.
    apply StronglySorted_app in Hsorted as (Hcross & _ & [_ Hpost]%StronglySorted_cons).
    pose proof (next_position_far DATA_SIZE (m_blocks B) itr size itr post Hsize
                  eq_refl eq_refl Hall Hfar Hpost) as Hwalk.
    rewrite Hnext in Hwalk. destruct Hwalk as [Hstay Hmove]. split; [|done].
    apply Forall_app. split.
    - apply Forall_forall. intros x Hx. apply Hcross; [|by left].
      by apply list_elem_of_fmap_2.
    - eapply Forall_impl; [exact Hstay|]. cbn. intros x ->. done. }
  rewrite Hsplit, (assoc_L (++)) in Hnames, Hin, Hsorted, Hend.
  assert (Forall (λ x, inside DATA_SIZE bs' x ∧
                       place DATA_SIZE bs' x = place DATA_SIZE (m_blocks B) x)
                 ((pre ++ stay) ++ move_)) as Hsame.
  { eapply Forall_impl; [exact Hin|]. intros x Hx.
    split; [by eapply inside_addrs | by apply place_addrs]. }
  apply Forall_app in Hsame as [Hsame1 Hsame2].
  (* the moves return *)
  destruct (for_each_total (λ it, moveBackward DATA_SIZE bs' it size) move_)
    as [moved Hfor].
  { rewrite Forall_forall in Hsame2, Hmove |- *. intros y Hy.
    destruct (Hsame2 y Hy) as [Hiny Hpy]. specialize (Hmove y Hy).
    destruct (moveBackward_total bs' y size Hiny ltac:(lia)) as (y' & -> & _).
    by eauto. }
  pose proof (for_each_returns _ _ _ Hfor) as Hmoved.
  assert (shift_iterators (λ it, moveBackward DATA_SIZE bs' it size) i tmp
                          (m_iterators B) = Ok (pre ++ stay ++ moved)) as Hshift.
  { unfold shift_iterators. rewrite Hfind. cbn [defined mbind outcome_bind].
    cbn [next_position]. unfold iter_eq at 1. cbn [m_block m_position].
    rewrite bool_decide_eq_true_2 by done. rewrite Hnext, Hfor. cbn.
    f_equal. unfold unlink. rewrite find_iter_app; [done.. |].
    apply fresh_name. rewrite Hl, fmap_app in Htmp.
    intros Hin'. apply Htmp, elem_of_app. by left. }
  exists (pre ++ stay ++ moved). split; [done|].
  assert (Forall2 (λ y y', self y' = self y ∧ inside DATA_SIZE bs' y' ∧
                           0 < m_position y' ∧
                           place DATA_SIZE bs' y' + size = place DATA_SIZE (m_blocks B) y)
                  move_ moved) as Hmoved'.
  { apply Forall_app in Hin as [_ Hin2].
    clear -Hmoved Hsame2 Hin2 Hnd Hmove Hpos0. induction Hmoved as [|y y' ? ? Hy _ IH]; [done|].
    apply Forall_cons in Hsame2 as [[Hiny Hsame] ?].
    apply Forall_cons in Hin2 as [[_ Hp] ?].
    apply Forall_cons in Hmove as [Hfar ?]. constructor; [|by apply IH].
    destruct (moveBackward_place _ _ _ _ _ Hnd Hp Hy) as (? & ? & ?).
    destruct (moveBackward_total bs' y size Hiny ltac:(lia)) as (y'' & Hy'' & ?).
    rewrite Hy in Hy''. injection Hy'' as <-.
    by rewrite <- Hsame. }
  set (B2 := mkBuffer bs' (pre ++ stay ++ moved) (m_begin B) (m_end B)) in *.
  assert (orderly DATA_SIZE B2) as Hord2.
  { split; cbn [B2 m_blocks m_iterators m_begin m_end]; rewrite ?(assoc_L (++)).
    - done.
    - apply Hord.
    - rewrite fmap_app in Hnames |- *.
      rewrite (same_names move_ moved); [done|].
      eapply Forall2_impl; [exact Hmoved'|]. by intros ?? (? & _).
    - apply Forall_app. split.
      + eapply Forall_impl; [exact Hsame1|]. by intros ? [? _].
      + eapply Forall2_Forall_r; [exact Hmoved'|]. apply Forall_true.
        by intros ?? (_ & ? & _).
    - apply (sorted_tail_moves DATA_SIZE (λ p, p - size) (m_blocks B) _ _ move_);
        [intros; lia | | | | done].
      + apply Forall_fmap_ext. eapply Forall_impl; [exact Hsame1|]. by intros ? [_ ?].
      + eapply Forall2_impl; [exact Hmoved'|]. intros ?? (_ & _ & _ & ?). lia.
      + intros x y Hx Hy. rewrite Forall_forall in Hnear, Hmove.
        specialize (Hnear x Hx). specialize (Hmove y Hy). lia. }
  split; [done|]. split; [|split].
  - cbn [admissible B2 m_blocks m_iterators]. rewrite Forall_fmap, (assoc_L (++)).
    assert (end_position DATA_SIZE B2 = end_position DATA_SIZE B) as ->.
    { unfold end_position, B2. cbn.
      by rewrite <- (length_fmap addr bs'), Haddrs, length_fmap. }
    apply Exists_exists in Hfar as (y0 & Hy0 & Hfar0).
    assert (place DATA_SIZE (m_blocks B) y0 ≤ end_position DATA_SIZE B) as Hy0end.
    { rewrite Forall_forall in Hend. apply Hend.
      rewrite <- (assoc_L (++)), <- Hsplit. apply elem_of_app. right. by right. }
    apply Forall_app in Hend as [_ Hend2].
    apply Forall_app. split.
    + rewrite Forall_forall in Hnear, Hsame1 |- *. intros x Hx.
      destruct (Hsame1 x Hx) as [_ Hpx]. specialize (Hnear x Hx).
      unfold compose. lia.
    + clear -Hmoved' Hend2. induction Hmoved' as [|y y' ? ? (_ & _ & _ & Hy) _ IH]; [done|].
      apply Forall_cons in Hend2 as [? ?]. constructor; [|by apply IH].
      unfold compose in *. lia.
  - rewrite Hl, Hsplit, !(assoc_L (++)). apply Forall2_app.
    + apply Forall2_same_length_lookup. split; [done|].
      intros k x x' Hx Hx'. rewrite Hx in Hx'. injection Hx' as <-. split; [done|].
      rewrite Forall_forall in Hnear, Hsame1.
      apply list_elem_of_lookup_2 in Hx.
      destruct (Hsame1 x Hx) as [_ ->]. by rewrite decide_True by by apply Hnear.
    + clear -Hmoved' Hmove Hsize.
      induction Hmoved' as [|y y' ? ? (Hself & _ & _ & Hy) _ IH]; [done|].
      apply Forall_cons in Hmove as [? ?]. constructor; [|by apply IH].
      split; [done|]. rewrite decide_False by lia. lia.
  - intros y' Hlast.
    assert (move_ ≠ []) as Hne.
    { intros ->. apply Exists_exists in Hfar as (y0 & Hy0 & Hfar0).
      rewrite app_nil_r in Hsplit.
      assert (y0 ∈ itr :: post) as Hy0' by (by right). rewrite Hsplit in Hy0'.
      assert (y0 ∈ pre ++ stay) as Hy0'' by (apply elem_of_app; by right).
      rewrite Forall_forall in Hnear. specialize (Hnear _ Hy0''). lia. }
    pose proof (Forall2_length _ _ _ Hmoved') as Hlen2.
    assert (moved ≠ []) as Hne'.
    { intros ->. apply Hne. by apply nil_length_inv. }
    rewrite !(assoc_L (++)), last_app in Hlast.
    destruct (last moved) as [ym|] eqn:Hym; [|by apply last_None in Hym].
    injection Hlast as <-.
    rewrite last_lookup in Hym.
    destruct (Forall2_lookup_r _ _ _ _ _ Hmoved' Hym) as (y & Hy & _ & _ & Hpos & Hplace).
    exists y. split; [|done].
    rewrite Hl, Hsplit, !(assoc_L (++)), last_app, last_lookup.
    replace (pred (length move_)) with (pred (length moved)) by lia.
    by rewrite Hy.
Qed.

Lemma place_take bs n x :
  inside DATA_SIZE (take n bs) x →
  place DATA_SIZE (take n bs) x = place DATA_SIZE bs x.
Proof.
  intros [[k Hk] _]. unfold place, key. rewrite Hk.
  pose proof (block_index_app_l _ _ (drop n bs) _ Hk) as Hk'.
  rewrite take_drop in Hk'. by rewrite Hk'.
Qed.

Local Ltac lifted := rewrite run_bind; unfold lift at 1; cbv beta iota.

(** release (itr, size) takes the [size] bytes at the iterator out of the
    buffer: the bytes before them and the bytes after them stay, in this
    order, and end() comes [size] bytes earlier.  The iterators listed up
    to the last one at the position of [itr] stay, those after it are
    moved [size] bytes back.  It returns where the iterator stands after
    the start of the storage and at or after begin(), the bytes released
    end before the end of the last block, the iterators listed after [itr]
    stand where it stands or behind the bytes released, and, unless
    dropBack frees no block, a block boundary that remains lies between
    the last iterator, once moved, and the new end. *)
Theorem release_removes_bytes (a : A) B i size tmp pre itr post :
  orderly DATA_SIZE B → sized DATA_SIZE (m_blocks B) →
  find_iter i (m_iterators B) = Some (pre, itr, post) →
  admissible DATA_SIZE B (Release i size tmp) →
  size ≠ 0 →
  let p := place DATA_SIZE (m_blocks B) itr in
  0 < p → m_begin B ≤ p →
  p + size < length (m_blocks B) * DATA_SIZE →
  (∀ y, last (m_iterators B) = Some y →
        size ≤ m_end B ∨
        ∃ j, place DATA_SIZE (m_blocks B) y ≤ j * DATA_SIZE + size ∧
             j * DATA_SIZE + size ≤ end_position DATA_SIZE B) →
  ∃ a' B',
    release DATA_SIZE i size tmp (a, B) = (Ok tt, (a', B')) ∧
    contents DATA_SIZE B'
    = take (p - m_begin B) (contents DATA_SIZE B)
      ++ drop (p - m_begin B + size) (contents DATA_SIZE B) ∧
    m_begin B' = m_begin B ∧
    end_position DATA_SIZE B' + size = end_position DATA_SIZE B ∧
    Forall2 (λ x x', self x' = self x ∧
                     place DATA_SIZE (m_blocks B') x'
                     = if decide (place DATA_SIZE (m_blocks B) x ≤ p)
                       then place DATA_SIZE (m_blocks B) x
                       else place DATA_SIZE (m_blocks B) x - size)
            (m_iterators B) (m_iterators B') ∧
    orderly DATA_SIZE B' ∧ sized DATA_SIZE (m_blocks B').
Proof.
  intros Hord Hsized Hfind Hadm Hsize p Hp0 Hbegin Hfit Hclear.
  assert (0 < size) as Hsize' by lia.
  pose proof Hadm as (Htmp & Hend & Hadm'). rewrite Hfind in Hadm'.
  destruct Hadm' as [_ Hfar].
  destruct (find_iter_split _ _ _ _ _ Hfind) as (Hl & _ & _).
  pose proof (orderly_inside _ _ Hord) as Hin.
  pose proof (orderly_bounds _ _ Hord) as [_ Hm_end].
  assert (inside DATA_SIZE (m_blocks B) itr) as [[ib Hib] Hpos].
  { rewrite Forall_forall in Hin. apply Hin. rewrite Hl.
    apply elem_of_app. right. by left. }
  assert (p = ib * DATA_SIZE + m_position itr) as Hp
    by (subst p; unfold place, key; by rewrite Hib).
  assert (p + size ≤ end_position DATA_SIZE B) as HpE.
  { apply Exists_exists in Hfar as (y & Hy & Hfar).
    rewrite Forall_fmap, Forall_forall in Hend.
    assert (y ∈ m_iterators B) as Hy'
      by (rewrite Hl; apply elem_of_app; right; by right).
    specialize (Hend y Hy'). unfold compose in Hend. subst p. lia. }
  unfold block_index in Hib.
  destruct (locate (m_block itr) (m_blocks B)) as [[bpre suf]|] eqn:Hloc; [|done].
  cbn in Hib. injection Hib as Hib.
  destruct (locate_split _ _ _ _ Hloc) as (Hbs & (b & rest & -> & Hb) & _).
  assert (length (m_blocks B) = length bpre + length (b :: rest)) as Hlen
    by (by rewrite Hbs, length_app).
  destruct (release_seek_spec (b :: rest) (length bpre) (m_position itr) size Hpos)
    as (sb & src & Hseek & Hsum & Hsrc).
  assert (sb < length (m_blocks B)) as Hsb.
  { destruct (decide (sb < length (m_blocks B))) as [|Hn]; [done | exfalso].
    assert (length (m_blocks B) * DATA_SIZE ≤ sb * DATA_SIZE)
      by (apply Nat.mul_le_mono_r; lia).
    lia. }
  specialize (Hsrc ltac:(lia)).
  destruct (release_loop_storage (2 * length (m_blocks B) + 2) (m_blocks B) sb
              (length bpre) src (m_position itr) (DATA_SIZE - src)
              (DATA_SIZE - m_position itr)
              (min (DATA_SIZE - src) (DATA_SIZE - m_position itr)) size Hsized Hsize')
    as (bs' & Hloop & Hsized' & Haddrs' & Hstore'); try (done || lia).
  assert (length bs' = length (m_blocks B)) as Hlen'
    by (by rewrite <- (length_fmap addr bs'), Haddrs', length_fmap).
  destruct (release_shift B bs' i size tmp pre itr post Hord Hadm Hsize' Hfind
              Haddrs' Hp0) as (l & Hshift & Hord2 & Hadm2 & Hplaces & Hlast2).
  set (B2 := mkBuffer bs' l (m_begin B) (m_end B)) in *.
  assert (end_position DATA_SIZE B2 = end_position DATA_SIZE B) as HE2
    by (unfold end_position, B2; cbn; by rewrite Hlen').
  assert (m_blocks B2 ≠ []) as Hne2.
  { cbn. intros ->. cbn in Hlen'. lia. }
  destruct (dropBack_contents DATA_SIZE a B2 size Hord2 Hsized' Hsize Hne2)
    as (a' & B' & Hdrop & Hcontents & Hits & Hbegin' & Hne' & Hend' & Hendpos
        & Hord' & Hsized'').
  { rewrite HE2. cbn. lia. }
  { done. }
  { intros it k Hlast Hk. rewrite HE2.
    destruct (Hlast2 it Hlast) as (y & Hy & Hoff & Hplace).
    destruct (Hclear y Hy) as [?|(j & Hj1 & Hj2)]; [by left | right].
    cbn [m_blocks B2] in Hk.
    assert (place DATA_SIZE bs' it = k * DATA_SIZE + m_position it) as Hit
      by (unfold place, key; by rewrite Hk).
    assert (S k * DATA_SIZE ≤ j * DATA_SIZE); [|lia].
    apply Nat.mul_le_mono_r.
    destruct (decide (S k ≤ j)) as [|Hn]; [done | exfalso].
    assert (j * DATA_SIZE ≤ k * DATA_SIZE) by (apply Nat.mul_le_mono_r; lia).
    lia. }
  exists a', B'. split; [|split; [|split; [done|split; [|split; [|done]]]]].
  - unfold release. rewrite run_bind. unfold the_buffer at 1.
    cbv beta iota zeta. cbn [fst snd].
    lifted. rewrite Hfind. cbn [defined]. cbv beta iota.
    lifted. rewrite Hloc. cbn [defined]. cbv beta iota zeta.
    lifted. rewrite bool_decide_eq_true_2 by done. cbn [require].
    lifted. rewrite Hseek.
    destruct (lookup_lt_is_Some_2 (m_blocks B) sb Hsb) as [sblk Hsblk].
    lifted. rewrite Hsblk. cbn [defined].
    lifted. unfold diff at 1. rewrite decide_True by done.
    lifted. unfold diff at 1. rewrite decide_True by lia.
    cbv zeta. lifted. rewrite Hloop.
    lifted. rewrite Hshift.
    rewrite run_bind. unfold store at 1. cbv beta iota. cbn [fst]. exact Hdrop.
  - rewrite Hcontents, (contents_length DATA_SIZE B2) by done.
    rewrite HE2. unfold contents at 1. fold (storage (m_blocks B2)).
    rewrite HE2. cbn [B2 m_blocks m_begin].
    rewrite take_take, Nat.min_l by lia.
    unfold contents. fold (storage (m_blocks B)).
    rewrite Hstore', <- (storage_length DATA_SIZE (m_blocks B)) by done.
    replace (length bpre * DATA_SIZE + m_position itr) with p by lia.
    apply released_window; [done | done |].
    rewrite (storage_length DATA_SIZE) by done.
    apply end_position_fits; [|done]. intros Hnil. rewrite Hnil in Hsb. cbn in Hsb. lia.
  - lia.
  - rewrite Hits. cbn [B2 m_iterators].
    pose proof (orderly_inside _ _ Hord') as Hin'. rewrite Hits in Hin'.
    cbn [B2 m_iterators] in Hin'.
    destruct (dropBack_returns DATA_SIZE a B2 size (a', B') Hm_end Hdrop)
      as (n & Hblocks & _).
    cbn [snd B2 m_blocks] in Hblocks. rewrite Hblocks in Hin' |- *.
    apply Forall2_same_length_lookup. split; [by eapply Forall2_length|].
    intros k x x' Hx Hx'.
    destruct (Forall2_lookup_lr _ _ _ _ _ _ Hplaces Hx Hx') as [Hself Hplace].
    split; [done|]. unfold p. rewrite <- Hplace. apply place_take.
    rewrite Forall_forall in Hin'. apply Hin'. by eapply list_elem_of_lookup_2.
Qed.

End ReleaseContents.


(** ** What getIOV designates *)

Section GetIOVBytes.

Variable DATA_SIZE : nat.
Hypothesis DATA_SIZE_fits : (Z.of_nat DATA_SIZE < 2 ^ 64)%Z.

Implicit Types (B : Buffer) (bs suf : list Block).

Lemma block_at_lookup bs j b :
  NoDup (addr <$> bs) → bs !! j = Some b → block_at (addr b) bs = Some b.
Proof.
  intros Hnd Hj. pose proof (block_index_app _ _ _ Hnd Hj) as Hi.
  destruct (block_index_lookup _ _ _ Hi) as (b' & Hb' & _ & ->). congruence.
Qed.

(** The entries of getIOV, read one after the other, are the bytes of the
    storage from the iterator on. *)
Lemma getIOV_in_bytes bs lb e max_size suf pos :
  (∀ b, b ∈ suf → block_at (addr b) bs = Some b) →
  NoDup (addr <$> suf) → sized DATA_SIZE suf → last suf = Some lb →
  pos ≤ DATA_SIZE → e ≤ DATA_SIZE → (length suf = 1 → pos ≤ e) →
  ∃ vecs n,
    getIOV_in DATA_SIZE (addr lb) e suf pos max_size = Ok vecs ∧
    total_len vecs = Z.of_nat n ∧
    concat (iov_bytes bs <$> vecs) = take n (drop pos (storage suf)) ∧
    n = if decide (length suf ≤ max_size)
        then (length suf - 1) * DATA_SIZE + e - pos
        else max_size * DATA_SIZE - pos.
Proof using DATA_SIZE_fits.
  revert suf pos.
  induction max_size as [|m IH]; intros suf pos Hat Hnd Hsized Hlast Hpos He Hone.
  { exists [], 0. destruct suf; [done|]. cbn. rewrite decide_False by (cbn; lia).
    done. }
  destruct suf as [|b rest]; [done|]. cbn [getIOV_in].
  apply Forall_cons in Hsized as [Hb Hrest].
  assert (block_at (addr b) bs = Some b) as Hatb by (apply Hat; by left).
  case_decide as Hlb.
  - assert (rest = []) as -> by eauto using addr_last_inv.
    exists [mkIovec (addr b, pos) (wrap64 (Z.of_nat e - Z.of_nat pos))], (e - pos).
    specialize (Hone eq_refl).
    split; [done|]. rewrite (wrap64_small DATA_SIZE DATA_SIZE_fits) by done. cbn.
    split; [lia|]. split.
    + unfold iov_bytes. cbn. rewrite Hatb, Nat2Z.id.
      by rewrite !app_nil_r.
    + rewrite decide_True by lia. lia.
  - assert (rest ≠ []) as Hne by (intros ->; cbn in Hlast; congruence).
    destruct (IH rest 0) as (vecs & n & -> & Htotal & Hbytes & Hn).
    { intros b' Hb'. apply Hat. by right. }
    { rewrite fmap_cons in Hnd. by apply NoDup_cons in Hnd as [_ ?]. }
    { done. }
    { destruct rest; [done|]. by rewrite last_cons_cons in Hlast. }
    { lia. }
    { done. }
    { lia. }
    cbn [mbind outcome_bind].
    exists (mkIovec (addr b, pos) (wrap64 (Z.of_nat DATA_SIZE - Z.of_nat pos)) :: vecs),
           (DATA_SIZE - pos + n).
    split; [done|]. rewrite (wrap64_small DATA_SIZE DATA_SIZE_fits) by done. cbn [total_len foldr iov_len].
    split; [fold (total_len vecs); lia|]. split.
    + rewrite fmap_cons. cbn [concat]. rewrite Hbytes.
      unfold iov_bytes at 1. cbn [iov_base iov_len fst snd].
      rewrite Hatb, Nat2Z.id, storage_cons, drop_0.
      rewrite drop_app_le by lia.
      rewrite (take_ge (drop pos (data b))) by (rewrite length_drop; lia).
      rewrite take_app_ge by (rewrite length_drop; lia).
      rewrite length_drop, Hb. do 2 f_equal. lia.
    + cbn [length]. destruct rest as [|b' rest']; [done|]. cbn [length] in *.
      repeat case_decide; try lia.
      all: rewrite Hn, !Nat.sub_succ, !Nat.sub_0_r; cbn [Nat.mul]; lia.
Qed.

(** What getIOV (itr, vecs, max) hands to writev: its entries, read one
    after the other, are bytes of the buffer from the iterator on, with none
    left out and none twice; they are all the bytes up to end() when [max]
    covers the blocks from the iterator's to the last. *)
Theorem getIOV_gives_contents B itr max_size i :
  well_formed DATA_SIZE (m_blocks B) → m_end B ≤ DATA_SIZE →
  block_index (m_block itr) (m_blocks B) = Some i →
  m_position itr ≤ DATA_SIZE →
  (S i = length (m_blocks B) → m_position itr ≤ m_end B) →
  m_begin B ≤ i * DATA_SIZE + m_position itr →
  ∃ vecs,
    getIOV DATA_SIZE B itr max_size = Ok vecs ∧
    (0 ≤ total_len vecs)%Z ∧
    concat (iov_bytes (m_blocks B) <$> vecs)
    = take (Z.to_nat (total_len vecs))
           (drop (i * DATA_SIZE + m_position itr - m_begin B) (contents DATA_SIZE B)) ∧
    (length (m_blocks B) - i ≤ max_size →
     concat (iov_bytes (m_blocks B) <$> vecs)
     = drop (i * DATA_SIZE + m_position itr - m_begin B) (contents DATA_SIZE B)).
Proof using DATA_SIZE_fits.
  intros [Hnd Hsized] He Hi Hpos Hlastpos Hbegin.
  unfold block_index in Hi.
  destruct (locate (m_block itr) (m_blocks B)) as [[pre suf]|] eqn:Hloc; [|done].
  cbn in Hi. injection Hi as <-.
  destruct (locate_split _ _ _ _ Hloc) as (Hbs & (b & rest & -> & Hb) & Hpre).
  assert (is_Some (last (m_blocks B))) as [lb Hlb].
  { rewrite Hbs, last_app_cons. by apply last_is_Some. }
  assert (last (b :: rest) = Some lb) as Hlast
    by (by rewrite Hbs, last_app_cons in Hlb).
  assert (NoDup (addr <$> b :: rest)) as Hnd'.
  { rewrite Hbs, fmap_app in Hnd. by apply NoDup_app in Hnd as (_ & _ & ?). }
  pose proof Hsized as Hsized0.
  rewrite Hbs in Hsized. apply Forall_app in Hsized as [Hsized_pre Hsized_suf].
  assert (length (m_blocks B) = length pre + length (b :: rest)) as Hlen
    by (by rewrite Hbs, length_app).
  destruct (getIOV_in_bytes (m_blocks B) lb (m_end B) max_size (b :: rest)
              (m_position itr)) as (vecs & n & Hget & Htotal & Hbytes & Hn);
    [|done..| |].
  { intros b' Hb'. apply list_elem_of_lookup in Hb' as [j Hj].
    apply (block_at_lookup _ (length pre + j)); [done|].
    by rewrite Hbs, lookup_app_r, Nat.add_comm, Nat.add_sub by lia. }
  { intros Hone. apply Hlastpos. lia. }
  assert (m_blocks B ≠ []) as Hne by (rewrite Hbs; by destruct pre).
  pose proof (end_position_fits DATA_SIZE B Hne He) as Hfit.
  pose proof (storage_length DATA_SIZE _ Hsized0) as HlenS.
  assert (storage (m_blocks B) = storage pre ++ storage (b :: rest)) as Hstore
    by (by rewrite Hbs, storage_app).
  pose proof (storage_length DATA_SIZE _ Hsized_pre) as HlenP.
  set (p := length pre * DATA_SIZE + m_position itr) in *.
  assert (drop (p - m_begin B) (contents DATA_SIZE B)
          = take (end_position DATA_SIZE B - p)
                 (drop (m_position itr) (storage (b :: rest)))) as Hrest.
  { unfold contents. fold (storage (m_blocks B)).
    rewrite skipn_firstn_comm, drop_drop.
    f_equal; [lia|]. rewrite Hstore, drop_app_ge by lia. f_equal. lia. }
  assert (n ≤ end_position DATA_SIZE B - p ∧
          (length (m_blocks B) - length pre ≤ max_size
           → n = end_position DATA_SIZE B - p)) as [Hle Hall].
  { unfold end_position. rewrite Hlen. subst p. cbn [length] in *.
    case_decide as Hcase; [split; [|intros _]; rewrite Hn; nia|].
    split; [|lia]. rewrite Hn.
    assert (max_size * DATA_SIZE ≤ length rest * DATA_SIZE)
      by (apply Nat.mul_le_mono_r; lia).
    nia. }
  exists vecs. split.
  { unfold getIOV. destruct max_size as [|m]; [by cbn in Hget|].
    unfold lastBlock. rewrite Hlb, Hloc. done. }
  split; [lia|]. rewrite Htotal, Nat2Z.id, Hrest, Hbytes. split.
  - by rewrite take_take, Nat.min_l by lia.
  - intros Hmax. by rewrite (Hall Hmax).
Qed.

End GetIOVBytes.


(** ** Reserving, writing and trimming *)

Section Receiving.

Context {A : Type} `{Allocator A}.
Variable DATA_SIZE : nat.
Hypothesis DATA_SIZE_pos : 0 < DATA_SIZE.

Implicit Types (B : Buffer) (bs : list Block) (l : list iterator).

(** Whether a buffer is in order does not depend on the bytes in its
    blocks. *)
Lemma orderly_addrs_eq bs bs' l b e :
  addr <$> bs' = addr <$> bs →
  orderly DATA_SIZE (mkBuffer bs l b e) → orderly DATA_SIZE (mkBuffer bs' l b e).
Proof.
  intros Haddrs [Hnd Hbounds Hnames Hin Hsorted].
  cbn [m_blocks m_iterators m_begin m_end] in *.
  split; cbn [m_blocks m_iterators m_begin m_end]; [congruence | done | done | |].
  - eapply Forall_impl; [exact Hin|]. intros x. by apply inside_addrs.
  - by rewrite (Forall_fmap_ext_1 (place DATA_SIZE bs') (place DATA_SIZE bs))
      by (apply Forall_true; intros x; by apply place_addrs).
Qed.

(** The way bytes are received: space for [size] bytes is reserved at the
    end, the bytes that arrive are written into it, and what is left of
    the reservation is given back.  The buffer then holds its old bytes
    followed by the bytes written, and its iterators and begin() are what
    they were.  The allocator delivers the blocks needed; no iterator
    stands after end(); and where dropBack frees a block, the last
    iterator of the list stands before the block the buffer then ends
    in. *)
Theorem reserve_write_trim (a : A) B size buf me new_blocks a' :
  orderly DATA_SIZE B → sized DATA_SIZE (m_blocks B) →
  m_begin B ≤ end_position DATA_SIZE B → length buf < size →
  admissible DATA_SIZE B (AppendBack size me) →
  (∀ it i, last (m_iterators B) = Some it →
           block_index (m_block it) (m_blocks B) = Some i →
           size ≤ DATA_SIZE - m_end B ∨
           S i * DATA_SIZE ≤ end_position DATA_SIZE B + length buf) →
  allocate_upto
    (blocks_needed DATA_SIZE size
       (if bool_decide (m_blocks B ≠ []) then DATA_SIZE - m_end B else 0)) a
  = (new_blocks, a', true) →
  well_formed DATA_SIZE (m_blocks B ++ new_blocks) →
  ∃ a'' B'',
    (itr ← appendBack DATA_SIZE size me;
     B1 ← the_buffer;
     B1' ← lift (set DATA_SIZE B1 itr buf);
     _ ← store B1';
     _ ← iterator_destroy me;
     dropBack DATA_SIZE (size - length buf)) (a, B) = (Ok tt, (a'', B'')) ∧
    contents DATA_SIZE B'' = contents DATA_SIZE B ++ buf ∧
    m_iterators B'' = m_iterators B ∧
    (m_blocks B ≠ [] →
     m_begin B'' = m_begin B ∧
     end_position DATA_SIZE B'' = end_position DATA_SIZE B + length buf).
Proof using DATA_SIZE_pos.
  intros Hord Hsized Hbegin Hless Hadm Hclear Halloc [Hnd' Hsized'].
  assert (size ≠ 0) as Hsize by lia.
  pose proof Hadm as [Hme Hplaces].
  pose proof (orderly_bounds _ _ Hord) as [Hb He].
  pose proof (orderly_addrs _ _ Hord) as Hnd.
  apply Forall_app in Hsized' as [_ Hnew].
  destruct (appendBack_contents DATA_SIZE DATA_SIZE_pos a B size me new_blocks a'
              (conj Hnd Hsized) He Hbegin Hsize Halloc Hnew)
    as (itr & B1 & gap & Hrun & Hcontents & Hgap & _ & Hself & Hp & Hpos & Hits
        & Hsized1 & [_ Hend1] & Hne1 & Haddrs1 & Hsum & Hbegin1).
  assert (orderly DATA_SIZE B1) as Hord1.
  { apply (appendBack_keeps_order DATA_SIZE DATA_SIZE_pos a B size me (a', B1));
      [done | done | | cbn [snd]; by rewrite Haddrs1, <- fmap_app].
    cbn [run_op]. by rewrite run_bind, Hrun. }
  destruct (set_in_contents DATA_SIZE B1 itr buf _ Hsized1 Hend1 Hp Hpos)
    as (B1s & Hset & Hcontents_s & Haddrs_s & _ & Hsized_s & Hits_s & Hbegin_s & Hend_s);
    [lia | lia |].
  assert (admissible DATA_SIZE B1 (Destroy me)) as Hadm1.
  { cbn [admissible]. rewrite Hits, fmap_app. cbn. rewrite Hself.
    apply elem_of_app. right. left. }
  destruct (destroy_keeps_order DATA_SIZE a' B1 me Hord1 Hadm1)
    as (B2o & Hdestroy & Hord2).
  cbn [run_op] in Hdestroy. rewrite iterator_destroy_run in Hdestroy.
  injection Hdestroy as <-.
  rewrite Hits, (unlink_last _ _ _ Hme Hself) in Hord2.
  apply (orderly_addrs_eq _ (m_blocks B1s)) in Hord2; [|done].
  set (B2 := mkBuffer (m_blocks B1s) (m_iterators B) (m_begin B1) (m_end B1)) in *.
  assert (length (m_blocks B1s) = length (m_blocks B1)) as Hlen_s
    by (by rewrite <- (length_fmap addr (m_blocks B1s)), Haddrs_s, length_fmap).
  assert (end_position DATA_SIZE B2 = end_position DATA_SIZE B1) as HE2
    by (unfold end_position; cbn [B2 m_blocks m_end]; by rewrite Hlen_s).
  assert (contents DATA_SIZE B2 = contents DATA_SIZE B1s) as HC2.
  { unfold contents, end_position. cbn [B2 m_blocks m_begin m_end].
    by rewrite Hbegin_s, Hend_s. }
  assert (∀ x, inside DATA_SIZE (m_blocks B) x →
               block_index (m_block x) (m_blocks B1s)
               = block_index (m_block x) (m_blocks B)) as Hindex.
  { intros x [[i Hi] _]. rewrite Hi.
    rewrite (block_index_addrs _ _ (m_blocks B ++ new_blocks))
      by (by rewrite Haddrs_s, Haddrs1, fmap_app).
    by apply block_index_app_l. }
  assert (m_blocks B ≠ [] →
          end_position DATA_SIZE B1 = end_position DATA_SIZE B + size) as Hend_pos.
  { intros Hne. rewrite Hsum, Hbegin1, bool_decide_eq_true_2 by done.
    rewrite (contents_length DATA_SIZE B) by done. lia. }
  assert (m_blocks B1s ≠ []) as Hne_s.
  { intros Hnil. rewrite Hnil in Hlen_s. by destruct (m_blocks B1). }
  destruct (dropBack_contents DATA_SIZE a' B2 (size - length buf))
    as (a'' & B'' & Hdrop & Hcontents'' & Hits'' & Hbegin'' & _ & _ & Hsum'' & _);
    [done | done | lia | done | | | |].
  - rewrite HE2. cbn [B2 m_begin]. lia.
  - cbn [admissible B2 m_blocks m_iterators]. rewrite HE2.
    destruct (decide (m_blocks B = [])) as [Hnil|Hne].
    { by rewrite (no_blocks_no_iterators DATA_SIZE B Hord Hnil). }
    rewrite Forall_fmap in Hplaces |- *.
    pose proof (orderly_inside _ _ Hord) as Hin.
    rewrite Forall_forall in Hplaces, Hin |- *. intros x Hx.
    specialize (Hplaces x Hx). specialize (Hin x Hx). cbn in Hplaces |- *.
    unfold place, key in *. rewrite (Hindex x Hin), (Hend_pos Hne). lia.
  - cbn [B2 m_blocks m_iterators m_end]. rewrite HE2.
    intros it i Hlast Hi.
    pose proof (orderly_inside _ _ Hord) as Hin.
    apply last_Some_elem_of in Hlast as Hit.
    rewrite Forall_forall in Hin. specialize (Hin it Hit).
    rewrite (Hindex it Hin) in Hi.
    assert (m_blocks B ≠ []) as Hne by (intros Hnil; by rewrite Hnil in Hi).
    destruct (Hclear it i Hlast Hi) as [Hroom|Hfull].
    + left. specialize (Hend_pos Hne). unfold end_position in Hend_pos.
      assert (blocks_needed DATA_SIZE size (DATA_SIZE - m_end B) = 0) as Hnone
        by (by apply blocks_needed_0).
      rewrite bool_decide_eq_true_2, Hnone in Halloc by done.
      cbn in Halloc. injection Halloc as <- _.
      rewrite <- (length_fmap addr (m_blocks B1)), Haddrs1, app_nil_r, length_fmap
        in Hend_pos.
      lia.
    + right. rewrite (Hend_pos Hne). lia.
  - exists a'', B''. split; [|split; [|split; [done|]]].
    + rewrite run_bind, Hrun.
      rewrite run_bind. unfold the_buffer at 1. cbn [fst snd].
      rewrite run_bind. unfold lift at 1. rewrite Hset.
      rewrite run_bind. unfold store at 1. cbn [fst snd].
      rewrite run_bind, iterator_destroy_run. cbn [m_blocks m_iterators m_begin m_end].
      rewrite Hits_s, Hits, (unlink_last _ _ _ Hme Hself), Hbegin_s, Hend_s.
      exact Hdrop.
    + rewrite Hcontents'', HC2, Hcontents_s, Hcontents.
      replace (m_begin B1 + length (contents DATA_SIZE B) - m_begin B1)
        with (length (contents DATA_SIZE B)) by lia.
      rewrite take_app_length, drop_app_ge by lia.
      rewrite !length_app, length_drop, Hgap.
      replace (length (contents DATA_SIZE B)
               + (length buf
                  + (size - (length (contents DATA_SIZE B) + length buf
                             - length (contents DATA_SIZE B))))
               - (size - length buf))
        with (length (contents DATA_SIZE B) + length buf) by lia.
      rewrite (assoc_L (++)), take_app_le by (rewrite length_app; lia).
      apply take_ge. rewrite length_app. lia.
    + intros Hne. rewrite Hbegin''. cbn [B2 m_begin].
      rewrite Hbegin1, bool_decide_eq_true_2 by done. split; [done|].
      rewrite HE2, (Hend_pos Hne) in Hsum''. lia.
Qed.

End Receiving.


(** ** Reading a string through an iterator *)

Section ReadingStrings.

Context {A : Type} `{Allocator A}.
Variable DATA_SIZE : nat.

Implicit Types (B : Buffer) (bs : list Block) (l : list iterator).

(** [*it] is the byte of the buffer at the iterator, unless the iterator
    stands at the end of its block: there it reads behind the block. *)
Lemma iterator_deref_spec B it :
  NoDup (addr <$> m_blocks B) → sized DATA_SIZE (m_blocks B) →
  inside DATA_SIZE (m_blocks B) it →
  if decide (m_position it < DATA_SIZE)
  then ∃ c, iterator_deref B it = Ok c ∧
            storage (m_blocks B) !! place DATA_SIZE (m_blocks B) it = Some c
  else iterator_deref B it = Err Undefined.
Proof.
  intros Hnd Hsized [[j Hj] Hpos].
  assert (place DATA_SIZE (m_blocks B) it = j * DATA_SIZE + m_position it) as ->
    by (unfold place, key; by rewrite Hj).
  unfold iterator_deref. unfold block_index in Hj.
  destruct (locate (m_block it) (m_blocks B)) as [[pre suf]|] eqn:Hloc; [|done].
  cbn in Hj. injection Hj as <-.
  destruct (locate_split _ _ _ _ Hloc) as (Hbs & (b & rest & -> & Hb) & _).
  cbn [defined head mbind outcome_bind].
  rewrite Hbs in Hsized. apply Forall_app in Hsized as [Hpre Hsuf].
  apply Forall_cons in Hsuf as [Hlen _].
  case_decide as Hlt.
  - destruct (lookup_lt_is_Some_2 (data b) (m_position it)) as [c Hc]; [lia|].
    exists c. rewrite Hc. split; [done|].
    rewrite Hbs, storage_app, storage_cons.
    rewrite lookup_app_r by (rewrite (storage_length DATA_SIZE) by done; lia).
    rewrite (storage_length DATA_SIZE) by done.
    replace (length pre * DATA_SIZE + m_position it - length pre * DATA_SIZE)
      with (m_position it) by lia.
    by rewrite lookup_app_l by lia.
  - rewrite lookup_ge_None_2 by lia. done.
Qed.

(** One step of the loop: [++tmp] inside a block. *)
Lemma step_in_block bs it :
  inside DATA_SIZE bs it → m_position it < DATA_SIZE →
  moveForward DATA_SIZE bs it 1
  = Ok (mkIter (self it) (m_block it) (S (m_position it))).
Proof.
  intros [[j Hj] Hpos] Hlt. unfold moveForward. unfold block_index in Hj.
  destruct (locate (m_block it) bs) as [[pre suf]|] eqn:Hloc; [|done].
  destruct (locate_split _ _ _ _ Hloc) as (_ & (b & rest & -> & Hb) & _).
  cbn [defined mbind outcome_bind]. rewrite bool_decide_eq_true_2 by done.
  cbn [require mbind outcome_bind moveForward_in].
  rewrite decide_False by lia. cbn. by rewrite Hb, Nat.add_1_r.
Qed.

(** The loop reads [size] bytes of the buffer if they lie in the block of
    the iterator, and leaves that block if they do not. *)
Lemma push_back_chars_spec (a : A) size tmp B pre it post :
  orderly DATA_SIZE B → sized DATA_SIZE (m_blocks B) → ascending (m_blocks B) →
  find_iter tmp (m_iterators B) = Some (pre, it, post) →
  m_begin B ≤ place DATA_SIZE (m_blocks B) it →
  place DATA_SIZE (m_blocks B) it + size ≤ end_position DATA_SIZE B →
  if decide (size = 0 ∨ m_position it + size ≤ DATA_SIZE)
  then ∃ l pre' it' post',
         push_back_chars DATA_SIZE size tmp (a, B)
         = (Ok (take size (drop (place DATA_SIZE (m_blocks B) it - m_begin B)
                                (contents DATA_SIZE B))),
            (a, mkBuffer (m_blocks B) l (m_begin B) (m_end B))) ∧
         find_iter tmp l = Some (pre', it', post') ∧ pre' ++ post' = pre ++ post
  else (push_back_chars DATA_SIZE size tmp (a, B)).1 = Err Undefined.
Proof.
  revert B pre it post.
  induction size as [|n IH]; intros B pre it post Hord Hsized Hasc Hfind Hbegin Hfit.
  { rewrite decide_True by (by left). exists (m_iterators B), pre, it, post.
    split; [|done]. cbn. by destruct B. }
  pose proof (orderly_addrs _ _ Hord) as Hnd.
  pose proof (orderly_names _ _ Hord) as Hnames.
  pose proof (orderly_bounds _ _ Hord) as [_ Hend].
  destruct (find_iter_split _ _ _ _ _ Hfind) as (Hl & _ & _).
  assert (inside DATA_SIZE (m_blocks B) it) as Hin.
  { pose proof (orderly_inside _ _ Hord) as Hall. rewrite Forall_forall in Hall.
    apply Hall. rewrite Hl. apply elem_of_app. right. by left. }
  assert (push_back_chars DATA_SIZE (S n) tmp (a, B)
          = match iterator_deref B it with
            | Ok c => (_ ← iterator_advance DATA_SIZE tmp 1;
                       cs ← push_back_chars DATA_SIZE n tmp;
                       mret (c :: cs)) (a, B)
            | Err f => (Err f, (a, B))
            end) as ->.
  { cbn [push_back_chars]. rewrite run_bind. unfold the_buffer at 1. cbn [fst snd].
    rewrite run_bind. unfold lift at 1. rewrite Hfind. cbn [defined].
    rewrite run_bind. by unfold lift at 1. }
  pose proof (iterator_deref_spec B it Hnd Hsized Hin) as Hderef.
  destruct (decide (m_position it < DATA_SIZE)) as [Hlt|Hge].
  2: { rewrite Hderef. cbn. rewrite decide_False; [done|].
       destruct Hin as [_ ?]. lia. }
  destruct Hderef as (c & -> & Hc).
  destruct (iterator_advance_returns DATA_SIZE a B tmp 1 pre it post Hord Hasc Hfind)
    as (it' & run & tl & Hpost & Hself & Hplace' & Hrun & Hfind' & Hord'); [lia|].
  cbn zeta in Hrun, Hfind', Hord'.
  set (B' := mkBuffer (m_blocks B) (pre ++ run ++ it' :: tl) (m_begin B) (m_end B)) in *.
  destruct (iterator_advance_spec DATA_SIZE a B tmp 1 it' (a, B') pre it post
              Hnames Hfind Hrun) as (_ & _ & Hmove & _).
  rewrite (step_in_block _ _ Hin Hlt) in Hmove. injection Hmove as <-.
  rewrite run_bind, Hrun. cbn [m_position] in IH.
  specialize (IH B' (pre ++ run) _ tl Hord' Hsized Hasc Hfind').
  cbn [B' m_blocks m_begin m_end m_position] in IH, Hplace'.
  change (end_position DATA_SIZE B') with (end_position DATA_SIZE B) in IH.
  change (contents DATA_SIZE B') with (contents DATA_SIZE B) in IH.
  specialize (IH ltac:(lia) ltac:(lia)).
  rewrite run_bind.
  destruct (decide (n = 0 ∨ S (m_position it) + n ≤ DATA_SIZE)) as [Hok|Hbad].
  - rewrite decide_True by (right; lia).
    destruct IH as (l & pre' & it'' & post' & -> & Hfind'' & Hsame).
    exists l, pre', it'', post'. split; [|split; [done|]].
    + cbn -[place contents take drop mret]. unfold mret, ST_ret. do 2 f_equal.
      assert (contents DATA_SIZE B
                !! (place DATA_SIZE (m_blocks B) it - m_begin B) = Some c) as Hcc.
      { unfold contents. fold (storage (m_blocks B)).
        rewrite lookup_take_lt by lia. rewrite lookup_drop. rewrite <- Hc. f_equal. lia. }
      rewrite (drop_S _ _ _ Hcc). cbn [take]. f_equal.
      rewrite Hplace'. do 2 f_equal. lia.
    + by rewrite Hsame, Hpost, (assoc_L (++)).
  - rewrite decide_False by lia.
    destruct (push_back_chars DATA_SIZE n tmp (a, B')) as [[cs|f] s']; cbn in IH |- *;
      congruence.
Qed.

(** UserTupleValueReader::Value reads a string of the buffer byte by byte
    through [*tmp] and [++tmp].  After [tmp += v.offset] the iterator
    stands [v.offset] bytes on, at the end of a block rather than at the
    start of the next.  The characters appended are the [v.size] bytes of
    the buffer from there, and the buffer is left as it was, if they lie
    in the block the iterator stands in; if they do not, [*tmp] is applied
    to an iterator that stands at the end of its block, and reads behind
    it. *)
Theorem Value_reads_string (a : A) B itr tmp offset size pre it post :
  orderly DATA_SIZE B → sized DATA_SIZE (m_blocks B) → ascending (m_blocks B) →
  find_iter itr (m_iterators B) = Some (pre, it, post) →
  tmp ∉ self <$> m_iterators B →
  let p := place DATA_SIZE (m_blocks B) it in
  m_begin B ≤ p → p + offset + size ≤ end_position DATA_SIZE B →
  ∃ j q,
    j * DATA_SIZE + q = p + offset ∧ q ≤ DATA_SIZE ∧
    (0 < offset → 0 < q) ∧ (offset = 0 → q = m_position it) ∧
    if decide (size = 0 ∨ q + size ≤ DATA_SIZE)
    then Value_StrValue DATA_SIZE itr tmp offset size (a, B)
         = (Ok (take size (drop (p + offset - m_begin B) (contents DATA_SIZE B))),
            (a, B))
    else (Value_StrValue DATA_SIZE itr tmp offset size (a, B)).1 = Err Undefined.
Proof.
  intros Hord Hsized Hasc Hfind Htmp p Hbegin Hfit.
  destruct (find_iter_split _ _ _ _ _ Hfind) as (Hl & Hitr & _).
  pose proof (orderly_addrs _ _ Hord) as Hnd.
  set (itc := mkIter tmp (m_block it) (m_position it)).
  set (Bc := mkBuffer (m_blocks B) (pre ++ itc :: it :: post) (m_begin B) (m_end B)).
  assert (iterator_copy itr tmp (a, B) = (Ok itc, (a, Bc))) as Hcopy.
  { unfold iterator_copy, link_before, the_buffer, store, lift.
    unfold mbind, ST_bind, mret, ST_ret. cbn. rewrite Hfind. cbn. done. }
  assert (orderly DATA_SIZE Bc) as Hordc by (by apply orderly_with_copy).
  assert (find_iter tmp (m_iterators Bc) = Some (pre, itc, it :: post)) as Hfindc.
  { cbn. apply find_iter_app; [done|]. apply fresh_name.
    rewrite Hl, fmap_app in Htmp. intros Hin. apply Htmp, elem_of_app. by left. }
  destruct (iterator_advance_returns DATA_SIZE a Bc tmp offset pre itc (it :: post)
              Hordc Hasc Hfindc)
    as (it1 & run & tl & Hpost & Hself & Hplace1 & Hrun & Hfind1 & Hord1).
  { change (place DATA_SIZE (m_blocks Bc) itc) with p.
    change (end_position DATA_SIZE Bc) with (end_position DATA_SIZE B). lia. }
  cbn zeta in Hrun, Hfind1, Hord1.
  change (place DATA_SIZE (m_blocks Bc) itc) with p in Hplace1.
  cbn [Bc m_blocks m_begin m_end] in Hrun, Hfind1, Hord1, Hplace1.
  set (B1 := mkBuffer (m_blocks B) (pre ++ run ++ it1 :: tl) (m_begin B) (m_end B)) in *.
  destruct (iterator_advance_spec DATA_SIZE a Bc tmp offset it1 (a, B1) pre itc
              (it :: post) (orderly_names _ _ Hordc) Hfindc Hrun) as (_ & _ & Hmove & _).
  cbn [Bc m_blocks] in Hmove.
  assert (inside DATA_SIZE (m_blocks B) it1) as Hin1.
  { pose proof (orderly_inside _ _ Hord1) as Hall. rewrite Forall_forall in Hall.
    apply Hall. cbn. apply elem_of_app. right. apply elem_of_app. right. by left. }
  destruct (key_inside _ _ _ Hin1) as [Hkey1 Hq].
  exists (key (m_blocks B) it1).1, (m_position it1).
  split; [exact Hplace1|]. split; [exact Hq|].
  split; [intros Hoff; by eapply (moveForward_offset DATA_SIZE)|]. split.
  { intros ->. unfold moveForward in Hmove.
    destruct (locate (m_block itc) (m_blocks B)) as [[bpre suf]|] eqn:Hloc; [|done].
    destruct (locate_split _ _ _ _ Hloc) as (_ & (b & rest & -> & Hb) & _).
    cbn [defined mbind outcome_bind] in Hmove.
    destruct (require _ _); [|done]. cbn [mbind outcome_bind moveForward_in] in Hmove.
    rewrite decide_False in Hmove by lia. cbn in Hmove. injection Hmove as <-.
    cbn. lia. }
  pose proof (push_back_chars_spec a size tmp B1 (pre ++ run) it1 tl Hord1 Hsized Hasc
                Hfind1) as Hloop.
  cbn [B1 m_blocks m_begin] in Hloop.
  change (end_position DATA_SIZE B1) with (end_position DATA_SIZE B) in Hloop.
  change (contents DATA_SIZE B1) with (contents DATA_SIZE B) in Hloop.
  unfold place in Hplace1 at 1. 
  specialize (Hloop ltac:(unfold place; lia) ltac:(unfold place; lia)).
  unfold Value_StrValue. rewrite run_bind, Hcopy, run_bind, Hrun, run_bind.
  case_decide as Hok.
  - destruct Hloop as (l & pre' & it' & post' & -> & Hfind' & Hsame).
    rewrite run_bind, iterator_destroy_run. cbn [m_blocks m_iterators m_begin m_end].
    unfold unlink. rewrite Hfind', Hsame, <- (assoc_L (++)), <- Hpost, <- Hl.
    unfold mret, ST_ret. cbn [B1 m_end]. f_equal; [|by destruct B].
    do 3 f_equal. unfold place. lia.
  - destruct (push_back_chars DATA_SIZE size tmp (a, B1)) as [[cs|f] s']; cbn in Hloop |- *;
      congruence.
Qed.

End ReadingStrings.


(** ** set and get under has *)

Section RoundTripUnderHas.

Variable DATA_SIZE : nat.

Implicit Types (B : Buffer) (suf : list Block).




End RoundTripUnderHas.

(** ** The operations at work *)

Module DemoFacts.

Import Demo.

Ltac decided := apply (bool_decide_unpack _); vm_compute; exact I.

Lemma decodeResponse_keeps_size d B r :
  size (decodeResponse d B r).1.2 = size r.
Proof. unfold decodeResponse. repeat case_match; done. Qed.

(** The ids of freshly allocated blocks are what the chunks held: with a
    recycled pool, begin() does not compare less than end(). *)
Example stale_ids_disorder :
  (_ ← appendBack DATA_SIZE 9 1;
   _ ← end_ 2;
   B ← the_buffer;
   lift (iter_lt (m_blocks B) (mkIter 1 1 0) (mkIter 2 2 1))) (recycled, Buffer_new)
  = (Ok false,
     ([], mkBuffer recycled [mkIter 1 1 0; mkIter 2 2 1] 0 1)).
Proof. reflexivity. Qed.

(** C1, at a connection that has decoded the response to request 7. *)
Lemma getResponse_delivers_once_witness :
  let c := decoded "007" in
  futureIsReady c 7 = true ∧
  ∃ r, futures c !! 7%N = Some r ∧
       let c' := with_futures c (delete 7%N (futures c)) in
       getResponse 7 (pool 0, c) = (Ok r, (pool 0, c')) ∧
       futureIsReady c' 7 = false ∧
       getResponse 7 (pool 0, c') = (Err Aborted, (pool 0, c')).
Proof.
  cbn zeta. split; [vm_compute; reflexivity|].
  apply (getResponse_delivers_once (pool 0) (decoded "007") 7%N).
  vm_compute; reflexivity.
Defined.

(** C2: two iterators at one position follow each other in the iterator
    list and neither compares less than the other. *)
Lemma equal_iterators_follow_each_other :
  let B := buffer_after 1 two_at_begin in
  let a := mkIter 2 1 0 in
  let b := mkIter 1 1 0 in
  m_iterators B = [a; b] ∧
  position DATA_SIZE (m_blocks B) a = position DATA_SIZE (m_blocks B) b ∧
  ¬ (iter_lt (m_blocks B) a b = Ok true ↔ precedes (m_iterators B) a b).
Proof.
  cbn zeta. split; [by vm_compute|]. split; [by vm_compute|].
  intros [_ Hlt].
  assert (iter_lt (m_blocks (buffer_after 1 two_at_begin))
                  (mkIter 2 1 0) (mkIter 1 1 0) = Ok false) as Hfalse
    by (by vm_compute).
  rewrite Hfalse in Hlt. enough (Ok false = Ok true) by done.
  apply Hlt. exists 0, 1. vm_compute. auto.
Qed.

(** C2, amended, at a run from the empty buffer through all the
    operations. *)
Lemma iterator_list_kept_sorted_witness :
  orderly DATA_SIZE Buffer_new ∧
  buffer_steps DATA_SIZE (pool 4, Buffer_new) in_order in_order_end ∧
  m_iterators in_order_end.2 = [mkIter 3 2 2; mkIter 2 2 2; mkIter 4 2 2] ∧
  orderly DATA_SIZE in_order_end.2.
Proof.
  assert (orderly DATA_SIZE Buffer_new) as Hord
    by (split; cbn; try constructor; lia).
  assert (buffer_steps DATA_SIZE (pool 4, Buffer_new) in_order in_order_end) as Hsteps.
  { unfold in_order.
    repeat (eapply steps_next; [decided | vm_compute; reflexivity | decided | ]).
    apply steps_done. }
  split; [exact Hord|]. split; [exact Hsteps|]. split; [reflexivity|].
  apply (iterator_list_kept_sorted DATA_SIZE ltac:(unfold DATA_SIZE; lia)
           (pool 4) Buffer_new in_order in_order_end Hord Hsteps).
Defined.

(** C3.  insert (it, 2) followed by release (it, 2) on the bytes abcdefgh,
    with [it] one byte after begin() and a second iterator at end(): both
    calls return, and the buffer holds aabcdegh. *)
Theorem insert_release_changes_bytes :
  let prog := _ ← full_block_and_end 1;
              _ ← insert DATA_SIZE 1 2 0;
              release DATA_SIZE 1 2 0 in
  (run 4 prog).1 = Ok () ∧
  contents DATA_SIZE (buffer_after 4 (full_block_and_end 1)) = abcdefgh ∧
  contents DATA_SIZE (buffer_after 4 prog)
  = ["a"; "a"; "b"; "c"; "d"; "e"; "g"; "h"]%byte.
Proof. vm_compute. done. Qed.

(** C4.  insert (it, 2) on the bytes abcdefgh, with [it] one byte after
    begin() and a second iterator at end(): the call returns and the buffer
    holds abcabcdegh, so that two bytes after the position of [it] come
    abcdegh and not bcdefgh.  With [it] the only iterator, insert (it, 2)
    moves [it] itself from offset 1 to offset 3. *)
Theorem insert_copies_from_block_start :
  let prog := _ ← full_block_and_end 1; insert DATA_SIZE 1 2 0 in
  (run 4 prog).1 = Ok () ∧
  contents DATA_SIZE (buffer_after 4 (full_block_and_end 1)) = abcdefgh ∧
  contents DATA_SIZE (buffer_after 4 prog)
  = ["a"; "b"; "c"; "a"; "b"; "c"; "d"; "e"; "g"; "h"]%byte ∧
  m_iterators (buffer_after 4 (full_block 1)) = [mkIter 1 1 1] ∧
  m_iterators (buffer_after 4 (_ ← full_block 1; insert DATA_SIZE 1 2 0))
  = [mkIter 1 1 3].
Proof. vm_compute. done. Qed.

(** C5.  In a buffer holding the three bytes abc, with [it] two bytes after
    begin(), one byte remains from [it] to end() and has (it, 3) answers
    true. *)
Theorem has_counts_from_block_start :
  let B := buffer_after 1 three_bytes in
  let it := mkIter 1 1 2 in
  m_iterators B = [it] ∧
  remaining DATA_SIZE B it = Some 1 ∧
  has DATA_SIZE B it 3 = Ok true.
Proof. vm_compute. done. Qed.

(** In a buffer holding abcdefgh in its only block, with [it] six bytes
    after begin(), two bytes remain from [it] to end(), has (it, 4) answers
    true, and set (it, wxyz, 4) goes on behind the last block: the C++
    takes the head of the block list for the next block, and the model
    stops. *)
Theorem set_runs_past_last_block :
  let B := buffer_after 1 (full_block 6) in
  let it := mkIter 1 1 6 in
  m_iterators B = [it] ∧
  remaining DATA_SIZE B it = Some 2 ∧
  has DATA_SIZE B it 4 = Ok true ∧
  set DATA_SIZE B it ["w"; "x"; "y"; "z"]%byte = Err Undefined.
Proof. vm_compute. done. Qed.

(** C7, at an empty buffer and a pool of one chunk, for nine bytes: two
    blocks are needed, the second allocation fails, and the pool and the
    buffer are as before. *)
Lemma appendBack_transactional_witness :
  0 < DATA_SIZE ∧ 9 ≠ 0 ∧ m_end Buffer_new ≤ DATA_SIZE ∧
  appendBack DATA_SIZE 9 1 (pool 1, Buffer_new)
  = (Err BadAlloc, (pool 1, Buffer_new)).
Proof.
  assert (0 < DATA_SIZE) as Hpos by (vm_compute; lia).
  assert (9 ≠ 0) as Hsize by lia.
  assert (m_end Buffer_new ≤ DATA_SIZE) as Hend by (vm_compute; lia).
  repeat (split; [assumption|]).
  exact (proj2 (appendBack_transactional DATA_SIZE Hpos (pool 1) Buffer_new 9 1
                  Hsize Hend)).
Defined.

(** C8: a complete, well-formed frame decoded with a [result] pointer is not
    inserted in the futures. *)
Lemma result_pointer_bypasses_futures :
  let r := processResponse true (pool 0, received (pong "007") ∅) in
  r.1 = Ok (DECODE_SUCC, Some (mkResponse (mkHeader 7 0 0) () 13)) ∧
  futureIsReady r.2.2 7 = false.
Proof. by vm_compute. Qed.

(** C8, amended, at a connection that has received one pong. *)
Lemma processResponse_protocol_witness :
  let c := received (pong "007") ∅ in
  (∀ d B r, size (decodeResponse d B r).1.2 = size r) ∧
  endDecoded_iterator c = Ok (mkIter 1 1 0) ∧
  orderly DATA_SIZE (inBuf c) ∧ ascending (m_blocks (inBuf c)) ∧
  (processResponse false (pool 0, c)).1 = Ok (DECODE_SUCC, None).
Proof.
  cbn zeta.
  assert (endDecoded_iterator (received (pong "007") ∅) = Ok (mkIter 1 1 0)) as Hitr
    by (vm_compute; reflexivity).
  assert (orderly DATA_SIZE (inBuf (received (pong "007") ∅))) as Hord
    by (split; [decided | vm_compute; lia | decided..]).
  assert (ascending (m_blocks (inBuf (received (pong "007") ∅)))) as Hasc by decided.
  split; [exact decodeResponse_keeps_size|].
  repeat (split; [assumption|]).
  destruct (processResponse_protocol DATA_SIZE Response_new decodeResponseSize
              decodeResponse reset flush decodeResponse_keeps_size (pool 0)
              (received (pong "007") ∅) false (mkIter 1 1 0) Hitr)
    as (_ & _ & _ & Hframe).
  edestruct Hframe as (it' & B' & _ & _ & _ & _ & _ & _ & Hsucc);
    [vm_compute; reflexivity | vm_compute; discriminate
    | vm_compute; reflexivity | exact Hord | exact Hasc | vm_compute; lia |].
  unfold processResponse, Conn.
  rewrite Hsucc; [reflexivity | vm_compute; reflexivity].
Defined.

(** C9: with room for one entry and two blocks to describe, getIOV covers
    8 of the 9 bytes from [it] to end(): the lengths do not sum to the
    bytes that remain. *)
Lemma getIOV_stops_at_max_size :
  let B := buffer_after 2 nine_bytes in
  let it := mkIter 1 1 0 in
  m_iterators B = [it] ∧
  remaining DATA_SIZE B it = Some 9 ∧
  (∃ vecs, getIOV DATA_SIZE B it 1 = Ok vecs ∧ length vecs = 1 ∧
           total_len vecs = 8%Z) ∧
  ¬ (∃ vecs n, getIOV DATA_SIZE B it 1 = Ok vecs ∧
               remaining DATA_SIZE B it = Some n ∧
               total_len vecs = Z.of_nat n).
Proof.
  cbn zeta. split; [by vm_compute|]. split; [by vm_compute|]. split.
  - eexists. by vm_compute.
  - intros (vecs & n & Hvecs & Hn & Htotal).
    vm_compute in Hvecs, Hn. injection Hvecs as <-. injection Hn as <-.
    vm_compute in Htotal. discriminate.
Qed.

(** C9, amended, at begin() of a buffer of nine bytes with room for 32
    entries. *)
Lemma getIOV_describes_blocks_witness :
  let B := buffer_after 2 nine_bytes in
  let it := mkIter 1 1 0 in
  (Z.of_nat DATA_SIZE < 2 ^ 64)%Z ∧
  well_formed DATA_SIZE (m_blocks B) ∧
  m_end B ≤ DATA_SIZE ∧
  block_index (m_block it) (m_blocks B) = Some 0 ∧
  m_position it ≤ DATA_SIZE ∧
  (1 = length (m_blocks B) → m_position it ≤ m_end B) ∧
  ∃ vecs n,
    getIOV DATA_SIZE B it 32 = Ok vecs ∧
    length vecs = min 32 (length (m_blocks B) - 0) ∧
    NoDup (iov_base <$> vecs).*1 ∧
    Forall (in_block DATA_SIZE) vecs ∧
    remaining DATA_SIZE B it = Some n ∧
    (total_len vecs ≤ Z.of_nat n)%Z ∧
    (length (m_blocks B) - 0 ≤ 32 → total_len vecs = Z.of_nat n).
Proof.
  cbn zeta.
  assert (Z.of_nat DATA_SIZE < 2 ^ 64)%Z as Hfits by (vm_compute; reflexivity).
  assert (well_formed DATA_SIZE (m_blocks (buffer_after 2 nine_bytes))) as Hwf
    by (unfold well_formed; decided).
  assert (m_end (buffer_after 2 nine_bytes) ≤ DATA_SIZE) as Hend
    by (vm_compute; lia).
  assert (block_index 1 (m_blocks (buffer_after 2 nine_bytes)) = Some 0) as Hidx
    by (vm_compute; reflexivity).
  assert (0 ≤ DATA_SIZE) as Hpos by (vm_compute; lia).
  assert (1 = length (m_blocks (buffer_after 2 nine_bytes)) →
          0 ≤ m_end (buffer_after 2 nine_bytes)) as Hlast by (intros _; lia).
  repeat (split; [assumption|]).
  exact (getIOV_describes_blocks DATA_SIZE Hfits (buffer_after 2 nine_bytes)
           (mkIter 1 1 0) 32 0 Hwf Hend Hidx Hpos Hlast).
Defined.

(** C10, at a connection with ten bytes to send, three of them sent. *)
Lemma drops_guarded_witness :
  let c : Conn := mkConn Buffer_new (buffer_after 4 ten_bytes) (mkIter 2 1 0) 1
                         (mkError "" 0) ∅ 0 in
  0 < 3 ∧
  hasSentBytes DATA_SIZE 3 (pool 0, c)
  = on_outBuf (dropFront DATA_SIZE 3) (pool 0, c).
Proof.
  cbn zeta. split; [lia|].
  destruct (drops_guarded DATA_SIZE
              (pool 0, mkConn Buffer_new (buffer_after 4 ten_bytes) (mkIter 2 1 0) 1
                              (mkError "" 0) ∅ 0 : ConnectionImpl unit iterator) 3)
    as (_ & _ & _ & _ & Hcall & _).
  exact (proj1 (Hcall ltac:(lia))).
Defined.

(** A buffer in order, and the other conditions on a buffer at hand. *)
Ltac orderly_decided := split; decided.
Ltac evaluated := first [reflexivity | decided | orderly_decided].

Lemma block_size_positive : 0 < DATA_SIZE.
Proof. unfold DATA_SIZE. lia. Qed.

(** get of six bytes over the end of the first block of "abcdefghij". *)
Lemma get_reads_contents_witness :
  let B := buffer_after 4 ten_bytes in
  get DATA_SIZE B (mkIter 0 1 3) 6
  = Ok (take 6 (drop (3 - m_begin B) (contents DATA_SIZE B))).
Proof.
  apply (get_reads_contents DATA_SIZE (buffer_after 4 ten_bytes) (mkIter 0 1 3) 6 3);
    evaluated.
Defined.

(** set of four bytes over the end of the first block of "abcdefghij". *)
Lemma set_writes_contents_witness :
  let B := buffer_after 4 ten_bytes in
  let buf := ["W"; "X"; "Y"; "Z"]%byte in
  ∃ B', set DATA_SIZE B (mkIter 0 1 6) buf = Ok B' ∧
        contents DATA_SIZE B'
        = take (6 - m_begin B) (contents DATA_SIZE B) ++ buf
          ++ drop (6 - m_begin B + length buf) (contents DATA_SIZE B) ∧
        addr <$> m_blocks B' = addr <$> m_blocks B ∧
        id <$> m_blocks B' = id <$> m_blocks B ∧
        sized DATA_SIZE (m_blocks B') ∧
        m_iterators B' = m_iterators B ∧
        m_begin B' = m_begin B ∧ m_end B' = m_end B.
Proof.
  apply (set_writes_contents DATA_SIZE (buffer_after 4 ten_bytes) (mkIter 0 1 6)
           ["W"; "X"; "Y"; "Z"]%byte 6); evaluated.
Defined.

(** An object of two bytes inside the first block of "abcdefghij". *)
Lemma object_path_agrees_witness :
  let B := buffer_after 4 ten_bytes in
  let itr := mkIter 0 1 3 in
  let t := ["W"; "X"]%byte in
  set_object DATA_SIZE B itr t = set DATA_SIZE B itr t ∧
  get_object DATA_SIZE B itr 2 = get DATA_SIZE B itr 2.
Proof.
  apply (object_path_agrees DATA_SIZE (buffer_after 4 ten_bytes) (mkIter 0 1 3)
           ["W"; "X"]%byte 2); evaluated.
Defined.

(** dropFront of nine of the bytes "abcdefghij", with end() alone: the
    first block goes. *)
Lemma dropFront_drops_prefix_witness :
  let s := (run 4 ten_bytes_and_end).2 in
  ∃ a' B', dropFront DATA_SIZE 9 s = (Ok tt, (a', B')) ∧
           contents DATA_SIZE B' = drop 9 (contents DATA_SIZE s.2) ∧
           m_iterators B' = m_iterators s.2 ∧ m_blocks B' ≠ [] ∧
           orderly DATA_SIZE B' ∧ sized DATA_SIZE (m_blocks B').
Proof.
  apply (dropFront_drops_prefix DATA_SIZE (run 4 ten_bytes_and_end).2.1
           (run 4 ten_bytes_and_end).2.2 9); evaluated.
Defined.

(** dropBack of two of seventeen bytes, with begin() alone: the third
    block goes. *)
Lemma dropBack_drops_suffix_witness :
  let s := (run 4 seventeen_bytes).2 in
  ∃ a' B', dropBack DATA_SIZE 2 s = (Ok tt, (a', B')) ∧
           contents DATA_SIZE B'
           = take (length (contents DATA_SIZE s.2) - 2) (contents DATA_SIZE s.2) ∧
           m_iterators B' = m_iterators s.2 ∧ m_begin B' = m_begin s.2 ∧
           m_blocks B' ≠ [] ∧ m_end B' < DATA_SIZE ∧
           end_position DATA_SIZE B' + 2 = end_position DATA_SIZE s.2 ∧
           orderly DATA_SIZE B' ∧ sized DATA_SIZE (m_blocks B').
Proof.
  apply (dropBack_drops_suffix DATA_SIZE (run 4 seventeen_bytes).2.1
           (run 4 seventeen_bytes).2.2 2); try evaluated.
  intros it i Hlast Hindex. right.
  injection Hlast as <-. injection Hindex as <-. vm_compute. lia.
Defined.

(** dropBack of two of nine bytes, with begin() alone: the second block
    goes, and the iterator in the first block is taken to stand in it. *)
Lemma dropBack_asserts_on_block_before_witness :
  (dropBack DATA_SIZE 2 (run 4 nine_bytes).2).1 = Err (AssertFailed NoIteratorInBlock).
Proof.
  apply (dropBack_asserts_on_block_before DATA_SIZE (run 4 nine_bytes).2.1
           (run 4 nine_bytes).2.2 2 (mkIter 1 1 0) 0); evaluated.
Defined.

(** appendBack of nine bytes after nine bytes: one more block. *)
Lemma appendBack_reserves_witness :
  let s := (run 4 nine_bytes).2 in
  let B := s.2 in
  ∃ itr B' gap,
    appendBack DATA_SIZE 9 7 s = (Ok itr, ([chunk 4], B')) ∧
    contents DATA_SIZE B' = contents DATA_SIZE B ++ gap ∧ length gap = 9 ∧
    get DATA_SIZE B' itr 9 = Ok gap ∧
    self itr = 7 ∧ m_position itr ≤ DATA_SIZE ∧
    position DATA_SIZE (m_blocks B') itr
    = Some (m_begin B' + length (contents DATA_SIZE B)) ∧
    m_iterators B' = m_iterators B ++ [itr] ∧
    sized DATA_SIZE (m_blocks B') ∧ 0 < m_end B' ≤ DATA_SIZE ∧ m_blocks B' ≠ [] ∧
    addr <$> m_blocks B' = (addr <$> m_blocks B) ++ (addr <$> [chunk 3]) ∧
    end_position DATA_SIZE B' = m_begin B' + length (contents DATA_SIZE B) + 9 ∧
    m_begin B' = (if bool_decide (m_blocks B ≠ []) then m_begin B else 0).
Proof.
  apply (appendBack_reserves DATA_SIZE block_size_positive (run 4 nine_bytes).2.1
           (run 4 nine_bytes).2.2 9 7 [chunk 3] [chunk 4]); evaluated.
Defined.

(** addBack of "abcdefgh" after nine bytes. *)
Lemma addBack_appends_witness :
  let s := (run 4 nine_bytes).2 in
  let B := s.2 in
  ∃ B', addBack DATA_SIZE abcdefgh 0 s = (Ok 8, ([chunk 4], B')) ∧
        contents DATA_SIZE B' = contents DATA_SIZE B ++ abcdefgh ∧
        m_iterators B' = m_iterators B ∧
        sized DATA_SIZE (m_blocks B') ∧ 0 < m_end B' ≤ DATA_SIZE ∧ m_blocks B' ≠ [] ∧
        addr <$> m_blocks B' = (addr <$> m_blocks B) ++ (addr <$> [chunk 3]) ∧
        end_position DATA_SIZE B'
        = m_begin B' + length (contents DATA_SIZE B) + length abcdefgh ∧
        m_begin B' = (if bool_decide (m_blocks B ≠ []) then m_begin B else 0).
Proof.
  apply (addBack_appends DATA_SIZE block_size_positive (run 4 nine_bytes).2.1
           (run 4 nine_bytes).2.2 abcdefgh 0 [chunk 3] [chunk 4]); evaluated.
Defined.

(** One byte reserved behind a full block and given back: the block added
    stays, with end() at its start. *)
Lemma appendBack_dropBack_restores_witness :
  let B := full_block_state.2 in
  ∃ a'' B'',
    (_ ← appendBack DATA_SIZE 1 7; _ ← iterator_destroy 7;
     dropBack DATA_SIZE 1) (full_block_state.1, B) = (Ok tt, (a'', B'')) ∧
    contents DATA_SIZE B'' = contents DATA_SIZE B ∧
    m_iterators B'' = m_iterators B ∧
    (m_blocks B ≠ [] → m_begin B'' = m_begin B ∧
                        end_position DATA_SIZE B'' = end_position DATA_SIZE B) ∧
    (m_blocks B = [] → m_begin B'' = 0) ∧
    [chunk 2] ≠ [] ∧
    addr <$> m_blocks B'' = (addr <$> m_blocks B) ++ [2] ∧
    m_end B'' = 0.
Proof.
  apply (appendBack_dropBack_restores DATA_SIZE block_size_positive
           full_block_state.1 full_block_state.2 1 7 [chunk 2] [chunk 3; chunk 4]);
    [evaluated.. | | evaluated | evaluated].
  intros it i Hlast Hindex. right.
  injection Hlast as <-. injection Hindex as <-. vm_compute. lia.
Defined.

(** begin() of "abcdefghij" moved three bytes on, and six bytes read there. *)
Lemma advance_moves_and_reads_witness :
  let s := (run 4 ten_bytes).2 in
  let B := s.2 in
  let it := mkIter 1 1 0 in
  ∃ it' B',
    iterator_advance DATA_SIZE 1 3 s = (Ok it', (s.1, B')) ∧
    self it' = 1 ∧
    position DATA_SIZE (m_blocks B') it'
    = Some (place DATA_SIZE (m_blocks B) it + 3) ∧
    m_iterators B' ≡ₚ it' :: [] ++ [mkIter 2 2 2] ∧
    m_blocks B' = m_blocks B ∧ m_begin B' = m_begin B ∧ m_end B' = m_end B ∧
    get DATA_SIZE B' it' 6
    = Ok (take 6 (drop (place DATA_SIZE (m_blocks B) it - m_begin B + 3)
                       (contents DATA_SIZE B))).
Proof.
  apply (advance_moves_and_reads DATA_SIZE (run 4 ten_bytes).2.1 (run 4 ten_bytes).2.2
           1 3 6 [] (mkIter 1 1 0) [mkIter 2 2 2]); evaluated.
Defined.

(** Twenty more bytes asked of a pool that is used up. *)
Lemma allocation_failure_leaves_buffer_witness :
  let s := (run 2 nine_bytes).2 in
  let B := s.2 in
  let buf := replicate 20 "x"%byte in
  (length buf = 20 → addBack DATA_SIZE buf 0 s = (Err BadAlloc, ([], B))) ∧
  (is_Some (find_iter 1 (m_iterators B)) → m_blocks B ≠ [] →
   insert DATA_SIZE 1 20 0 s = (Err BadAlloc, ([], B)) ∧
   resize DATA_SIZE 1 4 (4 + 20) 0 s = (Err BadAlloc, ([], B))).
Proof.
  apply (allocation_failure_leaves_buffer DATA_SIZE block_size_positive
           (run 2 nine_bytes).2.1 (run 2 nine_bytes).2.2 (replicate 20 "x"%byte)
           1 20 4 0 [] []); evaluated.
Defined.

(** has in the first block of "abcdefghij", seven bytes before end(). *)
Lemma has_sound_off_last_block_witness :
  let B := buffer_after 4 ten_bytes in
  let itr := mkIter 0 1 3 in
  ∃ answer, has DATA_SIZE B itr 4 = Ok answer ∧
            (4 ≤ 7 → answer = true) ∧
            (1 ≠ length (m_blocks B) ∨ m_position itr = 0 →
             answer = bool_decide (4 ≤ 7)).
Proof.
  apply (has_sound_off_last_block DATA_SIZE (buffer_after 4 ten_bytes) (mkIter 0 1 3)
           4 0 7); evaluated.
Defined.

(** The round trip of [buffer_basic] with nine bytes. *)
Lemma fresh_buffer_round_trip_witness :
  let buf := (abcdefgh ++ ["i"])%byte in
  let a' := [chunk 3; chunk 4] in
  ∃ B1 it,
    (_ ← addBack DATA_SIZE buf 0; begin 1) (pool 4, Buffer_new) = (Ok it, (a', B1)) ∧
    empty B1 = false ∧
    get DATA_SIZE B1 it (length buf) = Ok buf ∧
    (∃ a2 B2, (_ ← iterator_destroy 1; dropBack DATA_SIZE (length buf)) (a', B1)
              = (Ok tt, (a2, B2)) ∧ empty B2 = true) ∧
    (∃ a3 B3, (_ ← iterator_destroy 1; dropFront DATA_SIZE (length buf)) (a', B1)
              = (Ok tt, (a3, B3)) ∧ empty B3 = true).
Proof.
  apply (fresh_buffer_round_trip DATA_SIZE block_size_positive (pool 4)
           (abcdefgh ++ ["i"])%byte [chunk 1; chunk 2] [chunk 3; chunk 4]); evaluated.
Defined.

(** All nine bytes of the outbound buffer sent: the data ended inside the
    second block, and nothing is left to send. *)
Lemma sent_everything_witness :
  let B := outBuf sending in
  ∃ a' B',
    hasSentBytes DATA_SIZE (length (contents DATA_SIZE B)) (pool 0, sending)
    = (Ok tt, (a', with_outBuf sending B')) ∧
    contents DATA_SIZE B' = [] ∧
    hasDataToSend (with_outBuf sending B')
    = negb (bool_decide (0 < m_end B ∨ length (m_blocks B) = 1)).
Proof.
  apply (sent_everything DATA_SIZE block_size_positive (pool 0) sending); evaluated.
Defined.

(** addBack on the empty buffer, and the destructor. *)
Lemma chunks_conserved_witness :
  let op := AddBack abcdefgh 0 in
  chunks (run_op DATA_SIZE op (pool 4, Buffer_new)).2 ≡ₚ chunks (pool 4, Buffer_new) ∧
  (Buffer_destroy (pool 4, Buffer_new)).2.1 ≡ₚ m_blocks Buffer_new ++ pool 4 ∧
  m_blocks (Buffer_destroy (pool 4, Buffer_new)).2.2 = [].
Proof.
  apply (chunks_conserved DATA_SIZE block_size_positive (AddBack abcdefgh 0) (pool 4)
           Buffer_new); evaluated.
Defined.

(** The first handle, built where there is no handle and no implementation. *)
Lemma handles_counted_witness :
  let h := mkHandles ∅ ∅ [] in
  ∃ h', run_handle_op (NewConnection 1) h = inr h' ∧ counted h' ∧
        let p := fresh (dom (impls h)) in
        impls h !! p = None ∧ conns h' = <[1 := p]> (conns h) ∧
        impls h' = <[p := mkImpl 1 (-1)]> (impls h) ∧ closed h' = closed h.
Proof.
  apply (handles_counted (mkHandles ∅ ∅ []) (NewConnection 1)); [|reflexivity].
  intros p. cbn. rewrite lookup_empty. reflexivity.
Defined.

(** A connection that has received a pong and decoded nothing of it. *)
Lemma hasDataToDecode_answers_witness :
  let c := received (pong "007") ∅ in
  let B := inBuf c in
  let itr := mkIter 1 1 0 in
  ∃ answer, hasDataToDecode c = Ok answer ∧
            (place DATA_SIZE (m_blocks B) itr < end_position DATA_SIZE B →
             answer = true) ∧
            (answer = false →
             place DATA_SIZE (m_blocks B) itr = end_position DATA_SIZE B) ∧
            (0 < m_end B → 0 < m_position itr →
             answer = bool_decide (place DATA_SIZE (m_blocks B) itr
                                   < end_position DATA_SIZE B)).
Proof.
  apply (hasDataToDecode_answers DATA_SIZE (received (pong "007") ∅) (mkIter 1 1 0));
    evaluated.
Defined.

(** A greeting of 13 bytes received, and no more. *)
Lemma decodeGreeting_takes_greeting_witness :
  let c := received (pong "007") ∅ in
  ∃ itr' B',
    decodeGreeting DATA_SIZE 13 parseGreeting reset [] (pool 0, c)
    = (Ok (0%Z, pong "007"),
       (pool 0, with_dec (with_inBuf c B') (reset (dec c) itr'))) ∧
    endDecoded_iterator (with_inBuf c B') = Ok itr' ∧
    position DATA_SIZE (m_blocks B') itr' = Some (end_position DATA_SIZE B') ∧
    contents DATA_SIZE B' = contents DATA_SIZE (inBuf c) ∧
    hasDataToDecode (with_dec (with_inBuf c B') (reset (dec c) itr')) = Ok false.
Proof.
  exact (decodeGreeting_takes_greeting DATA_SIZE 13 parseGreeting reset (pool 0)
           (received (pong "007") ∅) [] (mkIter 1 1 0)
           ltac:(evaluated) ltac:(evaluated) ltac:(evaluated) ltac:(evaluated)
           ltac:(evaluated) ltac:(evaluated) ltac:(evaluated)).
Defined.

(** A greeting of 8 bytes received, and no more, with end() at the start
    of an empty block behind it. *)
Example decodeGreeting_stops_before_empty_block :
  contents DATA_SIZE (inBuf received_full_block) = abcdefgh ∧
  m_end (inBuf received_full_block) = 0 ∧
  (decodeGreeting DATA_SIZE 8 parseGreeting reset [] (pool 0, received_full_block)).1
  = Err Aborted.
Proof. repeat split; vm_compute; reflexivity. Qed.

(** Two bytes over the end of the first block of "abcdefghij" released,
    with end() behind them. *)
Lemma release_removes_bytes_witness :
  let B := ten_bytes_at_seven.2 in
  let p := place DATA_SIZE (m_blocks B) (mkIter 1 1 7) in
  ∃ a' B',
    release DATA_SIZE 1 2 9 (ten_bytes_at_seven.1, B) = (Ok tt, (a', B')) ∧
    contents DATA_SIZE B'
    = take (p - m_begin B) (contents DATA_SIZE B)
      ++ drop (p - m_begin B + 2) (contents DATA_SIZE B) ∧
    m_begin B' = m_begin B ∧
    end_position DATA_SIZE B' + 2 = end_position DATA_SIZE B ∧
    Forall2 (λ x x', self x' = self x ∧
                     place DATA_SIZE (m_blocks B') x'
                     = if decide (place DATA_SIZE (m_blocks B) x ≤ p)
                       then place DATA_SIZE (m_blocks B) x
                       else place DATA_SIZE (m_blocks B) x - 2)
            (m_iterators B) (m_iterators B') ∧
    orderly DATA_SIZE B' ∧ sized DATA_SIZE (m_blocks B').
Proof.
  apply (release_removes_bytes DATA_SIZE ten_bytes_at_seven.1 ten_bytes_at_seven.2
           1 2 9 [] (mkIter 1 1 7) [mkIter 2 2 2]);
    [evaluated.. | intros y Hlast; left; vm_compute; lia].
Defined.

(** The entries of getIOV from the fourth byte of "abcdefghij" on. *)
Lemma getIOV_gives_contents_witness :
  let B := buffer_after 4 ten_bytes in
  let itr := mkIter 0 1 3 in
  ∃ vecs,
    getIOV DATA_SIZE B itr 4 = Ok vecs ∧
    (0 ≤ total_len vecs)%Z ∧
    concat (iov_bytes (m_blocks B) <$> vecs)
    = take (Z.to_nat (total_len vecs))
           (drop (0 * DATA_SIZE + m_position itr - m_begin B) (contents DATA_SIZE B)) ∧
    (length (m_blocks B) - 0 ≤ 4 →
     concat (iov_bytes (m_blocks B) <$> vecs)
     = drop (0 * DATA_SIZE + m_position itr - m_begin B) (contents DATA_SIZE B)).
Proof.
  apply (getIOV_gives_contents DATA_SIZE ltac:(vm_compute; reflexivity)
           (buffer_after 4 ten_bytes) (mkIter 0 1 3) 4 0); evaluated.
Defined.

(** Nine bytes reserved after nine bytes, three written, six given back. *)
Lemma reserve_write_trim_witness :
  let s := (run 4 nine_bytes).2 in
  let B := s.2 in
  let buf := ["x"; "y"; "z"]%byte in
  ∃ a'' B'',
    (itr ← appendBack DATA_SIZE 9 7;
     B1 ← the_buffer;
     B1' ← lift (set DATA_SIZE B1 itr buf);
     _ ← store B1';
     _ ← iterator_destroy 7;
     dropBack DATA_SIZE (9 - length buf)) s = (Ok tt, (a'', B'')) ∧
    contents DATA_SIZE B'' = contents DATA_SIZE B ++ buf ∧
    m_iterators B'' = m_iterators B ∧
    (m_blocks B ≠ [] →
     m_begin B'' = m_begin B ∧
     end_position DATA_SIZE B'' = end_position DATA_SIZE B + length buf).
Proof.
  apply (reserve_write_trim DATA_SIZE block_size_positive (run 4 nine_bytes).2.1
           (run 4 nine_bytes).2.2 9 ["x"; "y"; "z"]%byte 7 [chunk 3] [chunk 4]);
    try evaluated.
  intros it i Hlast Hindex. right.
  injection Hlast as <-. injection Hindex as <-. vm_compute. lia.
Defined.

(** A string of three bytes, two bytes after begin() of "abcdefghij". *)
Lemma Value_reads_string_witness :
  let s := (run 4 ten_bytes).2 in
  let B := s.2 in
  let p := place DATA_SIZE (m_blocks B) (mkIter 1 1 0) in
  ∃ j q,
    j * DATA_SIZE + q = p + 2 ∧ q ≤ DATA_SIZE ∧
    (0 < 2 → 0 < q) ∧ (2 = 0 → q = 0) ∧
    if decide (3 = 0 ∨ q + 3 ≤ DATA_SIZE)
    then Value_StrValue DATA_SIZE 1 7 2 3 s
         = (Ok (take 3 (drop (p + 2 - m_begin B) (contents DATA_SIZE B))), (s.1, B))
    else (Value_StrValue DATA_SIZE 1 7 2 3 s).1 = Err Undefined.
Proof.
  apply (Value_reads_string DATA_SIZE (run 4 ten_bytes).2.1 (run 4 ten_bytes).2.2
           1 7 2 3 [] (mkIter 1 1 0) [mkIter 2 2 2]); evaluated.
Defined.


End DemoFacts.
